(** * A shallow embedding of the editor core

    The development follows the sources of the editor:
    - [EditorMachine]  : the xstate machine [editorMachine] that drives an
                         AI suggestion session;
    - [PM]             : the part of the rich-text toolkit (document tree,
                         positions, replace steps) that the editor code calls;
    - [SlashCommand]   : the plugin of [slash-command.ts];
    - [InputRules]     : [buildInputRules] and the rule runner;
    - [BlockCommands]  : [getBlockRange], [moveBlockUp], [deleteBlock];
    - [Editor]         : the streaming effect, [jsonToNodes], [handleReject],
                         [handleModify] of the editor component;
    - [Session]        : the machine and the component wired together.

    Strings are JavaScript strings: sequences of UTF-16 code units, so that
    [length] is the [.length] the code computes positions with. *)

From Stdlib Require Import List Arith Lia Bool NArith ZArith String Ascii.
Import ListNotations.

Set Implicit Arguments.
Set Warnings "-register-all".

(* ------------------------------------------------------------------ *)
(** ** JavaScript strings *)

Module JS.

Definition codeunit := N.
Definition jsstring := list codeunit.

(** An ASCII literal as a JavaScript string. *)
Definition lit (s : string) : jsstring :=
  List.map N_of_ascii (list_ascii_of_string s).
Arguments lit s%_string.

Fixpoint eqb (a b : jsstring) : bool :=
  match a, b with
  | [], [] => true
  | x :: a', y :: b' => N.eqb x y && eqb a' b'
  | _, _ => false
  end.

(** [a === "s"] for a literal. *)
Definition eqlit (a : jsstring) (s : string) : bool := eqb a (lit s).
Arguments eqlit a s%_string.

(** [s.startsWith(p)] *)
Fixpoint startsWith (p s : jsstring) : bool :=
  match p, s with
  | [], _ => true
  | x :: p', y :: s' => N.eqb x y && startsWith p' s'
  | _ :: _, [] => false
  end.

(** [s.endsWith(p)] *)
Definition endsWith (p s : jsstring) : bool :=
  startsWith (rev p) (rev s).

(** [s.slice(i)] and [s.slice(i, j)] for in-range, non-negative indexes. *)
Definition slice (i : nat) (s : jsstring) : jsstring := skipn i s.
Definition slice2 (i j : nat) (s : jsstring) : jsstring := firstn (j - i) (skipn i s).

(** [s.indexOf(p)]: the first index at which [p] occurs. *)
Fixpoint indexOf (p s : jsstring) : option nat :=
  if startsWith p s then Some 0
  else match s with
       | [] => None
       | _ :: s' => option_map S (indexOf p s')
       end.

(** [s.lastIndexOf(p)]: the last index at which [p] occurs. *)
Fixpoint lastIndexOf (p s : jsstring) : option nat :=
  match s with
  | [] => if startsWith p s then Some 0 else None
  | _ :: s' =>
      match lastIndexOf p s' with
      | Some i => Some (S i)
      | None => if startsWith p s then Some 0 else None
      end
  end.

(** [s.includes(p)] *)
Definition includes (p s : jsstring) : bool :=
  match indexOf p s with Some _ => true | None => false end.

(** White space and line terminators, as [String.prototype.trim] and the
    regular-expression class [\s] read them. *)
Definition isWhiteSpace (c : codeunit) : bool :=
  existsb (N.eqb c)
    [9; 10; 11; 12; 13; 32; 160; 5760; 8192; 8193; 8194; 8195; 8196; 8197;
     8198; 8199; 8200; 8201; 8202; 8232; 8233; 8239; 8287; 12288; 65279]%N.

Fixpoint trimStart (s : jsstring) : jsstring :=
  match s with
  | c :: s' => if isWhiteSpace c then trimStart s' else s
  | [] => []
  end.

Definition trimEnd (s : jsstring) : jsstring := rev (trimStart (rev s)).

(** [s.trim()] *)
Definition trim (s : jsstring) : jsstring := trimEnd (trimStart s).

(** [s.replace(/\r/g, "")] *)
Definition removeCR (s : jsstring) : jsstring :=
  filter (fun c => negb (N.eqb c 13)) s.

End JS.

Import JS.

(* ------------------------------------------------------------------ *)
(** ** The AI session machine ([editorMachine]) *)

Module EditorMachine.

Inductive WritingTone :=
  professional | tone_casual | tone_formal | friendly | creative | academic.

Inductive ContinuationLength := short | medium | long.

Inductive ModifyAction :=
  shorten | expand | rephrase | formal | casual | summarize | improve | brainstorm.

Record EditorContext := {
  textBefore : jsstring;
  textAfter : jsstring;
  currentBlockType : jsstring;
  isInList : bool;
  isInCode : bool;
  recentContext : jsstring;
  documentTitle : option jsstring
}.

Record Context := {
  generatedText : jsstring;
  pendingSuggestion : jsstring;
  error : option jsstring;
  selectedText : jsstring
}.

(** The events of the machine.  [AI_ERROR] carries [String(event.error)], the
    text the machine stores. *)
Inductive Event :=
| GENERATE (currentText : jsstring) (tone : WritingTone)
           (editorContext : option EditorContext) (length : option ContinuationLength)
| GENERATE_WITH_ACTION (selected : jsstring) (action : ModifyAction)
                       (editorContext : option EditorContext)
| AI_CHUNK (chunk : jsstring)
| AI_DONE
| AI_ERROR (err : jsstring)
| STOP
| ACCEPT
| REJECT
| MODIFY (action : ModifyAction).

Inductive StateValue := idle | streaming | pending | modifying.

(** The child actor a state invokes, with the input it was started with. *)
Inductive Invocation :=
| streamingAI (text : jsstring) (tone : WritingTone)
              (editorContext : option EditorContext) (length : option ContinuationLength)
| modifyingAI (text : jsstring) (action : option ModifyAction)
              (editorContext : option EditorContext).

Record Snapshot := {
  value : StateValue;
  context : Context;
  (** the running invoked actor: started on entry of [streaming] or
      [modifying], stopped (its [cancelled] flag set) on exit *)
  invoked : option Invocation
}.

Definition initialContext : Context :=
  {| generatedText := []; pendingSuggestion := []; error := None; selectedText := [] |}.

Definition initial : Snapshot :=
  {| value := idle; context := initialContext; invoked := None |}.

(** [a || b] on strings: the empty string is falsy. *)
Definition orElse (a b : jsstring) : jsstring :=
  match a with [] => b | _ => a end.

(** The input of the actor invoked on entry of [streaming]. *)
Definition streamingInput (e : Event) : Invocation :=
  match e with
  | GENERATE t tone ec len => streamingAI t tone ec len
  | _ => streamingAI [] professional None None
  end.

(** The input of the actor invoked on entry of [modifying]: the text is
    [context.pendingSuggestion || context.selectedText]. *)
Definition modifyingInput (c : Context) (e : Event) : Invocation :=
  let t := orElse (pendingSuggestion c) (selectedText c) in
  match e with
  | GENERATE_WITH_ACTION _ a ec => modifyingAI t (Some a) ec
  | MODIFY a => modifyingAI t (Some a) None
  | _ => modifyingAI t None None
  end.

(** One macrostep.  An event with no handler in the current state is dropped:
    the snapshot is returned as it is. *)
Definition transition (s : Snapshot) (e : Event) : Snapshot :=
  let c := context s in
  match value s, e with
  | idle, GENERATE _ _ _ _ =>
      let c' := {| generatedText := []; pendingSuggestion := []; error := None;
                   selectedText := selectedText c |} in
      {| value := streaming; context := c'; invoked := Some (streamingInput e) |}
  | idle, GENERATE_WITH_ACTION sel _ _ =>
      let c' := {| generatedText := []; pendingSuggestion := []; error := None;
                   selectedText := sel |} in
      {| value := modifying; context := c'; invoked := Some (modifyingInput c' e) |}
  | streaming, AI_CHUNK chunk =>
      {| value := streaming;
         context := {| generatedText := generatedText c ++ chunk;
                       pendingSuggestion := pendingSuggestion c;
                       error := error c; selectedText := selectedText c |};
         invoked := invoked s |}
  | streaming, AI_DONE =>
      {| value := pending;
         context := {| generatedText := generatedText c;
                       pendingSuggestion := generatedText c;
                       error := error c; selectedText := selectedText c |};
         invoked := None |}
  | streaming, AI_ERROR err =>
      {| value := idle;
         context := {| generatedText := generatedText c;
                       pendingSuggestion := pendingSuggestion c;
                       error := Some err; selectedText := selectedText c |};
         invoked := None |}
  | streaming, STOP =>
      {| value := idle; context := c; invoked := None |}
  | pending, ACCEPT =>
      {| value := idle;
         context := {| generatedText := []; pendingSuggestion := [];
                       error := error c; selectedText := selectedText c |};
         invoked := None |}
  | pending, REJECT =>
      {| value := idle;
         context := {| generatedText := []; pendingSuggestion := [];
                       error := error c; selectedText := selectedText c |};
         invoked := None |}
  | pending, MODIFY _ =>
      let c' := {| generatedText := []; pendingSuggestion := pendingSuggestion c;
                   error := error c; selectedText := selectedText c |} in
      {| value := modifying; context := c'; invoked := Some (modifyingInput c' e) |}
  | modifying, AI_CHUNK chunk =>
      {| value := modifying;
         context := {| generatedText := generatedText c ++ chunk;
                       pendingSuggestion := pendingSuggestion c;
                       error := error c; selectedText := selectedText c |};
         invoked := invoked s |}
  | modifying, AI_DONE =>
      {| value := pending;
         context := {| generatedText := generatedText c;
                       pendingSuggestion := generatedText c;
                       error := error c; selectedText := selectedText c |};
         invoked := None |}
  | modifying, AI_ERROR err =>
      {| value := pending;
         context := {| generatedText := generatedText c;
                       pendingSuggestion := pendingSuggestion c;
                       error := Some err; selectedText := selectedText c |};
         invoked := None |}
  | modifying, STOP =>
      {| value := pending; context := c; invoked := None |}
  | _, _ => s
  end.

(** A generate request: either of the two events [handleGenerate] sends. *)
Definition isGenerate (e : Event) : bool :=
  match e with
  | GENERATE _ _ _ _ | GENERATE_WITH_ACTION _ _ _ => true
  | _ => false
  end.

(** [hasError] of [useEditorAI]: the error is shown only in [idle]. *)
Definition hasError (s : Snapshot) : bool :=
  match value s, error (context s) with
  | idle, Some (_ :: _) => true
  | _, _ => false
  end.

End EditorMachine.

(* ------------------------------------------------------------------ *)
(** ** JSON values ([JSON.parse] results, node and mark attributes) *)

Module Json.

(** Numbers are carried as integers; an object lists its own properties, each
    key once, as [JSON.parse] builds it. *)
Inductive JSON :=
| JNull
| JBool (b : bool)
| JNum (n : Z)
| JStr (s : jsstring)
| JArr (items : list JSON)
| JObj (fields : list (jsstring * JSON)).

Fixpoint eqb (a b : JSON) {struct a} : bool :=
  match a, b with
  | JNull, JNull => true
  | JBool x, JBool y => Bool.eqb x y
  | JNum x, JNum y => Z.eqb x y
  | JStr x, JStr y => JS.eqb x y
  | JArr xs, JArr ys =>
      (fix go (xs ys : list JSON) {struct xs} : bool :=
         match xs, ys with
         | [], [] => true
         | x :: xs', y :: ys' => eqb x y && go xs' ys'
         | _, _ => false
         end) xs ys
  | JObj xs, JObj ys =>
      (fix go (xs ys : list (jsstring * JSON)) {struct xs} : bool :=
         match xs, ys with
         | [], [] => true
         | (k, x) :: xs', (k', y) :: ys' => JS.eqb k k' && eqb x y && go xs' ys'
         | _, _ => false
         end) xs ys
  | _, _ => false
  end.

(** Own-property lookup: [o[k]], [None] standing for [undefined]. *)
Fixpoint lookup (k : jsstring) (fields : list (jsstring * JSON)) : option JSON :=
  match fields with
  | [] => None
  | (k', v) :: rest => if JS.eqb k k' then Some v else lookup k rest
  end.

(** JavaScript truthiness of a value. *)
Definition truthy (v : JSON) : bool :=
  match v with
  | JNull => false
  | JBool b => b
  | JNum n => negb (Z.eqb n 0)
  | JStr s => match s with [] => false | _ => true end
  | JArr _ | JObj _ => true
  end.

(** Decimal digits of a natural number, least significant digit last. *)
Fixpoint digits (fuel : nat) (n : N) (acc : jsstring) : jsstring :=
  match fuel with
  | O => acc
  | S fuel' =>
      let acc' := (48 + N.modulo n 10)%N :: acc in
      if (n <? 10)%N then acc' else digits fuel' (N.div n 10) acc'
  end.

Definition numberToString (n : Z) : jsstring :=
  match n with
  | Z0 => lit "0"
  | Zpos p => digits (S (N.to_nat (N.log2 (Npos p)))) (Npos p) []
  | Zneg p => 45%N :: digits (S (N.to_nat (N.log2 (Npos p)))) (Npos p) []
  end.

(** [String(v)], which is also how a value is read as a property key. *)
Fixpoint toString (v : JSON) : jsstring :=
  match v with
  | JNull => lit "null"
  | JBool true => lit "true"
  | JBool false => lit "false"
  | JNum n => numberToString n
  | JStr s => s
  | JArr items =>
      (fix join (l : list JSON) : jsstring :=
         match l with
         | [] => []
         | [x] => match x with JNull => [] | _ => toString x end
         | x :: ((_ :: _) as rest) =>
             (match x with JNull => [] | _ => toString x end) ++ lit "," ++ join rest
         end) items
  | JObj _ => lit "[object Object]"
  end.

End Json.

Import Json.

(* ------------------------------------------------------------------ *)
(** ** Errors *)

(** What a call can throw.  [Unmodelled] is not a JavaScript error: it marks
    a run that reaches a part of the toolkit this development does not
    follow (the search for a fitting placement when a replacement does not
    fit as it stands; wrapping, lifting, joining and retyping steps).  No
    statement below is made about such a run. *)
Inductive Error :=
| RangeError
| TypeError
| TransformError
| Unmodelled.

Inductive result (A : Type) :=
| Ok (a : A)
| Err (e : Error).

Arguments Ok {A} a.
Arguments Err {A} e.

Definition bind {A B} (r : result A) (f : A -> result B) : result B :=
  match r with
  | Ok a => f a
  | Err e => Err e
  end.

Notation "x <- c1 ;; c2" := (bind c1 (fun x => c2))
  (at level 61, c1 at next level, right associativity).
Notation "' pat <- c1 ;; c2" := (bind c1 (fun x => match x with pat => c2 end))
  (at level 61, pat pattern, c1 at next level, right associativity).

(* ------------------------------------------------------------------ *)
(** ** The schema ([editor-config.ts]) *)

Module Schema.

Inductive NodeType :=
| doc | paragraph | text | hard_break | heading | blockquote | code_block
| horizontal_rule | image | bullet_list | ordered_list | list_item
| task_list | task_item | toggle_list | toggle_item | callout.

Inductive MarkType :=
| strong | em | code | underline | strikethrough | link | highlight.

Definition NodeType_eqb (a b : NodeType) : bool :=
  match a, b with
  | doc, doc | paragraph, paragraph | text, text | hard_break, hard_break
  | heading, heading | blockquote, blockquote | code_block, code_block
  | horizontal_rule, horizontal_rule | image, image | bullet_list, bullet_list
  | ordered_list, ordered_list | list_item, list_item | task_list, task_list
  | task_item, task_item | toggle_list, toggle_list | toggle_item, toggle_item
  | callout, callout => true
  | _, _ => false
  end.

Definition MarkType_eqb (a b : MarkType) : bool :=
  match a, b with
  | strong, strong | em, em | code, code | underline, underline
  | strikethrough, strikethrough | link, link | highlight, highlight => true
  | _, _ => false
  end.

(** [schema.nodes[name]] *)
Definition nodes (name : jsstring) : option NodeType :=
  if eqlit name "doc" then Some doc
  else if eqlit name "paragraph" then Some paragraph
  else if eqlit name "text" then Some text
  else if eqlit name "hard_break" then Some hard_break
  else if eqlit name "heading" then Some heading
  else if eqlit name "blockquote" then Some blockquote
  else if eqlit name "code_block" then Some code_block
  else if eqlit name "horizontal_rule" then Some horizontal_rule
  else if eqlit name "image" then Some image
  else if eqlit name "bullet_list" then Some bullet_list
  else if eqlit name "ordered_list" then Some ordered_list
  else if eqlit name "list_item" then Some list_item
  else if eqlit name "task_list" then Some task_list
  else if eqlit name "task_item" then Some task_item
  else if eqlit name "toggle_list" then Some toggle_list
  else if eqlit name "toggle_item" then Some toggle_item
  else if eqlit name "callout" then Some callout
  else None.

(** [schema.marks[name]] *)
Definition marks (name : jsstring) : option MarkType :=
  if eqlit name "strong" then Some strong
  else if eqlit name "em" then Some em
  else if eqlit name "code" then Some code
  else if eqlit name "underline" then Some underline
  else if eqlit name "strikethrough" then Some strikethrough
  else if eqlit name "link" then Some link
  else if eqlit name "highlight" then Some highlight
  else None.

Definition typeName (t : NodeType) : jsstring :=
  lit match t with
      | doc => "doc" | paragraph => "paragraph" | text => "text"
      | hard_break => "hard_break" | heading => "heading"
      | blockquote => "blockquote" | code_block => "code_block"
      | horizontal_rule => "horizontal_rule" | image => "image"
      | bullet_list => "bullet_list" | ordered_list => "ordered_list"
      | list_item => "list_item" | task_list => "task_list"
      | task_item => "task_item" | toggle_list => "toggle_list"
      | toggle_item => "toggle_item" | callout => "callout"
      end%string.

(** A node type with no [content] expression is a leaf. *)
Definition isLeaf (t : NodeType) : bool :=
  match t with
  | text | hard_break | horizontal_rule | image => true
  | _ => false
  end.

Definition isText (t : NodeType) : bool :=
  match t with text => true | _ => false end.

(** [inline: true] or the text type. *)
Definition isInline (t : NodeType) : bool :=
  match t with
  | text | hard_break => true
  | _ => false
  end.

Definition isBlock (t : NodeType) : bool := negb (isInline t).

(** The content expression accepts inline nodes: [inline*] and [text*]. *)
Definition inlineContent (t : NodeType) : bool :=
  match t with
  | paragraph | heading | code_block => true
  | _ => false
  end.

Definition isTextblock (t : NodeType) : bool := isBlock t && inlineContent t.

Definition isAtom (t : NodeType) : bool := isLeaf t.

(** [spec.code] *)
Definition specCode (t : NodeType) : bool :=
  match t with code_block => true | _ => false end.

(** [spec.selectable !== false] *)
Definition selectable (t : NodeType) : bool :=
  match t with hard_break => false | _ => true end.

(** [group: "block"] *)
Definition inGroupBlock (t : NodeType) : bool :=
  match t with
  | paragraph | heading | blockquote | code_block | horizontal_rule | image
  | bullet_list | ordered_list | task_list | toggle_list | callout => true
  | _ => false
  end.

(** [type.contentMatch] run over the children's types to a valid end. *)
Definition oneOrMore (p : NodeType -> bool) (ts : list NodeType) : bool :=
  match ts with [] => false | _ => forallb p ts end.

Definition validContentTypes (t : NodeType) (ts : list NodeType) : bool :=
  match t with
  | doc | blockquote => oneOrMore inGroupBlock ts
  | paragraph | heading => forallb isInline ts
  | code_block => forallb isText ts
  | bullet_list | ordered_list => oneOrMore (NodeType_eqb list_item) ts
  | task_list => oneOrMore (NodeType_eqb task_item) ts
  | toggle_list => oneOrMore (NodeType_eqb toggle_item) ts
  | list_item | task_item | toggle_item | callout =>
      match ts with
      | paragraph :: rest => forallb inGroupBlock rest
      | _ => false
      end
  | text | hard_break | horizontal_rule | image =>
      match ts with [] => true | _ => false end
  end.

(** Which marks the children of a node may carry: all for inline content,
    none under [code_block] ([marks: ""]) and under nodes with block
    content. *)
Definition allowsMarks (t : NodeType) : bool :=
  match t with
  | paragraph | heading => true
  | _ => false
  end.

(** [spec.inclusive !== false] *)
Definition inclusive (m : MarkType) : bool :=
  match m with link => false | _ => true end.

Definition Attrs := list (jsstring * JSON).

(** The attributes a type declares: name and default ([None]: required). *)
Definition nodeAttrSpec (t : NodeType) : list (jsstring * option JSON) :=
  match t with
  | heading => [(lit "level", Some (JNum 1))]
  | code_block => [(lit "language", Some (JStr []))]
  | image => [(lit "src", None); (lit "alt", Some JNull); (lit "title", Some JNull)]
  | ordered_list => [(lit "order", Some (JNum 1))]
  | task_item => [(lit "checked", Some (JBool false))]
  | toggle_item => [(lit "open", Some (JBool true))]
  | callout => [(lit "emoji", Some (JStr [55357; 56481]%N));
                (lit "type", Some (JStr (lit "info")))]
  | _ => []
  end.

Definition markAttrSpec (m : MarkType) : list (jsstring * option JSON) :=
  match m with
  | link => [(lit "href", None); (lit "title", Some JNull);
             (lit "target", Some (JStr (lit "_blank")))]
  | highlight => [(lit "color", Some (JStr (lit "yellow")))]
  | _ => []
  end.

(** [value && value[name]]: [None] stands for [undefined]. *)
Definition given (value : option JSON) (name : jsstring) : option JSON :=
  match value with
  | None => None
  | Some v =>
      if truthy v then
        match v with
        | JObj fields => Json.lookup name fields
        | _ => None
        end
      else Some v
  end.

Fixpoint computeAttrsIn (spec : list (jsstring * option JSON)) (value : option JSON)
  : result Attrs :=
  match spec with
  | [] => Ok []
  | (name, dflt) :: rest =>
      v <- match given value name, dflt with
           | Some v, _ => Ok v
           | None, Some d => Ok d
           | None, None => Err RangeError
           end ;;
      r <- computeAttrsIn rest value ;;
      Ok ((name, v) :: r)
  end.

(** [type.defaultAttrs]: the defaults, when every attribute has one. *)
Fixpoint defaultAttrs (spec : list (jsstring * option JSON)) : option Attrs :=
  match spec with
  | [] => Some []
  | (name, Some d) :: rest => option_map (cons (name, d)) (defaultAttrs rest)
  | (_, None) :: _ => None
  end.

(** [type.computeAttrs(attrs)]: the defaults when no attributes are given
    and every one has a default; else each attribute takes the given value,
    or its default, or the call throws a RangeError. *)
Definition computeAttrs (spec : list (jsstring * option JSON)) (value : option JSON)
  : result Attrs :=
  let falsy := match value with None => true | Some v => negb (truthy v) end in
  match falsy, defaultAttrs spec with
  | true, Some d => Ok d
  | _, _ => computeAttrsIn spec value
  end.

Fixpoint Attrs_eqb (a b : Attrs) : bool :=
  match a, b with
  | [], [] => true
  | (k, x) :: a', (k', y) :: b' => JS.eqb k k' && Json.eqb x y && Attrs_eqb a' b'
  | _, _ => false
  end.

End Schema.

(* ------------------------------------------------------------------ *)
(** ** Documents, positions and replace steps (the toolkit's model) *)

Module PM.

Import Schema.

Record Mark := { mtype : MarkType; mattrs : Attrs }.

Definition Mark_eqb (a b : Mark) : bool :=
  MarkType_eqb (mtype a) (mtype b) && Attrs_eqb (mattrs a) (mattrs b).

(** [Mark.sameSet] *)
Fixpoint sameSet (a b : list Mark) : bool :=
  match a, b with
  | [], [] => true
  | x :: a', y :: b' => Mark_eqb x y && sameSet a' b'
  | _, _ => false
  end.

(** A node is a text node (its text and marks) or an element (its type,
    attributes and children).  Only text carries marks here. *)
Inductive Node :=
| Text (str : jsstring) (marks : list Mark)
| Elem (type : NodeType) (attrs : Attrs) (content : list Node).

Definition nodeType (n : Node) : NodeType :=
  match n with
  | Text _ _ => text
  | Elem t _ _ => t
  end.

Definition nodeMarks (n : Node) : list Mark :=
  match n with
  | Text _ m => m
  | Elem _ _ _ => []
  end.

Definition children (n : Node) : list Node :=
  match n with
  | Text _ _ => []
  | Elem _ _ cs => cs
  end.

Definition childCount (n : Node) : nat := List.length (children n).

Definition nodeIsText (n : Node) : bool :=
  match n with Text _ _ => true | Elem _ _ _ => false end.

(** [node.nodeSize]: a text node counts its code units, a leaf counts 1, any
    other node its content and its two tokens. *)
Fixpoint nodeSize (n : Node) : nat :=
  match n with
  | Text s _ => List.length s
  | Elem t _ cs => if isLeaf t then 1 else 2 + list_sum (List.map nodeSize cs)
  end.

(** [fragment.size] *)
Definition fragSize (cs : list Node) : nat := list_sum (List.map nodeSize cs).

(** [node.content.size] *)
Definition contentSize (n : Node) : nat := fragSize (children n).

(** [node.textContent] *)
Fixpoint textContent (n : Node) : jsstring :=
  match n with
  | Text s _ => s
  | Elem _ _ cs => List.concat (List.map textContent cs)
  end.

(** The loop of [Fragment.cut(from, to)], given how a child straddling an
    end is cut; it is entered when [from < to]. *)
Fixpoint cutWith (cutChild : nat -> nat -> Node -> Node) (from to : nat)
         (l : list Node) (pos : nat) : list Node :=
  match l with
  | [] => []
  | c :: rest =>
      if to <=? pos then []
      else
        let e := pos + nodeSize c in
        (if from <? e then
           [ if (pos <? from) || (to <? e) then
               match c with
               | Text s _ => cutChild (from - pos) (Nat.min (List.length s) (to - pos)) c
               | Elem _ _ cs =>
                   cutChild (from - pos - 1)
                            (Nat.min (list_sum (List.map nodeSize cs)) (to - pos - 1)) c
               end
             else c ]
         else []) ++ cutWith cutChild from to rest e
  end.

(** [node.cut(from, to)] *)
Fixpoint cutNode (from to : nat) (n : Node) : Node :=
  match n with
  | Text s m => Text (slice2 from to s) m
  | Elem t a cs =>
      Elem t a (if from <? to then cutWith cutNode from to cs 0 else [])
  end.

(** [Fragment.cut(from, to)] *)
Definition cut (from to : nat) (cs : list Node) : list Node :=
  if from <? to then cutWith cutNode from to cs 0 else [].

(** [Fragment.append]: the two fragments joined, the text nodes that meet
    merged when they carry the same marks. *)
Definition append (a b : list Node) : list Node :=
  match a, b with
  | _, [] => a
  | [], _ => b
  | _ :: _, first :: brest =>
      match List.last a first, first with
      | Text s m, Text s' m' =>
          if sameSet m m' then removelast a ++ Text (s ++ s') m :: brest
          else a ++ b
      | _, _ => a ++ b
      end
  end.

(** [node.textBetween(from, to, null, leafText)] over the children [l], the
    first of which starts at [pos]. *)
Fixpoint textBetweenWith (inner : nat -> nat -> Node -> jsstring)
         (leafText : jsstring) (from to : nat) (l : list Node) (pos : nat)
  : jsstring :=
  match l with
  | [] => []
  | c :: rest =>
      if to <=? pos then []
      else
        let e := pos + nodeSize c in
        (if from <? e then
           match c with
           | Text s _ => slice2 (Nat.max from pos - pos) (to - pos) s
           | Elem t _ cs =>
               if isLeaf t then leafText
               else inner (from - (pos + 1))
                          (Nat.min (list_sum (List.map nodeSize cs)) (to - (pos + 1))) c
           end
         else []) ++ textBetweenWith inner leafText from to rest e
  end.

Fixpoint textBetweenNode (leafText : jsstring) (from to : nat) (n : Node) : jsstring :=
  match n with
  | Text _ _ => []
  | Elem _ _ cs => textBetweenWith (textBetweenNode leafText) leafText from to cs 0
  end.

Definition textBetween (n : Node) (from to : nat) (leafText : jsstring) : jsstring :=
  textBetweenNode leafText from to n.

(** The object replacement character, the [leafText] the plugins pass. *)
Definition OBJ : jsstring := [65532%N].

(** *** Resolved positions *)

(** One level of [ResolvedPos.path]: the node, the index into it, and the
    position at which the child at that index starts. *)
Record PathEntry := { pnode : Node; pindex : nat; poffset : nat }.

Record ResolvedPos := {
  pos : nat;
  path : list PathEntry;
  parentOffset : nat
}.

(** [Fragment.findIndex] over the children [l] of [n], from the child at
    index [i], which starts at [cur]: the loop ends at the child that holds
    the offset [off], and [ResolvedPos.resolve] goes on below it ([below])
    when the offset lies strictly inside a node that is not text. *)
Fixpoint walkWith (below : Node -> nat -> nat -> list PathEntry * nat)
         (n : Node) (off start : nat) (l : list Node) (i cur : nat)
  : list PathEntry * nat :=
  match l with
  | [] => ([{| pnode := n; pindex := i; poffset := start + cur |}], off)
  | c :: rest =>
      let e := cur + nodeSize c in
      if off =? cur then
        ([{| pnode := n; pindex := i; poffset := start + cur |}], off)
      else if e <? off then walkWith below n off start rest (S i) e
      else if e =? off then
        ([{| pnode := n; pindex := S i; poffset := start + e |}], off)
      else
        let here := {| pnode := n; pindex := i; poffset := start + cur |} in
        match c with
        | Text _ _ => ([here], off)
        | Elem _ _ _ =>
            let '(p, po) := below c (off - cur - 1) (start + cur + 1) in
            (here :: p, po)
        end
  end.

(** The loop of [ResolvedPos.resolve] below the node [n], whose content
    starts at [start]; [off] is the offset into that content. *)
Fixpoint resolveIn (n : Node) (off start : nat) {struct n}
  : list PathEntry * nat :=
  match n with
  | Text _ _ => ([], off)
  | Elem _ _ cs => walkWith resolveIn n off start cs 0 0
  end.

(** [doc.resolve(pos)] *)
Definition resolve (d : Node) (p : nat) : result ResolvedPos :=
  if p <=? contentSize d then
    let '(pth, po) := resolveIn d p 0 in
    Ok {| pos := p; path := pth; parentOffset := po |}
  else Err RangeError.

Definition depth (r : ResolvedPos) : nat := List.length (path r) - 1.

Definition dummyEntry : PathEntry :=
  {| pnode := Elem doc [] []; pindex := 0; poffset := 0 |}.

Definition entry (r : ResolvedPos) (d : nat) : PathEntry :=
  nth d (path r) dummyEntry.

(** [$pos.node(d)], [$pos.index(d)] *)
Definition node (r : ResolvedPos) (d : nat) : Node := pnode (entry r d).
Definition index (r : ResolvedPos) (d : nat) : nat := pindex (entry r d).

(** [$pos.parent] *)
Definition parent (r : ResolvedPos) : Node := node r (depth r).

(** [$pos.textOffset] *)
Definition textOffset (r : ResolvedPos) : nat :=
  pos r - poffset (entry r (depth r)).

(** [$pos.indexAfter(d)] *)
Definition indexAfter (r : ResolvedPos) (d : nat) : nat :=
  index r d + (if (d =? depth r) && (textOffset r =? 0) then 0 else 1).

(** [$pos.start(d)], [$pos.end(d)] *)
Definition start (r : ResolvedPos) (d : nat) : nat :=
  match d with
  | O => 0
  | S d' => poffset (entry r d') + 1
  end.

Definition end_ (r : ResolvedPos) (d : nat) : nat :=
  start r d + contentSize (node r d).

(** [$pos.before(d)], [$pos.after(d)] *)
Definition before (r : ResolvedPos) (d : nat) : result nat :=
  match d with
  | O => Err RangeError
  | S d' => if d =? depth r + 1 then Ok (pos r) else Ok (poffset (entry r d'))
  end.

Definition after (r : ResolvedPos) (d : nat) : result nat :=
  match d with
  | O => Err RangeError
  | S d' =>
      if d =? depth r + 1 then Ok (pos r)
      else Ok (poffset (entry r d') + nodeSize (node r d))
  end.

(** [node.maybeChild(i)] *)
Definition maybeChild (n : Node) (i : nat) : option Node := nth_error (children n) i.

(** [$pos.nodeAfter], [$pos.nodeBefore] *)
Definition nodeAfter (r : ResolvedPos) : option Node :=
  match maybeChild (parent r) (index r (depth r)) with
  | None => None
  | Some child =>
      let dOff := textOffset r in
      if dOff =? 0 then Some child else Some (cutNode dOff (nodeSize child) child)
  end.

Definition nodeBefore (r : ResolvedPos) : option Node :=
  let i := index r (depth r) in
  let dOff := textOffset r in
  if dOff =? 0 then
    match i with
    | O => None
    | S i' => maybeChild (parent r) i'
    end
  else option_map (cutNode 0 dOff) (maybeChild (parent r) i).

(** [doc.nodeAt(pos)] *)
Fixpoint nodeAtIn (n : Node) (p : nat) {struct n} : option Node :=
  match n with
  | Text _ _ => None
  | Elem _ _ cs =>
      (fix walk (l : list Node) (cur : nat) {struct l} : option Node :=
         match l with
         | [] => None
         | c :: rest =>
             let e := cur + nodeSize c in
             if p =? cur then Some c
             else if p <? e then
               match c with
               | Text _ _ => Some c
               | Elem _ _ _ => nodeAtIn c (p - cur - 1)
               end
             else walk rest e
         end) cs 0
  end.

Definition nodeAt (d : Node) (p : nat) : result (option Node) :=
  if p <=? contentSize d then Ok (nodeAtIn d p) else Err RangeError.

(** [Fragment.fromArray]: adjacent text nodes with the same marks are
    joined. *)
Fixpoint fromArrayFrom (prev : option Node) (l : list Node) : list Node :=
  match l with
  | [] => match prev with Some p => [p] | None => [] end
  | n :: rest =>
      match prev, n with
      | Some (Text s m), Text s' m' =>
          if sameSet m m' then fromArrayFrom (Some (Text (s ++ s') m)) rest
          else Text s m :: fromArrayFrom (Some n) rest
      | Some p, _ => p :: fromArrayFrom (Some n) rest
      | None, _ => fromArrayFrom (Some n) rest
      end
  end.

Definition fromArray (l : list Node) : list Node := fromArrayFrom None l.

(** The rank of a mark type: its place in the schema. *)
Definition rank (m : MarkType) : nat :=
  match m with
  | strong => 0 | em => 1 | code => 2 | underline => 3
  | strikethrough => 4 | link => 5 | highlight => 6
  end.

Fixpoint insertByRank (m : Mark) (l : list Mark) : list Mark :=
  match l with
  | [] => [m]
  | x :: rest =>
      if rank (mtype m) <? rank (mtype x) then m :: l
      else x :: insertByRank m rest
  end.

(** [Mark.setFrom(marks)]: the marks sorted by rank, the sort stable. *)
Definition setFrom (l : list Mark) : list Mark :=
  fold_left (fun acc m => insertByRank m acc) l [].

(** [nodeType.create(attrs, content)]; the content is not checked. *)
Definition create (t : NodeType) (attrs : option JSON) (content : list Node)
  : result Node :=
  if isText t then Err RangeError
  else a <- computeAttrs (nodeAttrSpec t) attrs ;; Ok (Elem t a (fromArray content)).

(** [markType.create(attrs)] *)
Definition createMark (m : MarkType) (attrs : option JSON) : result Mark :=
  a <- computeAttrs (markAttrSpec m) attrs ;; Ok {| mtype := m; mattrs := a |}.

(** [schema.text(text, marks)]: an empty text node is refused. *)
Definition schemaText (s : jsstring) (ms : list Mark) : result Node :=
  match s with
  | [] => Err RangeError
  | _ => Ok (Text s (setFrom ms))
  end.

(** *** Replace steps *)

Definition unmarked (n : Node) : bool :=
  match nodeMarks n with [] => true | _ => false end.

(** [type.validContent(fragment)] / [type.checkContent] *)
Definition validContent (t : NodeType) (cs : list Node) : bool :=
  validContentTypes t (List.map nodeType cs)
  && (allowsMarks t || forallb unmarked cs).

(** [node.canReplace(from, to, replacement)] on child indexes. *)
Definition canReplace (n : Node) (from to : nat) (replacement : list Node) : bool :=
  validContentTypes (nodeType n)
    (List.map nodeType (firstn from (children n) ++ replacement ++ skipn to (children n)))
  && (allowsMarks (nodeType n) || forallb unmarked replacement).

(** [fragment.replaceChild(index, node)] *)
Fixpoint replaceChild (i : nat) (c : Node) (l : list Node) : list Node :=
  match l, i with
  | [], _ => []
  | _ :: rest, O => c :: rest
  | x :: rest, S i' => x :: replaceChild i' c rest
  end.

(** [node.copy(content)] *)
Definition copy (n : Node) (cs : list Node) : Node :=
  match n with
  | Text _ _ => n
  | Elem t a _ => Elem t a cs
  end.

(** The outer levels of [replaceOuter]: each ancestor copied with the child
    on the path replaced. *)
Fixpoint rebuild (ancestors : list PathEntry) (inner : Node) : Node :=
  match ancestors with
  | [] => inner
  | e :: rest =>
      copy (pnode e) (replaceChild (pindex e) (rebuild rest inner) (children (pnode e)))
  end.

(** A step map with one range: [start], the size removed, the size put in. *)
Record StepMap := { mstart : nat; oldSize : nat; newSize : nat }.

(** [replaceStep(doc, from, to, new Slice(content, 0, 0))] followed by the
    step's application.  [Ok None]: nothing to do, no step is made.  When
    both ends lie in one parent and the content fits there as it stands
    ([fitsTrivially]) the step is the plain replacement: the parent's
    content cut before [from], the new content, and the parent's content cut
    after [to], the text nodes that meet joined; [checkContent] raises a
    RangeError when the parent does not accept the result.  (For an empty
    [content] the toolkit collects the children on both sides of the range
    one by one, which gives the same list when no two neighbours are text
    with the same marks.)  Otherwise the toolkit searches for a placement
    ([Unmodelled]). *)
Definition replaceStep (d : Node) (from to : nat) (content : list Node)
  : result (option (Node * StepMap)) :=
  if (from =? to) && (fragSize content =? 0) then Ok None
  else
    rf <- resolve d from ;;
    rt <- resolve d to ;;
    let p := parent rf in
    if (start rf (depth rf) =? start rt (depth rt))
       && canReplace p (index rf (depth rf)) (index rt (depth rt)) content
    then
      let cs := children p in
      let content' :=
        append (append (cut 0 (parentOffset rf) cs) content)
               (cut (parentOffset rt) (fragSize cs) cs) in
      if validContent (nodeType p) content' then
        Ok (Some (rebuild (firstn (depth rf) (path rf)) (copy p content'),
                  {| mstart := from; oldSize := to - from; newSize := fragSize content |}))
      else Err RangeError
    else Err Unmodelled.

(** [StepMap.map(pos, assoc)]; [assocBefore] is [assoc < 0].  The second
    component is [MapResult.deleted]. *)
Definition mapStep (m : StepMap) (assocBefore : bool) (p : nat) : nat * bool :=
  if p <? mstart m then (p, false)
  else
    let e := mstart m + oldSize m in
    if p <=? e then
      let sideBefore :=
        if oldSize m =? 0 then assocBefore
        else if p =? mstart m then true
        else if p =? e then false
        else assocBefore in
      let r := mstart m + (if sideBefore then 0 else newSize m) in
      let deleted := if assocBefore then negb (p =? mstart m) else negb (p =? e) in
      (r, deleted)
    else (p + newSize m - oldSize m, false).

(** [Mapping.mapResult(pos, assoc)] *)
Fixpoint mapResult (ms : list StepMap) (assocBefore : bool) (p : nat) : nat * bool :=
  match ms with
  | [] => (p, false)
  | m :: rest =>
      let '(p1, d1) := mapStep m assocBefore p in
      let '(p2, d2) := mapResult rest assocBefore p1 in
      (p2, d1 || d2)
  end.

(** [Mapping.map(pos)], with the default [assoc = 1]. *)
Definition mapPos (ms : list StepMap) (p : nat) : nat := fst (mapResult ms false p).

(** *** Selections *)

Inductive Selection :=
| TextSelection (anchor head : nat)
| NodeSelection (from to : nat)
| AllSelection.

Definition sel_from (s : Selection) : nat :=
  match s with
  | TextSelection a h => Nat.min a h
  | NodeSelection f _ => f
  | AllSelection => 0
  end.

Definition sel_to (d : Node) (s : Selection) : nat :=
  match s with
  | TextSelection a h => Nat.max a h
  | NodeSelection _ t => t
  | AllSelection => contentSize d
  end.

(** [selection.empty] *)
Definition sel_empty (d : Node) (s : Selection) : bool := sel_from s =? sel_to d s.

(** [findSelectionIn(doc, node, pos, index, dir)].  [scanFwd] and [scanBwd]
    are its loop over the children for [dir > 0] and [dir < 0]; the list is
    read left to right in both, [scanBwd] keeping the last hit, which is the
    first one the loop meets reading right to left. *)
Fixpoint findSelectionIn (fwd : bool) (n : Node) (p idx : nat) {struct n}
  : option Selection :=
  match n with
  | Text _ _ => None
  | Elem t _ cs =>
      if inlineContent t then Some (TextSelection p p)
      else if fwd then
        (fix scanFwd (l : list Node) (i cur : nat) {struct l} : option Selection :=
           match l with
           | [] => None
           | c :: rest =>
               if i <? idx then scanFwd rest (S i) cur
               else
                 let here :=
                   if isAtom (nodeType c) then
                     if negb (nodeIsText c) && selectable (nodeType c)
                     then Some (NodeSelection cur (cur + nodeSize c)) else None
                   else findSelectionIn true c (cur + 1) 0 in
                 match here with
                 | Some s => Some s
                 | None => scanFwd rest (S i) (cur + nodeSize c)
                 end
           end) cs 0 p
      else
        (fix scanBwd (l : list Node) (i cur : nat) (found : option Selection)
             {struct l} : option Selection :=
           match l with
           | [] => found
           | c :: rest =>
               if idx <=? i then found
               else
                 let e := cur + nodeSize c in
                 let here :=
                   if isAtom (nodeType c) then
                     if negb (nodeIsText c) && selectable (nodeType c)
                     then Some (NodeSelection cur e) else None
                   else findSelectionIn false c (e - 1) (childCount c) in
                 scanBwd rest (S i) e (match here with Some s => Some s | None => found end)
           end) cs 0 (p - fragSize (firstn idx cs)) None
  end.

(** [Selection.findFrom($pos, dir)] *)
Definition findFrom (r : ResolvedPos) (fwd : bool) : option Selection :=
  let inner :=
    if inlineContent (nodeType (parent r)) then Some (TextSelection (pos r) (pos r))
    else findSelectionIn fwd (parent r) (pos r) (index r (depth r)) in
  match inner with
  | Some s => Some s
  | None =>
      (fix up (k : nat) : option Selection :=
         match k with
         | O => None
         | S d =>
             let found :=
               if fwd then
                 findSelectionIn true (node r d)
                   (poffset (entry r d) + nodeSize (node r (S d))) (index r d + 1)
               else
                 findSelectionIn false (node r d) (poffset (entry r d)) (index r d) in
             match found with
             | Some s => Some s
             | None => up d
             end
         end) (depth r)
  end.

(** [Selection.near($pos)], with the default [bias = 1]. *)
Definition near (r : ResolvedPos) : Selection :=
  match findFrom r true with
  | Some s => s
  | None => match findFrom r false with
            | Some s => s
            | None => AllSelection
            end
  end.

(** [selection.map(doc, mapping)] *)
Definition mapSelection (d : Node) (ms : list StepMap) (s : Selection)
  : result Selection :=
  match s with
  | TextSelection a h =>
      rh <- resolve d (mapPos ms h) ;;
      if negb (inlineContent (nodeType (parent rh))) then Ok (near rh)
      else
        ra <- resolve d (mapPos ms a) ;;
        if inlineContent (nodeType (parent ra))
        then Ok (TextSelection (pos ra) (pos rh))
        else Ok (TextSelection (pos rh) (pos rh))
  | NodeSelection f _ =>
      let '(p, deleted) := mapResult ms false f in
      rp <- resolve d p ;;
      if deleted then Ok (near rp)
      else match nodeAfter rp with
           | Some n => Ok (NodeSelection p (p + nodeSize n))
           | None => Err TypeError
           end
  | AllSelection => Ok AllSelection
  end.

(** [$pos.marks()]: the marks typed text takes at the position. *)
Definition isInSet (m : Mark) (ms : list Mark) : bool := existsb (Mark_eqb m) ms.

Definition marksAt (r : ResolvedPos) : list Mark :=
  let p := parent r in
  let i := index r (depth r) in
  if contentSize p =? 0 then []
  else if negb (textOffset r =? 0) then
    match maybeChild p i with Some c => nodeMarks c | None => [] end
  else
    let main := match i with O => None | S i' => maybeChild p i' end in
    let other := maybeChild p i in
    let '(main, other) := match main with
                          | Some m => (Some m, other)
                          | None => (other, None)
                          end in
    match main with
    | None => []
    | Some m =>
        filter (fun k => inclusive (mtype k)
                         || match other with
                            | Some o => isInSet k (nodeMarks o)
                            | None => false
                            end)
               (nodeMarks m)
    end.

(** [$pos.marksAcross($end)] *)
Definition marksAcross (r e : ResolvedPos) : list Mark :=
  match maybeChild (parent r) (index r (depth r)) with
  | None => []
  | Some a =>
      if negb (isInline (nodeType a)) then []
      else
        let next := maybeChild (parent e) (index e (depth e)) in
        filter (fun k => inclusive (mtype k)
                         || match next with
                            | Some o => isInSet k (nodeMarks o)
                            | None => false
                            end)
               (nodeMarks a)
  end.

End PM.

(* ------------------------------------------------------------------ *)
(** ** Editor state and transactions *)

(** The state of the slash-menu plugin ([SlashMenuState]). *)
Module SlashMenu.

Record SlashMenuState := {
  active : bool;
  query : jsstring;
  from : nat;
  to : nat
}.

Definition closed : SlashMenuState :=
  {| active := false; query := []; from := 0; to := 0 |}.

End SlashMenu.

Module State.

Import Schema PM.
Export SlashMenu.

Record EditorState := {
  doc : Node;
  selection : Selection;
  (** the plugin field of [slashMenuKey] *)
  slashMenu : SlashMenuState
}.

(** A transaction under construction.  [slashMeta] is
    [tr.getMeta(slashMenuKey)]: [None] for [undefined], [Some None] for
    [null]. *)
Record Transaction := {
  tr_doc : Node;
  maps : list StepMap;
  curSelection : Selection;
  curSelectionFor : nat;
  slashMeta : option (option SlashMenuState)
}.

(** [state.tr] *)
Definition tr (st : EditorState) : Transaction :=
  {| tr_doc := doc st; maps := []; curSelection := selection st;
     curSelectionFor := 0; slashMeta := None |}.

Definition docChanged (t : Transaction) : bool :=
  match maps t with [] => false | _ => true end.

(** [tr.selection]: the current selection mapped through the steps made
    since it was set. *)
Definition tr_selection (t : Transaction) : result Selection :=
  if curSelectionFor t <? List.length (maps t)
  then mapSelection (tr_doc t) (skipn (curSelectionFor t) (maps t)) (curSelection t)
  else Ok (curSelection t).

(** [tr.replace(from, to, new Slice(content, 0, 0))] *)
Definition replace (t : Transaction) (from to : nat) (content : list Node)
  : result Transaction :=
  r <- replaceStep (tr_doc t) from to (fromArray content) ;;
  match r with
  | None => Ok t
  | Some (d', m) =>
      Ok {| tr_doc := d'; maps := maps t ++ [m]; curSelection := curSelection t;
            curSelectionFor := curSelectionFor t; slashMeta := slashMeta t |}
  end.

(** [tr.delete(from, to)] *)
Definition delete (t : Transaction) (from to : nat) : result Transaction :=
  replace t from to [].

(** [tr.insert(pos, content)] *)
Definition insert (t : Transaction) (p : nat) (content : list Node) : result Transaction :=
  replace t p p content.

(** [tr.replaceWith(from, to, content)] *)
Definition replaceWith (t : Transaction) (from to : nat) (content : list Node)
  : result Transaction :=
  replace t from to content.

(** [tr.setSelection(selection)] *)
Definition setSelection (t : Transaction) (s : Selection) : Transaction :=
  {| tr_doc := tr_doc t; maps := maps t; curSelection := s;
     curSelectionFor := List.length (maps t); slashMeta := slashMeta t |}.

(** [tr.setMeta(slashMenuKey, value)] *)
Definition setMeta (t : Transaction) (v : option SlashMenuState) : Transaction :=
  {| tr_doc := tr_doc t; maps := maps t; curSelection := curSelection t;
     curSelectionFor := curSelectionFor t; slashMeta := Some v |}.

(** [tr.insertText(text, from, to)] for a non-empty [text], no marks being
    stored: the text takes the marks at [from] (across the range when it is
    not empty) and replaces the range.  When the selection is not empty
    after that, the toolkit goes on to move it, which is not followed. *)
Definition insertText (t : Transaction) (s : jsstring) (from to : nat)
  : result Transaction :=
  rf <- resolve (tr_doc t) from ;;
  rt <- resolve (tr_doc t) to ;;
  n <- schemaText s (if from =? to then marksAt rf else marksAcross rf rt) ;;
  t' <- replace t from to [n] ;;
  sel <- tr_selection t' ;;
  if sel_empty (tr_doc t') sel then Ok t' else Err Unmodelled.

(** [state.apply(tr)], given the [apply] of the plugin. *)
Definition applyWith (plugin : Transaction -> SlashMenuState -> result SlashMenuState)
           (st : EditorState) (t : Transaction) : result EditorState :=
  sel <- tr_selection t ;;
  sm <- plugin t (slashMenu st) ;;
  Ok {| doc := tr_doc t; selection := sel; slashMenu := sm |}.

End State.

(* ------------------------------------------------------------------ *)
(** ** The slash-command plugin ([slash-command.ts]) *)

Module SlashCommand.

Import Schema PM State.

(** [state.apply(tr, prev)] of the plugin.  The [onMenuStateChange] callback
    hands the component a copy of what is returned ([null] when closing). *)
Definition apply (t : Transaction) (prev : SlashMenuState) : result SlashMenuState :=
  match slashMeta t with
  | Some None => Ok closed
  | Some (Some meta) => Ok meta
  | None =>
      if active prev && docChanged t then
        sel <- tr_selection t ;;
        rp <- resolve (tr_doc t) (sel_from sel) ;;
        let textBefore := textBetween (parent rp) 0 (parentOffset rp) OBJ in
        match lastIndexOf (lit "/") textBefore with
        | None => Ok closed
        | Some slashIndex =>
            let q := slice (slashIndex + 1) textBefore in
            if includes (lit " ") q then Ok closed
            else Ok {| active := true; query := q;
                       from := start rp (depth rp) + slashIndex;
                       to := sel_from sel |}
        end
      else if active prev && negb (docChanged t) then
        sel <- tr_selection t ;;
        let cursorFrom := sel_from sel in
        if (cursorFrom <? from prev) || (to prev + 20 <? cursorFrom)
        then Ok closed
        else Ok prev
      else Ok prev
  end.

(** [view.dispatch(tr)] *)
Definition dispatch (st : EditorState) (t : Transaction) : result EditorState :=
  applyWith apply st t.

(** What [handleKeyDown] leaves behind: whether the key was handled, the
    state after any transaction it dispatched, and the position captured
    by the callback it handed to [setTimeout], if any. *)
Record KeyDown := {
  handled : bool;
  after_key : EditorState;
  scheduled : option nat
}.

(** The test on the cursor position made when the key is slash. *)
Definition isValidPosition (r : ResolvedPos) : bool :=
  let textBefore := textBetween (parent r) 0 (parentOffset r) OBJ in
  (parentOffset r =? 0)
  || endsWith (lit " ") textBefore
  || endsWith [10%N] textBefore.

(** [props.handleKeyDown(view, event)], [key] being [event.key]. *)
Definition handleKeyDown (st : EditorState) (key : jsstring) : result KeyDown :=
  sched <-
    (if eqlit key "/" then
       rf <- resolve (doc st) (sel_from (selection st)) ;;
       if isValidPosition rf then Ok (Some (pos rf)) else Ok None
     else Ok None) ;;
  if eqlit key "Escape" && active (slashMenu st) then
    st' <- dispatch st (setMeta (tr st) None) ;;
    Ok {| handled := true; after_key := st'; scheduled := sched |}
  else Ok {| handled := false; after_key := st; scheduled := sched |}.

(** The callback handed to [setTimeout], run on the state of that time. *)
Definition openMenu (from0 : nat) (st : EditorState) : result EditorState :=
  let newState := {| active := true; query := []; from := from0; to := from0 + 1 |} in
  dispatch st (setMeta (tr st) (Some newState)).

(** [closeSlashMenu(view, deleteText)] *)
Definition closeSlashMenu (st : EditorState) (deleteText : bool) : result EditorState :=
  let s := slashMenu st in
  if negb (active s) then Ok st
  else
    let t := setMeta (tr st) None in
    t' <- (if deleteText then delete t (from s) (to s) else Ok t) ;;
    dispatch st t'.

(** [getSlashMenuState(view)] *)
Definition getSlashMenuState (st : EditorState) : option SlashMenuState :=
  if active (slashMenu st) then Some (slashMenu st) else None.

End SlashCommand.

(* ------------------------------------------------------------------ *)
(** ** Regular expressions of the input rules *)

Module Regex.

Inductive re :=
| Empty                          (* matches nothing *)
| Eps                            (* the empty string *)
| Chr (c : codeunit)
| Cls (p : codeunit -> bool)     (* a character class *)
| Seq (a b : re)
| Alt (a b : re)
| Star (a : re).

Fixpoint nullable (r : re) : bool :=
  match r with
  | Empty | Chr _ | Cls _ => false
  | Eps | Star _ => true
  | Seq a b => nullable a && nullable b
  | Alt a b => nullable a || nullable b
  end.

(** Brzozowski derivative *)
Fixpoint deriv (c : codeunit) (r : re) : re :=
  match r with
  | Empty | Eps => Empty
  | Chr c' => if N.eqb c c' then Eps else Empty
  | Cls p => if p c then Eps else Empty
  | Seq a b =>
      if nullable a then Alt (Seq (deriv c a) b) (deriv c b)
      else Seq (deriv c a) b
  | Alt a b => Alt (deriv c a) (deriv c b)
  | Star a => Seq (deriv c a) (Star a)
  end.

(** [r] matches the whole of [s]. *)
Fixpoint matches (r : re) (s : jsstring) : bool :=
  match s with
  | [] => nullable r
  | c :: s' => matches (deriv c r) s'
  end.

Definition Plus (a : re) : re := Seq a (Star a).

Fixpoint Str (s : jsstring) : re :=
  match s with
  | [] => Eps
  | c :: s' => Seq (Chr c) (Str s')
  end.

Fixpoint Rep (n : nat) (a : re) : re :=
  match n with
  | O => Eps
  | S n' => Seq a (Rep n' a)
  end.

(** [\s], [\d], [\w], [[^c]] *)
Definition ws : re := Cls isWhiteSpace.
Definition digit : re := Cls (fun c => (48 <=? c)%N && (c <=? 57)%N).
Definition word : re :=
  Cls (fun c => ((48 <=? c) && (c <=? 57) || (65 <=? c) && (c <=? 90)
                 || (97 <=? c) && (c <=? 122) || (c =? 95))%N).
Definition notChr (x : codeunit) : re := Cls (fun c => negb (N.eqb c x)).
Definition oneOf (s : jsstring) : re := Cls (fun c => existsb (N.eqb c) s).

(** A pattern that ends in [$]: alternatives, each anchored at the start
    ([^], flag [true]) or not, and an optional negative look-behind for one
    character in front of the match. *)
Record Pattern := {
  alts : list (bool * re);
  notAfter : option codeunit
}.

Definition Whole (r : re) : Pattern := {| alts := [(true, r)]; notAfter := None |}.
Definition Ending (r : re) : Pattern := {| alts := [(false, r)]; notAfter := None |}.

Definition matchHere (p : Pattern) (prev : option codeunit) (i : nat) (s : jsstring) : bool :=
  match notAfter p, prev with
  | Some x, Some c => negb (N.eqb c x)
  | _, _ => true
  end
  && existsb (fun a => (negb (fst a) || (i =? 0)) && matches (snd a) s) (alts p).

(** [pattern.exec(s)]: the leftmost match, as its index and its text
    ([match.index], [match[0]]). *)
Fixpoint execFrom (p : Pattern) (prev : option codeunit) (i : nat) (s : jsstring)
  : option (nat * jsstring) :=
  if matchHere p prev i s then Some (i, s)
  else match s with
       | [] => None
       | c :: s' => execFrom p (Some c) (S i) s'
       end.

Definition exec (p : Pattern) (s : jsstring) : option (nat * jsstring) :=
  execFrom p None 0 s.

End Regex.

(* ------------------------------------------------------------------ *)
(** ** Input rules ([buildInputRules] and the rule runner) *)

Module InputRules.

Import Schema PM State Regex.

Definition MAX_MATCH : nat := 500.

(** A rule's handler gets the state, [match[0]], and the range [start],
    [end]; it gives a transaction or [null]. *)
Definition Handler : Type :=
  EditorState -> jsstring -> nat -> nat -> result (option Transaction).

(** Every rule here is built with the default options, so none runs inside
    a code block. *)
Record InputRule := { pattern : Pattern; handler : Handler }.

(** The handlers of the rules made by [wrappingInputRule] and
    [textblockTypeInputRule] build wrapping and retyping steps. *)
Definition toolkitHandler : Handler := fun _ _ _ _ => Err Unmodelled.

(** [stringHandler(string)] of the toolkit, for a pattern without a group
    ([grouped = false]) or whose only group is its last character. *)
Definition stringHandler (str : jsstring) (grouped : bool) : Handler :=
  fun st m0 start0 end0 =>
    if grouped then
      let offset := List.length m0 - 1 in
      let start1 := start0 + offset in
      let cutOff := start1 - end0 in
      if 0 <? cutOff then
        t <- insertText (tr st) (slice2 (offset - cutOff) offset m0 ++ str) end0 end0 ;;
        Ok (Some t)
      else
        t <- insertText (tr st) str start1 end0 ;; Ok (Some t)
    else
      t <- insertText (tr st) str start0 end0 ;; Ok (Some t).

(** The handlers written in [buildInputRules] for block rules: the block
    around [start] is replaced by the nodes made. *)
Definition replaceBlock (mk : result (list Node)) : Handler :=
  fun st _ start0 _ =>
    rs <- resolve (doc st) start0 ;;
    let blockStart := start rs (depth rs) in
    let blockEnd := end_ rs (depth rs) in
    ns <- mk ;;
    match blockStart with
    | O => Err RangeError
    | S before_block =>
        t <- replaceWith (tr st) before_block (blockEnd + 1) ns ;;
        Ok (Some t)
    end.

Definition taskListOf (checked : bool) : result (list Node) :=
  paragraph_ <- create paragraph None [] ;;
  taskItem <- create task_item (Some (JObj [(lit "checked", JBool checked)])) [paragraph_] ;;
  taskList <- create task_list None [taskItem] ;;
  Ok [taskList].

Definition toggleListOf : result (list Node) :=
  paragraph_ <- create paragraph None [] ;;
  toggleItem <- create toggle_item (Some (JObj [(lit "open", JBool true)])) [paragraph_] ;;
  toggleList <- create toggle_list None [toggleItem] ;;
  Ok [toggleList].

Definition ruleAndParagraph : result (list Node) :=
  hr <- create horizontal_rule None [] ;;
  paragraph_ <- create paragraph None [] ;;
  Ok [hr; paragraph_].

Definition calloutOf (emoji : jsstring) (kind : string) : result (list Node) :=
  paragraph_ <- create paragraph None [] ;;
  callout_ <- create callout
                (Some (JObj [(lit "emoji", JStr emoji); (lit "type", JStr (lit kind))]))
                [paragraph_] ;;
  Ok [callout_].

(** The handlers of the inline rules: the matched text is replaced by its
    group, [match[1]], carrying the mark; the group is the match without
    its [n] opening and [n] closing characters. *)
Definition markHandler (m : MarkType) (given : option JSON) (n : nat) : Handler :=
  fun st m0 start0 end0 =>
    let txt := slice2 n (List.length m0 - n) m0 in
    mark <- createMark m given ;;
    t1 <- delete (tr st) start0 end0 ;;
    node_ <- schemaText txt [mark] ;;
    t2 <- insert t1 start0 [node_] ;;
    Ok (Some t2).

(** The code unit of a one-character literal. *)
Definition chr (s : string) : codeunit := hd 0%N (lit s).
Arguments chr s%_string.

Definition delimited (d : jsstring) (x : codeunit) : re :=
  Seq (Str d) (Seq (Plus (notChr x)) (Str d)).

Definition openQuoteClass : re :=
  Alt ws (oneOf (lit "{[(<'" ++ [34; 8216; 8220]%N)).

Definition headingRule (i : nat) : InputRule :=
  {| pattern := Whole (Seq (Rep i (Chr (chr "#"))) ws); handler := toolkitHandler |}.

(** [buildInputRules()]: the rules in the order they are pushed. *)
Definition rules : list InputRule :=
  (* smartQuotes, ellipsis, emDash *)
  [ {| pattern := {| alts := [(true, Chr 34%N); (false, Seq openQuoteClass (Chr 34%N))];
                     notAfter := None |};
       handler := stringHandler [8220%N] true |};
    {| pattern := Ending (Chr 34%N); handler := stringHandler [8221%N] false |};
    {| pattern := {| alts := [(true, Chr 39%N); (false, Seq openQuoteClass (Chr 39%N))];
                     notAfter := None |};
       handler := stringHandler [8216%N] true |};
    {| pattern := Ending (Chr 39%N); handler := stringHandler [8217%N] false |};
    {| pattern := Ending (Str (lit "...")); handler := stringHandler [8230%N] false |};
    {| pattern := Ending (Str (lit "--")); handler := stringHandler [8212%N] false |} ]
  (* headings *)
  ++ List.map headingRule [1; 2; 3; 4; 5; 6]
  ++
  (* task lists come before the bullet list rule *)
  [ {| pattern := Whole (Seq (Chr (chr "-")) (Seq ws (Seq (Chr (chr "["))
                           (Seq ws (Seq (Chr (chr "]")) ws)))));
       handler := replaceBlock (taskListOf false) |};
    {| pattern := Whole (Seq (Chr (chr "-")) (Seq ws (Seq (Chr (chr "["))
                           (Seq (oneOf (lit "xX")) (Seq (Chr (chr "]")) ws)))));
       handler := replaceBlock (taskListOf true) |};
    {| pattern := Whole (Seq (Str (lit ">>")) ws);
       handler := replaceBlock toggleListOf |};
    (* blockquote *)
    {| pattern := Whole (Seq (Star ws) (Seq (Chr (chr ">")) ws));
       handler := toolkitHandler |};
    (* bullet list *)
    {| pattern := Whole (Seq (Star ws) (Seq (oneOf (lit "+*")) ws));
       handler := toolkitHandler |};
    (* ordered list *)
    {| pattern := Whole (Seq (Plus digit) (Seq (Chr (chr ".")) ws));
       handler := toolkitHandler |};
    (* code blocks *)
    {| pattern := Whole (Str (lit "```")); handler := toolkitHandler |};
    {| pattern := Whole (Seq (Str (lit "```")) (Seq (Plus word) ws));
       handler := toolkitHandler |};
    (* horizontal rule *)
    {| pattern := Whole (Seq (Rep 3 (oneOf (lit "-*_")))
                             (Seq (Star (oneOf (lit "-*_"))) ws));
       handler := replaceBlock ruleAndParagraph |};
    (* callouts *)
    {| pattern := Whole (Seq (Str (lit ":::")) ws);
       handler := replaceBlock (calloutOf [55357; 56481]%N "info") |};
    {| pattern := Whole (Seq (Str (lit ":::info")) ws);
       handler := replaceBlock (calloutOf [8505; 65039]%N "info") |};
    {| pattern := Whole (Seq (Str (lit ":::warning")) ws);
       handler := replaceBlock (calloutOf [9888; 65039]%N "warning") |};
    {| pattern := Whole (Seq (Str (lit ":::success")) ws);
       handler := replaceBlock (calloutOf [9989]%N "success") |};
    {| pattern := Whole (Seq (Str (lit ":::error")) ws);
       handler := replaceBlock (calloutOf [10060]%N "error") |};
    (* inline marks *)
    {| pattern := Ending (delimited (lit "**") (chr "*")); handler := markHandler strong None 2 |};
    {| pattern := Ending (delimited (lit "__") (chr "_")); handler := markHandler strong None 2 |};
    {| pattern := {| alts := [(false, delimited (lit "*") (chr "*"))]; notAfter := Some (chr "*") |};
       handler := markHandler em None 1 |};
    {| pattern := {| alts := [(false, delimited (lit "_") (chr "_"))]; notAfter := Some (chr "_") |};
       handler := markHandler em None 1 |};
    {| pattern := Ending (delimited (lit "`") (chr "`")); handler := markHandler code None 1 |};
    {| pattern := Ending (delimited (lit "~~") (chr "~"));
       handler := markHandler strikethrough None 2 |};
    {| pattern := Ending (delimited (lit "==") (chr "="));
       handler := markHandler highlight (Some (JObj [(lit "color", JStr (lit "yellow"))])) 2 |} ].

(** The loop of [run] over the rules: the first rule whose pattern
    matches [textBefore] and whose handler gives a transaction has it
    dispatched.  [Ok None]: no rule applied.  [inCodeBlock] is
    [$from.parent.type.spec.code]. *)
Fixpoint runLoop (st : EditorState) (from to : nat) (txt textBefore : jsstring)
         (inCodeBlock : bool) (l : list InputRule) : result (option EditorState) :=
  match l with
  | [] => Ok None
  | rule :: rest =>
      if inCodeBlock then runLoop st from to txt textBefore inCodeBlock rest
      else
        match exec (pattern rule) textBefore with
        | Some (_, m0) =>
            if List.length txt <=? List.length m0 then
              r <- handler rule st m0 (from - (List.length m0 - List.length txt)) to ;;
              match r with
              | Some t => st' <- SlashCommand.dispatch st t ;; Ok (Some st')
              | None => runLoop st from to txt textBefore inCodeBlock rest
              end
            else runLoop st from to txt textBefore inCodeBlock rest
        | None => runLoop st from to txt textBefore inCodeBlock rest
        end
  end.

(** [run(view, from, to, text, rules, plugin)] of the toolkit: the rules are
    tried on the text before the cursor followed by [text]. *)
Definition run (st : EditorState) (from to : nat) (txt : jsstring)
           (rs : list InputRule) : result (option EditorState) :=
  rf <- resolve (doc st) from ;;
  let textBefore :=
    textBetween (parent rf) (parentOffset rf - MAX_MATCH) (parentOffset rf) OBJ ++ txt in
  runLoop st from to txt textBefore (specCode (nodeType (parent rf))) rs.

(** [handleTextInput(view, from, to, text)] of the plugin, followed, when no
    rule applied, by the editor's own insertion of the text. *)
Definition handleTextInput (st : EditorState) (from to : nat) (txt : jsstring)
  : result EditorState :=
  r <- run st from to txt rules ;;
  match r with
  | Some st' => Ok st'
  | None =>
      t <- insertText (tr st) txt from to ;;
      SlashCommand.dispatch st t
  end.

(** A character key pressed: the key handlers, then the text input, then
    the timers set meanwhile. *)
Definition typeChar (st : EditorState) (ch : codeunit) : result EditorState :=
  kd <- SlashCommand.handleKeyDown st [ch] ;;
  if SlashCommand.handled kd then Ok (SlashCommand.after_key kd)
  else
    let st0 := SlashCommand.after_key kd in
    st1 <- handleTextInput st0 (sel_from (selection st0))
                           (sel_to (doc st0) (selection st0)) [ch] ;;
    match SlashCommand.scheduled kd with
    | Some from0 => SlashCommand.openMenu from0 st1
    | None => Ok st1
    end.

(** A text typed key by key. *)
Fixpoint typeText (st : EditorState) (s : jsstring) : result EditorState :=
  match s with
  | [] => Ok st
  | ch :: s' => st' <- typeChar st ch ;; typeText st' s'
  end.

End InputRules.

(* ------------------------------------------------------------------ *)
(** ** Joining blocks (the toolkit's [joinUp]) *)

Module Commands.

Import Schema PM State.

(** The node types a content expression accepts first. *)
Definition firstTypes (t : NodeType) : NodeType -> bool :=
  match t with
  | Schema.doc | blockquote => inGroupBlock
  | paragraph | heading => isInline
  | code_block => isText
  | bullet_list | ordered_list => NodeType_eqb list_item
  | task_list => NodeType_eqb task_item
  | toggle_list => NodeType_eqb toggle_item
  | list_item | task_item | toggle_item | callout => NodeType_eqb paragraph
  | text | hard_break | horizontal_rule | image => fun _ => false
  end.

Definition allTypes : list NodeType :=
  [Schema.doc; paragraph; text; hard_break; heading; blockquote; code_block;
   horizontal_rule; image; bullet_list; ordered_list; list_item; task_list;
   task_item; toggle_list; toggle_item; callout].

(** [type.compatibleContent(other)] *)
Definition compatibleContent (a b : NodeType) : bool :=
  NodeType_eqb a b || existsb (fun t => firstTypes a t && firstTypes b t) allTypes.

(** [a.canAppend(b)] *)
Definition canAppend (a b : Node) : bool :=
  if 0 <? contentSize b
  then canReplace a (childCount a) (childCount a) (children b)
  else compatibleContent (nodeType a) (nodeType b).

Definition joinable (a b : option Node) : bool :=
  match a, b with
  | Some x, Some y => negb (isLeaf (nodeType x)) && canAppend x y
  | _, _ => false
  end.

(** [canJoin(doc, pos)] *)
Definition canJoin (d : Node) (p : nat) : result bool :=
  r <- resolve d p ;;
  let i := index r (depth r) in
  Ok (joinable (nodeBefore r) (nodeAfter r) && canReplace (parent r) i (i + 1) []).

(** [joinPoint(doc, pos, -1)]: the loop runs from the depth of the
    position down to 0; [p] is the position tested at depth [d]. *)
Fixpoint joinPointFrom (r : ResolvedPos) (d : nat) (p : nat) : option nat :=
  let before_ :=
    if d =? depth r then nodeBefore r
    else match index r d with
         | O => None
         | S i => maybeChild (node r d) i
         end in
  let after_ :=
    if d =? depth r then nodeAfter r else Some (node r (d + 1)) in
  if match before_ with
     | Some b => negb (isTextblock (nodeType b)) && joinable before_ after_
                 && canReplace (node r d) (index r d) (index r d + 1) []
     | None => false
     end
  then Some p
  else match d with
       | O => None
       | S d' => joinPointFrom r d' (poffset (entry r d'))
       end.

Definition joinPoint (d : Node) (p : nat) : result (option nat) :=
  r <- resolve d p ;;
  Ok (joinPointFrom r (depth r) p).

(** [tr.join(pos)]: the step that removes the closing token of the node
    before [pos] and the opening token of the node after it. *)
Definition join (t : Transaction) (p : nat) : result Transaction :=
  r <- resolve (tr_doc t) p ;;
  match nodeBefore r, nodeAfter r with
  | Some (Elem tb ab cb), Some (Elem ta _ ca) =>
      if negb (textOffset r =? 0) || isLeaf tb || isLeaf ta
         || negb (compatibleContent ta tb)
      then Err TransformError
      else
        let merged := append cb ca in
        if negb (validContent tb merged) then Err RangeError
        else
          let i := index r (depth r) in
          let cs := children (parent r) in
          let content' := firstn (i - 1) cs ++ Elem tb ab merged :: skipn (i + 1) cs in
          if negb (validContent (nodeType (parent r)) content') then Err RangeError
          else
            Ok {| tr_doc := rebuild (firstn (depth r) (path r)) (copy (parent r) content');
                  maps := maps t ++ [{| mstart := p - 1; oldSize := 2; newSize := 0 |}];
                  curSelection := curSelection t;
                  curSelectionFor := curSelectionFor t;
                  slashMeta := slashMeta t |}
  | _, _ => Err TransformError
  end.

(** [joinUp(state, dispatch)]: whether it applied, and the state after. *)
Definition joinUp (st : EditorState) : result (bool * EditorState) :=
  match selection st with
  | NodeSelection from _ =>
      r <- resolve (doc st) from ;;
      cj <- canJoin (doc st) from ;;
      match nodeAfter r with
      | Some n =>
          if isTextblock (nodeType n) || negb cj then Ok (false, st)
          else
            t <- join (tr st) from ;;
            rb <- resolve (doc st) from ;;
            let back := match nodeBefore rb with Some b => nodeSize b | None => 0 end in
            rn <- resolve (tr_doc t) (from - back) ;;
            match nodeAfter rn with
            | Some m =>
                st' <- SlashCommand.dispatch st
                         (setSelection t (NodeSelection (from - back) (from - back + nodeSize m))) ;;
                Ok (true, st')
            | None => Err RangeError
            end
      | None => Err TypeError
      end
  | s =>
      jp <- joinPoint (doc st) (sel_from s) ;;
      match jp with
      | None => Ok (false, st)
      | Some point =>
          t <- join (tr st) point ;;
          st' <- SlashCommand.dispatch st t ;;
          Ok (true, st')
      end
  end.

(** [joinPoint(doc, pos, 1)]: the loop runs from the depth of the position
    down to 0; [p] is the position tested at depth [d]. *)
Fixpoint joinPointAfterFrom (r : ResolvedPos) (d : nat) (p : nat) : option nat :=
  let before_ :=
    if d =? depth r then nodeBefore r else Some (node r (d + 1)) in
  let i := if d =? depth r then index r d else index r d + 1 in
  let after_ :=
    if d =? depth r then nodeAfter r else maybeChild (node r d) i in
  if match before_ with
     | Some b => negb (isTextblock (nodeType b)) && joinable before_ after_
                 && canReplace (node r d) i (i + 1) []
     | None => false
     end
  then Some p
  else match d with
       | O => None
       | S d' => joinPointAfterFrom r d' (poffset (entry r d') + nodeSize (node r d))
       end.

Definition joinPointAfter (d : Node) (p : nat) : result (option nat) :=
  r <- resolve d p ;;
  Ok (joinPointAfterFrom r (depth r) p).

(** [joinDown(state, dispatch)]: whether it applied, and the state after. *)
Definition joinDown (st : EditorState) : result (bool * EditorState) :=
  match selection st with
  | NodeSelection from to =>
      r <- resolve (doc st) from ;;
      match nodeAfter r with
      | Some n =>
          if isTextblock (nodeType n) then Ok (false, st)
          else
            cj <- canJoin (doc st) to ;;
            if negb cj then Ok (false, st)
            else
              t <- join (tr st) to ;;
              st' <- SlashCommand.dispatch st t ;;
              Ok (true, st')
      | None => Err TypeError
      end
  | s =>
      jp <- joinPointAfter (doc st) (sel_to (doc st) s) ;;
      match jp with
      | None => Ok (false, st)
      | Some point =>
          t <- join (tr st) point ;;
          st' <- SlashCommand.dispatch st t ;;
          Ok (true, st')
      end
  end.

End Commands.

(* ------------------------------------------------------------------ *)
(** ** Block commands ([editor-utils.ts], [block-commands.ts]) *)

Module BlockCommands.

Import Schema PM State Commands.

Record Found := { f_pos : nat; f_node : Node; f_depth : nat }.

(** [findParentNode(predicate, selection)]: the loop runs from the depth of
    [$from] down to 1. *)
Fixpoint findParentNodeFrom (predicate : Node -> bool) (r : ResolvedPos) (d : nat)
  : option Found :=
  match d with
  | O => None
  | S d' =>
      if predicate (node r d)
      then Some {| f_pos := poffset (entry r d'); f_node := node r d; f_depth := d |}
      else findParentNodeFrom predicate r d'
  end.

Definition findParentNode (predicate : Node -> bool) (d : Node) (s : Selection)
  : result (option Found) :=
  r <- resolve d (sel_from s) ;;
  Ok (findParentNodeFrom predicate r (depth r)).

Record BlockRange := { b_start : nat; b_end : nat; b_node : Node }.

(** [getBlockRange(selection)] *)
Definition getBlockRange (d : Node) (s : Selection) : result (option BlockRange) :=
  p <- findParentNode (fun n => isBlock (nodeType n)) d s ;;
  match p with
  | None => Ok None
  | Some f =>
      Ok (Some {| b_start := f_pos f; b_end := f_pos f + nodeSize (f_node f);
                  b_node := f_node f |})
  end.

(** [$pos.sharedDepth(pos)] *)
Fixpoint sharedDepthFrom (r : ResolvedPos) (p : nat) (d : nat) : nat :=
  match d with
  | O => 0
  | S d' => if (start r d <=? p) && (p <=? end_ r d) then d else sharedDepthFrom r p d'
  end.

(** [doc.slice(from, to).content] *)
Definition sliceContent (d : Node) (from to : nat) : result (list Node) :=
  if from =? to then Ok []
  else
    rf <- resolve d from ;;
    rt <- resolve d to ;;
    let sd := sharedDepthFrom rf to (depth rf) in
    let s0 := start rf sd in
    Ok (cut (from - s0) (to - s0) (children (node rf sd))).

(** [moveBlockUp(view)]: what it returns, and the state after. *)
Definition moveBlockUp (st : EditorState) : result (bool * EditorState) :=
  j <- joinUp st ;;
  if fst j then Ok (true, snd j)
  else
    br <- getBlockRange (doc st) (selection st) ;;
    match br with
    | None => Ok (false, st)
    | Some blockRange =>
        let start_ := b_start blockRange in
        let end0 := b_end blockRange in
        let node_ := b_node blockRange in
        rp <- resolve (doc st) start_ ;;
        if index rp (depth rp) =? 0 then Ok (false, st)
        else
          prevStart <- before rp (depth rp) ;;
          prevNode <- nodeAt (doc st) prevStart ;;
          match prevNode with
          | None => Ok (false, st)
          | Some _ =>
              nodeSlice <- sliceContent (doc st) start_ end0 ;;
              prevSlice <- sliceContent (doc st) prevStart start_ ;;
              t1 <- delete (tr st) prevStart end0 ;;
              t2 <- insert t1 prevStart nodeSlice ;;
              t3 <- insert t2 (prevStart + nodeSize node_) prevSlice ;;
              st' <- SlashCommand.dispatch st t3 ;;
              Ok (true, st')
          end
    end.

(** [deleteBlock(view)] *)
Definition deleteBlock (st : EditorState) : result (bool * EditorState) :=
  br <- getBlockRange (doc st) (selection st) ;;
  match br with
  | None => Ok (false, st)
  | Some blockRange =>
      let start_ := b_start blockRange in
      let end0 := b_end blockRange in
      if childCount (doc st) =? 1 then
        t <- delete (tr st) (start_ + 1) (end0 - 1) ;;
        st' <- SlashCommand.dispatch st t ;;
        Ok (true, st')
      else
        t <- delete (tr st) start_ end0 ;;
        st' <- SlashCommand.dispatch st t ;;
        Ok (true, st')
  end.

(** [moveBlockDown(view)].  The test on the index reads
    [index >= childCount - 1]; the parent of the position holds the block,
    so its [childCount] is not 0 and the natural-number subtraction is the
    one of the source. *)
Definition moveBlockDown (st : EditorState) : result (bool * EditorState) :=
  j <- joinDown st ;;
  if fst j then Ok (true, snd j)
  else
    br <- getBlockRange (doc st) (selection st) ;;
    match br with
    | None => Ok (false, st)
    | Some blockRange =>
        let start_ := b_start blockRange in
        let end0 := b_end blockRange in
        let node_ := b_node blockRange in
        rp <- resolve (doc st) end0 ;;
        if childCount (node rp (depth rp)) - 1 <=? index rp (depth rp) then Ok (false, st)
        else
          nextNode <- nodeAt (doc st) end0 ;;
          match nextNode with
          | None => Ok (false, st)
          | Some next =>
              t1 <- delete (tr st) start_ (end0 + nodeSize next) ;;
              nextSlice <- sliceContent (doc st) end0 (end0 + nodeSize next) ;;
              t2 <- insert t1 start_ nextSlice ;;
              t3 <- insert t2 (start_ + nodeSize next) [node_] ;;
              st' <- SlashCommand.dispatch st t3 ;;
              Ok (true, st')
          end
    end.

(** [duplicateBlock(view)] *)
Definition duplicateBlock (st : EditorState) : result (bool * EditorState) :=
  br <- getBlockRange (doc st) (selection st) ;;
  match br with
  | None => Ok (false, st)
  | Some blockRange =>
      let end0 := b_end blockRange in
      let node_ := b_node blockRange in
      t <- insert (tr st) end0 [copy node_ (children node_)] ;;
      let newPos := end0 + 1 in
      _ <- resolve (tr_doc t) newPos ;;
      st' <- SlashCommand.dispatch st (setSelection t (TextSelection newPos newPos)) ;;
      Ok (true, st')
  end.

(** The names that [exitBlock] looks for among the ancestors. *)
Definition exitableBlocks : list jsstring :=
  [lit "callout"; lit "code_block"; lit "blockquote"; lit "task_list";
   lit "toggle_list"; lit "task_item"; lit "toggle_item"].

(** The loop of [exitBlock], from the depth [d] down to 1. *)
Fixpoint exitBlockFrom (st : EditorState) (r : ResolvedPos) (d : nat)
  : result (bool * EditorState) :=
  match d with
  | O => Ok (false, st)
  | S listDepth =>
      let node_ := node r d in
      let name := typeName (nodeType node_) in
      if existsb (JS.eqb name) exitableBlocks then
        if (eqlit name "task_item" || eqlit name "toggle_item")
           && ((contentSize (parent r) =? 0)
               || match textContent (parent r) with [] => true | _ => false end)
           && (0 <? listDepth)
        then
          let listNode := node r listDepth in
          let listEnd := end_ r listDepth in
          paragraph_ <- create paragraph None [] ;;
          if childCount listNode =? 1 then
            listStart <- before r listDepth ;;
            t <- replaceWith (tr st) listStart (listEnd + 1) [paragraph_] ;;
            st' <- SlashCommand.dispatch st t ;;
            Ok (true, st')
          else
            itemStart <- before r d ;;
            itemEnd <- after r d ;;
            t <- delete (tr st) itemStart itemEnd ;;
            let newListEnd := listEnd - (itemEnd - itemStart) in
            t' <- insert t newListEnd [paragraph_] ;;
            st' <- SlashCommand.dispatch st t' ;;
            Ok (true, st')
        else
          blockEnd <- after r d ;;
          paragraph_ <- create paragraph None [] ;;
          t <- insert (tr st) blockEnd [paragraph_] ;;
          _ <- resolve (tr_doc t) (blockEnd + 1) ;;
          st' <- SlashCommand.dispatch st
                   (setSelection t (TextSelection (blockEnd + 1) (blockEnd + 1))) ;;
          Ok (true, st')
      else exitBlockFrom st r listDepth
  end.

(** [exitBlock(view)] *)
Definition exitBlock (st : EditorState) : result (bool * EditorState) :=
  if negb (sel_empty (doc st) (selection st)) then Ok (false, st)
  else
    r <- resolve (doc st) (sel_from (selection st)) ;;
    exitBlockFrom st r (depth r).

End BlockCommands.

(* ------------------------------------------------------------------ *)
(** ** The helpers of [editor-utils.ts] *)

Module EditorUtils.

Import Schema PM State BlockCommands.

(** [findParentNodeOfType(typeName, selection)] *)
Definition findParentNodeOfType (name : jsstring) (d : Node) (s : Selection)
  : result (option Found) :=
  findParentNode (fun n => JS.eqb (typeName (nodeType n)) name) d s.

(** [isAtBlockStart(selection)] *)
Definition isAtBlockStart (d : Node) (s : Selection) : result bool :=
  if negb (sel_empty d s) then Ok false
  else r <- resolve d (sel_from s) ;; Ok (parentOffset r =? 0).

(** [isAtBlockEnd(selection)] *)
Definition isAtBlockEnd (d : Node) (s : Selection) : result bool :=
  if negb (sel_empty d s) then Ok false
  else r <- resolve d (sel_to d s) ;; Ok (parentOffset r =? contentSize (parent r)).

(** The loop of [getCurrentBlock], from the depth [d] down to 1. *)
Fixpoint currentBlockFrom (r : ResolvedPos) (d : nat) : option Node :=
  match d with
  | O => None
  | S d' => if isBlock (nodeType (node r d)) then Some (node r d) else currentBlockFrom r d'
  end.

(** [getCurrentBlock(selection)] *)
Definition getCurrentBlock (d : Node) (s : Selection) : result (option Node) :=
  r <- resolve d (sel_from s) ;;
  Ok (currentBlockFrom r (depth r)).

(** [isInsideNodeType(typeName, selection)] *)
Definition isInsideNodeType (name : jsstring) (d : Node) (s : Selection) : result bool :=
  p <- findParentNodeOfType name d s ;;
  Ok (match p with Some _ => true | None => false end).

(** [Fragment.nodesBetween(from, to, f, nodeStart)] over the children [l],
    the first of which starts at [pos], with the callback of
    [getAllBlockPositions], which never returns [false]: the positions
    pushed, in the order of the calls.  [inner] is [Node.nodesBetween] on a
    child.  (The loop reads a child as long as [pos < to]; when [to] is at
    most the size of the content, as it is in every call made here, the
    children do not run out before that.) *)
Fixpoint blockPositionsWith (inner : Node -> nat -> nat -> nat -> list nat)
         (from to nodeStart : nat) (l : list Node) (pos : nat) : list nat :=
  match l with
  | [] => []
  | child :: rest =>
      if pos <? to then
        let e := pos + nodeSize child in
        (if from <? e then
           (if isBlock (nodeType child)
               && negb (eqlit (typeName (nodeType child)) "doc")
            then [nodeStart + pos] else [])
           ++ (if contentSize child =? 0 then []
               else
                 let start := pos + 1 in
                 inner child (from - start) (Nat.min (contentSize child) (to - start))
                       (nodeStart + start))
         else [])
        ++ blockPositionsWith inner from to nodeStart rest e
      else []
  end.

(** [node.nodesBetween(from, to, f, startPos)] with that callback. *)
Fixpoint blockPositionsIn (n : Node) (from to startPos : nat) : list nat :=
  match n with
  | Text _ _ => []
  | Elem _ _ cs => blockPositionsWith blockPositionsIn from to startPos cs 0
  end.

(** [getAllBlockPositions(doc)]: [doc.descendants(f)] is
    [doc.nodesBetween(0, doc.content.size, f)]. *)
Definition getAllBlockPositions (d : Node) : list nat :=
  blockPositionsIn d 0 (contentSize d) 0.

(** [canConvertTo(from, toTypeName)] *)
Definition canConvertTo (from : Node) (toTypeName : jsstring) : bool :=
  let textBlocks := [lit "paragraph"; lit "heading"; lit "blockquote"] in
  let listTypes := [lit "bullet_list"; lit "ordered_list"; lit "task_list";
                    lit "toggle_list"] in
  let name := typeName (nodeType from) in
  if existsb (JS.eqb name) textBlocks && existsb (JS.eqb toTypeName) textBlocks then true
  else if existsb (JS.eqb name) listTypes && existsb (JS.eqb toTypeName) listTypes then true
  else true.

End EditorUtils.

(* ------------------------------------------------------------------ *)
(** ** The editor component: AI text in the document *)

Module Editor.

Import Schema PM State.

(** The marker that frames the structured payload in the streamed text. *)
Definition MARK : jsstring := lit "<<<PMJSON>>>".

Definition lineTerminator (ch : codeunit) : bool :=
  existsb (N.eqb ch) [10; 13; 8232; 8233]%N.

(** After an opening marker: the length of the run of [.] up to a closing
    marker, at least [least] long; the shortest such run ([lazy]) or the
    longest. *)
Fixpoint closing (lazy : bool) (least : nat) (k : nat) (found : option nat)
         (s : jsstring) : option nat :=
  let here := (least <=? k) && startsWith MARK s in
  let found' := if here then Some k else found in
  if here && lazy then Some k
  else match s with
       | [] => found'
       | ch :: s' =>
           if lineTerminator ch then found'
           else closing lazy least (S k) found' s'
       end.

(** The leftmost match of the marker pattern in [s]: its index and the
    length of the run between the two markers. *)
Fixpoint markerFrom (lazy : bool) (least : nat) (i : nat) (s : jsstring)
  : option (nat * nat) :=
  match (if startsWith MARK s
         then closing lazy least 0 None (skipn (List.length MARK) s)
         else None) with
  | Some k => Some (i, k)
  | None =>
      match s with
      | [] => None
      | _ :: s' => markerFrom lazy least (S i) s'
      end
  end.

(** [apiText.match(/<<<PMJSON>>>(.+?)<<<PMJSON>>>/)]: the group. *)
Definition jsonMatch (apiText : jsstring) : option jsstring :=
  match markerFrom true 1 0 apiText with
  | Some (i, k) => Some (slice2 (i + List.length MARK) (i + List.length MARK + k) apiText)
  | None => None
  end.

(** [apiText.replace(/<<<PMJSON>>>.*<<<PMJSON>>>/, "")] *)
Definition stripMarker (apiText : jsstring) : jsstring :=
  match markerFrom false 0 0 apiText with
  | Some (i, k) => firstn i apiText ++ skipn (i + 2 * List.length MARK + k) apiText
  | None => apiText
  end.

(** The text shown: the streamed text without the framed payload. *)
Definition displayText (apiText : jsstring) : jsstring :=
  trim (stripMarker apiText).

(** The refs and state of the component, with the state of the view. *)
Record Editor := {
  view : EditorState;
  lastInsertedLength : nat;
  aiTextStartPos : option nat;
  fullAiText : jsstring;
  parsedJson : option JSON;
  isReplacingSelection : bool;
  originalText : jsstring;
  selectionRange : option (nat * nat);
  showToolbar : bool
}.

Definition mount (st : EditorState) : Editor :=
  {| view := st; lastInsertedLength := 0; aiTextStartPos := None;
     fullAiText := []; parsedJson := None; isReplacingSelection := false;
     originalText := []; selectionRange := None; showToolbar := false |}.

Definition emMark : Mark := {| mtype := em; mattrs := [] |}.

Section WithParser.

(** [JSON.parse]: [None] when it throws. *)
Variable JSON_parse : jsstring -> option JSON.

(** The effect that runs when [apiText] changes: the text that arrived
    since the last run is inserted, marked [em]. *)
Definition onApiText (apiText : jsstring) (e : Editor) : result Editor :=
  match apiText with
  | [] =>
      Ok {| view := view e; lastInsertedLength := 0;
            aiTextStartPos := aiTextStartPos e; fullAiText := [];
            parsedJson := None; isReplacingSelection := isReplacingSelection e;
            originalText := originalText e; selectionRange := selectionRange e;
            showToolbar := showToolbar e |}
  | _ =>
      let '(parsed', full') :=
        match jsonMatch apiText with
        | Some g =>
            match JSON_parse g with
            | Some v => (Some v, trim (stripMarker apiText))
            | None => (parsedJson e, apiText)
            end
        | None => (parsedJson e, apiText)
        end in
      let last := lastInsertedLength e in
      if last <? List.length (displayText apiText) then
        let newChunk := removeCR (slice last (displayText apiText)) in
        '(view', start') <-
          match newChunk with
          | [] => Ok (view e, aiTextStartPos e)
          | _ =>
              let insertPos :=
                match aiTextStartPos e with
                | Some p => p + last
                | None => sel_from (selection (view e))
                end in
              let start' :=
                match aiTextStartPos e with
                | Some p => Some p
                | None => Some insertPos
                end in
              n <- schemaText newChunk [emMark] ;;
              t <- insert (tr (view e))
                     (insertPos + last - (if 0 <? last then last else 0)) [n] ;;
              v <- SlashCommand.dispatch (view e) t ;;
              Ok (v, start')
          end ;;
        Ok {| view := view'; lastInsertedLength := List.length (displayText apiText);
              aiTextStartPos := start'; fullAiText := full';
              parsedJson := parsed'; isReplacingSelection := isReplacingSelection e;
              originalText := originalText e; selectionRange := selectionRange e;
              showToolbar := showToolbar e |}
      else
        Ok {| view := view e; lastInsertedLength := last;
              aiTextStartPos := aiTextStartPos e; fullAiText := full';
              parsedJson := parsed'; isReplacingSelection := isReplacingSelection e;
              originalText := originalText e; selectionRange := selectionRange e;
              showToolbar := showToolbar e |}
  end.

End WithParser.

(** [handleReject], up to its call of [onReject]. *)
Definition handleReject (e : Editor) : result Editor :=
  v <- match aiTextStartPos e with
       | Some startPos =>
           let endPos := contentSize (doc (view e)) - 1 in
           t <- delete (tr (view e)) startPos endPos ;;
           t' <- (if isReplacingSelection e
                     && match originalText e with [] => false | _ => true end
                  then n <- schemaText (originalText e) [] ;; insert t startPos [n]
                  else Ok t) ;;
           SlashCommand.dispatch (view e) t'
       | None => Ok (view e)
       end ;;
  Ok {| view := v; lastInsertedLength := 0; aiTextStartPos := None;
        fullAiText := []; parsedJson := parsedJson e;
        isReplacingSelection := false; originalText := [];
        selectionRange := None; showToolbar := false |}.

(** [handleModify], up to its call of [onModify]. *)
Definition handleModify (e : Editor) : result Editor :=
  match aiTextStartPos e with
  | Some startPos =>
      let endPos := contentSize (doc (view e)) - 1 in
      t <- delete (tr (view e)) startPos endPos ;;
      v <- SlashCommand.dispatch (view e) t ;;
      Ok {| view := v; lastInsertedLength := 0; aiTextStartPos := aiTextStartPos e;
            fullAiText := fullAiText e; parsedJson := parsedJson e;
            isReplacingSelection := isReplacingSelection e;
            originalText := originalText e; selectionRange := selectionRange e;
            showToolbar := false |}
  | None =>
      Ok {| view := view e; lastInsertedLength := lastInsertedLength e;
            aiTextStartPos := None; fullAiText := fullAiText e;
            parsedJson := parsedJson e;
            isReplacingSelection := isReplacingSelection e;
            originalText := originalText e; selectionRange := selectionRange e;
            showToolbar := false |}
  end.

(** The [selectedText] state: [dispatchTransaction] sets it from the new
    state on every transaction. *)
Definition selectedText (st : EditorState) : jsstring :=
  let f := sel_from (selection st) in
  let t := sel_to (doc st) (selection st) in
  if negb (sel_empty (doc st) (selection st)) && (3 <? t - f)
  then textBetween (doc st) f t []
  else [].

(** [handleSelectionAiAction], up to its call of [onGenerate]; [None] when
    there is no selected text and nothing is done. *)
Definition handleSelectionAiAction (e : Editor) : result (option Editor) :=
  match selectedText (view e) with
  | [] => Ok None
  | sel =>
      let from := sel_from (selection (view e)) in
      let to := sel_to (doc (view e)) (selection (view e)) in
      t <- delete (tr (view e)) from to ;;
      _ <- resolve (tr_doc t) from ;;
      v <- SlashCommand.dispatch (view e) (setSelection t (TextSelection from from)) ;;
      Ok (Some {| view := v; lastInsertedLength := 0; aiTextStartPos := Some from;
                  fullAiText := fullAiText e; parsedJson := parsedJson e;
                  isReplacingSelection := true; originalText := sel;
                  selectionRange := Some (from, to); showToolbar := showToolbar e |})
  end.

(** *** [jsonToNodes] *)

(** What the conversion writes to the console. *)
Inductive Log :=
| warnUnknownNodeType (type : option JSON)
| errorFailedToConvert (nodeData : JSON) (e : Error).

(** [v[k]] for a value [v]: a TypeError on [null], [undefined] ([None]) on
    anything that is not an object with that property. *)
Definition getProp (v : JSON) (k : string) : result (option JSON) :=
  match v with
  | JNull => Err TypeError
  | JObj fields => Ok (Json.lookup (lit k) fields)
  | _ => Ok None
  end.
Arguments getProp v k%_string.

(** A value read as a property key. *)
Definition propertyKey (v : option JSON) : jsstring :=
  match v with
  | None => lit "undefined"
  | Some x => toString x
  end.

Definition truthyOpt (v : option JSON) : bool :=
  match v with
  | None => false
  | Some x => truthy x
  end.

(** The list of results with the [null]s filtered out. *)
Fixpoint somes {A} (l : list (option A)) : list A :=
  match l with
  | [] => []
  | Some x :: rest => x :: somes rest
  | None :: rest => somes rest
  end.

(** [Array.prototype.map] with a callback that may throw. *)
Fixpoint mapM {A B} (f : A -> result B) (l : list A) : result (list B) :=
  match l with
  | [] => Ok []
  | x :: rest => y <- f x ;; ys <- mapM f rest ;; Ok (y :: ys)
  end.

(** The callback mapped over [nodeData.marks]. *)
Definition convertMark (m : JSON) : result (option Mark) :=
  ty <- getProp m "type" ;;
  match Schema.marks (propertyKey ty) with
  | Some markType =>
      attrs <- getProp m "attrs" ;;
      mk <- createMark markType attrs ;;
      Ok (Some mk)
  | None => Ok None
  end.

(** The [try] block of [convertNode].  [kids] is what mapping [convertNode]
    over [nodeData.content] gives when that is an array.  The result comes
    with what was logged up to the return or the throw. *)
Definition convertBody (nodeData : JSON)
           (kids : list (result (option Node) * list Log))
  : result (option Node) * list Log :=
  match getProp nodeData "type" with
  | Err e => (Err e, [])
  | Ok ty =>
      match Schema.nodes (propertyKey ty) with
      | None => (Ok None, [warnUnknownNodeType ty])
      | Some nodeType =>
          match getProp nodeData "content" with
          | Err e => (Err e, [])
          | Ok c =>
              let '(content, logs) :=
                if truthyOpt c then
                  match c with
                  | Some (JArr _) =>
                      (r <- mapM fst kids ;; Ok (somes r),
                       (* a child outside the model stops the run there *)
                       List.concat (List.map snd kids))
                  | _ => (Err TypeError, [])
                  end
                else (Ok [], []) in
              (content' <- content ;;
               if match ty with Some (JStr t) => eqlit t "text" | _ => false end then
                 mk <- getProp nodeData "marks" ;;
                 marks <- (if truthyOpt mk then
                             match mk with
                             | Some (JArr ms) => r <- mapM convertMark ms ;; Ok (somes r)
                             | _ => Err TypeError
                             end
                           else Ok []) ;;
                 tx <- getProp nodeData "text" ;;
                 str <- (if truthyOpt tx then
                           match tx with
                           | Some (JStr str) => Ok str
                           | _ => Err Unmodelled
                           end
                         else Ok []) ;;
                 n <- schemaText str marks ;;
                 Ok (Some n)
               else
                 at_ <- getProp nodeData "attrs" ;;
                 n <- create nodeType (if truthyOpt at_ then at_ else Some JNull) content' ;;
                 Ok (Some n),
               logs)
          end
      end
  end.

(** [try { ... } catch (e) { console.error(...); return null }].  A text
    value that is not a string gives a node this model has no place for;
    that run is passed on as [Unmodelled]. *)
Definition caught (nodeData : JSON) (r : result (option Node) * list Log)
  : result (option Node) * list Log :=
  match r with
  | (Err Unmodelled, logs) => (Err Unmodelled, logs)
  | (Err e, logs) => (Ok None, logs ++ [errorFailedToConvert nodeData e])
  | (Ok n, logs) => (Ok n, logs)
  end.

(** [convertNode(nodeData)] *)
Fixpoint convertNode (nodeData : JSON) : result (option Node) * list Log :=
  match nodeData with
  | JObj fields =>
      let kids :=
        (fix find (fs : list (jsstring * JSON)) : list (result (option Node) * list Log) :=
           match fs with
           | [] => []
           | (k, v) :: rest =>
               if JS.eqb (lit "content") k then
                 match v with
                 | JArr items => List.map convertNode items
                 | _ => []
                 end
               else find rest
           end) fields in
      caught nodeData (convertBody nodeData kids)
  | _ => caught nodeData (convertBody nodeData [])
  end.

(** [jsonToNodes(parsed)] *)
Definition jsonToNodes (parsed : JSON) : result (list Node) * list Log :=
  if negb (truthy parsed) then (Ok [], [])
  else
    match getProp parsed "content" with
    | Err e => (Err e, [])
    | Ok c =>
        if negb (truthyOpt c) then (Ok [], [])
        else
          match c with
          | Some (JArr items) =>
              let rs := List.map convertNode items in
              (r <- mapM fst rs ;; Ok (somes r), List.concat (List.map snd rs))
          | _ => (Err TypeError, [])
          end
    end.

End Editor.

(* ------------------------------------------------------------------ *)
(** ** The machine and the component wired together ([useEditorAI], the page) *)

Module Session.

Import State EditorMachine Editor.

Record Session := {
  machine : Snapshot;
  editor : Editor.Editor
}.

Definition hasPendingSuggestion (m : Snapshot) : bool :=
  match value m with pending => true | _ => false end.

Definition setToolbar (b : bool) (e : Editor.Editor) : Editor.Editor :=
  {| view := view e; lastInsertedLength := lastInsertedLength e;
     aiTextStartPos := aiTextStartPos e; fullAiText := fullAiText e;
     parsedJson := parsedJson e; isReplacingSelection := isReplacingSelection e;
     originalText := originalText e; selectionRange := selectionRange e;
     showToolbar := b |}.

Section WithParser.

Variable JSON_parse : jsstring -> option JSON.

(** The effects of the component after the machine moved from [old]: the
    one on [apiText], which is [context.generatedText], when that changed;
    then the one on [hasPendingSuggestion], when that changed. *)
Definition rerender (old : Snapshot) (s : Session) : result Session :=
  let api := generatedText (context (machine s)) in
  e1 <- (if JS.eqb (generatedText (context old)) api then Ok (editor s)
         else onApiText JSON_parse api (editor s)) ;;
  let e2 :=
    if Bool.eqb (hasPendingSuggestion old) (hasPendingSuggestion (machine s)) then e1
    else setToolbar (hasPendingSuggestion (machine s)
                     && match aiTextStartPos e1 with Some _ => true | None => false end) e1 in
  Ok {| machine := machine s; editor := e2 |}.

(** [send(event)] *)
Definition send (s : Session) (ev : Event) : result Session :=
  rerender (machine s) {| machine := transition (machine s) ev; editor := editor s |}.

(** The invoked actor sends a chunk back. *)
Definition deliver (s : Session) (chunk : jsstring) : result Session :=
  send s (AI_CHUNK chunk).

Fixpoint deliverAll (s : Session) (chunks : list jsstring) : result Session :=
  match chunks with
  | [] => Ok s
  | ch :: rest => s' <- deliver s ch ;; deliverAll s' rest
  end.

(** The Reject button: [handleReject] of the component, whose [onReject]
    sends REJECT. *)
Definition reject (s : Session) : result Session :=
  e <- handleReject (editor s) ;;
  send {| machine := machine s; editor := e |} REJECT.

(** A Modify button. *)
Definition modify (s : Session) (a : ModifyAction) : result Session :=
  e <- handleModify (editor s) ;;
  send {| machine := machine s; editor := e |} (MODIFY a).

(** An AI action on the selected text: [handleSelectionAiAction], whose
    [onGenerate] sends GENERATE_WITH_ACTION.  [ec] is the context gathered
    for the prompt. *)
Definition selectionAction (s : Session) (a : ModifyAction) (ec : EditorContext)
  : result Session :=
  let sel := Editor.selectedText (view (editor s)) in
  r <- handleSelectionAiAction (editor s) ;;
  match r with
  | Some e => send {| machine := machine s; editor := e |}
                   (GENERATE_WITH_ACTION sel a (Some ec))
  | None => Ok s
  end.

End WithParser.

End Session.

(* ================================================================== *)
(** * Properties *)

Unset Implicit Arguments.

Import Schema PM State.
Import Regex InputRules Commands BlockCommands EditorUtils Editor.

(* ------------------------------------------------------------------ *)
(** ** The vocabulary of the statements *)

(** One level of a document around a hole: the node's type and attributes,
    the children to the left of the hole and those to its right. *)
Record Frame := {
  ftype : NodeType;
  fattrs : Attrs;
  fleft : list Node;
  fright : list Node
}.

(** The frames, outermost first, closed over the node put in the hole. *)
Fixpoint plug (ctx : list Frame) (n : Node) : Node :=
  match ctx with
  | [] => n
  | f :: rest => Elem (ftype f) (fattrs f) (fleft f ++ plug rest n :: fright f)
  end.

(** The position just before the hole, counted from the start of the
    content of the outermost frame. *)
Fixpoint holePos (ctx : list Frame) : nat :=
  match ctx with
  | [] => 0
  | f :: rest =>
      fragSize (fleft f) + match rest with [] => 0 | _ => 1 + holePos rest end
  end.

(** The path of a position inside the hole, down to the hole's parent. *)
Fixpoint ctxPath (ctx : list Frame) (n : Node) (start : nat) : list PathEntry :=
  match ctx with
  | [] => []
  | f :: rest =>
      {| pnode := plug ctx n; pindex := List.length (fleft f);
         poffset := start + fragSize (fleft f) |}
      :: ctxPath rest n (start + fragSize (fleft f) + 1)
  end.

(** No frame is a leaf. *)
Definition openFrames (ctx : list Frame) : Prop :=
  Forall (fun f => isLeaf (ftype f) = false) ctx.

(** The children of a text block: text and inline leaves. *)
Definition inlineKids (cs : list Node) : Prop :=
  Forall (fun c => isInline (nodeType c) = true) cs.

(** What a text block of type [t] may hold: any inline node when [t] takes
    marks (a paragraph, a heading), unmarked text when it does not (a code
    block). *)
Definition kidOf (t : NodeType) (c : Node) : bool :=
  if allowsMarks t then isInline (nodeType c) else nodeIsText c && unmarked c.

Definition kidsOf (t : NodeType) (cs : list Node) : Prop :=
  Forall (fun c => kidOf t c = true) cs.

(** A position in a text block that sits in the hole of [ctx]: its path
    is that of the hole followed by the one entry that the position has in
    the block taken alone. *)
Record InBlock (ctx : list Frame) (blk : Node) (k : nat) (r : ResolvedPos) : Prop := {
  ib_pos : pos r = holePos ctx + 1 + k;
  ib_offset : parentOffset r = k;
  ib_path : exists i o, o <= k /\
    path r = ctxPath ctx blk 0
             ++ [{| pnode := blk; pindex := i; poffset := holePos ctx + 1 + o |}]
    /\ resolve blk k
       = Ok {| pos := k; path := [{| pnode := blk; pindex := i; poffset := o |}];
               parentOffset := k |}
}.

(** What a replacement between the offsets [k1] and [k2] leaves of the
    content [cs]. *)
Definition spliced (cs : list Node) (k1 k2 : nat) (content : list Node) : list Node :=
  append (append (cut 0 k1 cs) content) (cut k2 (fragSize cs) cs).

(** The marks that text typed at offset [k] of the block takes. *)
Definition marksIn (blk : Node) (k : nat) : list Mark :=
  match resolve blk k with
  | Ok r => marksAt r
  | Err _ => []
  end.

(** Whether some string that [r] matches ends with [c] (an upper bound). *)
Fixpoint lastChars (r : re) (c : codeunit) : bool :=
  match r with
  | Empty | Eps => false
  | Chr x => N.eqb c x
  | Cls p => p c
  | Seq a b => lastChars b c || (nullable b && lastChars a c)
  | Alt a b => lastChars a c || lastChars b c
  | Star a => lastChars a c
  end.

(** The pattern can end neither with [c] nor with nothing. *)
Definition cannotEnd (c : codeunit) (p : Pattern) : bool :=
  forallb (fun alt => negb (lastChars (snd alt) c) && negb (nullable (snd alt))) (alts p).

(** No rule matches the text. *)
Definition noRule (l : list InputRule) (tb : jsstring) : bool :=
  forallb (fun rule => match exec (pattern rule) tb with None => true | Some _ => false end) l.

(** The block [Elem t a cs] after [ch] was typed at offset [k]. *)
Definition typedInto (t : NodeType) (a : Attrs) (cs : list Node) (k : nat)
           (ch : codeunit) : Node :=
  Elem t a (spliced cs k k [Text [ch] (setFrom (marksIn (Elem t a cs) k))]).

(** The test that [handleKeyDown] makes on the cursor, at offset [k] of the
    block: the start of the block, or just after a space or a newline. *)
Definition validSlashPosition (blk : Node) (k : nat) : bool :=
  (k =? 0) || endsWith (lit " ") (textBetween blk 0 k OBJ)
  || endsWith [10%N] (textBetween blk 0 k OBJ).

(** The start of the content of the node in the hole of [outer]; with no
    frame, that node is the document. *)
Definition inside (outer : list Frame) : nat :=
  match outer with
  | [] => 0
  | _ => holePos outer + 1
  end.

(** The frame of a parent around one of its children. *)
Definition around (pt : NodeType) (pa : Attrs) (left right : list Node) : Frame :=
  {| ftype := pt; fattrs := pa; fleft := left; fright := right |}.

(** Elements, as the siblings of a block are. *)
Definition elements (l : list Node) : Prop :=
  Forall (fun c => nodeIsText c = false) l.

(** A position between two children of the node in the hole. *)
Record AtBoundary (outer : list Frame) (P : Node) (i off : nat) (r : ResolvedPos) : Prop := {
  ab_pos : pos r = inside outer + off;
  ab_offset : parentOffset r = off;
  ab_path : path r = ctxPath outer P 0
                     ++ [{| pnode := P; pindex := i; poffset := inside outer + off |}]
}.

(** The state with the cursor at offset [k] of the block [blk] in the hole
    of [ctx]. *)
Definition cursorIn (ctx : list Frame) (blk : Node) (k : nat) (sm : SlashMenuState)
  : EditorState :=
  {| doc := plug ctx blk;
     selection := TextSelection (holePos ctx + 1 + k) (holePos ctx + 1 + k);
     slashMenu := sm |}.

(** The task list made by the rule. *)
Definition emptyTaskList : Node :=
  Elem task_list [] [Elem task_item [(lit "checked", JBool false)] [Elem paragraph [] []]].

(** The rule for ["- [ ] "], the thirteenth of the rules. *)
Definition taskPattern : Pattern :=
  Whole (Seq (Chr 45%N) (Seq ws (Seq (Chr 91%N) (Seq ws (Seq (Chr 93%N) ws))))).

(** Every frame holds its hole as first child. *)
Definition firstFrames (ctx : list Frame) : Prop :=
  Forall (fun f => fleft f = []) ctx.

(** No child is an empty text. *)
Definition nonEmpty (cs : list Node) : Prop := Forall (fun c => 0 < nodeSize c) cs.

(** The nodes of the results that have one. *)
Fixpoint kept (rs : list (result (option Node) * list Log)) : list Node :=
  match rs with
  | [] => []
  | (Ok (Some n), _) :: rest => n :: kept rest
  | _ :: rest => kept rest
  end.

(** The refs as [handleReject] leaves them. *)
Definition cleared (e : Editor.Editor) : Prop :=
  lastInsertedLength e = 0 /\ aiTextStartPos e = None /\ fullAiText e = []
  /\ isReplacingSelection e = false /\ originalText e = []
  /\ selectionRange e = None /\ showToolbar e = false.

(** A document with the paragraph ["ab"]. *)
Definition exampleDoc : Node :=
  Elem Schema.doc [] [Elem paragraph [] [Text (lit "ab") []]].

(** The page opened on it, the cursor between the two letters. *)
Definition exampleStart : Session.Session :=
  {| Session.machine := EditorMachine.initial;
     Session.editor :=
       mount {| doc := exampleDoc; selection := TextSelection 2 2; slashMenu := closed |} |}.

(** A continuation is asked for and ["Hello"], [" world"] arrive. *)
Definition streamed (JSON_parse : jsstring -> option JSON) : result Session.Session :=
  s1 <- Session.send JSON_parse exampleStart
          (EditorMachine.GENERATE (lit "ab") EditorMachine.professional None None) ;;
  Session.deliverAll JSON_parse s1 [lit "Hello"; lit " world"].

(** The stream ends: the suggestion is pending. *)
Definition suggested (JSON_parse : jsstring -> option JSON) : result Session.Session :=
  s2 <- streamed JSON_parse ;; Session.send JSON_parse s2 EditorMachine.AI_DONE.

(** A [JSON.parse] that always throws; the example has no payload. *)
Definition noParse : jsstring -> option JSON := fun _ => None.

(** The session with the suggestion pending, and the one the reject
    leaves. *)
Definition suggestedSession : Session.Session :=
  Eval vm_compute in
    match suggested noParse with Ok s => s | Err _ => exampleStart end.

Definition rejectedSession : Session.Session :=
  Eval vm_compute in
    match Session.reject noParse suggestedSession with Ok s => s | Err _ => exampleStart end.

(** The snapshot after the events [evs], sent one after the other. *)
Definition runEvents (s : EditorMachine.Snapshot) (evs : list EditorMachine.Event)
  : EditorMachine.Snapshot :=
  fold_left EditorMachine.transition evs s.

(** The running actor is the one the state invokes, and no actor runs in a
    state that invokes none. *)
Definition actorOfState (s : EditorMachine.Snapshot) : bool :=
  match EditorMachine.value s, EditorMachine.invoked s with
  | EditorMachine.streaming, Some (EditorMachine.streamingAI _ _ _ _) => true
  | EditorMachine.modifying, Some (EditorMachine.modifyingAI _ _ _) => true
  | EditorMachine.idle, None => true
  | EditorMachine.pending, None => true
  | _, _ => false
  end.

(** The content of a text block that holds the unmarked text [s] and
    nothing else. *)
Definition plain (s : jsstring) : list Node :=
  match s with
  | [] => []
  | _ => [Text s []]
  end.

(** The state of the menu that the plugin computes from the text before
    the cursor, [tb], in a block whose content starts at [start0]. *)
Definition menuFor (start0 cursor : nat) (tb : jsstring) : SlashMenuState :=
  match lastIndexOf (lit "/") tb with
  | None => closed
  | Some i =>
      if includes (lit " ") (slice (i + 1) tb) then closed
      else {| active := true; query := slice (i + 1) tb;
              from := start0 + i; to := cursor |}
  end.

(** A character that ends no pattern of the rules and is not the slash:
    not white space and none of the punctuation the patterns end with. *)
Definition ordinary (ch : codeunit) : bool :=
  negb (isWhiteSpace ch) && negb (existsb (N.eqb ch) (lit "'.-`*_~=/" ++ [34%N])).

(** No prefix of [w], typed after [s], sets off a rule or is a slash. *)
Fixpoint quiet (s w : jsstring) : bool :=
  match w with
  | [] => true
  | ch :: w' =>
      negb (N.eqb ch 47)
      && noRule rules (slice2 (List.length s - MAX_MATCH) (List.length s) s ++ [ch])
      && quiet (s ++ [ch]) w'
  end.

(** The nodes made by the rules for ["- [x] "], [">> "] and the callouts. *)
Definition checkedTaskList : Node :=
  Elem task_list [] [Elem task_item [(lit "checked", JBool true)] [Elem paragraph [] []]].

Definition openToggleList : Node :=
  Elem toggle_list [] [Elem toggle_item [(lit "open", JBool true)] [Elem paragraph [] []]].

Definition calloutWith (emoji : jsstring) (kind : string) : Node :=
  Elem callout [(lit "emoji", JStr emoji); (lit "type", JStr (lit kind))]
       [Elem paragraph [] []].
Arguments calloutWith emoji kind%_string.

(** The type is one of those that [exitBlock] looks for. *)
Definition exitable (t : NodeType) : bool :=
  existsb (JS.eqb (typeName t)) exitableBlocks.

(** It is one of them and not an item of a task or toggle list. *)
Definition plainExit (t : NodeType) : bool :=
  exitable t && negb (eqlit (typeName t) "task_item" || eqlit (typeName t) "toggle_item").

(** The types of the nodes on the way from the node in the hole of a
    first frame down to a block of type [t] in the hole of the last. *)
Definition belowTypes (inner : list Frame) (t : NodeType) : list NodeType :=
  match inner with
  | [] => []
  | _ :: fs => List.map ftype fs ++ [t]
  end.

(** The indexes at which the marker occurs in [s], counted from [i]. *)
Fixpoint markersFrom (i : nat) (s : jsstring) : list nat :=
  (if startsWith MARK s then [i] else [])
  ++ match s with
     | [] => []
     | _ :: s' => markersFrom (S i) s'
     end.

Definition markers (s : jsstring) : list nat := markersFrom 0 s.

(** No line terminator in [g]. *)
Definition oneLine (g : jsstring) : bool :=
  forallb (fun c => negb (lineTerminator c)) g.

(** No text node is empty and no leaf has content, at any depth. *)
Fixpoint wellSized (n : Node) : bool :=
  match n with
  | Text s _ => negb (List.length s =? 0)
  | Elem t _ cs => if isLeaf t then (List.length cs =? 0) else forallb wellSized cs
  end.

(** A block that is not of the type named doc. *)
Definition listedBlock (n : Node) : bool :=
  isBlock (nodeType n) && negb (eqlit (typeName (nodeType n)) "doc").

(* ------------------------------------------------------------------ *)
(** ** Strings *)

Lemma JS_eqb_refl (s : jsstring) : JS.eqb s s = true.
Proof.
  induction s as [|x s IH]; simpl; [reflexivity|].
  now rewrite N.eqb_refl, IH.
Qed.

(* ------------------------------------------------------------------ *)
(** ** The session machine *)

Section MachineFacts.

Import EditorMachine.

(** An event without a handler leaves the snapshot as it is. *)
Lemma transition_generate_busy (s : Snapshot) (e : Event) :
  value s <> idle -> isGenerate e = true -> transition s e = s.
Proof.
  intros Hbusy Hgen.
  destruct s as [v c a]; simpl in *.
  destruct e; simpl in Hgen; try discriminate;
    destruct v; try reflexivity; now elim Hbusy.
Qed.

Lemma transition_reject_not_pending (s : Snapshot) :
  value s <> pending -> transition s REJECT = s.
Proof.
  destruct s as [v c a]; simpl; intros H.
  destruct v; try reflexivity. now elim H.
Qed.

End MachineFacts.

Section SessionFacts.

Import EditorMachine Editor Session.

Variable JSON_parse : jsstring -> option JSON.

(** When the machine does not move, no effect of the component runs. *)
Lemma send_unhandled (s : Session) (ev : Event) :
  transition (machine s) ev = machine s -> send JSON_parse s ev = Ok s.
Proof.
  intros H. unfold send, rerender. rewrite H. simpl.
  rewrite JS_eqb_refl. simpl.
  rewrite Bool.eqb_reflx. now destruct s.
Qed.

End SessionFacts.

(* ------------------------------------------------------------------ *)
(** ** Rejecting a suggestion *)

Section RejectFacts.

Import EditorMachine Editor Session.

Variable JSON_parse : jsstring -> option JSON.

Lemma handleReject_cleared (e e' : Editor.Editor) :
  handleReject e = Ok e' -> cleared e'.
Proof.
  unfold handleReject. intros H.
  destruct (match aiTextStartPos e with Some _ => _ | None => _ end) as [v|err];
    simpl in H; [|discriminate].
  injection H as <-. repeat split.
Qed.

Lemma handleReject_fix (e : Editor.Editor) :
  cleared e -> handleReject e = Ok e.
Proof.
  intros (H1 & H2 & H3 & H4 & H5 & H6 & H7).
  destruct e; simpl in *; subst. reflexivity.
Qed.

Lemma onApiText_empty_cleared (e e' : Editor.Editor) :
  cleared e -> onApiText JSON_parse [] e = Ok e' -> cleared e'.
Proof.
  intros (H1 & H2 & H3 & H4 & H5 & H6 & H7) H. simpl in H.
  injection H as <-. repeat split; assumption.
Qed.

Lemma setToolbar_false_cleared (e : Editor.Editor) :
  cleared e -> cleared (setToolbar false e).
Proof.
  intros (H1 & H2 & H3 & H4 & H5 & H6 & H7). repeat split; assumption.
Qed.

(** After a reject the machine is not in [pending], and the refs are
    cleared. *)
Lemma reject_outcome (s s' : Session) :
  reject JSON_parse s = Ok s' ->
  value (machine s') <> pending /\ cleared (editor s')
  /\ (value (machine s) = pending -> value (machine s') = idle).
Proof.
  unfold reject. intros H.
  destruct (handleReject (editor s)) as [e1|err] eqn:He; simpl in H; [|discriminate].
  pose proof (handleReject_cleared _ _ He) as Hc.
  unfold send, rerender in H. simpl in H.
  destruct (JS.eqb _ _) eqn:Hq; simpl in H.
  - destruct (machine s) as [v c a] eqn:Hm; simpl in *.
    destruct v; simpl in H; injection H as <-; simpl;
      (split; [discriminate|split; [try assumption|try discriminate; auto]]).
    now apply setToolbar_false_cleared.
  - destruct (onApiText JSON_parse _ e1) as [e2|err] eqn:Ha; simpl in H; [|discriminate].
    destruct (machine s) as [v c a] eqn:Hm; simpl in *.
    destruct v; simpl in *; try (rewrite JS_eqb_refl in Hq; discriminate).
    injection H as <-; simpl.
    split; [discriminate|]. split; [|auto].
    apply setToolbar_false_cleared. eapply onApiText_empty_cleared; eauto.
Qed.

End RejectFacts.

(* ------------------------------------------------------------------ *)
(** ** Documents with a hole *)

Lemma fragSize_app (a b : list Node) : fragSize (a ++ b) = fragSize a + fragSize b.
Proof.
  unfold fragSize. rewrite map_app. induction (List.map nodeSize a); simpl; lia.
Qed.

Lemma fragSize_cons (a : Node) (b : list Node) : fragSize (a :: b) = nodeSize a + fragSize b.
Proof. reflexivity. Qed.

Lemma nodeSize_Elem t a cs :
  nodeSize (Elem t a cs) = if isLeaf t then 1 else 2 + fragSize cs.
Proof. reflexivity. Qed.

Lemma nodeSize_plug_cons f rest n :
  isLeaf (ftype f) = false ->
  nodeSize (plug (f :: rest) n)
  = 2 + fragSize (fleft f) + nodeSize (plug rest n) + fragSize (fright f).
Proof.
  intros H. simpl plug. rewrite nodeSize_Elem, H, fragSize_app, fragSize_cons. lia.
Qed.

Lemma walkWith_cons below n off start c rest i cur :
  walkWith below n off start (c :: rest) i cur
  = if off =? cur then
      ([{| pnode := n; pindex := i; poffset := start + cur |}], off)
    else if cur + nodeSize c <? off
         then walkWith below n off start rest (S i) (cur + nodeSize c)
    else if cur + nodeSize c =? off then
      ([{| pnode := n; pindex := S i; poffset := start + (cur + nodeSize c) |}], off)
    else
      match c with
      | Text _ _ => ([{| pnode := n; pindex := i; poffset := start + cur |}], off)
      | Elem _ _ _ =>
          let '(p, po) := below c (off - cur - 1) (start + cur + 1) in
          ({| pnode := n; pindex := i; poffset := start + cur |} :: p, po)
      end.
Proof. reflexivity. Qed.

(** Walking past the children to the left of the offset. *)
Lemma walkWith_skip below n off start left rest i cur :
  cur + fragSize left < off ->
  walkWith below n off start (left ++ rest) i cur
  = walkWith below n off start rest (i + List.length left) (cur + fragSize left).
Proof.
  revert i cur. induction left as [|c left IH]; intros i cur H.
  - simpl. unfold fragSize. simpl. now rewrite !Nat.add_0_r.
  - rewrite fragSize_cons in H. simpl app. rewrite walkWith_cons.
    destruct (Nat.eqb_spec off cur); [lia|].
    destruct (Nat.ltb_spec (cur + nodeSize c) off); [|lia].
    rewrite IH by lia. rewrite fragSize_cons. simpl List.length.
    f_equal; lia.
Qed.

(** Entering the child that holds the offset. *)
Lemma walkWith_enter below n off start t a cs rest i cur :
  isLeaf t = false ->
  cur < off -> off <= cur + 1 + fragSize cs ->
  walkWith below n off start (Elem t a cs :: rest) i cur
  = let '(p, po) := below (Elem t a cs) (off - cur - 1) (start + cur + 1) in
    ({| pnode := n; pindex := i; poffset := start + cur |} :: p, po).
Proof.
  intros Hl H1 H2. rewrite walkWith_cons.
  assert (Hs : nodeSize (Elem t a cs) = 2 + fragSize cs)
    by (rewrite nodeSize_Elem; now rewrite Hl).
  destruct (Nat.eqb_spec off cur); [lia|].
  destruct (Nat.ltb_spec (cur + nodeSize (Elem t a cs)) off); [lia|].
  destruct (Nat.eqb_spec (cur + nodeSize (Elem t a cs)) off); [lia|].
  reflexivity.
Qed.

Lemma plug_is_Elem ctx t a cs :
  exists t' a' cs', plug ctx (Elem t a cs) = Elem t' a' cs'.
Proof. destruct ctx; simpl; eauto. Qed.

Lemma nodeSize_plug ctx t a cs :
  openFrames ctx -> isLeaf t = false ->
  match ctx with
  | [] => fragSize cs + 2
  | _ => holePos ctx + fragSize cs + 4
  end <= nodeSize (plug ctx (Elem t a cs)).
Proof.
  intros Hc Ht. induction Hc as [|f rest Hf Hrest IH].
  - simpl. rewrite Ht. unfold fragSize. lia.
  - rewrite nodeSize_plug_cons by assumption.
    simpl holePos. destruct rest as [|g rest'].
    + simpl plug. rewrite nodeSize_Elem, Ht. lia.
    + lia.
Qed.

(** The resolution of a position inside the hole: the path of the frames,
    then the resolution inside the node in the hole. *)
Lemma resolveIn_plug ctx t a cs k start :
  ctx <> [] -> openFrames ctx -> isLeaf t = false -> k <= fragSize cs ->
  resolveIn (plug ctx (Elem t a cs)) (holePos ctx + 1 + k) start
  = (ctxPath ctx (Elem t a cs) start
       ++ fst (resolveIn (Elem t a cs) k (start + holePos ctx + 1)),
     snd (resolveIn (Elem t a cs) k (start + holePos ctx + 1))).
Proof.
  intros Hne Hc Ht Hk. revert start Hne.
  induction Hc as [|f rest Hf Hrest IH]; intros start Hne; [congruence|].
  change (resolveIn (plug (f :: rest) (Elem t a cs)) (holePos (f :: rest) + 1 + k) start)
    with (walkWith resolveIn (plug (f :: rest) (Elem t a cs))
            (holePos (f :: rest) + 1 + k) start
            (fleft f ++ plug rest (Elem t a cs) :: fright f) 0 0).
  rewrite walkWith_skip by (simpl holePos; destruct rest; lia).
  rewrite !Nat.add_0_l.
  destruct rest as [|g rest'].
  - (* the hole is a child of this frame *)
    change (plug [] (Elem t a cs)) with (Elem t a cs).
    change (holePos [f]) with (fragSize (fleft f) + 0). rewrite Nat.add_0_r.
    rewrite walkWith_enter by (assumption || lia).
    replace (fragSize (fleft f) + 1 + k - fragSize (fleft f) - 1) with k by lia.
    remember (resolveIn (Elem t a cs) k (start + fragSize (fleft f) + 1)) as r eqn:Hr.
    destruct r as [p po]. reflexivity.
  - assert (Hsz := nodeSize_plug (g :: rest') t a cs Hrest Ht).
    remember (g :: rest') as ctx' eqn:Hctx'.
    assert (Hne' : ctx' <> []) by (subst; discriminate).
    destruct (plug_is_Elem ctx' t a cs) as (t' & a' & cs' & Hp).
    assert (Hl : isLeaf t' = false).
    { subst ctx'. simpl in Hp. injection Hp as <- _ _. now inversion Hrest. }
    assert (Hh : holePos (f :: ctx') = fragSize (fleft f) + (1 + holePos ctx'))
      by (subst ctx'; reflexivity).
    rewrite Hh.
    assert (Hsz' : holePos ctx' + 1 + fragSize cs + 2 <= 2 + fragSize cs').
    { rewrite Hp, nodeSize_Elem, Hl in Hsz. subst ctx'. lia. }
    rewrite Hp.
    rewrite walkWith_enter by (assumption || lia).
    rewrite <- Hp.
    replace (fragSize (fleft f) + (1 + holePos ctx') + 1 + k - fragSize (fleft f) - 1)
      with (holePos ctx' + 1 + k) by lia.
    rewrite (IH (start + fragSize (fleft f) + 1) Hne').
    replace (start + fragSize (fleft f) + 1 + holePos ctx' + 1)
      with (start + (fragSize (fleft f) + (1 + holePos ctx')) + 1) by lia.
    reflexivity.
Qed.

Lemma inline_leaf c : isInline (nodeType c) = true -> isLeaf (nodeType c) = true.
Proof. destruct c as [s m|t a cs]; simpl; [reflexivity|]. now destruct t. Qed.

Lemma inline_size c :
  isInline (nodeType c) = true ->
  match c with Text _ _ => True | Elem _ _ _ => nodeSize c = 1 end.
Proof.
  intros H. destruct c as [s m|t a cs]; [exact I|].
  rewrite nodeSize_Elem. apply inline_leaf in H. simpl in H. now rewrite H.
Qed.

(** In a text block the walk ends at the block itself: it gives one path
    entry, whose index and offset do not depend on where the block starts. *)
Lemma walkWith_flat n off l :
  inlineKids l ->
  forall i cur, cur <= off ->
  exists i' o, cur <= o /\ o <= off /\
    forall below start,
      walkWith below n off start l i cur
      = ([{| pnode := n; pindex := i'; poffset := start + o |}], off).
Proof.
  induction 1 as [|c l Hc Hl IH]; intros i cur Hle.
  - exists i, cur. repeat split; auto.
  - destruct (Nat.eqb_spec off cur) as [->|Hne].
    + exists i, cur. repeat split; auto. intros. rewrite walkWith_cons.
      now rewrite Nat.eqb_refl.
    + destruct (Nat.ltb_spec (cur + nodeSize c) off) as [Hlt|Hge].
      * destruct (IH (S i) (cur + nodeSize c)) as (i' & o & H1 & H2 & H3); [lia|].
        exists i', o. repeat split; [lia|lia|]. intros. rewrite walkWith_cons.
        destruct (Nat.eqb_spec off cur); [lia|].
        destruct (Nat.ltb_spec (cur + nodeSize c) off); [|lia]. apply H3.
      * destruct (Nat.eqb_spec (cur + nodeSize c) off) as [He|Hne'].
        -- exists (S i), (cur + nodeSize c). repeat split; [lia|lia|].
           intros. rewrite walkWith_cons.
           destruct (Nat.eqb_spec off cur); [lia|].
           destruct (Nat.ltb_spec (cur + nodeSize c) off); [lia|].
           destruct (Nat.eqb_spec (cur + nodeSize c) off); [|lia]. reflexivity.
        -- exists i, cur. repeat split; [lia|lia|].
           intros. rewrite walkWith_cons.
           destruct (Nat.eqb_spec off cur); [lia|].
           destruct (Nat.ltb_spec (cur + nodeSize c) off); [lia|].
           destruct (Nat.eqb_spec (cur + nodeSize c) off); [lia|].
           pose proof (inline_size c Hc) as Hs.
           destruct c as [s m|t a cs]; [reflexivity|]. lia.
Qed.

Lemma ctxPath_length ctx n start : List.length (ctxPath ctx n start) = List.length ctx.
Proof. revert start. induction ctx as [|f rest IH]; intros; simpl; auto. Qed.

Lemma contentSize_plug_ge ctx t a cs :
  ctx <> [] -> openFrames ctx -> isLeaf t = false ->
  holePos ctx + 1 + fragSize cs + 1 <= contentSize (plug ctx (Elem t a cs)).
Proof.
  intros Hne Hc Ht.
  pose proof (nodeSize_plug ctx t a cs Hc Ht) as H.
  destruct ctx as [|f rest]; [congruence|].
  inversion Hc as [|? ? Hf Hrest]; subst.
  change (plug (f :: rest) (Elem t a cs))
    with (Elem (ftype f) (fattrs f) (fleft f ++ plug rest (Elem t a cs) :: fright f)) in *.
  rewrite nodeSize_Elem, Hf in H. unfold contentSize. simpl children. lia.
Qed.

Lemma resolve_inside ctx t a cs k :
  ctx <> [] -> openFrames ctx -> isLeaf t = false -> inlineKids cs ->
  k <= fragSize cs ->
  exists r, resolve (plug ctx (Elem t a cs)) (holePos ctx + 1 + k) = Ok r
            /\ InBlock ctx (Elem t a cs) k r.
Proof.
  intros Hne Hc Ht Hin Hk.
  unfold resolve at 1.
  pose proof (contentSize_plug_ge ctx t a cs Hne Hc Ht) as Hsz.
  destruct (Nat.leb_spec (holePos ctx + 1 + k) (contentSize (plug ctx (Elem t a cs)))); [|lia].
  rewrite resolveIn_plug by assumption.
  destruct (walkWith_flat (Elem t a cs) k cs Hin 0 0 (Nat.le_0_l _)) as (i & o & _ & Ho & Hw).
  change (resolveIn (Elem t a cs) k (0 + holePos ctx + 1))
    with (walkWith resolveIn (Elem t a cs) k (0 + holePos ctx + 1) cs 0 0).
  rewrite Hw. simpl fst. simpl snd.
  eexists. split; [reflexivity|].
  constructor; simpl; auto.
  exists i, o. split; [assumption|]. split; [reflexivity|].
  unfold resolve. unfold contentSize. simpl children.
  destruct (Nat.leb_spec k (fragSize cs)); [|lia].
  change (resolveIn (Elem t a cs) k 0) with (walkWith resolveIn (Elem t a cs) k 0 cs 0 0).
  rewrite Hw. reflexivity.
Qed.

Section InBlockFacts.

Variables (ctx : list Frame) (blk : Node) (k : nat) (r : ResolvedPos).
Hypothesis Hne : ctx <> [].
Hypothesis Hr : InBlock ctx blk k r.

Lemma ib_depth : depth r = List.length ctx.
Proof.
  destruct Hr as [_ _ (i & o & _ & Hp & _)]. unfold depth. rewrite Hp.
  rewrite length_app, ctxPath_length. simpl. lia.
Qed.

Lemma ib_entry_last :
  exists i o, o <= k /\
    entry r (List.length ctx)
    = {| pnode := blk; pindex := i; poffset := holePos ctx + 1 + o |}
    /\ resolve blk k
       = Ok {| pos := k; path := [{| pnode := blk; pindex := i; poffset := o |}];
               parentOffset := k |}.
Proof.
  destruct Hr as [_ _ (i & o & Ho & Hp & Ha)]. exists i, o. split; [assumption|].
  split; [|assumption].
  unfold entry. rewrite Hp.
  rewrite app_nth2; rewrite ctxPath_length; [|lia].
  now rewrite Nat.sub_diag.
Qed.

Lemma ib_parent : parent r = blk.
Proof.
  unfold parent, node. rewrite ib_depth.
  destruct ib_entry_last as (i & o & _ & -> & _). reflexivity.
Qed.

Lemma ib_entry d :
  d < List.length ctx -> entry r d = nth d (ctxPath ctx blk 0) dummyEntry.
Proof.
  intros Hd. destruct Hr as [_ _ (i & o & _ & Hp & _)]. unfold entry. rewrite Hp.
  apply app_nth1. now rewrite ctxPath_length.
Qed.

End InBlockFacts.

(** The entries of [ctxPath]. *)
Lemma ctxPath_nth ctx n start d :
  d < List.length ctx ->
  nth d (ctxPath ctx n start) dummyEntry
  = {| pnode := plug (skipn d ctx) n;
       pindex := List.length (fleft (nth d ctx (Build_Frame Schema.doc [] [] [])));
       poffset := start + holePos (firstn (S d) ctx) |}.
Proof.
  revert start d. induction ctx as [|f rest IH]; intros start d Hd; [simpl in Hd; lia|].
  destruct d as [|d].
  - simpl. f_equal. lia.
  - simpl in Hd. simpl ctxPath. simpl nth. rewrite IH by lia.
    simpl skipn. f_equal.
    change (firstn (S (S d)) (f :: rest)) with (f :: firstn (S d) rest).
    simpl holePos. destruct rest as [|g rest']; [simpl in Hd; lia|].
    simpl firstn. lia.
Qed.

Lemma ib_start ctx blk k r :
  ctx <> [] -> InBlock ctx blk k r -> start r (depth r) = holePos ctx + 1.
Proof.
  intros Hne Hr. rewrite (ib_depth ctx blk k r Hr).
  destruct ctx as [|f rest]; [congruence|].
  simpl List.length. unfold start.
  rewrite (ib_entry (f :: rest) blk k r Hr) by (simpl; lia).
  rewrite ctxPath_nth by (simpl; lia). simpl poffset.
  change (S (List.length rest)) with (List.length (f :: rest)).
  now rewrite firstn_all.
Qed.

(* ------------------------------------------------------------------ *)
(** ** Replacing inside a text block *)

Lemma replaceChild_app l c x r :
  replaceChild (List.length l) c (l ++ x :: r) = l ++ c :: r.
Proof. induction l as [|y l IH]; simpl; [reflexivity|]. now rewrite IH. Qed.

Lemma rebuild_ctxPath ctx n inner start :
  rebuild (ctxPath ctx n start) inner = plug ctx inner.
Proof.
  revert start. induction ctx as [|f rest IH]; intros start; [reflexivity|].
  simpl ctxPath. simpl rebuild. rewrite IH. simpl. now rewrite replaceChild_app.
Qed.

Lemma firstn_ctxPath ctx n start tail :
  firstn (List.length ctx) (ctxPath ctx n start ++ tail) = ctxPath ctx n start.
Proof.
  rewrite <- (ctxPath_length ctx n start).
  rewrite firstn_app, Nat.sub_diag, firstn_all. simpl. now rewrite app_nil_r.
Qed.

Lemma nodeType_cutNode f t c : nodeType (cutNode f t c) = nodeType c.
Proof. destruct c; reflexivity. Qed.

Lemma inlineKids_cutWith f t l p :
  inlineKids l -> inlineKids (cutWith cutNode f t l p).
Proof.
  intros H. revert p. induction H as [|c l Hc Hl IH]; intros p; simpl; [constructor|].
  destruct (t <=? p); [constructor|].
  apply Forall_app. split; [|apply IH].
  destruct (f <? p + nodeSize c); [|constructor].
  constructor; [|constructor].
  destruct ((p <? f) || (t <? p + nodeSize c)); [|assumption].
  destruct c; rewrite nodeType_cutNode; assumption.
Qed.

Lemma inlineKids_cut f t l : inlineKids l -> inlineKids (cut f t l).
Proof.
  intros H. unfold cut. destruct (f <? t); [now apply inlineKids_cutWith|constructor].
Qed.

Lemma inlineKids_removelast l : inlineKids l -> inlineKids (removelast l).
Proof.
  induction 1 as [|c l Hc Hl IH]; simpl; [constructor|].
  destruct l; [constructor|]. constructor; assumption.
Qed.

Lemma inlineKids_append a b : inlineKids a -> inlineKids b -> inlineKids (append a b).
Proof.
  intros Ha Hb. unfold append.
  destruct a as [|x a']; [destruct b; assumption|].
  destruct b as [|y b']; [assumption|].
  destruct (last (x :: a') y) as [s m|? ? ?] eqn:El; [|now apply Forall_app].
  destruct y as [s' m'|? ? ?]; [|now apply Forall_app].
  destruct (sameSet m m'); [|now apply Forall_app].
  apply Forall_app. split; [now apply inlineKids_removelast|].
  constructor; [reflexivity|]. now inversion Hb.
Qed.

(** Paragraphs and headings, the blocks that take marks. *)
Lemma markable_open t : allowsMarks t = true -> isLeaf t = false.
Proof. destruct t; simpl; try discriminate; reflexivity. Qed.

(** The text blocks: paragraphs, headings and code blocks. *)
Lemma textblock_open t : isTextblock t = true -> isLeaf t = false.
Proof. destruct t; simpl; try discriminate; reflexivity. Qed.

Lemma textblock_inline t : isTextblock t = true -> inlineContent t = true.
Proof. destruct t; simpl; try discriminate; reflexivity. Qed.

Lemma textblock_block t : isTextblock t = true -> isBlock t = true.
Proof. destruct t; simpl; try discriminate; reflexivity. Qed.

Lemma markable_textblock t : allowsMarks t = true -> isTextblock t = true.
Proof. destruct t; simpl; try discriminate; reflexivity. Qed.

Lemma markable_kids t cs : allowsMarks t = true -> inlineKids cs -> kidsOf t cs.
Proof.
  intros Ht H. unfold kidsOf, kidOf. rewrite Ht. exact H.
Qed.

Lemma kidOf_inline t c : kidOf t c = true -> isInline (nodeType c) = true.
Proof.
  unfold kidOf. destruct (allowsMarks t); [auto|].
  destruct c; [reflexivity|discriminate].
Qed.

Lemma kidsOf_inline t cs : kidsOf t cs -> inlineKids cs.
Proof. apply Forall_impl. intros c. apply kidOf_inline. Qed.

Lemma kidOf_cutNode t f to c : kidOf t (cutNode f to c) = kidOf t c.
Proof. destruct c; reflexivity. Qed.

Lemma kidsOf_cutWith t f to l p :
  kidsOf t l -> kidsOf t (cutWith cutNode f to l p).
Proof.
  intros H. revert p. induction H as [|c l Hc Hl IH]; intros p; simpl; [constructor|].
  destruct (to <=? p); [constructor|].
  apply Forall_app. split; [|apply IH].
  destruct (f <? p + nodeSize c); [|constructor].
  constructor; [|constructor].
  destruct ((p <? f) || (to <? p + nodeSize c)); [|assumption].
  destruct c; rewrite kidOf_cutNode; assumption.
Qed.

Lemma kidsOf_cut t f to l : kidsOf t l -> kidsOf t (cut f to l).
Proof.
  intros H. unfold cut. destruct (f <? to); [now apply kidsOf_cutWith|constructor].
Qed.

Lemma kidsOf_removelast t l : kidsOf t l -> kidsOf t (removelast l).
Proof.
  induction 1 as [|c l Hc Hl IH]; simpl; [constructor|].
  destruct l; [constructor|]. constructor; assumption.
Qed.

Lemma kidsOf_last t l d : kidsOf t l -> kidOf t d = true -> kidOf t (last l d) = true.
Proof.
  induction 1 as [|c l Hc Hl IH]; intros Hd; simpl; [assumption|].
  destruct l; [assumption|]. now apply IH.
Qed.

Lemma kidsOf_append t a b : kidsOf t a -> kidsOf t b -> kidsOf t (append a b).
Proof.
  intros Ha Hb. unfold append.
  destruct a as [|x a']; [destruct b; assumption|].
  destruct b as [|y b']; [assumption|].
  inversion Hb as [|? ? Hy Hb']; subst.
  pose proof (kidsOf_last t (x :: a') y Ha Hy) as Hl.
  destruct (last (x :: a') y) as [s m|? ? ?] eqn:El; [|now apply Forall_app].
  destruct y as [s' m'|? ? ?]; [|now apply Forall_app].
  destruct (sameSet m m'); [|now apply Forall_app].
  apply Forall_app. split; [now apply kidsOf_removelast|].
  constructor; [exact Hl|assumption].
Qed.

Lemma kidsOf_firstn t n l : kidsOf t l -> kidsOf t (firstn n l).
Proof.
  intros H. revert n. induction H as [|c l Hc Hl IH]; intros [|n]; simpl;
    constructor; auto. apply IH.
Qed.

Lemma kidsOf_skipn t n l : kidsOf t l -> kidsOf t (skipn n l).
Proof.
  intros H. revert n. induction H as [|c l Hc Hl IH]; intros [|n]; simpl;
    try (constructor; assumption). apply IH.
Qed.

Lemma kidsOf_spliced t cs k1 k2 content :
  kidsOf t cs -> kidsOf t content -> kidsOf t (spliced cs k1 k2 content).
Proof.
  intros. unfold spliced.
  apply kidsOf_append; [apply kidsOf_append|]; auto using kidsOf_cut.
Qed.

Lemma kidsOf_types t l :
  isTextblock t = true -> kidsOf t l ->
  validContentTypes t (List.map nodeType l) = true.
Proof.
  intros Ht H. induction H as [|c l Hc Hl IH].
  - destruct t; try discriminate; reflexivity.
  - unfold kidOf in Hc.
    destruct t; try discriminate; simpl in *; rewrite IH;
      try (now rewrite Hc).
    destruct c; [reflexivity|discriminate].
Qed.

Lemma kidsOf_unmarked t l :
  kidsOf t l -> allowsMarks t || forallb unmarked l = true.
Proof.
  intros H. destruct (allowsMarks t) eqn:E; [reflexivity|]. simpl.
  induction H as [|c l Hc Hl IH]; [reflexivity|].
  unfold kidOf in Hc. rewrite E in Hc. apply andb_prop in Hc as [_ Hc].
  simpl. now rewrite Hc, IH.
Qed.

Lemma kidsOf_valid t l :
  isTextblock t = true -> kidsOf t l -> validContent t l = true.
Proof.
  intros Ht H. unfold validContent.
  now rewrite (kidsOf_types t l Ht H), (kidsOf_unmarked t l H).
Qed.

Lemma inlineKids_spliced cs k1 k2 content :
  inlineKids cs -> inlineKids content -> inlineKids (spliced cs k1 k2 content).
Proof.
  intros. unfold spliced.
  apply inlineKids_append; [apply inlineKids_append|]; auto using inlineKids_cut.
Qed.

Lemma replaceStep_inside ctx t a cs k1 k2 content :
  ctx <> [] -> openFrames ctx -> isTextblock t = true ->
  kidsOf t cs -> kidsOf t content ->
  k1 <= fragSize cs -> k2 <= fragSize cs ->
  (k1 =? k2) && (fragSize content =? 0) = false ->
  replaceStep (plug ctx (Elem t a cs)) (holePos ctx + 1 + k1) (holePos ctx + 1 + k2) content
  = Ok (Some (plug ctx (Elem t a (spliced cs k1 k2 content)),
              {| mstart := holePos ctx + 1 + k1;
                 oldSize := holePos ctx + 1 + k2 - (holePos ctx + 1 + k1);
                 newSize := fragSize content |})).
Proof.
  intros Hne Hc Ht Hkids Hcontent Hk1 Hk2 Hsome.
  pose proof (textblock_open t Ht) as Hopen.
  pose proof (kidsOf_inline t cs Hkids) as Hcs.
  unfold replaceStep.
  replace (holePos ctx + 1 + k1 =? holePos ctx + 1 + k2) with (k1 =? k2)
    by (destruct (Nat.eqb_spec k1 k2); destruct (Nat.eqb_spec (holePos ctx + 1 + k1) (holePos ctx + 1 + k2)); auto; lia).
  rewrite Hsome.
  destruct (resolve_inside ctx t a cs k1 Hne Hc Hopen Hcs Hk1) as (rf & Hrf & Hf).
  destruct (resolve_inside ctx t a cs k2 Hne Hc Hopen Hcs Hk2) as (rt & Hrt & Hto).
  rewrite Hrf, Hrt. simpl bind.
  rewrite (ib_parent ctx _ k1 rf Hf).
  rewrite (ib_start ctx _ k1 rf Hne Hf), (ib_start ctx _ k2 rt Hne Hto).
  rewrite Nat.eqb_refl. simpl andb.
  unfold canReplace. simpl nodeType. simpl children.
  rewrite (kidsOf_types t _ Ht)
    by (apply Forall_app; split; [apply kidsOf_firstn; assumption|];
        apply Forall_app; split; [assumption|apply kidsOf_skipn; assumption]).
  rewrite (kidsOf_unmarked t content Hcontent). simpl andb. cbv iota.
  rewrite (ib_offset _ _ _ _ Hf), (ib_offset _ _ _ _ Hto).
  fold (spliced cs k1 k2 content).
  rewrite (kidsOf_valid t _ Ht (kidsOf_spliced t cs k1 k2 content Hkids Hcontent)).
  rewrite (ib_depth ctx _ k1 rf Hf).
  destruct Hf as [_ _ (i & o & _ & Hp & _)]. rewrite Hp.
  rewrite firstn_ctxPath. simpl copy. rewrite rebuild_ctxPath.
  reflexivity.
Qed.

(* ------------------------------------------------------------------ *)
(** ** Sizes *)

Lemma fragSize_removelast_last a d :
  a <> [] -> fragSize (removelast a) + nodeSize (last a d) = fragSize a.
Proof.
  induction a as [|x a IH]; intros H; [congruence|].
  destruct a as [|y a'].
  - simpl. unfold fragSize. simpl. lia.
  - change (removelast (x :: y :: a')) with (x :: removelast (y :: a')).
    change (last (x :: y :: a') d) with (last (y :: a') d).
    pose proof (IH ltac:(discriminate)) as IH'.
    rewrite (fragSize_cons x (removelast (y :: a'))), (fragSize_cons x (y :: a')). lia.
Qed.

Lemma fragSize_append a b : fragSize (append a b) = fragSize a + fragSize b.
Proof.
  unfold append.
  destruct a as [|x a']; [destruct b; simpl; unfold fragSize; simpl; lia|].
  destruct b as [|y b']; [unfold fragSize; simpl; lia|].
  destruct (last (x :: a') y) as [s m|? ? ?] eqn:El; [|apply fragSize_app].
  destruct y as [s' m'|? ? ?]; [|apply fragSize_app].
  destruct (sameSet m m'); [|apply fragSize_app].
  rewrite fragSize_app, (fragSize_cons (Text (s ++ s') m) b'),
    (fragSize_cons (Text s' m') b').
  pose proof (fragSize_removelast_last (x :: a') (Text s' m') ltac:(discriminate)) as H.
  rewrite El in H. simpl nodeSize in *. rewrite length_app. lia.
Qed.

Lemma length_slice2 i j (s : jsstring) :
  List.length (slice2 i j s) = Nat.min (j - i) (List.length s - i).
Proof. unfold slice2. now rewrite length_firstn, length_skipn. Qed.

Lemma fragSize_cutWith l :
  inlineKids l ->
  forall from to p,
    fragSize (cutWith cutNode from to l p)
    = Nat.min to (p + fragSize l) - Nat.max from p.
Proof.
  induction 1 as [|c l Hc Hl IH]; intros from to p.
  - simpl. unfold fragSize. simpl. lia.
  - simpl cutWith. rewrite fragSize_cons.
    destruct (Nat.leb_spec to p) as [Hle|Hlt]; [unfold fragSize; simpl; lia|].
    rewrite fragSize_app, IH.
    pose proof (inline_size c Hc) as Hs.
    destruct (Nat.ltb_spec from (p + nodeSize c)) as [Hf|Hf];
      [|unfold fragSize at 1; simpl; lia].
    destruct ((p <? from) || (to <? p + nodeSize c)) eqn:Hcut.
    + destruct c as [s m|t a cs].
      * unfold fragSize at 1. simpl list_sum. simpl nodeSize in *.
        rewrite length_slice2. 
        apply orb_true_iff in Hcut as [Hcut|Hcut];
          [apply Nat.ltb_lt in Hcut|apply Nat.ltb_lt in Hcut]; lia.
      * apply orb_true_iff in Hcut as [Hcut|Hcut];
          [apply Nat.ltb_lt in Hcut|apply Nat.ltb_lt in Hcut]; lia.
    + apply orb_false_iff in Hcut as [H1 H2].
      apply Nat.ltb_ge in H1, H2.
      unfold fragSize at 1. simpl list_sum. lia.
Qed.

Lemma fragSize_cut l from to :
  inlineKids l -> fragSize (cut from to l) = Nat.min to (fragSize l) - from.
Proof.
  intros H. unfold cut. destruct (Nat.ltb_spec from to).
  - rewrite fragSize_cutWith by assumption. lia.
  - unfold fragSize. simpl. lia.
Qed.

Lemma fragSize_spliced cs k1 k2 content :
  inlineKids cs -> k1 <= fragSize cs -> k2 <= fragSize cs ->
  fragSize (spliced cs k1 k2 content) = k1 + fragSize content + (fragSize cs - k2).
Proof.
  intros H H1 H2. unfold spliced.
  rewrite !fragSize_append, !fragSize_cut by assumption. lia.
Qed.

(* ------------------------------------------------------------------ *)
(** ** Typing into a text block *)

Lemma marksAt_ext r r' :
  parent r = parent r' -> index r (depth r) = index r' (depth r') ->
  textOffset r = textOffset r' -> marksAt r = marksAt r'.
Proof. intros H1 H2 H3. unfold marksAt. now rewrite H1, H2, H3. Qed.

Lemma ib_marks ctx blk k r :
  ctx <> [] -> InBlock ctx blk k r -> marksAt r = marksIn blk k.
Proof.
  intros Hne Hr.
  destruct (ib_entry_last ctx blk k r Hr) as (i & o & Ho & He & Ha).
  unfold marksIn. rewrite Ha.
  apply marksAt_ext.
  - rewrite (ib_parent ctx blk k r Hr). reflexivity.
  - unfold index. rewrite (ib_depth ctx blk k r Hr), He. reflexivity.
  - unfold textOffset. rewrite (ib_depth ctx blk k r Hr), He.
    rewrite (ib_pos _ _ _ _ Hr). simpl. lia.
Qed.

Lemma fromArray_one n : fromArray [n] = [n].
Proof. destruct n; reflexivity. Qed.

Lemma fragSize_one n : fragSize [n] = nodeSize n.
Proof. unfold fragSize. simpl. lia. Qed.

(** A transaction that puts one inline node at the cursor. *)
Lemma replace_at_cursor ctx t a cs k n sel sm :
  ctx <> [] -> openFrames ctx -> isTextblock t = true ->
  kidsOf t cs -> kidOf t n = true -> 0 < nodeSize n ->
  k <= fragSize cs ->
  let st := {| doc := plug ctx (Elem t a cs); selection := sel; slashMenu := sm |} in
  let p := holePos ctx + 1 + k in
  State.replace (tr st) p p [n]
  = Ok {| tr_doc := plug ctx (Elem t a (spliced cs k k [n]));
          maps := [{| mstart := p; oldSize := 0; newSize := nodeSize n |}];
          curSelection := sel; curSelectionFor := 0; slashMeta := None |}.
Proof.
  intros Hne Hc Ht Hcs Hn Hsz Hk st p.
  unfold State.replace. rewrite fromArray_one.
  unfold tr, st. cbn [tr_doc doc maps curSelection curSelectionFor slashMeta selection].
  unfold p. rewrite replaceStep_inside; try assumption.
  - cbn [bind]. rewrite fragSize_one, Nat.sub_diag. reflexivity.
  - constructor; [assumption|constructor].
  - rewrite fragSize_one. destruct (Nat.eqb_spec (nodeSize n) 0); [lia|].
    apply andb_false_r.
Qed.

(** The cursor after text of size [n] was put where it stood. *)
Lemma tr_selection_at_cursor ctx t a cs' k n meta :
  ctx <> [] -> openFrames ctx -> isTextblock t = true ->
  inlineKids cs' -> k + n <= fragSize cs' ->
  let p := holePos ctx + 1 + k in
  tr_selection
    {| tr_doc := plug ctx (Elem t a cs');
       maps := [{| mstart := p; oldSize := 0; newSize := n |}];
       curSelection := TextSelection p p; curSelectionFor := 0; slashMeta := meta |}
  = Ok (TextSelection (p + n) (p + n)).
Proof.
  intros Hne Hc Ht Hcs Hk p.
  pose proof (textblock_open t Ht) as Hopen.
  unfold tr_selection.
  cbn [tr_doc maps curSelection curSelectionFor slashMeta List.length Nat.ltb Nat.leb skipn].
  unfold mapSelection, mapPos, mapResult, mapStep.
  cbn [mstart oldSize newSize fst].
  rewrite Nat.ltb_irrefl, Nat.add_0_r, Nat.leb_refl.
  cbn [Nat.eqb fst].
  destruct (resolve_inside ctx t a cs' (k + n) Hne Hc Hopen Hcs Hk) as (rh & Hrh & Hh).
  replace (p + n) with (holePos ctx + 1 + (k + n)) by (unfold p; lia).
  rewrite Hrh. cbn [bind].
  rewrite (ib_parent ctx _ _ rh Hh). cbn [nodeType].
  rewrite (textblock_inline t Ht). cbn [negb].
  rewrite (ib_pos _ _ _ _ Hh). reflexivity.
Qed.

(** Dispatching it moves the cursor behind what was put in. *)
Lemma dispatch_at_cursor ctx t a cs cs' k n sm :
  ctx <> [] -> openFrames ctx -> isTextblock t = true ->
  inlineKids cs' -> k + n <= fragSize cs' -> active sm = false ->
  let p := holePos ctx + 1 + k in
  let st := {| doc := plug ctx (Elem t a cs); selection := TextSelection p p;
               slashMenu := sm |} in
  SlashCommand.dispatch st
    {| tr_doc := plug ctx (Elem t a cs');
       maps := [{| mstart := p; oldSize := 0; newSize := n |}];
       curSelection := TextSelection p p; curSelectionFor := 0; slashMeta := None |}
  = Ok {| doc := plug ctx (Elem t a cs'); selection := TextSelection (p + n) (p + n);
          slashMenu := sm |}.
Proof.
  intros Hne Hc Ht Hcs Hk Hsm p st.
  unfold SlashCommand.dispatch, applyWith.
  unfold p. rewrite (tr_selection_at_cursor ctx t a cs' k n None Hne Hc Ht Hcs Hk).
  cbn [bind]. unfold SlashCommand.apply. cbn [slashMeta slashMenu st].
  rewrite Hsm. cbn [andb bind tr_doc]. reflexivity.
Qed.

(* ------------------------------------------------------------------ *)
(** ** What the rules cannot match *)

Lemma nullable_deriv_last r c : nullable (deriv c r) = true -> lastChars r c = true.
Proof.
  induction r as [| |x|p|a IHa b IHb|a IHa b IHb|a IHa]; simpl; try discriminate.
  - destruct (N.eqb c x); simpl; auto.
  - destruct (p c); simpl; auto.
  - destruct (nullable a) eqn:Na; simpl; intros H.
    + apply orb_true_iff in H as [H|H].
      * apply andb_prop in H as [H1 H2]. rewrite H2, (IHa H1). apply orb_true_r.
      * rewrite (IHb H). reflexivity.
    + apply andb_prop in H as [H1 H2]. rewrite H2, (IHa H1). apply orb_true_r.
  - intros H. apply orb_true_iff in H as [H|H]; [rewrite (IHa H)|rewrite (IHb H)];
      auto using orb_true_r.
  - intros H. apply andb_prop in H as [H _]. auto.
Qed.

Lemma lastChars_deriv r x c : lastChars (deriv x r) c = true -> lastChars r c = true.
Proof.
  induction r as [| |y|p|a IHa b IHb|a IHa b IHb|a IHa]; simpl; try discriminate.
  - destruct (N.eqb x y); simpl; discriminate.
  - destruct (p x); simpl; discriminate.
  - destruct (nullable a) eqn:Na; simpl; intros H.
    + apply orb_true_iff in H as [H|H].
      * apply orb_true_iff in H as [H|H]; [rewrite H; reflexivity|].
        apply andb_prop in H as [H1 H2]. rewrite H1, (IHa H2). apply orb_true_r.
      * rewrite (IHb H). reflexivity.
    + apply orb_true_iff in H as [H|H]; [rewrite H; reflexivity|].
      apply andb_prop in H as [H1 H2]. rewrite H1, (IHa H2). apply orb_true_r.
  - intros H. apply orb_true_iff in H as [H|H]; [rewrite (IHa H)|rewrite (IHb H)];
      auto using orb_true_r.
  - intros H. apply orb_true_iff in H as [H|H]; [assumption|auto].
Qed.

Lemma matches_last r s c : matches r (s ++ [c]) = true -> lastChars r c = true.
Proof.
  revert r. induction s as [|x s IH]; intros r; simpl.
  - apply nullable_deriv_last.
  - intros H. apply (lastChars_deriv r x c). now apply IH.
Qed.

Lemma matchHere_cannotEnd c p prev i s :
  cannotEnd c p = true -> matchHere p prev i (s ++ [c]) = false.
Proof.
  intros H. unfold matchHere.
  replace (existsb _ (alts p)) with false; [apply andb_false_r|].
  symmetry. unfold cannotEnd in H.
  induction (alts p) as [|alt l IH]; simpl in *; [reflexivity|].
  apply andb_prop in H as [H1 H2]. apply andb_prop in H1 as [H1 _].
  rewrite (IH H2), orb_false_r.
  destruct (matches (snd alt) (s ++ [c])) eqn:Hm; [|apply andb_false_r].
  apply matches_last in Hm. rewrite Hm in H1. discriminate.
Qed.

Lemma matchHere_nil_cannotEnd c p prev i :
  cannotEnd c p = true -> matchHere p prev i [] = false.
Proof.
  intros H. unfold matchHere.
  replace (existsb _ (alts p)) with false; [apply andb_false_r|].
  symmetry. unfold cannotEnd in H.
  induction (alts p) as [|alt l IH]; simpl in *; [reflexivity|].
  apply andb_prop in H as [H1 H2]. apply andb_prop in H1 as [_ H1].
  rewrite (IH H2), orb_false_r.
  destruct (nullable (snd alt)); [discriminate|apply andb_false_r].
Qed.

Lemma exec_cannotEnd c p s :
  cannotEnd c p = true -> exec p (s ++ [c]) = None.
Proof.
  intros H. unfold exec. generalize (@None codeunit) as prev. generalize 0 as i.
  induction s as [|x s IH]; intros i prev.
  - pose proof (matchHere_cannotEnd c p prev i [] H) as H1. simpl app in H1.
    simpl app. simpl execFrom. rewrite H1.
    now rewrite (matchHere_nil_cannotEnd c p (Some c) (S i) H).
  - pose proof (matchHere_cannotEnd c p prev i (x :: s) H) as H1. simpl app in H1.
    simpl app. simpl execFrom. rewrite H1. apply IH.
Qed.

Lemma runLoop_noRule st from to txt tb code l :
  noRule l tb = true -> runLoop st from to txt tb code l = Ok None.
Proof.
  induction l as [|rule l IH]; simpl; [reflexivity|].
  intros H. apply andb_prop in H as [H1 H2].
  destruct code; [now apply IH|].
  destruct (exec (pattern rule) tb); [discriminate|]. now apply IH.
Qed.

Lemma noRule_cannotEnd c l s :
  forallb (fun rule => cannotEnd c (pattern rule)) l = true ->
  noRule l (s ++ [c]) = true.
Proof.
  induction l as [|rule l IH]; simpl; [reflexivity|].
  intros H. apply andb_prop in H as [H1 H2].
  rewrite (exec_cannotEnd c (pattern rule) s H1). now apply IH.
Qed.

(** No rule of the editor matches a text that ends with a slash. *)
Lemma rules_never_match_slash s : noRule rules (s ++ [47%N]) = true.
Proof. apply noRule_cannotEnd. vm_compute. reflexivity. Qed.

(* ------------------------------------------------------------------ *)
(** ** Keys typed into a text block *)

Lemma runLoop_code st from to txt tb l :
  runLoop st from to txt tb true l = Ok None.
Proof. induction l as [|rule l IH]; simpl; [reflexivity|exact IH]. Qed.

Lemma marksAt_unmarked r :
  (forall i c, maybeChild (parent r) i = Some c -> nodeMarks c = []) ->
  marksAt r = [].
Proof.
  intros H. unfold marksAt.
  destruct (contentSize (parent r) =? 0); [reflexivity|].
  destruct (negb (textOffset r =? 0)).
  - destruct (maybeChild (parent r) (index r (depth r))) as [c|] eqn:E; [|reflexivity].
    exact (H _ _ E).
  - destruct (index r (depth r)) as [|i].
    + destruct (maybeChild (parent r) 0) as [c|] eqn:E; [|reflexivity].
      now rewrite (H _ _ E).
    + destruct (maybeChild (parent r) i) as [c|] eqn:E.
      * now rewrite (H _ _ E).
      * destruct (maybeChild (parent r) (S i)) as [c|] eqn:E'; [|reflexivity].
        now rewrite (H _ _ E').
Qed.

Section Typing.

Variables (ctx : list Frame) (t : NodeType) (a : Attrs) (cs : list Node) (k : nat).
Variable sm : SlashMenuState.

Hypothesis Hne : ctx <> [].
Hypothesis Hc : openFrames ctx.
Hypothesis Ht : isTextblock t = true.
Hypothesis Hcs : kidsOf t cs.
Hypothesis Hk : k <= fragSize cs.
Hypothesis Hsm : active sm = false.

Let blk := Elem t a cs.
Let p := holePos ctx + 1 + k.
Let st := {| doc := plug ctx blk; selection := TextSelection p p; slashMenu := sm |}.

(** The text typed takes marks the block accepts: in a code block, where
    no child carries a mark, it takes none. *)
Lemma typed_kid (s : jsstring) : kidOf t (Text s (setFrom (marksIn blk k))) = true.
Proof.
  unfold kidOf. destruct (allowsMarks t) eqn:E; [reflexivity|].
  destruct (resolve_inside ctx t a cs k Hne Hc (textblock_open t Ht)
              (kidsOf_inline t cs Hcs) Hk) as (rf & Hrf & Hf).
  unfold blk. rewrite <- (ib_marks ctx _ k rf Hne Hf).
  rewrite marksAt_unmarked; [reflexivity|].
  intros i c Hi. rewrite (ib_parent ctx _ k rf Hf) in Hi.
  unfold maybeChild in Hi. cbn [children] in Hi.
  apply nth_error_In in Hi.
  unfold kidsOf in Hcs. rewrite Forall_forall in Hcs.
  specialize (Hcs c Hi). unfold kidOf in Hcs. rewrite E in Hcs.
  apply andb_prop in Hcs as [_ Hu]. unfold unmarked in Hu.
  now destruct (nodeMarks c).
Qed.

Lemma typed_kids (ch : codeunit) : kidsOf t (spliced cs k k [Text [ch] (setFrom (marksIn blk k))]).
Proof.
  apply kidsOf_spliced; [assumption|]. constructor; [apply typed_kid|constructor].
Qed.

Lemma typed_size (ch : codeunit) :
  k + 1 <= fragSize (spliced cs k k [Text [ch] (setFrom (marksIn blk k))]).
Proof.
  rewrite fragSize_spliced by (assumption || exact (kidsOf_inline t cs Hcs)).
  rewrite fragSize_one. simpl. lia.
Qed.

Lemma insertText_at_cursor (ch : codeunit) :
  insertText (tr st) [ch] p p
  = Ok {| tr_doc := plug ctx (typedInto t a cs k ch);
          maps := [{| mstart := p; oldSize := 0; newSize := 1 |}];
          curSelection := TextSelection p p; curSelectionFor := 0;
          slashMeta := None |}.
Proof.
  unfold insertText.
  destruct (resolve_inside ctx t a cs k Hne Hc (textblock_open t Ht)
              (kidsOf_inline t cs Hcs) Hk) as (rf & Hrf & Hf).
  change (tr_doc (tr st)) with (plug ctx (Elem t a cs)).
  unfold p. rewrite Hrf. cbn [bind]. rewrite Nat.eqb_refl.
  rewrite (ib_marks ctx _ k rf Hne Hf).
  cbn [schemaText bind]. unfold st, blk, p.
  rewrite (replace_at_cursor ctx t a cs k
             (Text [ch] (setFrom (marksIn (Elem t a cs) k)))
             (TextSelection (holePos ctx + 1 + k) (holePos ctx + 1 + k)) sm Hne Hc Ht Hcs
             (typed_kid [ch]));
    [|simpl; lia|assumption].
  cbn [bind nodeSize List.length].
  pose proof (tr_selection_at_cursor ctx t a _ k 1 None Hne Hc Ht
                (kidsOf_inline t _ (typed_kids ch)) (typed_size ch)) as Hsel.
  cbv zeta in Hsel. unfold blk in Hsel. rewrite Hsel.
  cbn [bind]. unfold sel_empty, sel_from, sel_to.
  rewrite Nat.min_id, Nat.max_id, Nat.eqb_refl. reflexivity.
Qed.

Lemma handleTextInput_plain (ch : codeunit) :
  specCode t = true
  \/ noRule rules (textBetween blk (k - MAX_MATCH) k OBJ ++ [ch]) = true ->
  handleTextInput st p p [ch]
  = Ok {| doc := plug ctx (typedInto t a cs k ch); selection := TextSelection (p + 1) (p + 1);
          slashMenu := sm |}.
Proof.
  intros Hno. unfold handleTextInput, run.
  destruct (resolve_inside ctx t a cs k Hne Hc (textblock_open t Ht)
              (kidsOf_inline t cs Hcs) Hk) as (rf & Hrf & Hf).
  change (doc st) with (plug ctx (Elem t a cs)).
  unfold p. rewrite Hrf. cbn [bind].
  rewrite (ib_parent ctx _ k rf Hf), (ib_offset _ _ _ _ Hf).
  fold blk.
  assert (Hloop : forall from to txt,
             runLoop st from to txt (textBetween blk (k - MAX_MATCH) k OBJ ++ [ch])
                     (specCode (nodeType blk)) rules = Ok None).
  { intros. destruct Hno as [Hcode|Hno].
    - cbn [blk nodeType]. rewrite Hcode. apply runLoop_code.
    - now apply runLoop_noRule. }
  rewrite Hloop. cbn [bind].
  fold p. rewrite insertText_at_cursor. cbn [bind].
  apply (dispatch_at_cursor ctx t a cs _ k 1 sm Hne Hc Ht
           (kidsOf_inline t _ (typed_kids ch)) (typed_size ch) Hsm).
Qed.

(** A key that is not the slash, where no rule applies. *)
Lemma typeChar_plain (ch : codeunit) :
  ch <> 47%N ->
  specCode t = true
  \/ noRule rules (textBetween blk (k - MAX_MATCH) k OBJ ++ [ch]) = true ->
  typeChar st ch
  = Ok {| doc := plug ctx (typedInto t a cs k ch); selection := TextSelection (p + 1) (p + 1);
          slashMenu := sm |}.
Proof.
  intros Hch Hno. unfold typeChar, SlashCommand.handleKeyDown.
  assert (E1 : eqlit [ch] "/" = false)
    by (unfold eqlit; simpl; apply N.eqb_neq in Hch; now rewrite Hch).
  assert (E2 : eqlit [ch] "Escape" = false)
    by (unfold eqlit; simpl; now rewrite andb_false_r).
  rewrite E1, E2.
  cbn [andb bind SlashCommand.handled SlashCommand.after_key SlashCommand.scheduled].
  change (sel_from (selection st)) with (Nat.min p p).
  change (sel_to (doc st) (selection st)) with (Nat.max p p).
  rewrite Nat.min_id, Nat.max_id.
  rewrite handleTextInput_plain by assumption. reflexivity.
Qed.

Lemma handleKeyDown_slash :
  SlashCommand.handleKeyDown st (lit "/")
  = Ok {| SlashCommand.handled := false; SlashCommand.after_key := st;
          SlashCommand.scheduled := if validSlashPosition blk k then Some p else None |}.
Proof.
  unfold SlashCommand.handleKeyDown.
  change (eqlit (lit "/") "/") with true.
  change (eqlit (lit "/") "Escape") with false.
  cbv iota.
  change (sel_from (selection st)) with (Nat.min p p). rewrite Nat.min_id.
  destruct (resolve_inside ctx t a cs k Hne Hc (textblock_open t Ht)
              (kidsOf_inline t cs Hcs) Hk) as (rf & Hrf & Hf).
  change (doc st) with (plug ctx (Elem t a cs)).
  unfold p at 1. rewrite Hrf. cbn [bind].
  unfold SlashCommand.isValidPosition.
  rewrite (ib_parent ctx _ k rf Hf), (ib_offset _ _ _ _ Hf), (ib_pos _ _ _ _ Hf).
  fold (validSlashPosition (Elem t a cs) k). fold blk. fold p.
  destruct (validSlashPosition blk k); reflexivity.
Qed.

(** The slash: it is typed as text, and the menu opens when the position
    passes the test of [handleKeyDown]. *)
Lemma typeChar_slash :
  typeChar st 47%N
  = Ok {| doc := plug ctx (typedInto t a cs k 47%N); selection := TextSelection (p + 1) (p + 1);
          slashMenu :=
            if validSlashPosition blk k
            then {| active := true; query := []; from := p; to := p + 1 |}
            else sm |}.
Proof.
  unfold typeChar.
  change (SlashCommand.handleKeyDown st [47%N]) with (SlashCommand.handleKeyDown st (lit "/")).
  rewrite handleKeyDown_slash.
  cbn [bind SlashCommand.handled SlashCommand.after_key SlashCommand.scheduled].
  change (sel_from (selection st)) with (Nat.min p p).
  change (sel_to (doc st) (selection st)) with (Nat.max p p).
  rewrite Nat.min_id, Nat.max_id.
  rewrite handleTextInput_plain by (right; apply rules_never_match_slash).
  cbn [bind]. destruct (validSlashPosition blk k); reflexivity.
Qed.

End Typing.

(* ------------------------------------------------------------------ *)
(** ** A block among its siblings *)

Lemma plug_snoc outer f n : plug (outer ++ [f]) n = plug outer (plug [f] n).
Proof. induction outer as [|g outer IH]; simpl; [reflexivity|]. now rewrite IH. Qed.

Lemma holePos_snoc outer f :
  holePos (outer ++ [f]) = inside outer + fragSize (fleft f).
Proof.
  induction outer as [|g outer IH]; [simpl; lia|].
  simpl app. simpl holePos. rewrite IH.
  destruct outer as [|h outer']; simpl; lia.
Qed.

Lemma openFrames_snoc outer f :
  openFrames outer -> isLeaf (ftype f) = false -> openFrames (outer ++ [f]).
Proof. intros H1 H2. apply Forall_app. split; [assumption|]. now constructor. Qed.

Lemma element_size c : nodeIsText c = false -> 0 < nodeSize c.
Proof.
  destruct c as [s m|t a cs]; simpl; [discriminate|]. intros _.
  destruct (isLeaf t); lia.
Qed.

(** At the boundary behind the children [pre] the walk stops, at the index
    of the child that follows. *)
Lemma walkWith_boundary below n start pre post i cur :
  elements pre ->
  walkWith below n (cur + fragSize pre) start (pre ++ post) i cur
  = ([{| pnode := n; pindex := i + List.length pre;
         poffset := start + (cur + fragSize pre) |}], cur + fragSize pre).
Proof.
  intros H. revert i cur. induction H as [|c pre Hc Hpre IH]; intros i cur.
  - simpl app. unfold fragSize. simpl list_sum. rewrite !Nat.add_0_r.
    destruct post as [|d post]; [reflexivity|].
    rewrite walkWith_cons, Nat.eqb_refl. reflexivity.
  - simpl app. rewrite walkWith_cons, fragSize_cons.
    pose proof (element_size c Hc) as Hs.
    destruct (Nat.eqb_spec (cur + (nodeSize c + fragSize pre)) cur); [lia|].
    destruct pre as [|d pre'].
    + unfold fragSize. simpl list_sum. rewrite !Nat.add_0_r.
      rewrite Nat.ltb_irrefl, Nat.eqb_refl. simpl List.length.
      replace (i + 1) with (S i) by lia. reflexivity.
    + assert (0 < fragSize (d :: pre')).
      { rewrite fragSize_cons. inversion Hpre; subst.
        pose proof (element_size d H1). lia. }
      destruct (Nat.ltb_spec (cur + nodeSize c) (cur + (nodeSize c + fragSize (d :: pre'))));
        [|lia].
      replace (cur + (nodeSize c + fragSize (d :: pre')))
        with (cur + nodeSize c + fragSize (d :: pre')) by lia.
      rewrite IH. simpl List.length.
      replace (S i + S (List.length pre')) with (i + S (S (List.length pre'))) by lia.
      replace (start + (cur + nodeSize c + fragSize (d :: pre')))
        with (start + (cur + (nodeSize c + fragSize (d :: pre')))) by lia.
      replace (cur + nodeSize c + fragSize (d :: pre'))
        with (cur + (nodeSize c + fragSize (d :: pre'))) by lia.
      reflexivity.
Qed.

Lemma resolveIn_at outer t a cs k start :
  openFrames outer -> isLeaf t = false -> k <= fragSize cs ->
  resolveIn (plug outer (Elem t a cs)) (inside outer + k) start
  = (ctxPath outer (Elem t a cs) start
       ++ fst (resolveIn (Elem t a cs) k (start + inside outer)),
     snd (resolveIn (Elem t a cs) k (start + inside outer))).
Proof.
  intros Hc Ht Hk. destruct outer as [|f rest].
  - change (plug [] (Elem t a cs)) with (Elem t a cs).
    change (inside []) with 0. change (ctxPath [] (Elem t a cs) start) with (@nil PathEntry).
    rewrite Nat.add_0_l, Nat.add_0_r. cbn [app].
    apply surjective_pairing.
  - unfold inside. rewrite resolveIn_plug; try assumption; [|discriminate].
    now rewrite Nat.add_assoc.
Qed.

Lemma contentSize_plug_at outer t a cs :
  openFrames outer -> isLeaf t = false ->
  inside outer + fragSize cs <= contentSize (plug outer (Elem t a cs)).
Proof.
  intros Hc Ht. destruct outer as [|f rest].
  - simpl. unfold contentSize. simpl. lia.
  - pose proof (contentSize_plug_ge (f :: rest) t a cs ltac:(discriminate) Hc Ht).
    unfold inside. lia.
Qed.

Lemma resolve_boundary outer pt pa pre post :
  openFrames outer -> isLeaf pt = false -> elements pre ->
  exists r,
    resolve (plug outer (Elem pt pa (pre ++ post))) (inside outer + fragSize pre) = Ok r
    /\ AtBoundary outer (Elem pt pa (pre ++ post)) (List.length pre) (fragSize pre) r.
Proof.
  intros Hc Ht Hpre. unfold resolve.
  pose proof (contentSize_plug_at outer pt pa (pre ++ post) Hc Ht) as Hsz.
  rewrite fragSize_app in Hsz.
  destruct (Nat.leb_spec (inside outer + fragSize pre)
              (contentSize (plug outer (Elem pt pa (pre ++ post))))); [|lia].
  rewrite resolveIn_at; try assumption; [|rewrite fragSize_app; lia].
  change (resolveIn (Elem pt pa (pre ++ post)) (fragSize pre) (0 + inside outer))
    with (walkWith resolveIn (Elem pt pa (pre ++ post)) (0 + fragSize pre)
            (0 + inside outer) (pre ++ post) 0 0).
  rewrite walkWith_boundary by assumption. simpl fst. simpl snd.
  eexists. split; [reflexivity|]. constructor; reflexivity.
Qed.

Section AtBoundaryFacts.

Variables (outer : list Frame) (P : Node) (i off : nat) (r : ResolvedPos).
Hypothesis Hr : AtBoundary outer P i off r.

Lemma ab_depth : depth r = List.length outer.
Proof.
  unfold depth. rewrite (ab_path _ _ _ _ _ Hr), length_app, ctxPath_length. simpl. lia.
Qed.

Lemma ab_entry_last :
  entry r (List.length outer)
  = {| pnode := P; pindex := i; poffset := inside outer + off |}.
Proof.
  unfold entry. rewrite (ab_path _ _ _ _ _ Hr).
  rewrite app_nth2; rewrite ctxPath_length; [|lia]. now rewrite Nat.sub_diag.
Qed.

Lemma ab_parent : parent r = P.
Proof. unfold parent, node. now rewrite ab_depth, ab_entry_last. Qed.

Lemma ab_index : index r (depth r) = i.
Proof. unfold index. now rewrite ab_depth, ab_entry_last. Qed.

Lemma ab_start : start r (depth r) = inside outer.
Proof.
  rewrite ab_depth. destruct outer as [|f rest] eqn:Ho; [reflexivity|].
  simpl List.length. unfold start, entry. rewrite (ab_path _ _ _ _ _ Hr).
  rewrite app_nth1 by (rewrite ctxPath_length; simpl; lia).
  rewrite ctxPath_nth by (simpl; lia). simpl poffset.
  change (S (List.length rest)) with (List.length (f :: rest)).
  rewrite firstn_all. reflexivity.
Qed.

End AtBoundaryFacts.

(* ------------------------------------------------------------------ *)
(** ** Replacing a block among its siblings *)

Lemma append_elements a b : elements b -> append a b = a ++ b.
Proof.
  intros Hb. unfold append.
  destruct a as [|x a']; [destruct b; reflexivity|].
  destruct b as [|y b']; [now rewrite app_nil_r|].
  inversion Hb as [|? ? Hy _]; subst.
  destruct y as [s m|t a cs]; [discriminate|].
  now destruct (last (x :: a') (Elem t a cs)).
Qed.

Lemma cutWith_keep from pre post p :
  elements pre -> from <= p ->
  cutWith cutNode from (p + fragSize pre) (pre ++ post) p = pre.
Proof.
  intros H. revert p. induction H as [|c pre Hc Hpre IH]; intros p Hle.
  - unfold fragSize. simpl list_sum. rewrite Nat.add_0_r. simpl app.
    destruct post as [|d post]; [reflexivity|].
    simpl cutWith. now rewrite Nat.leb_refl.
  - pose proof (element_size c Hc) as Hs.
    simpl app. simpl cutWith. rewrite fragSize_cons.
    destruct (Nat.leb_spec (p + (nodeSize c + fragSize pre)) p); [lia|].
    destruct (Nat.ltb_spec from (p + nodeSize c)); [|lia].
    destruct (Nat.ltb_spec p from); [lia|].
    destruct (Nat.ltb_spec (p + (nodeSize c + fragSize pre)) (p + nodeSize c)); [lia|].
    simpl orb. cbv iota. simpl app. f_equal.
    replace (p + (nodeSize c + fragSize pre)) with (p + nodeSize c + fragSize pre) by lia.
    apply IH. lia.
Qed.

Lemma cutWith_drop pre post p :
  elements pre -> elements post ->
  cutWith cutNode (p + fragSize pre) (p + fragSize pre + fragSize post) (pre ++ post) p
  = post.
Proof.
  intros H Hpost. revert p. induction H as [|c pre Hc Hpre IH]; intros p.
  - unfold fragSize at 1 2. simpl list_sum. rewrite !Nat.add_0_r. simpl app.
    rewrite <- (app_nil_r post) at 2.
    apply cutWith_keep; [assumption|lia].
  - pose proof (element_size c Hc) as Hs.
    simpl app. simpl cutWith. rewrite fragSize_cons.
    destruct (Nat.leb_spec (p + (nodeSize c + fragSize pre) + fragSize post) p); [lia|].
    destruct (Nat.ltb_spec (p + (nodeSize c + fragSize pre)) (p + nodeSize c)); [lia|].
    simpl app.
    replace (p + (nodeSize c + fragSize pre)) with (p + nodeSize c + fragSize pre) by lia.
    apply IH.
Qed.

Lemma elements_empty l : elements l -> fragSize l = 0 -> l = [].
Proof.
  intros H Hs. destruct l as [|c l]; [reflexivity|].
  inversion H as [|? ? Hc _]; subst. apply element_size in Hc.
  rewrite fragSize_cons in Hs. lia.
Qed.

Lemma cut_keep pre post : elements pre -> cut 0 (fragSize pre) (pre ++ post) = pre.
Proof.
  intros H. unfold cut. destruct (Nat.ltb_spec 0 (fragSize pre)).
  - apply (cutWith_keep 0 pre post 0); [assumption|lia].
  - symmetry. apply elements_empty; [assumption|lia].
Qed.

Lemma cut_drop pre post :
  elements pre -> elements post ->
  cut (fragSize pre) (fragSize (pre ++ post)) (pre ++ post) = post.
Proof.
  intros H Hpost. unfold cut. rewrite fragSize_app.
  destruct (Nat.ltb_spec (fragSize pre) (fragSize pre + fragSize post)).
  - apply (cutWith_drop pre post 0); assumption.
  - symmetry. apply elements_empty; [assumption|lia].
Qed.

Lemma elements_unmarked l : elements l -> forallb unmarked l = true.
Proof.
  induction 1 as [|c l Hc Hl IH]; simpl; [reflexivity|].
  rewrite IH. destruct c; [discriminate|reflexivity].
Qed.

Lemma elements_app a b : elements a -> elements b -> elements (a ++ b).
Proof. intros. apply Forall_app. now split. Qed.

Section BlockAmongSiblings.

Variables (outer : list Frame) (pt : NodeType) (pa : Attrs).
Variables (left right : list Node) (blk : Node).

Hypothesis Hc : openFrames outer.
Hypothesis Hpt : isLeaf pt = false.
Hypothesis Hleft : elements left.
Hypothesis Hright : elements right.
Hypothesis Hblk : nodeIsText blk = false.

Let P := Elem pt pa (left ++ blk :: right).
Let b := inside outer + fragSize left.

Lemma resolve_before_block :
  exists r, resolve (plug outer P) b = Ok r
            /\ AtBoundary outer P (List.length left) (fragSize left) r.
Proof. apply resolve_boundary; assumption. Qed.

Lemma resolve_after_block :
  exists r, resolve (plug outer P) (b + nodeSize blk) = Ok r
            /\ AtBoundary outer P (List.length left + 1) (fragSize left + nodeSize blk) r.
Proof.
  unfold P, b.
  replace (left ++ blk :: right) with ((left ++ [blk]) ++ right)
    by (rewrite <- app_assoc; reflexivity).
  replace (inside outer + fragSize left + nodeSize blk)
    with (inside outer + fragSize (left ++ [blk]))
    by (rewrite fragSize_app, fragSize_one; lia).
  replace (List.length left + 1) with (List.length (left ++ [blk]))
    by (rewrite length_app; reflexivity).
  replace (fragSize left + nodeSize blk) with (fragSize (left ++ [blk]))
    by (rewrite fragSize_app, fragSize_one; lia).
  apply resolve_boundary; try assumption.
  apply elements_app; [assumption|]. constructor; [assumption|constructor].
Qed.

(** The block replaced by the elements [content], which its parent
    accepts in its place. *)
Lemma replaceStep_block content :
  elements content ->
  validContentTypes pt (List.map nodeType (left ++ content ++ right)) = true ->
  replaceStep (plug outer P) b (b + nodeSize blk) content
  = Ok (Some (plug outer (Elem pt pa (left ++ content ++ right)),
              {| mstart := b; oldSize := b + nodeSize blk - b;
                 newSize := fragSize content |})).
Proof.
  intros Hcontent Hvalid.
  pose proof (element_size blk Hblk) as Hs.
  unfold replaceStep.
  destruct (Nat.eqb_spec b (b + nodeSize blk)); [lia|]. simpl andb. cbv iota.
  destruct resolve_before_block as (rf & Hrf & Hf).
  destruct resolve_after_block as (rt & Hrt & Hto).
  rewrite Hrf, Hrt. cbn [bind].
  rewrite (ab_parent _ _ _ _ _ Hf), (ab_start _ _ _ _ _ Hf), (ab_start _ _ _ _ _ Hto).
  rewrite (ab_index _ _ _ _ _ Hf), (ab_index _ _ _ _ _ Hto).
  rewrite Nat.eqb_refl. simpl andb.
  unfold canReplace, P. cbn [nodeType children].
  rewrite firstn_app, Nat.sub_diag, firstn_all. simpl firstn. rewrite app_nil_r.
  replace (skipn (List.length left + 1) (left ++ blk :: right)) with right.
  2:{ replace (left ++ blk :: right) with ((left ++ [blk]) ++ right)
        by (rewrite <- app_assoc; reflexivity).
      replace (List.length left + 1) with (List.length (left ++ [blk]))
        by (rewrite length_app; reflexivity).
      rewrite skipn_app, Nat.sub_diag, skipn_all. reflexivity. }
  rewrite Hvalid, (elements_unmarked content Hcontent), orb_true_r.
  simpl andb. cbv iota.
  rewrite (ab_offset _ _ _ _ _ Hf), (ab_offset _ _ _ _ _ Hto).
  assert (Hcut1 : cut 0 (fragSize left) (left ++ blk :: right) = left).
  { now apply cut_keep. }
  assert (Hcut2 : cut (fragSize left + nodeSize blk) (fragSize (left ++ blk :: right))
                      (left ++ blk :: right) = right).
  { replace (left ++ blk :: right) with ((left ++ [blk]) ++ right)
      by (rewrite <- app_assoc; reflexivity).
    replace (fragSize left + nodeSize blk) with (fragSize (left ++ [blk]))
      by (rewrite fragSize_app, fragSize_one; lia).
    apply cut_drop; [|assumption].
    apply elements_app; [assumption|]. constructor; [assumption|constructor]. }
  rewrite Hcut1, Hcut2.
  rewrite (append_elements left content Hcontent).
  rewrite (append_elements (left ++ content) right Hright).
  rewrite <- app_assoc.
  unfold validContent. rewrite Hvalid.
  rewrite (elements_unmarked _ (elements_app _ _ Hleft (elements_app _ _ Hcontent Hright))).
  rewrite orb_true_r. simpl andb. cbv iota.
  rewrite (ab_depth _ _ _ _ _ Hf), (ab_path _ _ _ _ _ Hf).
  rewrite firstn_ctxPath. cbn [copy]. rewrite rebuild_ctxPath.
  reflexivity.
Qed.

(** Dispatching such a replacement, the cursor having been in the block. *)
Lemma dispatch_block content p sm :
  elements content -> active sm = false ->
  b < p -> p < b + nodeSize blk ->
  exists sel',
    SlashCommand.dispatch
      {| doc := plug outer P; selection := TextSelection p p; slashMenu := sm |}
      {| tr_doc := plug outer (Elem pt pa (left ++ content ++ right));
         maps := [{| mstart := b; oldSize := b + nodeSize blk - b;
                     newSize := fragSize content |}];
         curSelection := TextSelection p p; curSelectionFor := 0; slashMeta := None |}
    = Ok {| doc := plug outer (Elem pt pa (left ++ content ++ right));
            selection := sel'; slashMenu := sm |}.
Proof.
  intros Hcontent Hsm Hp1 Hp2.
  unfold SlashCommand.dispatch, applyWith, tr_selection.
  cbn [tr_doc maps curSelection curSelectionFor slashMeta List.length Nat.ltb Nat.leb skipn].
  unfold mapSelection, mapPos, mapResult, mapStep.
  cbn [mstart oldSize newSize fst].
  destruct (Nat.ltb_spec p b); [lia|].
  replace (b + (b + nodeSize blk - b)) with (b + nodeSize blk) by lia.
  destruct (Nat.leb_spec p (b + nodeSize blk)); [|lia].
  destruct (Nat.eqb_spec (b + nodeSize blk - b) 0); [lia|].
  destruct (Nat.eqb_spec p b); [lia|].
  destruct (Nat.eqb_spec p (b + nodeSize blk)); [lia|].
  cbn [fst].
  destruct (resolve_boundary outer pt pa (left ++ content) right Hc Hpt
              (elements_app _ _ Hleft Hcontent)) as (rh & Hrh & Hh).
  rewrite <- app_assoc in Hrh. rewrite fragSize_app in Hrh.
  replace (b + fragSize content) with (inside outer + (fragSize left + fragSize content))
    by (unfold b; lia).
  rewrite Hrh. cbn [bind].
  unfold SlashCommand.apply. cbn [slashMeta slashMenu]. rewrite Hsm. cbn [andb].
  destruct (negb (inlineContent (nodeType (parent rh)))).
  - cbn [bind]. eexists. reflexivity.
  - cbn [bind].
    destruct (inlineContent (nodeType (parent rh))); cbn [bind]; eexists; reflexivity.
Qed.

End BlockAmongSiblings.

(* ------------------------------------------------------------------ *)
(** ** The task-list rule *)

Lemma ib_end ctx blk k r :
  ctx <> [] -> InBlock ctx blk k r ->
  end_ r (depth r) = holePos ctx + 1 + contentSize blk.
Proof.
  intros Hne Hr. unfold end_. rewrite (ib_start ctx blk k r Hne Hr).
  fold (parent r). now rewrite (ib_parent ctx blk k r Hr).
Qed.

Lemma typeChar_step ctx t a cs cs' k sm (ch : codeunit) :
  ctx <> [] -> openFrames ctx -> allowsMarks t = true -> inlineKids cs ->
  k <= fragSize cs -> active sm = false ->
  ch <> 47%N ->
  noRule rules (textBetween (Elem t a cs) (k - MAX_MATCH) k OBJ ++ [ch]) = true ->
  typedInto t a cs k ch = Elem t a cs' ->
  typeChar (cursorIn ctx (Elem t a cs) k sm) ch = Ok (cursorIn ctx (Elem t a cs') (k + 1) sm).
Proof.
  intros Hne Hc Ht Hcs Hk Hsm Hch Hno Hcs'.
  unfold cursorIn.
  rewrite (typeChar_plain ctx t a cs k sm Hne Hc (markable_textblock t Ht)
             (markable_kids t cs Ht Hcs) Hk Hsm ch Hch (or_intror Hno)).
  rewrite Hcs'. now rewrite Nat.add_assoc.
Qed.

Lemma runLoop_first st from to txt tb l1 rule l2 x m0 :
  noRule l1 tb = true ->
  exec (pattern rule) tb = Some (x, m0) ->
  List.length txt <= List.length m0 ->
  runLoop st from to txt tb false (l1 ++ rule :: l2)
  = (r <- handler rule st m0 (from - (List.length m0 - List.length txt)) to ;;
     match r with
     | Some t => st' <- SlashCommand.dispatch st t ;; Ok (Some st')
     | None => runLoop st from to txt tb false l2
     end).
Proof.
  intros Hno Hex Hlen.
  induction l1 as [|r1 l1 IH].
  - simpl app. simpl runLoop. rewrite Hex.
    destruct (Nat.leb_spec (List.length txt) (List.length m0)); [reflexivity|lia].
  - simpl in Hno. apply andb_prop in Hno as [H1 H2].
    simpl app. simpl runLoop.
    destruct (exec (pattern r1) tb); [discriminate|]. now apply IH.
Qed.

Section TaskRule.

Variables (outer : list Frame) (pt : NodeType) (pa : Attrs).
Variables (left right : list Node) (t : NodeType) (a : Attrs).
Variable sm : SlashMenuState.

Hypothesis Hc : openFrames outer.
Hypothesis Hpt : isLeaf pt = false.
Hypothesis Hleft : elements left.
Hypothesis Hright : elements right.
Hypothesis Ht : allowsMarks t = true.
Hypothesis Hsm : active sm = false.

Let ctx := outer ++ [around pt pa left right].

Lemma ctx_not_nil : ctx <> [].
Proof. unfold ctx. now destruct outer. Qed.

Lemma ctx_open : openFrames ctx.
Proof. apply openFrames_snoc; assumption. Qed.

Lemma markable_cases : t = paragraph \/ t = heading.
Proof. destruct t; try discriminate; auto. Qed.

Lemma type_prefix :
  typeText (cursorIn ctx (Elem t a []) 0 sm) (lit "- [ ]")
  = Ok (cursorIn ctx (Elem t a [Text (lit "- [ ]") []]) 5 sm).
Proof.
  pose proof ctx_not_nil as Hne. pose proof ctx_open as Hco.
  change (lit "- [ ]") with [45%N; 32%N; 91%N; 32%N; 93%N] at 1.
  cbn [typeText].
  rewrite (typeChar_step ctx t a [] [Text (lit "-") []] 0 sm 45%N); try assumption;
    [| constructor | simpl; lia | discriminate
     | destruct markable_cases as [-> | ->]; vm_compute; reflexivity
     | destruct markable_cases as [-> | ->]; vm_compute; reflexivity ].
  cbn [bind Nat.add].
  rewrite (typeChar_step ctx t a [Text (lit "-") []] [Text (lit "- ") []] 1 sm 32%N);
    try assumption;
    [| repeat constructor | vm_compute; lia | discriminate
     | destruct markable_cases as [-> | ->]; vm_compute; reflexivity
     | destruct markable_cases as [-> | ->]; vm_compute; reflexivity ].
  cbn [bind Nat.add].
  rewrite (typeChar_step ctx t a [Text (lit "- ") []] [Text (lit "- [") []] 2 sm 91%N);
    try assumption;
    [| repeat constructor | vm_compute; lia | discriminate
     | destruct markable_cases as [-> | ->]; vm_compute; reflexivity
     | destruct markable_cases as [-> | ->]; vm_compute; reflexivity ].
  cbn [bind Nat.add].
  rewrite (typeChar_step ctx t a [Text (lit "- [") []] [Text (lit "- [ ") []] 3 sm 32%N);
    try assumption;
    [| repeat constructor | vm_compute; lia | discriminate
     | destruct markable_cases as [-> | ->]; vm_compute; reflexivity
     | destruct markable_cases as [-> | ->]; vm_compute; reflexivity ].
  cbn [bind Nat.add].
  rewrite (typeChar_step ctx t a [Text (lit "- [ ") []] [Text (lit "- [ ]") []] 4 sm 93%N);
    try assumption;
    [| repeat constructor | vm_compute; lia | discriminate
     | destruct markable_cases as [-> | ->]; vm_compute; reflexivity
     | destruct markable_cases as [-> | ->]; vm_compute; reflexivity ].
  cbn [bind Nat.add]. reflexivity.
Qed.

Lemma rules_task :
  rules = firstn 12 rules
          ++ {| pattern := taskPattern; handler := replaceBlock (taskListOf false) |}
          :: skipn 13 rules.
Proof. reflexivity. Qed.

Lemma task_rule_fires :
  validContentTypes pt (List.map nodeType (left ++ [emptyTaskList] ++ right)) = true ->
  exists sel',
    typeChar (cursorIn ctx (Elem t a [Text (lit "- [ ]") []]) 5 sm) 32%N
    = Ok {| doc := plug outer (Elem pt pa (left ++ [emptyTaskList] ++ right));
            selection := sel'; slashMenu := sm |}.
Proof.
  intros Hvalid.
  pose proof ctx_not_nil as Hne. pose proof ctx_open as Hco.
  set (blk := Elem t a [Text (lit "- [ ]") []]).
  assert (Hcs : inlineKids [Text (lit "- [ ]") []]) by (repeat constructor).
  assert (Hsize : nodeSize blk = 7)
    by (destruct markable_cases as [-> | ->]; reflexivity).
  assert (Hcsize : contentSize blk = 5) by reflexivity.
  unfold typeChar, SlashCommand.handleKeyDown.
  change (eqlit [32%N] "/") with false. change (eqlit [32%N] "Escape") with false.
  cbn [andb bind SlashCommand.handled SlashCommand.after_key SlashCommand.scheduled].
  set (p := holePos ctx + 1 + 5).
  set (st := cursorIn ctx blk 5 sm).
  change (sel_from (selection st)) with (Nat.min p p).
  change (sel_to (doc st) (selection st)) with (Nat.max p p).
  rewrite Nat.min_id, Nat.max_id.
  unfold handleTextInput, run.
  destruct (resolve_inside ctx t a _ 5 Hne Hco (markable_open t Ht) Hcs) as (rf & Hrf & Hf);
    [vm_compute; lia|].
  change (doc st) with (plug ctx blk).
  unfold p at 1. fold blk in Hrf, Hf. rewrite Hrf. cbn [bind].
  rewrite (ib_parent ctx _ 5 rf Hf), (ib_offset _ _ _ _ Hf).
  replace (textBetween blk (5 - MAX_MATCH) 5 OBJ ++ [32%N]) with (lit "- [ ] ")
    by (unfold blk; destruct markable_cases as [-> | ->]; reflexivity).
  replace (specCode (nodeType blk)) with false
    by (unfold blk; destruct markable_cases as [-> | ->]; reflexivity).
  rewrite rules_task.
  rewrite (runLoop_first st p p [32%N] (lit "- [ ] ") (firstn 12 rules) _ (skipn 13 rules)
             0 (lit "- [ ] "));
    [| vm_compute; reflexivity | vm_compute; reflexivity | simpl; lia ].
  cbn [handler]. unfold replaceBlock.
  match goal with
  | |- context [resolve _ ?q] =>
      replace q with (holePos ctx + 1 + 0) by (unfold p; simpl; lia)
  end.
  destruct (resolve_inside ctx t a _ 0 Hne Hco (markable_open t Ht) Hcs) as (rs & Hrs & Hs);
    [vm_compute; lia|].
  fold blk in Hrs, Hs.
  change (doc st) with (plug ctx blk). rewrite Hrs. cbn [bind].
  rewrite (ib_start ctx blk 0 rs Hne Hs), (ib_end ctx blk 0 rs Hne Hs), Hcsize.
  change (taskListOf false) with (Ok [emptyTaskList]). cbn [bind].
  rewrite (Nat.add_1_r (holePos ctx)).
  unfold replaceWith, replace. rewrite fromArray_one.
  change (tr_doc (tr st)) with (plug ctx blk).
  assert (Hhp : holePos ctx = inside outer + fragSize left)
    by (unfold ctx; now rewrite holePos_snoc).
  assert (Hplug : plug ctx blk = plug outer (Elem pt pa (left ++ blk :: right)))
    by (unfold ctx; now rewrite plug_snoc).
  rewrite Hplug.
  replace (S (holePos ctx) + 5 + 1)
    with (inside outer + fragSize left + nodeSize blk) by lia.
  rewrite Hhp.
  rewrite (replaceStep_block outer pt pa left right blk Hc Hpt Hleft Hright eq_refl
             [emptyTaskList]);
    [| repeat constructor | assumption ].
  cbn [bind maps tr app curSelection curSelectionFor slashMeta].
  change (selection st) with (TextSelection p p).
  destruct (dispatch_block outer pt pa left right blk Hc Hpt Hleft
              [emptyTaskList] p sm) as (sel' & Hd);
    [ repeat constructor | assumption
    | unfold p; lia | unfold p; lia | ].
  exists sel'.
  assert (Est : st = {| doc := plug outer (Elem pt pa (left ++ blk :: right));
                        selection := TextSelection p p; slashMenu := sm |})
    by (unfold st, cursorIn; now rewrite Hplug).
  rewrite Est. change ([emptyTaskList] ++ right) with (emptyTaskList :: right) in Hd |- *. rewrite Hd. reflexivity.
Qed.

End TaskRule.

(* ------------------------------------------------------------------ *)
(** ** Moving the first block up *)

Lemma joinPointFrom_eq r d p :
  joinPointFrom r d p
  = (let before_ :=
       if d =? depth r then nodeBefore r
       else match index r d with
            | O => None
            | S i => maybeChild (node r d) i
            end in
     let after_ :=
       if d =? depth r then nodeAfter r else Some (node r (d + 1)) in
     if match before_ with
        | Some b => negb (isTextblock (nodeType b)) && joinable before_ after_
                    && canReplace (node r d) (index r d) (index r d + 1) []
        | None => false
        end
     then Some p
     else match d with
          | O => None
          | S d' => joinPointFrom r d' (poffset (entry r d'))
          end).
Proof. destruct d; reflexivity. Qed.

Lemma joinPointFrom_above r d p :
  d < depth r -> (forall d', d' <= d -> index r d' = 0) ->
  joinPointFrom r d p = None.
Proof.
  revert p. induction d as [|d IH]; intros p Hd Hi; rewrite joinPointFrom_eq; cbv zeta.
  - destruct (Nat.eqb_spec 0 (depth r)); [lia|]. now rewrite (Hi 0).
  - destruct (Nat.eqb_spec (S d) (depth r)); [lia|]. rewrite (Hi (S d)) by lia.
    apply IH; [lia|]. intros. apply Hi. lia.
Qed.

Lemma nodeBefore_inline r t a cs b :
  parent r = Elem t a cs -> inlineKids cs ->
  nodeBefore r = Some b -> isLeaf (nodeType b) = true.
Proof.
  intros Hp Hcs. unfold nodeBefore, maybeChild. rewrite Hp. cbn [children].
  assert (Hin : forall i c, nth_error cs i = Some c -> isLeaf (nodeType c) = true).
  { intros i c Hc. apply nth_error_In in Hc. apply inline_leaf.
    unfold inlineKids in Hcs. rewrite Forall_forall in Hcs. now apply Hcs. }
  destruct (textOffset r =? 0).
  - destruct (index r (depth r)) as [|i]; [discriminate|]. apply Hin.
  - destruct (nth_error cs (index r (depth r))) as [c|] eqn:E; [|discriminate].
    simpl. intros [= <-]. rewrite nodeType_cutNode. now apply (Hin _ _ E).
Qed.

Lemma joinPoint_first ctx t a cs k r :
  ctx <> [] -> firstFrames ctx -> inlineKids cs ->
  InBlock ctx (Elem t a cs) k r ->
  joinPointFrom r (depth r) (pos r) = None.
Proof.
  intros Hne Hfirst Hcs Hr.
  assert (Hidx : forall d, d < depth r -> index r d = 0).
  { intros d Hd. rewrite (ib_depth ctx _ k r Hr) in Hd.
    unfold index. rewrite (ib_entry ctx _ k r Hr d Hd), ctxPath_nth by assumption.
    cbn [pindex].
    assert (Hin : In (nth d ctx (Build_Frame Schema.doc [] [] [])) ctx)
      by now apply nth_In.
    unfold firstFrames in Hfirst. rewrite Forall_forall in Hfirst.
    now rewrite (Hfirst _ Hin). }
  rewrite joinPointFrom_eq. cbv zeta. rewrite Nat.eqb_refl.
  assert (Hb : match nodeBefore r with
               | Some b => negb (isTextblock (nodeType b))
                           && joinable (nodeBefore r) (nodeAfter r)
                           && canReplace (node r (depth r)) (index r (depth r))
                                (index r (depth r) + 1) []
               | None => false
               end = false).
  { destruct (nodeBefore r) as [b|] eqn:E; [|reflexivity].
    pose proof (nodeBefore_inline r t a cs b (ib_parent ctx _ k r Hr) Hcs E) as Hl.
    unfold joinable. destruct (nodeAfter r); rewrite ?Hl; simpl;
      now rewrite ?andb_false_r. }
  rewrite Hb.
  destruct (depth r) as [|d] eqn:Ed; [reflexivity|].
  apply joinPointFrom_above; [lia|]. intros. apply Hidx. lia.
Qed.

Lemma findParentNode_block ctx t a cs k r :
  ctx <> [] -> isBlock t = true -> InBlock ctx (Elem t a cs) k r ->
  findParentNodeFrom (fun n => isBlock (nodeType n)) r (depth r)
  = Some {| f_pos := holePos ctx; f_node := Elem t a cs; f_depth := List.length ctx |}.
Proof.
  intros Hne Ht Hr.
  pose proof (ib_start ctx _ k r Hne Hr) as Hs.
  pose proof (ib_parent ctx _ k r Hr) as Hp. unfold parent in Hp.
  rewrite (ib_depth ctx _ k r Hr) in *.
  destruct (List.length ctx) as [|d] eqn:El; [destruct ctx; [congruence|discriminate]|].
  cbn [findParentNodeFrom]. rewrite Hp. cbn [nodeType]. rewrite Ht.
  unfold start in Hs. f_equal. f_equal. lia.
Qed.

Lemma moveBlockUp_first outer pt pa right t a cs k anchor head sm :
  openFrames outer -> firstFrames outer -> isLeaf pt = false ->
  isLeaf t = false -> isBlock t = true -> inlineKids cs -> k <= fragSize cs ->
  Nat.min anchor head = inside outer + 1 + k ->
  let st := {| doc := plug outer (Elem pt pa (Elem t a cs :: right));
               selection := TextSelection anchor head; slashMenu := sm |} in
  moveBlockUp st = Ok (false, st).
Proof.
  intros Hc Hfirst Hpt Ht Hb Hcs Hk Hsel st.
  set (ctx := outer ++ [around pt pa [] right]).
  assert (Hne : ctx <> []) by (unfold ctx; now destruct outer).
  assert (Hco : openFrames ctx) by (apply openFrames_snoc; assumption).
  assert (Hcf : firstFrames ctx).
  { apply Forall_app. split; [assumption|]. constructor; [reflexivity|constructor]. }
  assert (Hhp : holePos ctx = inside outer)
    by (unfold ctx; rewrite holePos_snoc; simpl; unfold fragSize; simpl; lia).
  assert (Hplug : doc st = plug ctx (Elem t a cs))
    by (unfold ctx; rewrite plug_snoc; reflexivity).
  destruct (resolve_inside ctx t a cs k Hne Hco Ht Hcs Hk) as (r & Hr & Hin).
  rewrite Hhp, <- Hsel, <- Hplug in Hr.
  unfold moveBlockUp, joinUp.
  change (selection st) with (TextSelection anchor head).
  cbv iota. unfold joinPoint.
  change (sel_from (TextSelection anchor head)) with (Nat.min anchor head).
  rewrite Hr. cbn [bind].
  replace (Nat.min anchor head) with (pos r)
    by (rewrite (ib_pos _ _ _ _ Hin); lia).
  rewrite (joinPoint_first ctx t a cs k r Hne Hcf Hcs Hin).
  cbn [bind fst].
  unfold getBlockRange, findParentNode.
  change (sel_from (TextSelection anchor head)) with (Nat.min anchor head).
  rewrite Hr. cbn [bind].
  rewrite (findParentNode_block ctx t a cs k r Hne Hb Hin).
  cbn [b_start f_pos].
  destruct (resolve_boundary outer pt pa [] (Elem t a cs :: right) Hc Hpt) as (rp & Hrp & Hab);
    [constructor|].
  cbn [app] in Hrp, Hab.
  replace (inside outer + fragSize []) with (holePos ctx) in Hrp
    by (rewrite Hhp; unfold fragSize; simpl; lia).
  change (doc st) with (plug outer (Elem pt pa (Elem t a cs :: right))).
  cbn [bind b_start]. rewrite Hrp. cbn [bind].
  rewrite (ab_index _ _ _ _ _ Hab). reflexivity.
Qed.

(* ------------------------------------------------------------------ *)
(** ** Deleting a block *)

Lemma getBlockRange_inside ctx t a cs k anchor head :
  ctx <> [] -> openFrames ctx -> isLeaf t = false -> isBlock t = true ->
  inlineKids cs -> k <= fragSize cs ->
  Nat.min anchor head = holePos ctx + 1 + k ->
  getBlockRange (plug ctx (Elem t a cs)) (TextSelection anchor head)
  = Ok (Some {| b_start := holePos ctx;
                b_end := holePos ctx + nodeSize (Elem t a cs);
                b_node := Elem t a cs |}).
Proof.
  intros Hne Hc Ht Hb Hcs Hk Hsel.
  destruct (resolve_inside ctx t a cs k Hne Hc Ht Hcs Hk) as (r & Hr & Hin).
  unfold getBlockRange, findParentNode.
  change (sel_from (TextSelection anchor head)) with (Nat.min anchor head).
  rewrite Hsel, Hr. cbn [bind].
  rewrite (findParentNode_block ctx t a cs k r Hne Hb Hin). reflexivity.
Qed.

Lemma dispatch_nothing st :
  active (slashMenu st) = false -> SlashCommand.dispatch st (tr st) = Ok st.
Proof.
  intros Hsm. unfold SlashCommand.dispatch, applyWith, tr_selection, tr, SlashCommand.apply.
  cbn [maps curSelectionFor curSelection slashMeta List.length Nat.ltb Nat.leb bind].
  rewrite Hsm. cbn [andb bind]. now destruct st.
Qed.

Lemma nonEmpty_empty cs : nonEmpty cs -> fragSize cs = 0 -> cs = [].
Proof.
  intros H Hs. destruct cs as [|c cs]; [reflexivity|].
  inversion H; subst. rewrite fragSize_cons in Hs. lia.
Qed.

Lemma spliced_all cs : spliced cs 0 (fragSize cs) [] = [].
Proof.
  unfold spliced, cut. rewrite !Nat.ltb_irrefl. reflexivity.
Qed.

(** Dispatching the deletion of the content of the block the cursor is in. *)
Lemma dispatch_cleared ctx t a cs k sm :
  ctx <> [] -> openFrames ctx -> isTextblock t = true ->
  k <= fragSize cs -> 0 < fragSize cs -> active sm = false ->
  let p := holePos ctx + 1 + k in
  SlashCommand.dispatch
    {| doc := plug ctx (Elem t a cs); selection := TextSelection p p; slashMenu := sm |}
    {| tr_doc := plug ctx (Elem t a []);
       maps := [{| mstart := holePos ctx + 1 + 0;
                   oldSize := holePos ctx + 1 + fragSize cs - (holePos ctx + 1 + 0);
                   newSize := fragSize [] |}];
       curSelection := TextSelection p p; curSelectionFor := 0; slashMeta := None |}
  = Ok {| doc := plug ctx (Elem t a []);
          selection := TextSelection (holePos ctx + 1) (holePos ctx + 1);
          slashMenu := sm |}.
Proof.
  intros Hne Hc Ht Hk Hpos Hsm p.
  pose proof (textblock_open t Ht) as Hopen.
  unfold SlashCommand.dispatch, applyWith, tr_selection.
  cbn [tr_doc maps curSelection curSelectionFor slashMeta List.length Nat.ltb Nat.leb skipn].
  assert (Hmap : mapPos [{| mstart := holePos ctx + 1 + 0;
                            oldSize := holePos ctx + 1 + fragSize cs - (holePos ctx + 1 + 0);
                            newSize := fragSize [] |}] p = holePos ctx + 1 + 0).
  { unfold mapPos, mapResult, mapStep. cbn [mstart oldSize newSize].
    destruct (Nat.ltb_spec p (holePos ctx + 1 + 0)); [unfold p in *; lia|].
    destruct (Nat.leb_spec p (holePos ctx + 1 + 0
                              + (holePos ctx + 1 + fragSize cs - (holePos ctx + 1 + 0))));
      [|unfold p in *; lia].
    destruct (Nat.eqb_spec (holePos ctx + 1 + fragSize cs - (holePos ctx + 1 + 0)) 0); [lia|].
    change (fragSize []) with 0.
    destruct (p =? holePos ctx + 1 + 0); [simpl; lia|].
    destruct (p =? _); simpl; lia. }
  unfold mapSelection. rewrite Hmap.
  destruct (resolve_inside ctx t a [] 0 Hne Hc Hopen) as (rh & Hrh & Hh);
    [constructor|unfold fragSize; simpl; lia|].
  rewrite Hrh. cbn [bind].
  rewrite (ib_parent ctx _ _ rh Hh). cbn [nodeType].
  rewrite (textblock_inline t Ht). cbn [negb].
  rewrite (ib_pos _ _ _ _ Hh). cbn [bind].
  unfold SlashCommand.apply. cbn [slashMeta slashMenu].
  rewrite Hsm. cbn [andb bind]. rewrite Nat.add_0_r. reflexivity.
Qed.

Section DeleteBlock.

Variables (outer : list Frame) (pt : NodeType) (pa : Attrs).
Variables (left right : list Node) (t : NodeType) (a : Attrs) (cs : list Node).
Variables (k : nat) (sm : SlashMenuState).

Hypothesis Hc : openFrames outer.
Hypothesis Hpt : isLeaf pt = false.
Hypothesis Hleft : elements left.
Hypothesis Hright : elements right.
Hypothesis Ht : isTextblock t = true.
Hypothesis Hcs : kidsOf t cs.
Hypothesis Hpos : nonEmpty cs.
Hypothesis Hk : k <= fragSize cs.
Hypothesis Hsm : active sm = false.

Let blk := Elem t a cs.
Let d := plug outer (Elem pt pa (left ++ blk :: right)).
Let p := inside outer + fragSize left + 1 + k.
Let st := {| doc := d; selection := TextSelection p p; slashMenu := sm |}.
Let ctx := outer ++ [around pt pa left right].

Lemma deleteBlock_range :
  getBlockRange (doc st) (selection st)
  = Ok (Some {| b_start := inside outer + fragSize left;
                b_end := inside outer + fragSize left + nodeSize blk;
                b_node := blk |}).
Proof.
  assert (Hne : ctx <> []) by (unfold ctx; now destruct outer).
  assert (Hco : openFrames ctx) by (apply openFrames_snoc; assumption).
  assert (Hhp : holePos ctx = inside outer + fragSize left)
    by (unfold ctx; now rewrite holePos_snoc).
  assert (Hplug : d = plug ctx blk) by (unfold d, ctx; now rewrite plug_snoc).
  change (doc st) with d. change (selection st) with (TextSelection p p).
  rewrite Hplug, <- Hhp.
  apply (getBlockRange_inside ctx t a cs k p p Hne Hco (textblock_open t Ht)
           (textblock_block t Ht) (kidsOf_inline t cs Hcs) Hk).
  rewrite Nat.min_id, Hhp. reflexivity.
Qed.

(** The document has one child: the block is emptied and kept. *)
Lemma deleteBlock_only :
  childCount d = 1 ->
  exists sel',
    deleteBlock st
    = Ok (true, {| doc := plug outer (Elem pt pa (left ++ Elem t a [] :: right));
                   selection := sel'; slashMenu := sm |}).
Proof.
  intros Hone.
  assert (Hne : ctx <> []) by (unfold ctx; now destruct outer).
  assert (Hco : openFrames ctx) by (apply openFrames_snoc; assumption).
  assert (Hhp : holePos ctx = inside outer + fragSize left)
    by (unfold ctx; now rewrite holePos_snoc).
  assert (Hplug : forall n, plug outer (Elem pt pa (left ++ n :: right)) = plug ctx n)
    by (intros; unfold ctx; now rewrite plug_snoc).
  assert (Hsize : nodeSize blk = fragSize cs + 2).
  { unfold blk. rewrite nodeSize_Elem, (textblock_open t Ht). unfold fragSize. lia. }
  unfold deleteBlock. rewrite deleteBlock_range. cbn [bind b_start b_end].
  change (doc st) with d. rewrite Hone. cbn [Nat.eqb].
  unfold delete, State.replace. change (fromArray []) with (@nil Node).
  change (tr_doc (tr st)) with d. unfold d. rewrite !Hplug, <- Hhp.
  replace (holePos ctx + 1) with (holePos ctx + 1 + 0) by lia.
  replace (holePos ctx + nodeSize blk - 1) with (holePos ctx + 1 + fragSize cs) by lia.
  unfold blk.
  destruct (Nat.eq_dec (fragSize cs) 0) as [Hz|Hnz].
  - assert (Hnil : cs = []) by now apply nonEmpty_empty.
    unfold replaceStep. rewrite Hz, Nat.add_0_r, Nat.eqb_refl.
    change (fragSize [] =? 0) with true. cbn [andb bind].
    rewrite dispatch_nothing by assumption. cbn [bind].
    exists (TextSelection p p). unfold st, d, blk. rewrite !Hplug, Hnil. reflexivity.
  - rewrite (replaceStep_inside ctx t a cs 0 (fragSize cs) []); try assumption;
      [| constructor | lia | lia
       | destruct (Nat.eqb_spec 0 (fragSize cs)); [lia|reflexivity] ].
    rewrite spliced_all.
    cbn [bind maps tr app curSelection curSelectionFor slashMeta].
    unfold st, d. rewrite Hplug. cbn [selection].
    replace p with (holePos ctx + 1 + k) by (unfold p; lia).
    unfold blk. rewrite (dispatch_cleared ctx t a cs k sm Hne Hco Ht Hk) by (assumption || lia).
    cbn [bind]. eexists. reflexivity.
Qed.

(** The document has several children: the block is removed, when its
    parent accepts what is left. *)
Lemma deleteBlock_several :
  childCount d <> 1 ->
  validContentTypes pt (List.map nodeType (left ++ right)) = true ->
  exists sel',
    deleteBlock st
    = Ok (true, {| doc := plug outer (Elem pt pa (left ++ right));
                   selection := sel'; slashMenu := sm |}).
Proof.
  intros Hmany Hvalid.
  assert (Hsize : nodeSize blk = fragSize cs + 2).
  { unfold blk. rewrite nodeSize_Elem, (textblock_open t Ht). unfold fragSize. lia. }
  unfold deleteBlock. rewrite deleteBlock_range. cbn [bind b_start b_end].
  change (doc st) with d.
  destruct (Nat.eqb_spec (childCount d) 1); [contradiction|].
  unfold delete, State.replace. change (fromArray []) with (@nil Node).
  change (tr_doc (tr st)) with d. unfold d.
  rewrite (replaceStep_block outer pt pa left right blk Hc Hpt Hleft Hright eq_refl []);
    [| constructor | assumption ].
  cbn [bind maps tr app curSelection curSelectionFor slashMeta].
  change (selection st) with (TextSelection p p).
  destruct (dispatch_block outer pt pa left right blk Hc Hpt Hleft [] p sm) as (sel' & Hd);
    [ constructor | assumption | unfold p; lia | unfold p; lia | ].
  cbn [app] in Hd. unfold st, d. rewrite Hd. cbn [bind].
  exists sel'. reflexivity.
Qed.

End DeleteBlock.

(** What is left has a top-level child. *)
Lemma deleteBlock_leaves_child outer pt pa left right blk :
  childCount (plug outer (Elem pt pa (left ++ blk :: right))) <> 1 ->
  1 <= childCount (plug outer (Elem pt pa (left ++ right))).
Proof.
  unfold childCount. destruct outer as [|f rest].
  - cbn [plug children]. rewrite !length_app. simpl. lia.
  - cbn [plug children]. rewrite !length_app. simpl. lia.
Qed.

(* ------------------------------------------------------------------ *)
(** ** Streamed text *)

Section Streaming.

Variable JSON_parse : jsstring -> option JSON.

Lemma schemaText_nonempty (s : jsstring) (m : list Mark) :
  s <> [] -> schemaText s m = Ok (Text s (setFrom m)).
Proof. intros H. unfold schemaText. destruct s; [congruence|reflexivity]. Qed.

(** The start position, once set, is kept. *)
Lemma onApiText_start_kept apiText e e' p :
  onApiText JSON_parse apiText e = Ok e' ->
  aiTextStartPos e = Some p -> aiTextStartPos e' = Some p.
Proof.
  unfold onApiText. intros H Hp.
  destruct apiText as [|c0 rest]; [injection H as <-; exact Hp|].
  destruct (jsonMatch (c0 :: rest)) as [g|]; [destruct (JSON_parse g)|];
    (destruct (lastInsertedLength e <? List.length (displayText (c0 :: rest)));
     [|injection H as <-; exact Hp]);
    (destruct (removeCR (slice (lastInsertedLength e) (displayText (c0 :: rest))))
       as [|x chunk];
     [ cbn [bind] in H; injection H as <-; exact Hp
     | rewrite Hp in H;
       destruct (schemaText (x :: chunk) [emMark]) as [n|]; [|discriminate];
       cbn [bind] in H;
       destruct (insert _ _ _) as [t|]; [|discriminate]; cbn [bind] in H;
       destruct (SlashCommand.dispatch _ _) as [v|]; [|discriminate]; cbn [bind] in H;
       injection H as <-; reflexivity ]).
Qed.

(** Whenever the effect goes through with a chunk to insert, the view it
    leaves is the one it had with the chunk, marked [em], inserted at the
    start position plus the counter (at the cursor when no start position
    is set). *)
Lemma onApiText_inserts apiText e e' chunk :
  onApiText JSON_parse apiText e = Ok e' ->
  apiText <> [] ->
  lastInsertedLength e < List.length (displayText apiText) ->
  removeCR (slice (lastInsertedLength e) (displayText apiText)) = chunk ->
  chunk <> [] ->
  let at_ := match aiTextStartPos e with
             | Some p0 => p0 + lastInsertedLength e
             | None => sel_from (selection (view e))
             end in
  exists t,
    insert (tr (view e)) at_ [Text chunk [emMark]] = Ok t
    /\ SlashCommand.dispatch (view e) t = Ok (view e')
    /\ aiTextStartPos e'
       = Some (match aiTextStartPos e with
               | Some p0 => p0
               | None => sel_from (selection (view e))
               end)
    /\ lastInsertedLength e' = List.length (displayText apiText).
Proof.
  intros H Hapi Hlen Hchunk Hnonempty at_.
  set (last := lastInsertedLength e) in *.
  assert (Hpos : (match aiTextStartPos e with
                  | Some p0 => p0 + last
                  | None => sel_from (selection (view e))
                  end) + last - (if 0 <? last then last else 0) = at_).
  { unfold at_. destruct (aiTextStartPos e); destruct (Nat.ltb_spec 0 last); lia. }
  unfold onApiText in H.
  destruct apiText as [|c0 rest]; [congruence|].
  apply Nat.ltb_lt in Hlen. fold last in H. rewrite Hlen, Hchunk in H.
  destruct chunk as [|x chunk']; [congruence|].
  rewrite (schemaText_nonempty (x :: chunk') [emMark]) in H by discriminate.
  change (setFrom [emMark]) with [emMark] in H. cbn [bind] in H.
  rewrite Hpos in H.
  destruct (insert (tr (view e)) at_ [Text (x :: chunk') [emMark]]) as [t|err] eqn:Hins;
    [|destruct (jsonMatch (c0 :: rest)) as [g|]; [destruct (JSON_parse g)|]; discriminate].
  cbn [bind] in H.
  destruct (SlashCommand.dispatch (view e) t) as [v|err] eqn:Hdis;
    [|destruct (jsonMatch (c0 :: rest)) as [g|]; [destruct (JSON_parse g)|]; discriminate].
  cbn [bind] in H. exists t.
  destruct (jsonMatch (c0 :: rest)) as [g|]; [destruct (JSON_parse g)|];
    injection H as <-; cbn [view aiTextStartPos lastInsertedLength];
    (split; [reflexivity|split; [assumption|split; [|reflexivity]]]);
    destruct (aiTextStartPos e); reflexivity.
Qed.

(** A chunk arrives while the cursor is where the text so far ends: it
    is put there, marked [em]. *)
Lemma onApiText_chunk ctx t a cs k sm e apiText chunk :
  ctx <> [] -> openFrames ctx -> allowsMarks t = true -> inlineKids cs ->
  k <= fragSize cs -> active sm = false ->
  view e = cursorIn ctx (Elem t a cs) k sm ->
  (forall p0, aiTextStartPos e = Some p0 ->
              p0 + lastInsertedLength e = holePos ctx + 1 + k) ->
  apiText <> [] ->
  lastInsertedLength e < List.length (displayText apiText) ->
  removeCR (slice (lastInsertedLength e) (displayText apiText)) = chunk ->
  chunk <> [] ->
  exists e',
    onApiText JSON_parse apiText e = Ok e'
    /\ view e' = cursorIn ctx (Elem t a (spliced cs k k [Text chunk [emMark]]))
                   (k + List.length chunk) sm
    /\ aiTextStartPos e'
       = Some (match aiTextStartPos e with
               | Some p0 => p0
               | None => holePos ctx + 1 + k
               end)
    /\ lastInsertedLength e' = List.length (displayText apiText).
Proof.
  intros Hne Hc Ht Hcs Hk Hsm Hview Hstart Hapi Hlen Hchunk Hnonempty.
  set (last := lastInsertedLength e) in *.
  set (p := holePos ctx + 1 + k).
  assert (Hpos : (match aiTextStartPos e with
                  | Some p0 => p0 + last
                  | None => sel_from (selection (view e))
                  end) + last - (if 0 <? last then last else 0) = p).
  { destruct (aiTextStartPos e) as [p0|] eqn:E.
    - specialize (Hstart p0 eq_refl). destruct (Nat.ltb_spec 0 last); unfold p; lia.
    - rewrite Hview. cbn [cursorIn selection sel_from]. rewrite Nat.min_id.
      destruct (Nat.ltb_spec 0 last); unfold p; lia. }
  assert (Hins : insert (tr (view e)) p [Text chunk [emMark]]
                 = Ok {| tr_doc := plug ctx (Elem t a (spliced cs k k [Text chunk [emMark]]));
                         maps := [{| mstart := p; oldSize := 0;
                                     newSize := List.length chunk |}];
                         curSelection := TextSelection p p; curSelectionFor := 0;
                         slashMeta := None |}).
  { rewrite Hview. unfold insert, cursorIn.
    apply (replace_at_cursor ctx t a cs k (Text chunk [emMark]) (TextSelection p p) sm);
      try assumption.
    - now apply markable_textblock.
    - now apply markable_kids.
    - unfold kidOf. now rewrite Ht.
    - simpl. destruct chunk; [congruence|simpl; lia]. }
  assert (Hdis : SlashCommand.dispatch (view e)
                   {| tr_doc := plug ctx (Elem t a (spliced cs k k [Text chunk [emMark]]));
                      maps := [{| mstart := p; oldSize := 0;
                                  newSize := List.length chunk |}];
                      curSelection := TextSelection p p; curSelectionFor := 0;
                      slashMeta := None |}
                 = Ok (cursorIn ctx (Elem t a (spliced cs k k [Text chunk [emMark]]))
                                (k + List.length chunk) sm)).
  { rewrite Hview. unfold cursorIn. fold p.
    rewrite (dispatch_at_cursor ctx t a cs _ k (List.length chunk) sm); try assumption.
    - fold p. now rewrite !Nat.add_assoc.
    - now apply markable_textblock.
    - apply inlineKids_spliced; [assumption|]. constructor; [reflexivity|constructor].
    - rewrite fragSize_spliced by assumption. rewrite fragSize_one. simpl. lia. }
  unfold onApiText.
  destruct apiText as [|c0 rest]; [congruence|].
  apply Nat.ltb_lt in Hlen. fold last. rewrite Hlen, Hchunk.
  destruct chunk as [|x chunk']; [congruence|].
  rewrite schemaText_nonempty by discriminate.
  change (setFrom [emMark]) with [emMark]. cbn [bind].
  rewrite Hpos, Hins. cbn [bind]. rewrite Hdis. cbn [bind].
  destruct (jsonMatch (c0 :: rest)) as [g|]; [destruct (JSON_parse g)|];
    (eexists; split; [reflexivity|]; cbn [view aiTextStartPos lastInsertedLength];
     repeat split;
     destruct (aiTextStartPos e) as [p0|] eqn:E; try reflexivity;
     rewrite Hview; cbn [cursorIn selection sel_from]; rewrite Nat.min_id; reflexivity).
Qed.

End Streaming.

(* ------------------------------------------------------------------ *)
(** ** The position test of the slash menu *)

Lemma endsWith_one (c : codeunit) (s : jsstring) :
  endsWith [c] s = true <-> exists s', s = s' ++ [c].
Proof.
  unfold endsWith. cbn [rev app].
  split.
  - intros H. destruct (rev s) as [|y r] eqn:E; [discriminate|].
    cbn [startsWith] in H. rewrite andb_true_r in H. apply N.eqb_eq in H. subst y.
    exists (rev r). rewrite <- (rev_involutive s), E. reflexivity.
  - intros [s' ->]. rewrite rev_app_distr. cbn [rev app startsWith].
    now rewrite N.eqb_refl.
Qed.

Lemma validSlashPosition_iff blk k :
  validSlashPosition blk k = true
  <-> k = 0 \/ exists s, textBetween blk 0 k OBJ = s ++ [32%N]
                         \/ textBetween blk 0 k OBJ = s ++ [10%N].
Proof.
  unfold validSlashPosition. rewrite !orb_true_iff, Nat.eqb_eq.
  change (lit " ") with [32%N]. rewrite !endsWith_one.
  split.
  - intros [[H|[s H]]|[s H]]; [now left| |]; right; exists s; auto.
  - intros [H|[s [H|H]]]; [now left; left| |].
    + left; right. now exists s.
    + right. now exists s.
Qed.

Lemma typeText_app st s1 s2 :
  typeText st (s1 ++ s2) = (st' <- typeText st s1 ;; typeText st' s2).
Proof.
  revert st. induction s1 as [|ch s1 IH]; intros st; [reflexivity|].
  cbn [app typeText]. destruct (typeChar st ch) as [st1|e]; [|reflexivity].
  cbn [bind]. apply IH.
Qed.

Lemma type_dash_space outer pt pa left right t a sm :
  openFrames outer -> isLeaf pt = false -> allowsMarks t = true -> active sm = false ->
  let ctx := outer ++ [around pt pa left right] in
  typeText (cursorIn ctx (Elem t a []) 0 sm) (lit "- ")
  = Ok (cursorIn ctx (Elem t a [Text (lit "- ") []]) 2 sm).
Proof.
  intros Hc Hpt Ht Hsm ctx.
  assert (Hne : ctx <> []) by (unfold ctx; now destruct outer).
  assert (Hco : openFrames ctx) by (apply openFrames_snoc; assumption).
  assert (Hcases : t = paragraph \/ t = heading)
    by (destruct t; try discriminate; auto).
  change (lit "- ") with [45%N; 32%N] at 1.
  cbn [typeText].
  rewrite (typeChar_step ctx t a [] [Text (lit "-") []] 0 sm 45%N); try assumption;
    [| constructor | simpl; lia | discriminate
     | destruct Hcases as [-> | ->]; vm_compute; reflexivity
     | destruct Hcases as [-> | ->]; vm_compute; reflexivity ].
  cbn [bind Nat.add].
  rewrite (typeChar_step ctx t a [Text (lit "-") []] [Text (lit "- ") []] 1 sm 32%N);
    try assumption;
    [| repeat constructor | vm_compute; lia | discriminate
     | destruct Hcases as [-> | ->]; vm_compute; reflexivity
     | destruct Hcases as [-> | ->]; vm_compute; reflexivity ].
  reflexivity.
Qed.

(* ------------------------------------------------------------------ *)
(** ** The structured payload *)

Lemma convertNode_eq n : exists kids, convertNode n = caught n (convertBody n kids).
Proof. destruct n; try (exists []; reflexivity). eexists. reflexivity. Qed.

Lemma caught_contained n r e : fst (caught n r) = Err e -> e = Unmodelled.
Proof.
  destruct r as [[x|e'] logs]; [discriminate|].
  destruct e'; simpl; intros H; try discriminate. now injection H as <-.
Qed.

Lemma convertNode_contained n e : fst (convertNode n) = Err e -> e = Unmodelled.
Proof. destruct (convertNode_eq n) as [kids ->]. apply caught_contained. Qed.

Lemma convertNode_unknown n ty :
  getProp n "type" = Ok ty -> Schema.nodes (propertyKey ty) = None ->
  convertNode n = (Ok None, [warnUnknownNodeType ty]).
Proof.
  intros Hty Hnone. destruct (convertNode_eq n) as [kids ->].
  unfold convertBody. rewrite Hty, Hnone. reflexivity.
Qed.

Lemma convertMark_unknown m ty :
  getProp m "type" = Ok ty -> Schema.marks (propertyKey ty) = None ->
  convertMark m = Ok None.
Proof. intros Hty Hnone. unfold convertMark. rewrite Hty. cbn [bind]. now rewrite Hnone. Qed.

Lemma mapM_kept (rs : list (result (option Node) * list Log)) :
  Forall (fun r => fst r <> Err Unmodelled) rs ->
  (forall r e, In r rs -> fst r = Err e -> e = Unmodelled) ->
  (r <- mapM fst rs ;; Ok (somes r)) = Ok (kept rs).
Proof.
  induction 1 as [|[x logs] rs Hx Hrs IH]; intros Hall; [reflexivity|].
  cbn [mapM fst]. destruct x as [o|e].
  - cbn [bind]. specialize (IH (fun r e Hin => Hall r e (or_intror Hin))).
    destruct (mapM fst rs) as [ys|e]; [|discriminate].
    cbn [bind] in *. injection IH as IH. destruct o; cbn [somes kept]; now rewrite IH.
  - exfalso. apply Hx. cbn [fst]. f_equal. now apply (Hall (Err e, logs) e (or_introl eq_refl)).
Qed.

Lemma jsonToNodes_array fields items :
  Json.lookup (lit "content") fields = Some (JArr items) ->
  Forall (fun i => fst (convertNode i) <> Err Unmodelled) items ->
  fst (jsonToNodes (JObj fields)) = Ok (kept (List.map convertNode items)).
Proof.
  intros Hc Hall. unfold jsonToNodes.
  change (truthy (JObj fields)) with true. cbn [negb].
  unfold getProp. rewrite Hc. cbn [truthyOpt truthy negb fst].
  apply mapM_kept.
  - apply Forall_map. exact Hall.
  - intros r e Hin. apply in_map_iff in Hin as (i & <- & _). apply convertNode_contained.
Qed.

(* ------------------------------------------------------------------ *)
(** ** Rejecting with text after the suggestion *)

Lemma spliced_tail cs k : spliced cs k (fragSize cs) [] = cut 0 k cs.
Proof.
  unfold spliced. unfold cut at 2. rewrite Nat.ltb_irrefl.
  unfold append. destruct (cut 0 k cs); reflexivity.
Qed.

(** Dispatching the deletion of what follows offset [k] in the block the
    cursor is in. *)
Lemma dispatch_tail_deleted ctx t a cs k k' sm :
  ctx <> [] -> openFrames ctx -> isTextblock t = true -> inlineKids cs ->
  k < fragSize cs -> k' <= fragSize cs -> active sm = false ->
  let p := holePos ctx + 1 + k' in
  let q := holePos ctx + 1 + Nat.min k' k in
  SlashCommand.dispatch
    {| doc := plug ctx (Elem t a cs); selection := TextSelection p p; slashMenu := sm |}
    {| tr_doc := plug ctx (Elem t a (cut 0 k cs));
       maps := [{| mstart := holePos ctx + 1 + k;
                   oldSize := holePos ctx + 1 + fragSize cs - (holePos ctx + 1 + k);
                   newSize := fragSize [] |}];
       curSelection := TextSelection p p; curSelectionFor := 0; slashMeta := None |}
  = Ok {| doc := plug ctx (Elem t a (cut 0 k cs)); selection := TextSelection q q;
          slashMenu := sm |}.
Proof.
  intros Hne Hc Ht Hcs Hk Hk' Hsm p q.
  pose proof (textblock_open t Ht) as Hopen.
  unfold SlashCommand.dispatch, applyWith, tr_selection.
  cbn [tr_doc maps curSelection curSelectionFor slashMeta List.length Nat.ltb Nat.leb skipn].
  assert (Hmap : mapPos [{| mstart := holePos ctx + 1 + k;
                            oldSize := holePos ctx + 1 + fragSize cs - (holePos ctx + 1 + k);
                            newSize := fragSize [] |}] p = q).
  { unfold mapPos, mapResult, mapStep. cbn [mstart oldSize newSize].
    change (fragSize []) with 0.
    destruct (Nat.ltb_spec p (holePos ctx + 1 + k)); [unfold p, q in *; simpl; lia|].
    destruct (Nat.leb_spec p (holePos ctx + 1 + k
                              + (holePos ctx + 1 + fragSize cs - (holePos ctx + 1 + k))));
      [|unfold p in *; lia].
    destruct (Nat.eqb_spec (holePos ctx + 1 + fragSize cs - (holePos ctx + 1 + k)) 0); [lia|].
    destruct (p =? holePos ctx + 1 + k); [unfold p, q in *; simpl; lia|].
    destruct (p =? _); unfold p, q in *; simpl; lia. }
  unfold mapSelection. rewrite Hmap.
  destruct (resolve_inside ctx t a (cut 0 k cs) (Nat.min k' k) Hne Hc Hopen) as (rh & Hrh & Hh);
    [now apply inlineKids_cut|rewrite fragSize_cut by assumption; lia|].
  fold q in Hrh. rewrite Hrh. cbn [bind].
  rewrite (ib_parent ctx _ _ rh Hh). cbn [nodeType].
  rewrite (textblock_inline t Ht). cbn [negb].
  rewrite (ib_pos _ _ _ _ Hh). cbn [bind].
  unfold SlashCommand.apply. cbn [slashMeta slashMenu].
  rewrite Hsm. cbn [andb bind]. reflexivity.
Qed.

(** [handleReject] on a document whose last child is the text block that
    holds the start position, no selection having been replaced: the block
    is cut at the start position. *)
Lemma handleReject_cuts_block da left t a cs k k' sm e :
  isTextblock t = true -> kidsOf t cs ->
  k < fragSize cs -> k' <= fragSize cs -> active sm = false ->
  let ctx := [around Schema.doc da left []] in
  view e = cursorIn ctx (Elem t a cs) k' sm ->
  aiTextStartPos e = Some (holePos ctx + 1 + k) ->
  isReplacingSelection e = false ->
  exists sel',
    handleReject e
    = Ok {| view := {| doc := plug ctx (Elem t a (cut 0 k cs)); selection := sel';
                       slashMenu := sm |};
            lastInsertedLength := 0; aiTextStartPos := None; fullAiText := [];
            parsedJson := parsedJson e; isReplacingSelection := false;
            originalText := []; selectionRange := None; showToolbar := false |}.
Proof.
  intros Ht Hkids Hk Hk' Hsm ctx Hview Hstart Hrep.
  assert (Hne : ctx <> []) by discriminate.
  assert (Hc : openFrames ctx) by (repeat constructor).
  pose proof (kidsOf_inline t cs Hkids) as Hcs.
  assert (Hend : contentSize (doc (view e)) - 1 = holePos ctx + 1 + fragSize cs).
  { rewrite Hview. unfold cursorIn, ctx. cbn [doc plug around ftype fattrs fleft fright holePos].
    unfold contentSize. cbn [children]. rewrite fragSize_app, fragSize_one.
    rewrite nodeSize_Elem, (textblock_open t Ht). unfold fragSize. lia. }
  unfold handleReject. rewrite Hstart, Hrep, Hend. cbn [andb].
  unfold delete, State.replace. change (fromArray []) with (@nil Node).
  rewrite Hview. change (tr_doc (tr (cursorIn ctx (Elem t a cs) k' sm)))
    with (plug ctx (Elem t a cs)).
  rewrite (replaceStep_inside ctx t a cs k (fragSize cs) []); try assumption;
    [| constructor | lia | lia
     | destruct (Nat.eqb_spec k (fragSize cs)); [lia|reflexivity] ].
  rewrite spliced_tail.
  cbn [bind maps tr app curSelection curSelectionFor slashMeta].
  unfold cursorIn. cbn [selection].
  rewrite (dispatch_tail_deleted ctx t a cs k k' sm Hne Hc Ht Hcs Hk Hk' Hsm).
  cbn [bind]. eexists. reflexivity.
Qed.

(* ================================================================== *)
(** * The claims *)

(** C1.  [handleReject] deletes from the start position to the end of the
    document content less one, not to the end of the inserted text.  In a
    document whose last child is the text block that holds the start
    position, no selection having been replaced, the block is cut at the
    start position: the suggestion and whatever followed it are gone.  So
    with the suggestion ["Hello world"] inserted at position 2 of the
    paragraph ["ab"], the reject takes the ["b"] with it. *)
Theorem reject_deletes_to_end_of_document :
  (forall (da : Attrs) (left : list Node) (t : NodeType) (a : Attrs) (cs : list Node)
          (k k' : nat) (sm : SlashMenuState) (e : Editor.Editor),
      isTextblock t = true -> kidsOf t cs ->
      k < fragSize cs -> k' <= fragSize cs -> active sm = false ->
      let ctx := [around Schema.doc da left []] in
      view e = cursorIn ctx (Elem t a cs) k' sm ->
      aiTextStartPos e = Some (holePos ctx + 1 + k) ->
      isReplacingSelection e = false ->
      exists sel',
        handleReject e
        = Ok {| view := {| doc := plug ctx (Elem t a (cut 0 k cs)); selection := sel';
                           slashMenu := sm |};
                lastInsertedLength := 0; aiTextStartPos := None; fullAiText := [];
                parsedJson := parsedJson e; isReplacingSelection := false;
                originalText := []; selectionRange := None; showToolbar := false |})
  /\ (forall (JSON_parse : jsstring -> option JSON),
         exists s s',
           suggested JSON_parse = Ok s
           /\ doc (view (Session.editor s))
              = Elem Schema.doc []
                  [Elem paragraph []
                     [Text (lit "a") []; Text (lit "Hello world") [emMark];
                      Text (lit "b") []]]
           /\ aiTextStartPos (Session.editor s) = Some 2
           /\ Session.reject JSON_parse s = Ok s'
           /\ doc (view (Session.editor s'))
              = Elem Schema.doc [] [Elem paragraph [] [Text (lit "a") []]]).
Proof.
  split; [exact handleReject_cuts_block|].
  intros parse. eexists. eexists.
  split; [vm_compute; reflexivity|].
  split; [reflexivity|]. split; [reflexivity|].
  split; [vm_compute; reflexivity|]. reflexivity.
Qed.



(** C3: while a session is under way (the machine is in [streaming],
    [pending] or [modifying]) a generate request, of either kind, is
    dropped: the snapshot (state value, context, running actor) stays as it
    is, so no new session starts, and the component, whose effects run only
    on a change of the machine, stays as it is too. *)
Theorem generate_dropped_unless_idle :
  forall (JSON_parse : jsstring -> option JSON)
         (s : Session.Session) (e : EditorMachine.Event),
    EditorMachine.value (Session.machine s) <> EditorMachine.idle ->
    EditorMachine.isGenerate e = true ->
    EditorMachine.transition (Session.machine s) e = Session.machine s
    /\ Session.send JSON_parse s e = Ok s.
Proof.
  intros parse s e Hbusy Hgen.
  pose proof (transition_generate_busy (Session.machine s) e Hbusy Hgen) as H.
  split; [exact H|]. now apply send_unhandled.
Qed.

(** The witness: a pending session with a suggestion, sent GENERATE. *)
Lemma generate_dropped_unless_idle_witness :
  let m := {| EditorMachine.value := EditorMachine.pending;
              EditorMachine.context :=
                {| EditorMachine.generatedText := lit "Hi";
                   EditorMachine.pendingSuggestion := lit "Hi";
                   EditorMachine.error := None;
                   EditorMachine.selectedText := [] |};
              EditorMachine.invoked := None |} in
  let s := {| Session.machine := m;
              Session.editor :=
                Editor.mount {| doc := Elem Schema.doc [] [Elem paragraph [] []];
                                selection := TextSelection 1 1;
                                slashMenu := closed |} |} in
  let e := EditorMachine.GENERATE (lit "x") EditorMachine.professional None None in
  EditorMachine.transition m e = m
  /\ Session.send (fun _ => None) s e = Ok s.
Proof.
  intros m s e.
  apply (generate_dropped_unless_idle (fun _ => None) s e).
  - simpl. discriminate.
  - reflexivity.
Defined.

(** C4, as stated, fails: from [modifying] a stop does not lead to [idle]. *)
Lemma modifying_stop_is_not_idle :
  ~ (forall s : EditorMachine.Snapshot,
        EditorMachine.value s = EditorMachine.modifying ->
        EditorMachine.value (EditorMachine.transition s EditorMachine.STOP)
        = EditorMachine.idle).
Proof.
  intros H.
  specialize (H {| EditorMachine.value := EditorMachine.modifying;
                   EditorMachine.context := EditorMachine.initialContext;
                   EditorMachine.invoked := None |} eq_refl).
  simpl in H. discriminate.
Qed.

(** C4 (amended): from [streaming], a stop or a stream error leads to
    [idle]; from [modifying], a stop or a stream error leads back to
    [pending].  On both error paths the error text is stored in the
    context; a stop leaves the context as it is; the invoked actor is
    stopped in all four cases. *)
Theorem stop_and_error_targets :
  forall (c : EditorMachine.Context) (a : option EditorMachine.Invocation)
         (err : jsstring),
    let s := {| EditorMachine.value := EditorMachine.streaming;
                EditorMachine.context := c; EditorMachine.invoked := a |} in
    let m := {| EditorMachine.value := EditorMachine.modifying;
                EditorMachine.context := c; EditorMachine.invoked := a |} in
    let stored x := {| EditorMachine.generatedText := EditorMachine.generatedText c;
                       EditorMachine.pendingSuggestion := EditorMachine.pendingSuggestion c;
                       EditorMachine.error := Some x;
                       EditorMachine.selectedText := EditorMachine.selectedText c |} in
    EditorMachine.transition s EditorMachine.STOP
      = {| EditorMachine.value := EditorMachine.idle;
           EditorMachine.context := c; EditorMachine.invoked := None |}
    /\ EditorMachine.transition s (EditorMachine.AI_ERROR err)
      = {| EditorMachine.value := EditorMachine.idle;
           EditorMachine.context := stored err; EditorMachine.invoked := None |}
    /\ EditorMachine.transition m EditorMachine.STOP
      = {| EditorMachine.value := EditorMachine.pending;
           EditorMachine.context := c; EditorMachine.invoked := None |}
    /\ EditorMachine.transition m (EditorMachine.AI_ERROR err)
      = {| EditorMachine.value := EditorMachine.pending;
           EditorMachine.context := stored err; EditorMachine.invoked := None |}.
Proof.
  intros c a err s m stored. repeat split.
Qed.

(** C5.  ["- [ ] "] typed into an empty paragraph or heading, whose parent
    accepts a task list in its place: after ["- "] the block is still the
    typed text, and after the whole text the block is replaced by a task
    list with one unchecked item holding an empty paragraph. *)
Theorem task_list_shortcut :
  forall (outer : list Frame) (pt : NodeType) (pa : Attrs) (left right : list Node)
         (t : NodeType) (a : Attrs) (sm : SlashMenuState),
    openFrames outer -> isLeaf pt = false -> elements left -> elements right ->
    allowsMarks t = true -> active sm = false ->
    validContentTypes pt (List.map nodeType (left ++ [emptyTaskList] ++ right)) = true ->
    let ctx := outer ++ [around pt pa left right] in
    let st := cursorIn ctx (Elem t a []) 0 sm in
    typeText st (lit "- ") = Ok (cursorIn ctx (Elem t a [Text (lit "- ") []]) 2 sm)
    /\ exists sel',
         typeText st (lit "- [ ] ")
         = Ok {| doc := plug outer (Elem pt pa (left ++ [emptyTaskList] ++ right));
                 selection := sel'; slashMenu := sm |}.
Proof.
  intros outer pt pa left right t a sm Hc Hpt Hleft Hright Ht Hsm Hvalid ctx st.
  split; [now apply type_dash_space|].
  destruct (task_rule_fires outer pt pa left right t a sm Hc Hpt Hleft Hright Ht Hsm Hvalid)
    as (sel' & Hfire).
  exists sel'.
  change (lit "- [ ] ") with (lit "- [ ]" ++ [32%N]).
  rewrite typeText_app. unfold st, ctx.
  rewrite (type_prefix outer pt pa left right t a sm Hc Hpt Ht Hsm).
  cbn [bind typeText]. rewrite Hfire. reflexivity.
Qed.

Lemma task_list_shortcut_witness :
  exists sel',
    typeText (cursorIn [around Schema.doc [] [] []] (Elem paragraph [] []) 0 closed)
             (lit "- [ ] ")
    = Ok {| doc := Elem Schema.doc [] [emptyTaskList]; selection := sel';
            slashMenu := closed |}.
Proof.
  apply (task_list_shortcut [] Schema.doc [] [] [] paragraph [] closed);
    try reflexivity; constructor.
Defined.








(** C9.  A paragraph with a sibling, both inside the only child of the
    document: the paragraph is not the only block, yet [deleteBlock], which
    counts the children of the document, empties the paragraph and keeps
    it. *)
Lemma deleteBlock_keeps_nested_sibling :
  deleteBlock {| doc := Elem Schema.doc []
                          [Elem blockquote []
                             [Elem paragraph [] [Text (lit "a") []];
                              Elem paragraph [] [Text (lit "b") []]]];
                 selection := TextSelection 3 3; slashMenu := closed |}
  = Ok (true,
        {| doc := Elem Schema.doc []
                    [Elem blockquote []
                       [Elem paragraph [] [];
                        Elem paragraph [] [Text (lit "b") []]]];
           selection := TextSelection 2 2; slashMenu := closed |}).
Proof. vm_compute. reflexivity. Qed.

(** [deleteBlock] in general, with the cursor in a text block (a
    paragraph, a heading or a code block): when the document has one child,
    the block is emptied and kept, at whatever depth it lies; when the
    document has several children and the parent of the block accepts its
    other children alone, the block is removed from its parent and the
    document still has a child. *)
Theorem deleteBlock_outcome :
  forall (outer : list Frame) (pt : NodeType) (pa : Attrs) (left right : list Node)
         (t : NodeType) (a : Attrs) (cs : list Node) (k : nat) (sm : SlashMenuState),
    openFrames outer -> isLeaf pt = false -> elements left -> elements right ->
    isTextblock t = true -> kidsOf t cs -> nonEmpty cs -> k <= fragSize cs ->
    active sm = false ->
    let d := plug outer (Elem pt pa (left ++ Elem t a cs :: right)) in
    let p := inside outer + fragSize left + 1 + k in
    let st := {| doc := d; selection := TextSelection p p; slashMenu := sm |} in
    (childCount d = 1 ->
     exists sel',
       deleteBlock st
       = Ok (true, {| doc := plug outer (Elem pt pa (left ++ Elem t a [] :: right));
                      selection := sel'; slashMenu := sm |}))
    /\ (childCount d <> 1 ->
        validContentTypes pt (List.map nodeType (left ++ right)) = true ->
        1 <= childCount (plug outer (Elem pt pa (left ++ right)))
        /\ exists sel',
             deleteBlock st
             = Ok (true, {| doc := plug outer (Elem pt pa (left ++ right));
                            selection := sel'; slashMenu := sm |})).
Proof.
  intros outer pt pa left right t a cs k sm Hc Hpt Hleft Hright Ht Hcs Hpos Hk Hsm d p st.
  split.
  - intros Hone.
    apply (deleteBlock_only outer pt pa left right t a cs k sm); assumption.
  - intros Hmany Hvalid. split.
    + apply (deleteBlock_leaves_child outer pt pa left right (Elem t a cs)). exact Hmany.
    + apply (deleteBlock_several outer pt pa left right t a cs k sm); assumption.
Qed.

(** Two paragraphs, the cursor in the first: it is removed. *)
Example deleteBlock_outcome_example :
  exists sel',
    deleteBlock {| doc := Elem Schema.doc []
                            [Elem paragraph [] [Text (lit "ab") []];
                             Elem paragraph [] [Text (lit "cd") []]];
                   selection := TextSelection 2 2; slashMenu := closed |}
    = Ok (true, {| doc := Elem Schema.doc [] [Elem paragraph [] [Text (lit "cd") []]];
                   selection := sel'; slashMenu := closed |}).
Proof.
  refine (proj2 (proj2 (deleteBlock_outcome [] Schema.doc [] []
                          [Elem paragraph [] [Text (lit "cd") []]]
                          paragraph [] [Text (lit "ab") []] 1 closed
                          _ _ _ _ _ _ _ _ _) _ _));
    try reflexivity; try discriminate; repeat constructor.
Qed.

(** C10: a reject applied after a reject does nothing.  Whatever session
    the first reject was applied to, if it went through then a second one
    returns, without an error, the very session it is given: the same
    machine snapshot, the same document and selection, the same refs.  And
    when the first was applied to a pending suggestion, the session it left
    is idle. *)
Theorem reject_twice_is_noop :
  forall (JSON_parse : jsstring -> option JSON) (s s' : Session.Session),
    Session.reject JSON_parse s = Ok s' ->
    Session.reject JSON_parse s' = Ok s'
    /\ (EditorMachine.value (Session.machine s) = EditorMachine.pending ->
        EditorMachine.value (Session.machine s') = EditorMachine.idle).
Proof.
  intros parse s s' H.
  destruct (reject_outcome parse s s' H) as (Hnp & Hc & Hidle).
  split; [|exact Hidle].
  unfold Session.reject. rewrite (handleReject_fix _ Hc). simpl.
  replace {| Session.machine := Session.machine s'; Session.editor := Session.editor s' |}
    with s' by now destruct s'.
  apply send_unhandled. now apply transition_reject_not_pending.
Qed.

(** A rejected session, rejected once more. *)
Lemma reject_twice_is_noop_witness :
  Session.reject noParse rejectedSession = Ok rejectedSession
  /\ (EditorMachine.value (Session.machine suggestedSession) = EditorMachine.pending ->
      EditorMachine.value (Session.machine rejectedSession) = EditorMachine.idle).
Proof.
  apply (reject_twice_is_noop noParse suggestedSession rejectedSession).
  vm_compute. reflexivity.
Defined.

(* ================================================================== *)
(** * Further properties of the code *)

(* ------------------------------------------------------------------ *)
(** ** The session machine ([editorMachine]) *)

Section MachineRuns.

Import EditorMachine.

Lemma runEvents_app s evs1 evs2 :
  runEvents s (evs1 ++ evs2) = runEvents (runEvents s evs1) evs2.
Proof. apply fold_left_app. Qed.

Lemma runEvents_chunks s (chunks : list jsstring) :
  value s = streaming \/ value s = modifying ->
  runEvents s (List.map AI_CHUNK chunks)
  = {| value := value s;
       context := {| generatedText := generatedText (context s) ++ List.concat chunks;
                     pendingSuggestion := pendingSuggestion (context s);
                     error := error (context s);
                     selectedText := selectedText (context s) |};
       invoked := invoked s |}.
Proof.
  revert s. induction chunks as [|ch chunks IH]; intros s Hs.
  - simpl. rewrite app_nil_r. now destruct s as [v [g p e sel] i].
  - cbn [List.map runEvents fold_left]. fold (runEvents (transition s (AI_CHUNK ch))
                                                 (List.map AI_CHUNK chunks)).
    rewrite IH.
    + destruct Hs as [Hs|Hs]; unfold transition; rewrite Hs; cbn;
        now rewrite <- app_assoc.
    + destruct Hs as [Hs|Hs]; unfold transition; rewrite Hs; cbn; auto.
Qed.

(** The chunks that the actor sends back while the machine streams or
    modifies are appended, in order, to the generated text; when the actor
    is done the machine is pending, the suggestion is the whole of that
    text, and no actor runs any more. *)
Theorem chunks_accumulate_into_suggestion :
  forall (s : Snapshot) (chunks : list jsstring),
    value s = streaming \/ value s = modifying ->
    let s' := transition (runEvents s (List.map AI_CHUNK chunks)) AI_DONE in
    value s' = pending
    /\ generatedText (context s') = generatedText (context s) ++ List.concat chunks
    /\ pendingSuggestion (context s') = generatedText (context s) ++ List.concat chunks
    /\ invoked s' = None.
Proof.
  intros s chunks Hs s'. unfold s'. rewrite (runEvents_chunks s chunks Hs).
  destruct Hs as [Hs|Hs]; unfold transition; cbn [value]; rewrite Hs; cbn; auto.
Qed.

(** A continuation is asked for, three chunks arrive, the stream ends. *)
Lemma chunks_accumulate_into_suggestion_witness :
  let s := transition initial (GENERATE (lit "ab") professional None None) in
  let s' := transition (runEvents s (List.map AI_CHUNK [lit "Hel"; lit "lo"; lit "!"]))
                       AI_DONE in
  value s' = pending
  /\ generatedText (context s') = generatedText (context s) ++ lit "Hello!"
  /\ pendingSuggestion (context s') = generatedText (context s) ++ lit "Hello!"
  /\ invoked s' = None.
Proof.
  apply (chunks_accumulate_into_suggestion
           (transition initial (GENERATE (lit "ab") professional None None))
           [lit "Hel"; lit "lo"; lit "!"]).
  left. reflexivity.
Defined.

Lemma actorOfState_step s e : actorOfState s = true -> actorOfState (transition s e) = true.
Proof.
  destruct s as [v c i]. unfold actorOfState, transition. cbn [value invoked context].
  destruct v, e; cbn; try reflexivity; try (intros H; exact H).
Qed.


Lemma no_suggestion_step s e :
  (value s = idle \/ value s = streaming -> pendingSuggestion (context s) = []) ->
  value (transition s e) = idle \/ value (transition s e) = streaming ->
  pendingSuggestion (context (transition s e)) = [].
Proof.
  destruct s as [v c i]. unfold transition. cbn [value context].
  intros H.
  destruct v, e; cbn; intros [E|E]; try discriminate; try reflexivity;
    try (apply H; auto).
Qed.

(** Whatever events are sent to the machine from its initial snapshot, it
    holds no pending suggestion while it is idle or streaming: the text of
    a suggestion is kept only while the machine is pending or modifying. *)
Theorem no_suggestion_kept_when_idle :
  forall evs : list Event,
    let s := runEvents initial evs in
    value s = idle \/ value s = streaming -> pendingSuggestion (context s) = [].
Proof.
  intros evs. cbv zeta. unfold runEvents.
  assert (H : forall s,
             (value s = idle \/ value s = streaming -> pendingSuggestion (context s) = []) ->
             value (fold_left transition evs s) = idle
             \/ value (fold_left transition evs s) = streaming ->
             pendingSuggestion (context (fold_left transition evs s)) = []).
  { induction evs as [|e evs IH]; intros s Hs; [exact Hs|].
    simpl. apply IH. now apply no_suggestion_step. }
  apply H. reflexivity.
Qed.

(** A suggestion is made and accepted. *)
Lemma no_suggestion_kept_when_idle_witness :
  let s := runEvents initial [GENERATE (lit "ab") professional None None;
                              AI_CHUNK (lit "Hello"); AI_DONE; ACCEPT] in
  (value s = idle \/ value s = streaming) /\ pendingSuggestion (context s) = [].
Proof.
  split; [left; reflexivity|].
  apply (no_suggestion_kept_when_idle
           [GENERATE (lit "ab") professional None None;
            AI_CHUNK (lit "Hello"); AI_DONE; ACCEPT]).
  left. reflexivity.
Defined.

(** An error of the stream that arrives while a suggestion is being
    modified is stored but not shown, the machine being pending then; it is
    shown once the suggestion is accepted or rejected, and a new generate
    request clears it. *)
Theorem modify_error_shown_after_decision :
  forall (s : Snapshot) (c : codeunit) (err : jsstring) (g : Event),
    value s = modifying -> isGenerate g = true ->
    let failed := transition s (AI_ERROR (c :: err)) in
    hasError failed = false
    /\ hasError (transition failed ACCEPT) = true
    /\ hasError (transition failed REJECT) = true
    /\ hasError (transition (transition failed ACCEPT) g) = false.
Proof.
  intros s c err g Hs Hg failed. unfold failed.
  destruct s as [v ctx i]. cbn [value] in Hs. subst v.
  destruct g; try discriminate; cbn; auto.
Qed.

(** A suggestion being shortened when the stream fails. *)
Lemma modify_error_shown_after_decision_witness :
  let s := runEvents initial [GENERATE (lit "ab") professional None None;
                              AI_CHUNK (lit "Hello"); AI_DONE; MODIFY shorten] in
  let failed := transition s (AI_ERROR (lit "Error: network")) in
  hasError failed = false
  /\ hasError (transition failed ACCEPT) = true
  /\ hasError (transition failed REJECT) = true
  /\ hasError (transition (transition failed ACCEPT)
                          (GENERATE (lit "ab") professional None None)) = false.
Proof.
  apply (modify_error_shown_after_decision
           (runEvents initial [GENERATE (lit "ab") professional None None;
                               AI_CHUNK (lit "Hello"); AI_DONE; MODIFY shorten])
           69%N (lit "rror: network") (GENERATE (lit "ab") professional None None));
    reflexivity.
Defined.

End MachineRuns.

(* ------------------------------------------------------------------ *)
(** ** Text blocks that hold plain text *)

Lemma plain_kidsOf t s : kidsOf t (plain s).
Proof.
  destruct s as [|c s]; [constructor|].
  constructor; [|constructor].
  unfold kidOf. destruct (allowsMarks t); reflexivity.
Qed.

Lemma fragSize_plain s : fragSize (plain s) = List.length s.
Proof. destruct s; [reflexivity|]. unfold plain, fragSize. simpl. lia. Qed.

Lemma plain_slice2_nil i j (s : jsstring) : j <= i -> slice2 i j s = [].
Proof. intros H. unfold slice2. replace (j - i) with 0 by lia. reflexivity. Qed.

Lemma cut_plain i j s : j <= List.length s -> cut i j (plain s) = plain (slice2 i j s).
Proof.
  intros Hj. unfold cut.
  destruct (Nat.ltb_spec i j) as [Hij|Hij].
  2:{ now rewrite plain_slice2_nil. }
  destruct s as [|c s]; [simpl in Hj; lia|].
  unfold plain at 1. cbn [cutWith nodeSize].
  destruct (Nat.leb_spec j 0) as [H0|H0]; [lia|].
  rewrite Nat.add_0_l.
  destruct (Nat.ltb_spec i (List.length (c :: s))) as [Hi|Hi]; [|lia].
  assert (Hne : slice2 i j (c :: s) <> []).
  { unfold slice2. intros E. apply (f_equal (@List.length _)) in E.
    rewrite length_firstn, length_skipn in E. cbn [List.length] in E, Hj, Hi. lia. }
  destruct (Nat.ltb_spec 0 i) as [Hi0|Hi0]; cbn [orb].
  - cbn [cutNode app]. rewrite !Nat.sub_0_r.
    rewrite Nat.min_r by (cbn [List.length] in *; lia).
    destruct (slice2 i j (c :: s)) eqn:E; [congruence|]. reflexivity.
  - assert (i = 0) by lia. subst i.
    destruct (Nat.ltb_spec j (List.length (c :: s))) as [Hj'|Hj'].
    + cbn [cutNode app]. rewrite !Nat.sub_0_r.
      rewrite Nat.min_r by (cbn [List.length] in *; lia).
      destruct (slice2 0 j (c :: s)) eqn:E; [congruence|]. reflexivity.
    + assert (j = List.length (c :: s)) by lia. subst j.
      unfold slice2. rewrite Nat.sub_0_r. cbn [skipn]. rewrite firstn_all. reflexivity.
Qed.

Lemma append_plain a b : append (plain a) (plain b) = plain (a ++ b).
Proof.
  destruct a as [|x a], b as [|y b]; try reflexivity.
  - simpl. now rewrite app_nil_r.
Qed.

Lemma spliced_plain s k1 k2 x :
  k1 <= List.length s ->
  spliced (plain s) k1 k2 (plain x) = plain (firstn k1 s ++ x ++ skipn k2 s).
Proof.
  intros H1. unfold spliced.
  rewrite fragSize_plain, !cut_plain by lia.
  rewrite !append_plain. unfold slice2.
  rewrite Nat.sub_0_r. cbn [skipn].
  rewrite (firstn_all2 (n := List.length s - k2)) by (rewrite length_skipn; lia).
  now rewrite <- app_assoc.
Qed.

Lemma textBetween_plain t a s i j :
  textBetween (Elem t a (plain s)) i j OBJ = slice2 i j s.
Proof.
  unfold textBetween. cbn [textBetweenNode].
  destruct s as [|c s].
  - simpl. unfold slice2. now rewrite skipn_nil, firstn_nil.
  - unfold plain. cbn [textBetweenWith nodeSize].
    destruct (Nat.leb_spec j 0) as [H0|H0].
    + now rewrite plain_slice2_nil by lia.
    + rewrite Nat.add_0_l, app_nil_r.
      destruct (Nat.ltb_spec i (List.length (c :: s))) as [Hi|Hi].
      * now rewrite Nat.max_0_r, !Nat.sub_0_r.
      * unfold slice2. rewrite skipn_all2 by assumption. now rewrite firstn_nil.
Qed.

Lemma marksIn_plain t a s k : marksIn (Elem t a (plain s)) k = [].
Proof.
  unfold marksIn. destruct (resolve (Elem t a (plain s)) k) as [r|] eqn:E; [|reflexivity].
  apply marksAt_unmarked. intros i c Hi.
  assert (Hp : parent r = Elem t a (plain s)).
  { unfold resolve in E. destruct (k <=? contentSize (Elem t a (plain s))); [|discriminate].
    destruct s as [|x s].
    - cbn in E. injection E as <-. reflexivity.
    - unfold plain in E. cbn [resolveIn walkWith nodeSize] in E.
      destruct (k =? 0); [injection E as <-; reflexivity|].
      destruct (0 + List.length (x :: s) <? k); [injection E as <-; reflexivity|].
      destruct (0 + List.length (x :: s) =? k); injection E as <-; reflexivity. }
  rewrite Hp in Hi. unfold maybeChild in Hi. cbn [children] in Hi.
  apply nth_error_In in Hi. destruct s; [destruct Hi|].
  destruct Hi as [<-|[]]. reflexivity.
Qed.

Lemma typedInto_plain t a s k ch :
  k <= List.length s ->
  typedInto t a (plain s) k ch = Elem t a (plain (firstn k s ++ [ch] ++ skipn k s)).
Proof.
  intros Hk. unfold typedInto. rewrite marksIn_plain.
  change [Text [ch] (setFrom [])] with (plain [ch]).
  now rewrite spliced_plain.
Qed.

(* ------------------------------------------------------------------ *)
(** ** Typing while the slash menu is open ([slash-command.ts]) *)

Lemma dispatch_at_cursor_menu ctx t a cs cs' k n sm :
  ctx <> [] -> openFrames ctx -> isTextblock t = true ->
  inlineKids cs' -> k + n <= fragSize cs' -> active sm = true ->
  let p := holePos ctx + 1 + k in
  let st := {| doc := plug ctx (Elem t a cs); selection := TextSelection p p;
               slashMenu := sm |} in
  SlashCommand.dispatch st
    {| tr_doc := plug ctx (Elem t a cs');
       maps := [{| mstart := p; oldSize := 0; newSize := n |}];
       curSelection := TextSelection p p; curSelectionFor := 0; slashMeta := None |}
  = Ok {| doc := plug ctx (Elem t a cs'); selection := TextSelection (p + n) (p + n);
          slashMenu := menuFor (holePos ctx + 1) (p + n)
                               (textBetween (Elem t a cs') 0 (k + n) OBJ) |}.
Proof.
  intros Hne Hc Ht Hcs Hk Hsm p st.
  unfold SlashCommand.dispatch, applyWith.
  unfold p. rewrite (tr_selection_at_cursor ctx t a cs' k n None Hne Hc Ht Hcs Hk).
  cbn [bind]. unfold SlashCommand.apply. cbn [slashMeta slashMenu st].
  rewrite Hsm. cbn [andb docChanged maps].
  rewrite (tr_selection_at_cursor ctx t a cs' k n None Hne Hc Ht Hcs Hk).
  cbn [bind tr_doc sel_from]. rewrite Nat.min_id.
  destruct (resolve_inside ctx t a cs' (k + n) Hne Hc (textblock_open t Ht) Hcs Hk)
    as (r & Hr & Hin).
  replace (holePos ctx + 1 + k + n) with (holePos ctx + 1 + (k + n)) by lia.
  rewrite Hr. cbn [bind].
  rewrite (ib_parent ctx _ _ r Hin), (ib_offset _ _ _ _ Hin), (ib_start ctx _ _ r Hne Hin).
  unfold menuFor.
  destruct (lastIndexOf (lit "/") (textBetween (Elem t a cs') 0 (k + n) OBJ)) as [i|];
    [|reflexivity].
  destruct (includes (lit " ") (slice (i + 1) (textBetween (Elem t a cs') 0 (k + n) OBJ)));
    reflexivity.
Qed.

Lemma handleTextInput_menu ctx t a cs k sm (ch : codeunit) :
  ctx <> [] -> openFrames ctx -> isTextblock t = true -> kidsOf t cs ->
  k <= fragSize cs ->
  specCode t = true
  \/ noRule rules (textBetween (Elem t a cs) (k - MAX_MATCH) k OBJ ++ [ch]) = true ->
  let p := holePos ctx + 1 + k in
  handleTextInput (cursorIn ctx (Elem t a cs) k sm) p p [ch]
  = Ok {| doc := plug ctx (typedInto t a cs k ch);
          selection := TextSelection (p + 1) (p + 1);
          slashMenu :=
            if active sm
            then menuFor (holePos ctx + 1) (p + 1)
                         (textBetween (typedInto t a cs k ch) 0 (k + 1) OBJ)
            else sm |}.
Proof.
  intros Hne Hc Ht Hcs Hk Hno p.
  unfold handleTextInput, run, cursorIn.
  destruct (resolve_inside ctx t a cs k Hne Hc (textblock_open t Ht)
              (kidsOf_inline t cs Hcs) Hk) as (rf & Hrf & Hf).
  cbn [doc]. unfold p. rewrite Hrf. cbn [bind].
  rewrite (ib_parent ctx _ k rf Hf), (ib_offset _ _ _ _ Hf).
  assert (Hloop : forall st from to txt,
             runLoop st from to txt (textBetween (Elem t a cs) (k - MAX_MATCH) k OBJ ++ [ch])
                     (specCode (nodeType (Elem t a cs))) rules = Ok None).
  { intros. destruct Hno as [Hcode|Hno].
    - cbn [nodeType]. rewrite Hcode. apply runLoop_code.
    - now apply runLoop_noRule. }
  rewrite Hloop. cbn [bind].
  rewrite (insertText_at_cursor ctx t a cs k sm Hne Hc Ht Hcs Hk ch). cbn [bind].
  destruct (active sm) eqn:Hsm.
  - apply (dispatch_at_cursor_menu ctx t a cs _ k 1 sm Hne Hc Ht
             (kidsOf_inline t _ (typed_kids ctx t a cs k Hne Hc Ht Hcs Hk ch))
             (typed_size ctx t a cs k Hcs Hk ch) Hsm).
  - apply (dispatch_at_cursor ctx t a cs _ k 1 sm Hne Hc Ht
             (kidsOf_inline t _ (typed_kids ctx t a cs k Hne Hc Ht Hcs Hk ch))
             (typed_size ctx t a cs k Hcs Hk ch) Hsm).
Qed.

Lemma typeChar_menu ctx t a cs k sm (ch : codeunit) :
  ctx <> [] -> openFrames ctx -> isTextblock t = true -> kidsOf t cs ->
  k <= fragSize cs -> ch <> 47%N ->
  specCode t = true
  \/ noRule rules (textBetween (Elem t a cs) (k - MAX_MATCH) k OBJ ++ [ch]) = true ->
  let p := holePos ctx + 1 + k in
  typeChar (cursorIn ctx (Elem t a cs) k sm) ch
  = Ok {| doc := plug ctx (typedInto t a cs k ch);
          selection := TextSelection (p + 1) (p + 1);
          slashMenu :=
            if active sm
            then menuFor (holePos ctx + 1) (p + 1)
                         (textBetween (typedInto t a cs k ch) 0 (k + 1) OBJ)
            else sm |}.
Proof.
  intros Hne Hc Ht Hcs Hk Hch Hno p. unfold typeChar, SlashCommand.handleKeyDown.
  assert (E1 : eqlit [ch] "/" = false)
    by (unfold eqlit; simpl; apply N.eqb_neq in Hch; now rewrite Hch).
  assert (E2 : eqlit [ch] "Escape" = false)
    by (unfold eqlit; simpl; now rewrite andb_false_r).
  rewrite E1, E2.
  cbn [andb bind SlashCommand.handled SlashCommand.after_key SlashCommand.scheduled].
  pose proof (handleTextInput_menu ctx t a cs k sm ch Hne Hc Ht Hcs Hk Hno) as H.
  cbv zeta in H. unfold cursorIn in H |- *.
  cbn [selection doc sel_from sel_to].
  rewrite Nat.min_id, Nat.max_id, H. reflexivity.
Qed.

Lemma lastIndexOf_absent (c : codeunit) (q : jsstring) :
  ~ In c q -> lastIndexOf [c] q = None.
Proof.
  induction q as [|x q IH]; intros Hq; [reflexivity|].
  cbn [lastIndexOf]. rewrite IH by (intros H; apply Hq; now right).
  cbn [startsWith]. destruct (N.eqb_spec c x) as [->|_]; [|reflexivity].
  exfalso. apply Hq. now left.
Qed.

Lemma lastIndexOf_last (c : codeunit) (pre q : jsstring) :
  ~ In c q -> lastIndexOf [c] (pre ++ c :: q) = Some (List.length pre).
Proof.
  intros Hq. induction pre as [|x pre IH].
  - cbn [app lastIndexOf]. rewrite (lastIndexOf_absent c q Hq).
    cbn [startsWith]. now rewrite N.eqb_refl.
  - cbn [app lastIndexOf]. now rewrite IH.
Qed.

Lemma includes_absent (c : codeunit) (q : jsstring) :
  ~ In c q -> includes [c] q = false.
Proof.
  unfold includes. induction q as [|x q IH]; intros Hq; [reflexivity|].
  cbn [indexOf startsWith].
  destruct (N.eqb_spec c x) as [->|_]; [exfalso; apply Hq; now left|].
  cbn [andb]. specialize (IH (fun H => Hq (or_intror H))).
  destruct (indexOf [c] q); [discriminate|reflexivity].
Qed.

Lemma includes_present (c : codeunit) (q r : jsstring) :
  includes [c] (q ++ c :: r) = true.
Proof.
  unfold includes. induction q as [|x q IH].
  - cbn [app indexOf startsWith]. now rewrite N.eqb_refl.
  - cbn [app indexOf startsWith]. destruct (N.eqb c x); [reflexivity|].
    cbn [andb]. destruct (indexOf [c] (q ++ c :: r)); [reflexivity|discriminate].
Qed.

Lemma slice2_end (s : jsstring) i : slice2 i (List.length s) s = skipn i s.
Proof. unfold slice2. apply firstn_all2. rewrite length_skipn. lia. Qed.

Lemma menuFor_query start0 cursor (pre q : jsstring) :
  ~ In 47%N q -> ~ In 32%N q ->
  menuFor start0 cursor (pre ++ 47%N :: q)
  = {| active := true; query := q; from := start0 + List.length pre; to := cursor |}.
Proof.
  intros H1 H2. unfold menuFor.
  assert (E : lastIndexOf (lit "/") (pre ++ 47%N :: q) = Some (List.length pre))
    by (apply lastIndexOf_last; assumption).
  rewrite E. clear E.
  unfold slice. replace (List.length pre + 1) with (List.length (pre ++ [47%N]))
    by (rewrite length_app; reflexivity).
  replace (pre ++ 47%N :: q) with ((pre ++ [47%N]) ++ q) by (now rewrite <- app_assoc).
  rewrite skipn_app, skipn_all, Nat.sub_diag. cbn [skipn app].
  assert (E : includes (lit " ") q = false) by (apply includes_absent; assumption).
  rewrite E. reflexivity.
Qed.

Lemma menuFor_space start0 cursor (pre q : jsstring) :
  ~ In 47%N q ->
  menuFor start0 cursor (pre ++ 47%N :: q ++ [32%N]) = closed.
Proof.
  intros H1. unfold menuFor.
  assert (E : lastIndexOf (lit "/") (pre ++ 47%N :: q ++ [32%N]) = Some (List.length pre)).
  { apply lastIndexOf_last.
    intros H. apply in_app_or in H as [H|[H|[]]]; [now apply H1|discriminate]. }
  rewrite E. clear E.
  unfold slice. replace (List.length pre + 1) with (List.length (pre ++ [47%N]))
    by (rewrite length_app; reflexivity).
  replace (pre ++ 47%N :: q ++ [32%N]) with ((pre ++ [47%N]) ++ q ++ [32%N])
    by (now rewrite <- app_assoc).
  rewrite skipn_app, skipn_all, Nat.sub_diag. cbn [skipn app].
  assert (E : includes (lit " ") (q ++ [32%N]) = true) by apply includes_present.
  now rewrite E.
Qed.

Lemma firstn_succ_typed (s : jsstring) k (ch : codeunit) :
  k <= List.length s ->
  slice2 0 (k + 1) (firstn k s ++ [ch] ++ skipn k s) = firstn k s ++ [ch].
Proof.
  intros Hk. unfold slice2. rewrite Nat.sub_0_r. cbn [skipn].
  rewrite app_assoc. rewrite firstn_app.
  rewrite length_app, length_firstn, Nat.min_l by assumption. cbn [List.length].
  rewrite Nat.sub_diag. cbn [firstn]. rewrite app_nil_r.
  apply firstn_all2. rewrite length_app, length_firstn. cbn [List.length]. lia.
Qed.

(** Typing into a plain text block, whatever the state of the menu. *)
Lemma typeChar_plain_text ctx t a (s : jsstring) k sm (ch : codeunit) :
  ctx <> [] -> openFrames ctx -> isTextblock t = true ->
  k <= List.length s -> ch <> 47%N ->
  specCode t = true
  \/ noRule rules (slice2 (k - MAX_MATCH) k s ++ [ch]) = true ->
  typeChar (cursorIn ctx (Elem t a (plain s)) k sm) ch
  = Ok (cursorIn ctx (Elem t a (plain (firstn k s ++ [ch] ++ skipn k s))) (k + 1)
          (if active sm
           then menuFor (holePos ctx + 1) (holePos ctx + 1 + (k + 1)) (firstn k s ++ [ch])
           else sm)).
Proof.
  intros Hne Hc Ht Hk Hch Hno.
  rewrite (typeChar_menu ctx t a (plain s) k sm ch Hne Hc Ht (plain_kidsOf t s));
    [| now rewrite fragSize_plain | assumption | now rewrite textBetween_plain ].
  rewrite (typedInto_plain t a s k ch Hk), textBetween_plain.
  rewrite (firstn_succ_typed s k ch Hk).
  unfold cursorIn. now rewrite !Nat.add_assoc.
Qed.

(** While the menu is open, a key typed at the end of a plain text block
    whose text ends with a slash followed by a query without slash or space
    updates the menu from the text: unless the key is a space, the query is
    the old one followed by the key, the range starts at that slash and
    ends at the cursor; a space closes the menu.  The key is none that sets
    off an input rule, and not a slash. *)
Theorem menu_query_follows_typing :
  forall (ctx : list Frame) (t : NodeType) (a : Attrs) (pre q : jsstring)
         (sm : SlashMenuState) (ch : codeunit),
    ctx <> [] -> openFrames ctx -> isTextblock t = true ->
    active sm = true ->
    ~ In 47%N q -> ~ In 32%N q -> ch <> 47%N ->
    let s := pre ++ 47%N :: q in
    let n := List.length s in
    specCode t = true
    \/ noRule rules (slice2 (n - MAX_MATCH) n s ++ [ch]) = true ->
    typeChar (cursorIn ctx (Elem t a (plain s)) n sm) ch
    = Ok (cursorIn ctx (Elem t a (plain (s ++ [ch]))) (n + 1)
            (if N.eqb ch 32 then closed
             else {| active := true; query := q ++ [ch];
                     from := holePos ctx + 1 + List.length pre;
                     to := holePos ctx + 1 + (n + 1) |})).
Proof.
  intros ctx t a pre q sm ch Hne Hc Ht Hsm Hq1 Hq2 Hch s n Hno.
  rewrite (typeChar_plain_text ctx t a s n sm ch Hne Hc Ht (Nat.le_refl _) Hch Hno).
  unfold n. rewrite firstn_all, skipn_all, app_nil_r, Hsm. fold n.
  f_equal. f_equal. unfold s. rewrite <- app_assoc. cbn [app].
  destruct (N.eqb_spec ch 32) as [->|Hsp].
  - now apply menuFor_space.
  - apply menuFor_query.
    + intros H. apply in_app_or in H as [H|[H|[]]]; [now apply Hq1|now apply Hch].
    + intros H. apply in_app_or in H as [H|[H|[]]]; [now apply Hq2|now apply Hsp].
Qed.

(** The query ["ta"] is followed by an ["s"]. *)
Lemma menu_query_follows_typing_witness :
  typeChar (cursorIn [around Schema.doc [] [] []] (Elem paragraph [] (plain (lit "/ta"))) 3
              {| active := true; query := lit "ta"; from := 1; to := 4 |}) 115%N
  = Ok (cursorIn [around Schema.doc [] [] []] (Elem paragraph [] (plain (lit "/tas"))) 4
          {| active := true; query := lit "tas"; from := 1; to := 5 |}).
Proof.
  apply (menu_query_follows_typing [around Schema.doc [] [] []] paragraph [] [] (lit "ta")
           {| active := true; query := lit "ta"; from := 1; to := 4 |} 115%N);
    try reflexivity; try discriminate.
  - repeat constructor.
  - intros [H|[H|[]]]; discriminate.
  - intros [H|[H|[]]]; discriminate.
  - right. vm_compute. reflexivity.
Defined.

Lemma tr_selection_after_range ctx t a cs' k1 k2 n meta :
  ctx <> [] -> openFrames ctx -> isTextblock t = true ->
  inlineKids cs' -> k1 < k2 -> k1 + n <= fragSize cs' ->
  tr_selection
    {| tr_doc := plug ctx (Elem t a cs');
       maps := [{| mstart := holePos ctx + 1 + k1;
                   oldSize := holePos ctx + 1 + k2 - (holePos ctx + 1 + k1);
                   newSize := n |}];
       curSelection := TextSelection (holePos ctx + 1 + k2) (holePos ctx + 1 + k2);
       curSelectionFor := 0; slashMeta := meta |}
  = Ok (TextSelection (holePos ctx + 1 + (k1 + n)) (holePos ctx + 1 + (k1 + n))).
Proof.
  intros Hne Hc Ht Hcs H12 Hk.
  unfold tr_selection.
  cbn [tr_doc maps curSelection curSelectionFor slashMeta List.length Nat.ltb Nat.leb skipn].
  unfold mapSelection, mapPos, mapResult, mapStep.
  cbn [mstart oldSize newSize fst].
  destruct (Nat.ltb_spec (holePos ctx + 1 + k2) (holePos ctx + 1 + k1)) as [Hlt|_]; [lia|].
  replace (holePos ctx + 1 + k1 + (holePos ctx + 1 + k2 - (holePos ctx + 1 + k1)))
    with (holePos ctx + 1 + k2) by lia.
  rewrite Nat.leb_refl.
  destruct (Nat.eqb_spec (holePos ctx + 1 + k2 - (holePos ctx + 1 + k1)) 0) as [E|_]; [lia|].
  destruct (Nat.eqb_spec (holePos ctx + 1 + k2) (holePos ctx + 1 + k1)) as [E|_]; [lia|].
  rewrite Nat.eqb_refl. cbn [fst].
  destruct (resolve_inside ctx t a cs' (k1 + n) Hne Hc (textblock_open t Ht) Hcs Hk)
    as (r & Hr & Hin).
  replace (holePos ctx + 1 + k1 + n) with (holePos ctx + 1 + (k1 + n)) by lia.
  rewrite Hr. cbn [bind].
  rewrite (ib_parent ctx _ _ r Hin). cbn [nodeType].
  rewrite (textblock_inline t Ht). cbn [negb bind].
  rewrite (ib_pos _ _ _ _ Hin). reflexivity.
Qed.

Lemma closeSlashMenu_plain ctx t a (s q : jsstring) k1 k2 :
  ctx <> [] -> openFrames ctx -> isTextblock t = true ->
  k1 < k2 -> k2 <= List.length s ->
  SlashCommand.closeSlashMenu
    (cursorIn ctx (Elem t a (plain s)) k2
       {| active := true; query := q;
          from := holePos ctx + 1 + k1; to := holePos ctx + 1 + k2 |}) true
  = Ok (cursorIn ctx (Elem t a (plain (firstn k1 s ++ skipn k2 s))) k1 closed).
Proof.
  intros Hne Hc Ht H12 H2.
  unfold SlashCommand.closeSlashMenu, cursorIn.
  cbn [slashMenu active negb from to].
  unfold delete, replace. cbn [fromArray fromArrayFrom tr_doc setMeta tr doc].
  rewrite (replaceStep_inside ctx t a (plain s) k1 k2 [] Hne Hc Ht (plain_kidsOf t s));
    [| constructor | rewrite fragSize_plain; lia | rewrite fragSize_plain; lia
     | destruct (Nat.eqb_spec k1 k2); [lia|reflexivity] ].
  cbn [bind maps curSelection curSelectionFor slashMeta selection app setMeta tr].
  change (@nil Node) with (plain []) at 1. rewrite spliced_plain by lia. cbn [app].
  set (s' := firstn k1 s ++ skipn k2 s).
  assert (Hk1 : k1 + 0 <= fragSize (plain s')).
  { rewrite fragSize_plain. unfold s'. rewrite length_app, length_firstn. lia. }
  unfold SlashCommand.dispatch, applyWith.
  change (fragSize []) with 0.
  rewrite (tr_selection_after_range ctx t a (plain s') k1 k2 0 (Some None) Hne Hc Ht
             (kidsOf_inline t _ (plain_kidsOf t s')) H12 Hk1).
  cbn [bind]. unfold SlashCommand.apply. cbn [slashMeta bind tr_doc].
  now rewrite Nat.add_0_r.
Qed.

(** [closeSlashMenu] on an open menu whose range lies in a plain text
    block, the cursor at its end: with [deleteText] the text of the range is
    removed, the cursor stands where the range started and the menu is
    closed; without it only the menu is closed.  On a menu that is not
    open it does nothing. *)
Theorem closeSlashMenu_deletes_command :
  forall (ctx : list Frame) (t : NodeType) (a : Attrs) (s q : jsstring) (k1 k2 : nat)
         (sm : SlashMenuState),
    ctx <> [] -> openFrames ctx -> isTextblock t = true ->
    k1 < k2 -> k2 <= List.length s ->
    let menu := {| active := true; query := q;
                   from := holePos ctx + 1 + k1; to := holePos ctx + 1 + k2 |} in
    let st := cursorIn ctx (Elem t a (plain s)) k2 in
    SlashCommand.closeSlashMenu (st menu) true
    = Ok (cursorIn ctx (Elem t a (plain (firstn k1 s ++ skipn k2 s))) k1 closed)
    /\ SlashCommand.closeSlashMenu (st menu) false = Ok (st closed)
    /\ (active sm = false ->
        forall deleteText, SlashCommand.closeSlashMenu (st sm) deleteText = Ok (st sm)).
Proof.
  intros ctx t a s q k1 k2 sm Hne Hc Ht H12 H2 menu st. split; [|split].
  - now apply closeSlashMenu_plain.
  - reflexivity.
  - intros Hsm deleteText. unfold SlashCommand.closeSlashMenu, st, cursorIn.
    cbn [slashMenu]. now rewrite Hsm.
Qed.

(** The command ["/ta"] after the text ["a "]. *)
Lemma closeSlashMenu_deletes_command_witness :
  let ctx := [around Schema.doc [] [] []] in
  let menu := {| active := true; query := lit "ta"; from := 3; to := 6 |} in
  let st := cursorIn ctx (Elem paragraph [] (plain (lit "a /ta"))) 5 in
  SlashCommand.closeSlashMenu (st menu) true
  = Ok (cursorIn ctx (Elem paragraph [] (plain (lit "a "))) 2 closed)
  /\ SlashCommand.closeSlashMenu (st menu) false = Ok (st closed)
  /\ (active closed = false ->
      forall deleteText, SlashCommand.closeSlashMenu (st closed) deleteText = Ok (st closed)).
Proof.
  apply (closeSlashMenu_deletes_command [around Schema.doc [] [] []] paragraph []
           (lit "a /ta") (lit "ta") 2 5 closed);
    try reflexivity; try discriminate; try solve [repeat constructor]; simpl; lia.
Defined.

(** A slash typed into a plain text block at a position where the menu
    opens, followed by [closeSlashMenu] with [deleteText]: the document and
    the cursor are as they were before the slash, and the menu is closed. *)
Theorem slash_then_close_restores_text :
  forall (ctx : list Frame) (t : NodeType) (a : Attrs) (s : jsstring) (k : nat)
         (sm : SlashMenuState),
    ctx <> [] -> openFrames ctx -> isTextblock t = true ->
    k <= List.length s -> active sm = false ->
    validSlashPosition (Elem t a (plain s)) k = true ->
    (st1 <- typeChar (cursorIn ctx (Elem t a (plain s)) k sm) 47%N ;;
     SlashCommand.closeSlashMenu st1 true)
    = Ok (cursorIn ctx (Elem t a (plain s)) k closed).
Proof.
  intros ctx t a s k sm Hne Hc Ht Hk Hsm Hvalid.
  unfold cursorIn at 1.
  rewrite (typeChar_slash ctx t a (plain s) k sm Hne Hc Ht (plain_kidsOf t s));
    [| now rewrite fragSize_plain | assumption ].
  rewrite Hvalid, (typedInto_plain t a s k 47%N Hk). cbn [bind].
  pose proof (closeSlashMenu_plain ctx t a (firstn k s ++ [47%N] ++ skipn k s) [] k (k + 1)
                Hne Hc Ht) as H.
  unfold cursorIn in H |- *.
  replace (holePos ctx + 1 + k + 1) with (holePos ctx + 1 + (k + 1)) by lia.
  etransitivity; [apply H|].
  3:{ f_equal. f_equal. f_equal. f_equal.
    rewrite firstn_app, firstn_firstn, Nat.min_id, length_firstn, Nat.min_l by assumption.
    rewrite Nat.sub_diag. cbn [firstn]. rewrite app_nil_r.
    rewrite app_assoc, skipn_app.
    rewrite length_app, length_firstn, Nat.min_l by assumption. cbn [List.length].
    rewrite Nat.sub_diag. cbn [skipn].
    rewrite skipn_all2 by (rewrite length_app, length_firstn; cbn [List.length]; lia).
    cbn [app]. now rewrite firstn_skipn. }
  - lia.
  - rewrite !length_app, length_firstn, length_skipn. cbn [List.length]. lia.
Qed.

(** A slash typed after ["a "] and dismissed. *)
Lemma slash_then_close_restores_text_witness :
  (st1 <- typeChar (cursorIn [around Schema.doc [] [] []]
                      (Elem paragraph [] (plain (lit "a "))) 2 closed) 47%N ;;
   SlashCommand.closeSlashMenu st1 true)
  = Ok (cursorIn [around Schema.doc [] [] []] (Elem paragraph [] (plain (lit "a "))) 2 closed).
Proof.
  apply (slash_then_close_restores_text [around Schema.doc [] [] []] paragraph []
           (lit "a ") 2 closed);
    try reflexivity; try discriminate; try solve [repeat constructor]; simpl; lia.
Defined.

(** The Escape key: when the menu is open it is closed by a transaction
    that changes neither the document nor the selection, and the key is
    handled; when the menu is not open the key is not handled and nothing
    changes.  No opening of the menu is scheduled in either case. *)
Theorem escape_closes_menu :
  forall st : EditorState,
    SlashCommand.handleKeyDown st (lit "Escape")
    = Ok {| SlashCommand.handled := active (slashMenu st);
            SlashCommand.after_key :=
              if active (slashMenu st)
              then {| doc := doc st; selection := selection st; slashMenu := closed |}
              else st;
            SlashCommand.scheduled := None |}.
Proof.
  intros st. unfold SlashCommand.handleKeyDown.
  change (eqlit (lit "Escape") "/") with false.
  change (eqlit (lit "Escape") "Escape") with true.
  cbn [bind andb]. destruct (active (slashMenu st)); reflexivity.
Qed.

(* ------------------------------------------------------------------ *)
(** ** Characters that set off no rule ([buildInputRules]) *)

Lemma ordinary_cannotEnd ch :
  ordinary ch = true ->
  forallb (fun rule => cannotEnd ch (pattern rule)) rules = true.
Proof.
  unfold ordinary. intros H. apply andb_prop in H as [Hw Hp].
  apply negb_true_iff in Hw, Hp.
  cbn [lit list_ascii_of_string List.map app existsb] in Hp.
  repeat (apply orb_false_iff in Hp as [? Hp]).
  vm_compute N_of_ascii in *.
  cbn -[N.eqb isWhiteSpace].
  repeat match goal with
         | H : N.eqb _ _ = false |- _ => rewrite H; clear H
         end.
  rewrite Hw. reflexivity.
Qed.

(** A character that is not white space, not a quote (single or double)
    and none of [. - ` * _ ~ = /], typed into any text block at any cursor
    position while the menu is closed, sets off no input rule whatever the
    text before it: it is inserted at the cursor, with the marks of that
    position, and the cursor moves behind it. *)
Theorem ordinary_characters_typed_literally :
  forall (ctx : list Frame) (t : NodeType) (a : Attrs) (cs : list Node) (k : nat)
         (sm : SlashMenuState) (ch : codeunit),
    ctx <> [] -> openFrames ctx -> isTextblock t = true -> kidsOf t cs ->
    k <= fragSize cs -> active sm = false -> ordinary ch = true ->
    typeChar (cursorIn ctx (Elem t a cs) k sm) ch
    = Ok (cursorIn ctx (typedInto t a cs k ch) (k + 1) sm).
Proof.
  intros ctx t a cs k sm ch Hne Hc Ht Hcs Hk Hsm Hch.
  unfold cursorIn at 1.
  rewrite (typeChar_plain ctx t a cs k sm Hne Hc Ht Hcs Hk Hsm ch).
  - unfold cursorIn, typedInto. now rewrite !Nat.add_assoc.
  - intros ->. discriminate.
  - right. apply noRule_cannotEnd. now apply ordinary_cannotEnd.
Qed.

(** An ["x"] typed in the middle of the bold text ["ab"]. *)
Lemma ordinary_characters_typed_literally_witness :
  let cs := [Text (lit "ab") [{| mtype := strong; mattrs := [] |}]] in
  typeChar (cursorIn [around Schema.doc [] [] []] (Elem paragraph [] cs) 1 closed) 120%N
  = Ok (cursorIn [around Schema.doc [] [] []] (typedInto paragraph [] cs 1 120%N) 2 closed).
Proof.
  apply (ordinary_characters_typed_literally [around Schema.doc [] [] []] paragraph []
           [Text (lit "ab") [{| mtype := strong; mattrs := [] |}]] 1 closed 120%N);
    try reflexivity; try discriminate; try solve [repeat constructor]; vm_compute; lia.
Defined.

Lemma typeText_quiet ctx t a (s w : jsstring) sm :
  ctx <> [] -> openFrames ctx -> isTextblock t = true -> active sm = false ->
  quiet s w = true ->
  typeText (cursorIn ctx (Elem t a (plain s)) (List.length s) sm) w
  = Ok (cursorIn ctx (Elem t a (plain (s ++ w))) (List.length (s ++ w)) sm).
Proof.
  intros Hne Hc Ht Hsm. revert s. induction w as [|ch w IH]; intros s Hq.
  - cbn [typeText]. now rewrite app_nil_r.
  - cbn [quiet] in Hq. apply andb_prop in Hq as [Hq Hq3]. apply andb_prop in Hq as [Hq1 Hq2].
    apply negb_true_iff in Hq1. apply N.eqb_neq in Hq1.
    cbn [typeText].
    rewrite (typeChar_plain_text ctx t a s (List.length s) sm ch Hne Hc Ht (Nat.le_refl _) Hq1
               (or_intror Hq2)).
    rewrite Hsm, firstn_all, skipn_all, app_nil_r. cbn [bind].
    replace (List.length s + 1) with (List.length (s ++ [ch]))
      by (rewrite length_app; reflexivity).
    rewrite (IH (s ++ [ch]) Hq3). now rewrite <- app_assoc.
Qed.

(* ------------------------------------------------------------------ *)
(** ** The text rules: the em dash *)

Lemma matches_Empty s : matches Empty s = false.
Proof. induction s; simpl; auto. Qed.

Lemma matches_Eps s : matches Eps s = true -> s = [].
Proof. destruct s; [reflexivity|]. simpl. now rewrite matches_Empty. Qed.

Lemma matches_Alt r1 r2 s : matches (Alt r1 r2) s = matches r1 s || matches r2 s.
Proof. revert r1 r2. induction s as [|c s IH]; intros; simpl; [reflexivity|apply IH]. Qed.

Lemma matches_Seq_Empty r s : matches (Seq Empty r) s = false.
Proof. induction s as [|c s IH]; simpl; [reflexivity|exact IH]. Qed.

Lemma matches_Seq_Eps r s : matches (Seq Eps r) s = matches r s.
Proof.
  destruct s as [|c s]; [reflexivity|].
  cbn [matches deriv nullable]. now rewrite matches_Alt, matches_Seq_Empty.
Qed.

Lemma matches_Str d s : matches (Str d) s = true -> s = d.
Proof.
  revert s. induction d as [|x d IH]; intros s H.
  - now apply matches_Eps.
  - destruct s as [|y s]; [discriminate|].
    cbn [Str matches deriv nullable] in H.
    destruct (N.eqb_spec y x) as [->|_].
    + rewrite matches_Seq_Eps in H. f_equal. now apply IH.
    + now rewrite matches_Seq_Empty in H.
Qed.

Lemma matches_Str_refl d : matches (Str d) d = true.
Proof.
  induction d as [|x d IH]; [reflexivity|].
  cbn [Str matches deriv nullable]. now rewrite N.eqb_refl, matches_Seq_Eps.
Qed.

Lemma execFrom_ending_Str d prev i (u : jsstring) :
  execFrom (Ending (Str d)) prev i (u ++ d) = Some (i + List.length u, d).
Proof.
  revert prev i. induction u as [|x u IH]; intros prev i.
  - cbn [app]. rewrite Nat.add_0_r.
    destruct d as [|y d]; [reflexivity|].
    cbn [execFrom]. unfold matchHere. cbn [notAfter Ending alts existsb fst snd negb orb andb].
    now rewrite matches_Str_refl.
  - cbn [app execFrom]. unfold matchHere at 1.
    cbn [notAfter Ending alts existsb fst snd negb orb andb].
    destruct (matches (Str d) (x :: u ++ d)) eqn:E.
    + apply matches_Str in E. apply (f_equal (@List.length _)) in E.
      cbn [List.length] in E. rewrite length_app in E. lia.
    + cbn [orb]. rewrite IH. f_equal. f_equal. cbn [List.length]. lia.
Qed.

Lemma marksAcross_unmarked r e :
  (forall i c, maybeChild (parent r) i = Some c -> nodeMarks c = []) ->
  marksAcross r e = [].
Proof.
  intros H. unfold marksAcross.
  destruct (maybeChild (parent r) (index r (depth r))) as [c|] eqn:E; [|reflexivity].
  rewrite (H _ _ E). now destruct (negb (isInline (nodeType c))).
Qed.

Lemma plain_unmarked t a s i c :
  maybeChild (Elem t a (plain s)) i = Some c -> nodeMarks c = [].
Proof.
  unfold maybeChild. cbn [children]. intros H. apply nth_error_In in H.
  destruct s; [destruct H|]. destruct H as [<-|[]]. reflexivity.
Qed.

Lemma plain_nonempty (x : jsstring) : x <> [] -> plain x = [Text x []].
Proof. destruct x; [congruence|reflexivity]. Qed.

Lemma insertText_range_plain ctx t a (s x : jsstring) k1 k2 sm :
  ctx <> [] -> openFrames ctx -> isTextblock t = true ->
  k1 < k2 -> k2 <= List.length s -> x <> [] ->
  insertText (tr (cursorIn ctx (Elem t a (plain s)) k2 sm)) x
             (holePos ctx + 1 + k1) (holePos ctx + 1 + k2)
  = Ok {| tr_doc := plug ctx (Elem t a (plain (firstn k1 s ++ x ++ skipn k2 s)));
          maps := [{| mstart := holePos ctx + 1 + k1;
                      oldSize := holePos ctx + 1 + k2 - (holePos ctx + 1 + k1);
                      newSize := List.length x |}];
          curSelection := TextSelection (holePos ctx + 1 + k2) (holePos ctx + 1 + k2);
          curSelectionFor := 0; slashMeta := None |}.
Proof.
  intros Hne Hc Ht H12 H2 Hx.
  pose proof (kidsOf_inline t _ (plain_kidsOf t s)) as Hin.
  unfold insertText, cursorIn. cbn [tr tr_doc doc].
  destruct (resolve_inside ctx t a (plain s) k1 Hne Hc (textblock_open t Ht) Hin)
    as (rf & Hrf & Hf); [rewrite fragSize_plain; lia|].
  destruct (resolve_inside ctx t a (plain s) k2 Hne Hc (textblock_open t Ht) Hin)
    as (rt & Hrt & Hto); [rewrite fragSize_plain; lia|].
  rewrite Hrf, Hrt. cbn [bind].
  destruct (Nat.eqb_spec (holePos ctx + 1 + k1) (holePos ctx + 1 + k2)) as [E|_]; [lia|].
  rewrite (marksAcross_unmarked rf rt)
    by (rewrite (ib_parent ctx _ _ rf Hf); apply plain_unmarked).
  destruct x as [|x0 x]; [congruence|].
  cbn [schemaText bind setFrom fold_left].
  unfold replace. rewrite fromArray_one.
  cbn [tr_doc tr doc maps curSelection curSelectionFor slashMeta selection].
  rewrite (replaceStep_inside ctx t a (plain s) k1 k2 [Text (x0 :: x) []] Hne Hc Ht
             (plain_kidsOf t s));
    [| apply (plain_kidsOf t (x0 :: x)) | rewrite fragSize_plain; lia
     | rewrite fragSize_plain; lia
     | destruct (Nat.eqb_spec k1 k2); [lia|reflexivity] ].
  cbn [bind maps curSelection curSelectionFor slashMeta app].
  change [Text (x0 :: x) []] with (plain (x0 :: x)).
  rewrite spliced_plain by lia. rewrite fragSize_plain.
  set (s' := firstn k1 s ++ (x0 :: x) ++ skipn k2 s).
  assert (Hk : k1 + List.length (x0 :: x) <= fragSize (plain s')).
  { rewrite fragSize_plain. unfold s'. rewrite !length_app, length_firstn. lia. }
  rewrite (tr_selection_after_range ctx t a (plain s') k1 k2 _ None Hne Hc Ht
             (kidsOf_inline t _ (plain_kidsOf t s')) H12 Hk).
  cbn [bind]. unfold sel_empty, sel_from, sel_to.
  now rewrite Nat.min_id, Nat.max_id, Nat.eqb_refl.
Qed.

Lemma dispatch_after_range ctx t a cs cs' k1 k2 n sm :
  ctx <> [] -> openFrames ctx -> isTextblock t = true ->
  inlineKids cs' -> k1 < k2 -> k1 + n <= fragSize cs' -> active sm = false ->
  SlashCommand.dispatch (cursorIn ctx (Elem t a cs) k2 sm)
    {| tr_doc := plug ctx (Elem t a cs');
       maps := [{| mstart := holePos ctx + 1 + k1;
                   oldSize := holePos ctx + 1 + k2 - (holePos ctx + 1 + k1);
                   newSize := n |}];
       curSelection := TextSelection (holePos ctx + 1 + k2) (holePos ctx + 1 + k2);
       curSelectionFor := 0; slashMeta := None |}
  = Ok (cursorIn ctx (Elem t a cs') (k1 + n) sm).
Proof.
  intros Hne Hc Ht Hcs H12 Hk Hsm.
  unfold SlashCommand.dispatch, applyWith.
  rewrite (tr_selection_after_range ctx t a cs' k1 k2 n None Hne Hc Ht Hcs H12 Hk).
  cbn [bind]. unfold SlashCommand.apply, cursorIn. cbn [slashMeta slashMenu].
  rewrite Hsm. reflexivity.
Qed.

Lemma typeChar_unhandled ctx blk k sm (ch : codeunit) :
  ch <> 47%N ->
  typeChar (cursorIn ctx blk k sm) ch
  = handleTextInput (cursorIn ctx blk k sm) (holePos ctx + 1 + k) (holePos ctx + 1 + k) [ch].
Proof.
  intros Hch. unfold typeChar, SlashCommand.handleKeyDown.
  assert (E1 : eqlit [ch] "/" = false)
    by (unfold eqlit; simpl; apply N.eqb_neq in Hch; now rewrite Hch).
  assert (E2 : eqlit [ch] "Escape" = false)
    by (unfold eqlit; simpl; now rewrite andb_false_r).
  rewrite E1, E2.
  cbn [andb bind SlashCommand.handled SlashCommand.after_key SlashCommand.scheduled].
  unfold cursorIn. cbn [selection doc sel_from sel_to].
  rewrite Nat.min_id, Nat.max_id.
  now destruct (handleTextInput _ _ _ _).
Qed.

Lemma rules_emDash :
  rules = firstn 5 rules
          ++ {| pattern := Ending (Str (lit "--")); handler := stringHandler [8212%N] false |}
          :: skipn 6 rules.
Proof. reflexivity. Qed.

Lemma typeChar_emDash ctx t a (u : jsstring) sm :
  ctx <> [] -> openFrames ctx -> isTextblock t = true -> specCode t = false ->
  active sm = false ->
  typeChar (cursorIn ctx (Elem t a (plain (u ++ [45%N]))) (List.length u + 1) sm) 45%N
  = Ok (cursorIn ctx (Elem t a (plain (u ++ [8212%N]))) (List.length u + 1) sm).
Proof.
  intros Hne Hc Ht Hcode Hsm.
  set (s := u ++ [45%N]). set (k := List.length u + 1).
  assert (Hlen : List.length s = k) by (unfold s, k; now rewrite length_app).
  pose proof (kidsOf_inline t _ (plain_kidsOf t s)) as Hin.
  rewrite typeChar_unhandled by discriminate.
  set (st := cursorIn ctx (Elem t a (plain s)) k sm).
  unfold handleTextInput, run.
  destruct (resolve_inside ctx t a (plain s) k Hne Hc (textblock_open t Ht) Hin)
    as (rf & Hrf & Hf); [rewrite fragSize_plain; lia|].
  change (doc st) with (plug ctx (Elem t a (plain s))).
  rewrite Hrf. cbn [bind].
  rewrite (ib_parent ctx _ _ rf Hf), (ib_offset _ _ _ _ Hf), textBetween_plain.
  cbn [nodeType]. rewrite Hcode.
  match goal with
  | |- context [runLoop _ _ _ _ ?tb _ _] =>
      assert (Htb : tb = skipn (k - MAX_MATCH) u ++ lit "--")
  end.
  { rewrite <- Hlen, slice2_end. unfold s. rewrite skipn_app.
    replace (List.length (u ++ [45%N]) - MAX_MATCH - List.length u) with 0
      by (rewrite length_app; cbn [List.length]; unfold MAX_MATCH; lia).
    cbn [skipn]. now rewrite <- app_assoc. }
  rewrite Htb, rules_emDash.
  rewrite (runLoop_first st _ _ [45%N] _ (firstn 5 rules) _ (skipn 6 rules)
             (List.length (skipn (k - MAX_MATCH) u)) (lit "--"));
    [| replace (skipn (k - MAX_MATCH) u ++ lit "--")
         with ((skipn (k - MAX_MATCH) u ++ [45%N]) ++ [45%N]) by (now rewrite <- app_assoc);
       apply noRule_cannotEnd; vm_compute; reflexivity
     | unfold exec; apply (execFrom_ending_Str (lit "--"))
     | simpl; lia ].
  cbn [handler stringHandler].
  change (List.length (lit "--") - List.length [45%N]) with 1.
  replace (holePos ctx + 1 + k - 1) with (holePos ctx + 1 + (k - 1)) by (unfold k; lia).
  unfold st.
  rewrite (insertText_range_plain ctx t a s [8212%N] (k - 1) k sm Hne Hc Ht);
    [| unfold k; lia | lia | discriminate ].
  cbn [bind].
  assert (Hs' : firstn (k - 1) s ++ [8212%N] ++ skipn k s = u ++ [8212%N]).
  { rewrite <- Hlen at 2. rewrite skipn_all, app_nil_r. unfold s, k.
    replace (List.length u + 1 - 1) with (List.length u + 0) by lia.
    rewrite firstn_app_2. cbn [firstn]. now rewrite app_nil_r. }
  match goal with
  | |- context [SlashCommand.dispatch _
                  {| tr_doc := plug ctx (Elem t a ?cs');
                     maps := [{| mstart := _; oldSize := _; newSize := ?n |}];
                     curSelection := _; curSelectionFor := _; slashMeta := _ |}] =>
      rewrite (dispatch_after_range ctx t a (plain s) cs' (k - 1) k n sm Hne Hc Ht);
        [ | apply (kidsOf_inline t), plain_kidsOf
          | unfold k; lia
          | rewrite fragSize_plain, !length_app, length_firstn; cbn [List.length]; lia
          | assumption ]
  end.
  cbn [bind List.length]. replace (k - 1 + 1) with k by (unfold k; lia).
  do 2 f_equal. f_equal. f_equal. exact Hs'.
Qed.

(* ------------------------------------------------------------------ *)
(** ** The block rules of [buildInputRules] *)

Lemma fromArrayFrom_elements l p :
  elements l -> nodeIsText p = false -> fromArrayFrom (Some p) l = p :: l.
Proof.
  revert p. induction l as [|c l IH]; intros p Hl Hp; [reflexivity|].
  inversion Hl as [|? ? Hc Hl']; subst.
  cbn [fromArrayFrom]. destruct p as [|pt pa pcs]; [discriminate|].
  now rewrite IH.
Qed.

Lemma fromArray_elements l : elements l -> fromArray l = l.
Proof.
  intros Hl. destruct l as [|c l]; [reflexivity|].
  inversion Hl as [|? ? Hc Hl']; subst.
  unfold fromArray. cbn [fromArrayFrom]. now apply fromArrayFrom_elements.
Qed.

Lemma handleTextInput_replaceBlock outer pt pa left right t a sm (w : jsstring)
      (ch : codeunit) n pat mk ns x m0 :
  openFrames outer -> isLeaf pt = false -> elements left -> elements right ->
  isTextblock t = true -> specCode t = false -> active sm = false ->
  rules = firstn n rules ++ {| pattern := pat; handler := replaceBlock mk |}
                         :: skipn (S n) rules ->
  mk = Ok ns -> elements ns ->
  let tb := slice2 (List.length w - MAX_MATCH) (List.length w) w ++ [ch] in
  noRule (firstn n rules) tb = true ->
  exec pat tb = Some (x, m0) ->
  1 <= List.length m0 -> List.length m0 - 1 <= List.length w ->
  validContentTypes pt (List.map nodeType (left ++ ns ++ right)) = true ->
  let ctx := outer ++ [around pt pa left right] in
  exists sel',
    handleTextInput (cursorIn ctx (Elem t a (plain w)) (List.length w) sm)
                    (holePos ctx + 1 + List.length w) (holePos ctx + 1 + List.length w) [ch]
    = Ok {| doc := plug outer (Elem pt pa (left ++ ns ++ right));
            selection := sel'; slashMenu := sm |}.
Proof.
  intros Hc Hpt Hleft Hright Ht Hcode Hsm Hrules Hmk Hns tb Hno Hex Hm1 Hm2 Hvalid ctx.
  assert (Hne : ctx <> []) by (unfold ctx; now destruct outer).
  assert (Hco : openFrames ctx) by (apply openFrames_snoc; assumption).
  set (blk := Elem t a (plain w)).
  set (k := List.length w).
  pose proof (kidsOf_inline t _ (plain_kidsOf t w)) as Hin.
  assert (Hsize : nodeSize blk = 2 + k).
  { unfold blk. rewrite nodeSize_Elem, (textblock_open t Ht).
    fold (fragSize (plain w)). now rewrite fragSize_plain. }
  assert (Hcsize : contentSize blk = k) by apply fragSize_plain.
  set (p := holePos ctx + 1 + k).
  set (st := cursorIn ctx blk k sm).
  unfold handleTextInput, run.
  destruct (resolve_inside ctx t a (plain w) k Hne Hco (textblock_open t Ht) Hin)
    as (rf & Hrf & Hf); [unfold k; now rewrite fragSize_plain|].
  change (doc st) with (plug ctx blk). fold blk in Hrf, Hf. fold p in Hrf.
  rewrite Hrf. cbn [bind].
  rewrite (ib_parent ctx _ _ rf Hf), (ib_offset _ _ _ _ Hf).
  unfold blk at 1. rewrite textBetween_plain.
  unfold blk at 1. cbn [nodeType]. rewrite Hcode.
  unfold k at 1 2. fold tb. rewrite Hrules.
  rewrite (runLoop_first st p p [ch] tb (firstn n rules)
             {| pattern := pat; handler := replaceBlock mk |} (skipn (S n) rules) x m0 Hno Hex);
    [| cbn [List.length]; lia ].
  cbn [handler]. unfold replaceBlock.
  cbn [List.length].
  match goal with
  | |- context [resolve _ ?q] =>
      replace q with (holePos ctx + 1 + (k - (List.length m0 - 1))) by (unfold p; lia)
  end.
  destruct (resolve_inside ctx t a (plain w) (k - (List.length m0 - 1)) Hne Hco
              (textblock_open t Ht) Hin) as (rs & Hrs & Hs);
    [rewrite fragSize_plain; unfold k; lia|].
  fold blk in Hrs, Hs.
  change (doc st) with (plug ctx blk). rewrite Hrs. cbn [bind].
  rewrite (ib_start ctx blk _ rs Hne Hs), (ib_end ctx blk _ rs Hne Hs), Hcsize.
  rewrite Hmk. cbn [bind].
  rewrite (Nat.add_1_r (holePos ctx)).
  unfold replaceWith, replace.
  change (tr_doc (tr st)) with (plug ctx blk).
  assert (Hhp : holePos ctx = inside outer + fragSize left)
    by (unfold ctx; now rewrite holePos_snoc).
  assert (Hplug : plug ctx blk = plug outer (Elem pt pa (left ++ blk :: right)))
    by (unfold ctx; now rewrite plug_snoc).
  rewrite Hplug.
  replace (S (holePos ctx) + k + 1)
    with (inside outer + fragSize left + nodeSize blk) by lia.
  rewrite Hhp.
  rewrite (fromArray_elements ns Hns).
  rewrite (replaceStep_block outer pt pa left right blk Hc Hpt Hleft Hright eq_refl ns Hns
             Hvalid).
  cbn [bind maps tr app curSelection curSelectionFor slashMeta].
  change (selection st) with (TextSelection p p).
  destruct (dispatch_block outer pt pa left right blk Hc Hpt Hleft ns p sm Hns Hsm)
    as (sel' & Hd); [unfold p; lia | unfold p; lia |].
  exists sel'.
  assert (Est : st = {| doc := plug outer (Elem pt pa (left ++ blk :: right));
                        selection := TextSelection p p; slashMenu := sm |})
    by (unfold st, cursorIn; now rewrite Hplug).
  rewrite Est, Hd. reflexivity.
Qed.

Lemma typeText_cons st (ch : codeunit) (s : jsstring) :
  typeText st (ch :: s) = (st' <- typeChar st ch ;; typeText st' s).
Proof. reflexivity. Qed.

Lemma shortcut_fires outer pt pa left right t a sm (w : jsstring)
      (ch : codeunit) n pat mk ns x m0 :
  openFrames outer -> isLeaf pt = false -> elements left -> elements right ->
  isTextblock t = true -> specCode t = false -> active sm = false ->
  rules = firstn n rules ++ {| pattern := pat; handler := replaceBlock mk |}
                         :: skipn (S n) rules ->
  mk = Ok ns -> elements ns ->
  quiet [] w = true -> ch <> 47%N ->
  let tb := slice2 (List.length w - MAX_MATCH) (List.length w) w ++ [ch] in
  noRule (firstn n rules) tb = true ->
  exec pat tb = Some (x, m0) ->
  1 <= List.length m0 -> List.length m0 - 1 <= List.length w ->
  validContentTypes pt (List.map nodeType (left ++ ns ++ right)) = true ->
  let ctx := outer ++ [around pt pa left right] in
  exists sel',
    typeText (cursorIn ctx (Elem t a []) 0 sm) (w ++ [ch])
    = Ok {| doc := plug outer (Elem pt pa (left ++ ns ++ right));
            selection := sel'; slashMenu := sm |}.
Proof.
  intros Hc Hpt Hleft Hright Ht Hcode Hsm Hrules Hmk Hns Hq Hch tb Hno Hex Hm1 Hm2 Hvalid ctx.
  assert (Hne : ctx <> []) by (unfold ctx; now destruct outer).
  assert (Hco : openFrames ctx) by (apply openFrames_snoc; assumption).
  destruct (handleTextInput_replaceBlock outer pt pa left right t a sm w ch n pat mk ns x m0
              Hc Hpt Hleft Hright Ht Hcode Hsm Hrules Hmk Hns Hno Hex Hm1 Hm2 Hvalid)
    as (sel' & H).
  exists sel'.
  rewrite typeText_app.
  change (cursorIn ctx (Elem t a []) 0 sm)
    with (cursorIn ctx (Elem t a (plain [])) (List.length (@nil codeunit)) sm).
  rewrite (typeText_quiet ctx t a [] w sm Hne Hco Ht Hsm Hq).
  cbn [bind app typeText].
  rewrite typeChar_unhandled by assumption.
  fold ctx in H. rewrite H. reflexivity.
Qed.

Ltac fired :=
  [> reflexivity | reflexivity | once (repeat constructor) | vm_compute; reflexivity
   | discriminate | vm_compute; reflexivity | vm_compute; reflexivity
   | simpl; lia | simpl; lia | assumption ].

(** ["- [x] "] or ["- [X] "] typed into an empty text block that is not a
    code block, and whose parent accepts a task list in its place: the
    block is replaced by a task list with one checked item holding an empty
    paragraph. *)
Theorem checked_task_shortcut :
  forall (outer : list Frame) (pt : NodeType) (pa : Attrs) (left right : list Node)
         (t : NodeType) (a : Attrs) (sm : SlashMenuState),
    openFrames outer -> isLeaf pt = false -> elements left -> elements right ->
    isTextblock t = true -> specCode t = false -> active sm = false ->
    validContentTypes pt (List.map nodeType (left ++ [checkedTaskList] ++ right)) = true ->
    let ctx := outer ++ [around pt pa left right] in
    let after sel' := Ok {| doc := plug outer (Elem pt pa (left ++ [checkedTaskList] ++ right));
                            selection := sel'; slashMenu := sm |} in
    (exists sel', typeText (cursorIn ctx (Elem t a []) 0 sm) (lit "- [x] ") = after sel')
    /\ (exists sel', typeText (cursorIn ctx (Elem t a []) 0 sm) (lit "- [X] ") = after sel').
Proof.
  intros outer pt pa left right t a sm Hc Hpt Hleft Hright Ht Hcode Hsm Hvalid ctx after.
  split.
  - eapply (shortcut_fires outer pt pa left right t a sm (lit "- [x]") 32%N 13 _ _
              [checkedTaskList] 0 (lit "- [x] ") Hc Hpt Hleft Hright Ht Hcode Hsm); fired.
  - eapply (shortcut_fires outer pt pa left right t a sm (lit "- [X]") 32%N 13 _ _
              [checkedTaskList] 0 (lit "- [X] ") Hc Hpt Hleft Hright Ht Hcode Hsm); fired.
Qed.

(** The only paragraph of a document. *)
Lemma checked_task_shortcut_witness :
  let start := cursorIn [around Schema.doc [] [] []] (Elem paragraph [] []) 0 closed in
  let after sel' := Ok {| doc := Elem Schema.doc [] [checkedTaskList];
                          selection := sel'; slashMenu := closed |} in
  (exists sel', typeText start (lit "- [x] ") = after sel')
  /\ (exists sel', typeText start (lit "- [X] ") = after sel').
Proof.
  apply (checked_task_shortcut [] Schema.doc [] [] [] paragraph [] closed);
    try reflexivity; constructor.
Defined.

(** [">> "] typed into an empty text block that is not a code block, and
    whose parent accepts a toggle list in its place: the block is replaced
    by a toggle list with one open item holding an empty paragraph (the
    rule for block quotes, which comes later, does not get to run). *)
Theorem toggle_list_shortcut :
  forall (outer : list Frame) (pt : NodeType) (pa : Attrs) (left right : list Node)
         (t : NodeType) (a : Attrs) (sm : SlashMenuState),
    openFrames outer -> isLeaf pt = false -> elements left -> elements right ->
    isTextblock t = true -> specCode t = false -> active sm = false ->
    validContentTypes pt (List.map nodeType (left ++ [openToggleList] ++ right)) = true ->
    let ctx := outer ++ [around pt pa left right] in
    exists sel',
      typeText (cursorIn ctx (Elem t a []) 0 sm) (lit ">> ")
      = Ok {| doc := plug outer (Elem pt pa (left ++ [openToggleList] ++ right));
              selection := sel'; slashMenu := sm |}.
Proof.
  intros outer pt pa left right t a sm Hc Hpt Hleft Hright Ht Hcode Hsm Hvalid ctx.
  eapply (shortcut_fires outer pt pa left right t a sm (lit ">>") 32%N 14 _ _
            [openToggleList] 0 (lit ">> ") Hc Hpt Hleft Hright Ht Hcode Hsm); fired.
Qed.

(** The only paragraph of a document. *)
Lemma toggle_list_shortcut_witness :
  exists sel',
    typeText (cursorIn [around Schema.doc [] [] []] (Elem paragraph [] []) 0 closed)
             (lit ">> ")
    = Ok {| doc := Elem Schema.doc [] [openToggleList];
            selection := sel'; slashMenu := closed |}.
Proof.
  apply (toggle_list_shortcut [] Schema.doc [] [] [] paragraph [] closed);
    try reflexivity; constructor.
Defined.

(** A hyphen typed right after a hyphen at the end of a plain text block:
    outside a code block the two become one em dash, the cursor behind it;
    in a code block the second hyphen is inserted as typed. *)
Theorem double_hyphen_becomes_em_dash :
  forall (ctx : list Frame) (t : NodeType) (a : Attrs) (u : jsstring)
         (sm : SlashMenuState),
    ctx <> [] -> openFrames ctx -> isTextblock t = true -> active sm = false ->
    typeChar (cursorIn ctx (Elem t a (plain (u ++ [45%N]))) (List.length u + 1) sm) 45%N
    = Ok (cursorIn ctx
            (Elem t a (plain (u ++ (if specCode t then [45%N; 45%N] else [8212%N]))))
            (List.length u + (if specCode t then 2 else 1)) sm).
Proof.
  intros ctx t a u sm Hne Hc Ht Hsm.
  destruct (specCode t) eqn:Hcode.
  - pose proof (typeChar_plain_text ctx t a (u ++ [45%N]) (List.length u + 1) sm 45%N
                  Hne Hc Ht) as H.
    rewrite Hsm in H. rewrite H; [| rewrite length_app; simpl; lia | discriminate | now left ].
    replace (List.length u + 1) with (List.length (u ++ [45%N]))
      by (rewrite length_app; reflexivity).
    rewrite firstn_all, skipn_all, app_nil_r, <- app_assoc.
    rewrite length_app. cbn [List.length app].
    now replace (List.length u + 1 + 1) with (List.length u + 2) by lia.
  - now apply typeChar_emDash.
Qed.

(** A second hyphen after ["a-"] in a paragraph. *)
Lemma double_hyphen_becomes_em_dash_witness :
  typeChar (cursorIn [around Schema.doc [] [] []]
              (Elem paragraph [] (plain (lit "a-"))) 2 closed) 45%N
  = Ok (cursorIn [around Schema.doc [] [] []]
          (Elem paragraph [] (plain [97%N; 8212%N])) 2 closed).
Proof.
  apply (double_hyphen_becomes_em_dash [around Schema.doc [] [] []] paragraph []
           (lit "a") closed);
    try reflexivity; try discriminate.
  repeat constructor.
Defined.

(** The divider rule, in an empty text block that is not a code block and
    whose parent accepts a horizontal rule and a paragraph in its place:
    ["*** "] and ["___ "] replace the block by a horizontal rule followed
    by an empty paragraph; ["--- "] does not, since the second hyphen turns
    the first two into an em dash: the block then holds the em dash, a
    hyphen and a space. *)
Theorem divider_shortcut :
  forall (outer : list Frame) (pt : NodeType) (pa : Attrs) (left right : list Node)
         (t : NodeType) (a : Attrs) (sm : SlashMenuState),
    openFrames outer -> isLeaf pt = false -> elements left -> elements right ->
    isTextblock t = true -> specCode t = false -> active sm = false ->
    validContentTypes pt
      (List.map nodeType
         (left ++ [Elem horizontal_rule [] []; Elem paragraph [] []] ++ right)) = true ->
    let ctx := outer ++ [around pt pa left right] in
    let start := cursorIn ctx (Elem t a []) 0 sm in
    let divided sel' :=
      Ok {| doc := plug outer
                     (Elem pt pa
                        (left ++ [Elem horizontal_rule [] []; Elem paragraph [] []] ++ right));
            selection := sel'; slashMenu := sm |} in
    (exists sel', typeText start (lit "*** ") = divided sel')
    /\ (exists sel', typeText start (lit "___ ") = divided sel')
    /\ typeText start (lit "--- ")
       = Ok (cursorIn ctx (Elem t a [Text [8212%N; 45%N; 32%N] []]) 3 sm).
Proof.
  intros outer pt pa left right t a sm Hc Hpt Hleft Hright Ht Hcode Hsm Hvalid ctx start
         divided.
  assert (Hne : ctx <> []) by (unfold ctx; now destruct outer).
  assert (Hco : openFrames ctx) by (apply openFrames_snoc; assumption).
  split; [|split].
  - eapply (shortcut_fires outer pt pa left right t a sm (lit "***") 32%N 20 _ _
              [Elem horizontal_rule [] []; Elem paragraph [] []] 0 (lit "*** ")
              Hc Hpt Hleft Hright Ht Hcode Hsm); fired.
  - eapply (shortcut_fires outer pt pa left right t a sm (lit "___") 32%N 20 _ _
              [Elem horizontal_rule [] []; Elem paragraph [] []] 0 (lit "___ ")
              Hc Hpt Hleft Hright Ht Hcode Hsm); fired.
  - unfold start.
    change (lit "--- ") with ([45%N] ++ 45%N :: [45%N; 32%N]).
    rewrite typeText_app.
    change (cursorIn ctx (Elem t a []) 0 sm)
      with (cursorIn ctx (Elem t a (plain [])) (List.length (@nil codeunit)) sm).
    rewrite (typeText_quiet ctx t a [] [45%N] sm Hne Hco Ht Hsm) by (vm_compute; reflexivity).
    cbn [bind app List.length].
    pose proof (typeChar_emDash ctx t a [] sm Hne Hco Ht Hcode Hsm) as He.
    cbn [app List.length Nat.add] in He.
    rewrite (typeText_cons _ 45%N [45%N; 32%N]), He.
    cbn [bind].
    apply (typeText_quiet ctx t a [8212%N] [45%N; 32%N] sm Hne Hco Ht Hsm).
    vm_compute; reflexivity.
Qed.

(** The only paragraph of a document. *)
Lemma divider_shortcut_witness :
  let start := cursorIn [around Schema.doc [] [] []] (Elem paragraph [] []) 0 closed in
  let divided sel' :=
    Ok {| doc := Elem Schema.doc [] [Elem horizontal_rule [] []; Elem paragraph [] []];
          selection := sel'; slashMenu := closed |} in
  (exists sel', typeText start (lit "*** ") = divided sel')
  /\ (exists sel', typeText start (lit "___ ") = divided sel')
  /\ typeText start (lit "--- ")
     = Ok (cursorIn [around Schema.doc [] [] []]
             (Elem paragraph [] [Text [8212%N; 45%N; 32%N] []]) 3 closed).
Proof.
  apply (divider_shortcut [] Schema.doc [] [] [] paragraph [] closed);
    try reflexivity; constructor.
Defined.

(** The five callout rules, in an empty text block that is not a code
    block and whose parent accepts a callout in its place: ["::: "],
    [":::info "], [":::warning "], [":::success "] and [":::error "] each
    replace the block by a callout holding an empty paragraph, with the
    emoji and the type of that rule.  The emoji are given by their code
    units, as the bytes of the source read in UTF-8: U+1F4A1, U+2139
    U+FE0F, U+26A0 U+FE0F, U+2705 and U+274C. *)
Theorem callout_shortcuts :
  forall (outer : list Frame) (pt : NodeType) (pa : Attrs) (left right : list Node)
         (t : NodeType) (a : Attrs) (sm : SlashMenuState),
    openFrames outer -> isLeaf pt = false -> elements left -> elements right ->
    isTextblock t = true -> specCode t = false -> active sm = false ->
    validContentTypes pt (List.map nodeType left ++ callout :: List.map nodeType right)
    = true ->
    let ctx := outer ++ [around pt pa left right] in
    let fires (typed : string) (emoji : jsstring) (kind : string) :=
      exists sel',
        typeText (cursorIn ctx (Elem t a []) 0 sm) (lit typed)
        = Ok {| doc := plug outer (Elem pt pa (left ++ [calloutWith emoji kind] ++ right));
                selection := sel'; slashMenu := sm |} in
    fires "::: "%string [55357; 56481]%N "info"%string
    /\ fires ":::info "%string [8505; 65039]%N "info"%string
    /\ fires ":::warning "%string [9888; 65039]%N "warning"%string
    /\ fires ":::success "%string [9989]%N "success"%string
    /\ fires ":::error "%string [10060]%N "error"%string.
Proof.
  intros outer pt pa left right t a sm Hc Hpt Hleft Hright Ht Hcode Hsm Hvalid ctx fires.
  assert (Hv : forall e k,
             validContentTypes pt (List.map nodeType (left ++ [calloutWith e k] ++ right))
             = true).
  { intros e k. rewrite <- Hvalid. now rewrite !map_app. }
  clear Hvalid.
  unfold fires. repeat split.
  - pose proof (Hv [55357; 56481]%N "info"%string) as Hv1.
    eapply (shortcut_fires outer pt pa left right t a sm (lit ":::") 32%N 21 _ _
              [calloutWith [55357; 56481]%N "info"] 0 (lit "::: ")
              Hc Hpt Hleft Hright Ht Hcode Hsm); fired.
  - pose proof (Hv [8505; 65039]%N "info"%string).
    eapply (shortcut_fires outer pt pa left right t a sm (lit ":::info") 32%N 22 _ _
              [calloutWith [8505; 65039]%N "info"] 0 (lit ":::info ")
              Hc Hpt Hleft Hright Ht Hcode Hsm); fired.
  - pose proof (Hv [9888; 65039]%N "warning"%string).
    eapply (shortcut_fires outer pt pa left right t a sm (lit ":::warning") 32%N 23 _ _
              [calloutWith [9888; 65039]%N "warning"] 0 (lit ":::warning ")
              Hc Hpt Hleft Hright Ht Hcode Hsm); fired.
  - pose proof (Hv [9989]%N "success"%string).
    eapply (shortcut_fires outer pt pa left right t a sm (lit ":::success") 32%N 24 _ _
              [calloutWith [9989]%N "success"] 0 (lit ":::success ")
              Hc Hpt Hleft Hright Ht Hcode Hsm); fired.
  - pose proof (Hv [10060]%N "error"%string).
    eapply (shortcut_fires outer pt pa left right t a sm (lit ":::error") 32%N 25 _ _
              [calloutWith [10060]%N "error"] 0 (lit ":::error ")
              Hc Hpt Hleft Hright Ht Hcode Hsm); fired.
Qed.

(** The only paragraph of a document. *)
Lemma callout_shortcuts_witness :
  let fires (typed : string) (emoji : jsstring) (kind : string) :=
    exists sel',
      typeText (cursorIn [around Schema.doc [] [] []] (Elem paragraph [] []) 0 closed)
               (lit typed)
      = Ok {| doc := Elem Schema.doc [] [calloutWith emoji kind];
              selection := sel'; slashMenu := closed |} in
  fires "::: "%string [55357; 56481]%N "info"%string
  /\ fires ":::info "%string [8505; 65039]%N "info"%string
  /\ fires ":::warning "%string [9888; 65039]%N "warning"%string
  /\ fires ":::success "%string [9989]%N "success"%string
  /\ fires ":::error "%string [10060]%N "error"%string.
Proof.
  apply (callout_shortcuts [] Schema.doc [] [] [] paragraph [] closed);
    try reflexivity; constructor.
Defined.

Lemma validContentTypes_inline tp ts x :
  isLeaf tp = false -> inlineContent tp = false ->
  In x ts -> isInline x = true -> validContentTypes tp ts = false.
Proof.
  intros Hl Hi Hx Hinl.
  assert (Hg : inGroupBlock x = false) by (destruct x; try discriminate; reflexivity).
  assert (Hp : forall t, isInline t = false -> NodeType_eqb t x = false)
    by (intros t; destruct t, x; try discriminate; reflexivity).
  assert (Hall : forall p, p x = false -> forallb p ts = false).
  { intros p Hpx. destruct (forallb p ts) eqn:E; [|reflexivity].
    rewrite forallb_forall in E. rewrite (E x Hx) in Hpx. discriminate. }
  assert (Hone : forall p, p x = false -> oneOrMore p ts = false).
  { intros p Hpx. unfold oneOrMore. destruct ts; [reflexivity|]. now apply Hall. }
  destruct tp; try discriminate; cbn [validContentTypes];
    try (apply Hone; (assumption || (apply Hp; reflexivity)));
    (destruct ts as [|y rest]; [reflexivity|];
     destruct Hx as [->|Hx];
     [ destruct x; try discriminate; reflexivity
     | destruct y; try reflexivity;
       destruct (forallb inGroupBlock rest) eqn:E; [|reflexivity];
       rewrite forallb_forall in E; rewrite (E x Hx) in Hg; discriminate ]).
Qed.

Lemma compatibleContent_textblock tp tb :
  isTextblock tb = true -> isTextblock tp = false -> isLeaf tp = false ->
  compatibleContent tp tb = false.
Proof. destruct tp, tb; try discriminate; reflexivity. Qed.

(** Nothing joins with a text block that follows it, except a text block. *)
Lemma not_joinable_with_textblock prev t a cs :
  isTextblock t = true -> inlineKids cs ->
  negb (isTextblock (nodeType prev)) && joinable (Some prev) (Some (Elem t a cs)) = false.
Proof.
  intros Ht Hcs.
  destruct (isTextblock (nodeType prev)) eqn:Hp; [reflexivity|].
  cbn [negb andb]. unfold joinable.
  destruct (isLeaf (nodeType prev)) eqn:Hl; [reflexivity|]. cbn [negb andb].
  unfold canAppend.
  destruct (Nat.ltb_spec 0 (contentSize (Elem t a cs))) as [Hsz|Hsz].
  - unfold canReplace. cbn [children].
    destruct cs as [|c cs']; [cbv in Hsz; lia|].
    rewrite (validContentTypes_inline (nodeType prev) _ (nodeType c)); try assumption.
    + reflexivity.
    + unfold isTextblock in Hp. destruct (nodeType prev); try discriminate; reflexivity.
    + rewrite !map_app. apply in_or_app. right. apply in_or_app. left. now left.
    + now inversion Hcs.
  - now apply compatibleContent_textblock.
Qed.

Section TopLevel.

Variables (pt : NodeType) (pa : Attrs) (left right : list Node).
Variables (t : NodeType) (a : Attrs) (cs : list Node) (k : nat) (r : ResolvedPos).

Hypothesis Hpt : isLeaf pt = false.
Hypothesis Hleft : elements left.
Hypothesis Ht : isTextblock t = true.
Hypothesis Hcs : inlineKids cs.

Let ctx := [around pt pa left right].
Let blk := Elem t a cs.

Hypothesis Hr : InBlock ctx blk k r.

Lemma top_depth : depth r = 1.
Proof. now rewrite (ib_depth ctx _ k r Hr). Qed.

Lemma top_node0 : node r 0 = Elem pt pa (left ++ blk :: right).
Proof.
  unfold node. rewrite (ib_entry ctx _ k r Hr 0) by (simpl; lia). reflexivity.
Qed.

Lemma top_index0 : index r 0 = List.length left.
Proof.
  unfold index. rewrite (ib_entry ctx _ k r Hr 0) by (simpl; lia). reflexivity.
Qed.

Lemma top_node1 : node r 1 = blk.
Proof. pose proof (ib_parent ctx _ k r Hr) as H. unfold parent in H. now rewrite top_depth in H. Qed.

Lemma top_inner_test after_ i :
  match nodeBefore r with
  | Some b => negb (isTextblock (nodeType b)) && joinable (nodeBefore r) after_
              && canReplace (node r 1) i (i + 1) []
  | None => false
  end = false.
Proof.
  destruct (nodeBefore r) as [b|] eqn:E; [|reflexivity].
  pose proof (nodeBefore_inline r t a cs b (ib_parent ctx _ k r Hr) Hcs E) as Hl.
  unfold joinable. destruct after_; rewrite ?Hl; simpl; now rewrite ?andb_false_r.
Qed.

Lemma joinPoint_top p : joinPointFrom r 1 p = None.
Proof.
  rewrite joinPointFrom_eq. cbv zeta. rewrite top_depth. cbn [Nat.eqb].
  rewrite top_inner_test.
  rewrite joinPointFrom_eq. cbv zeta. rewrite top_depth. cbn [Nat.eqb Nat.add].
  rewrite top_index0, top_node0, top_node1.
  destruct (List.length left) as [|i] eqn:El; [reflexivity|].
  destruct (maybeChild (Elem pt pa (left ++ blk :: right)) i) as [prev|]; [|reflexivity].
  unfold blk. now rewrite (not_joinable_with_textblock prev t a cs Ht Hcs).
Qed.

Lemma joinPointAfter_top p : joinPointAfterFrom r 1 p = None.
Proof.
  cbn [joinPointAfterFrom]. rewrite top_depth. cbn [Nat.eqb Nat.add].
  rewrite top_inner_test. rewrite top_node1. unfold blk. cbn [nodeType].
  rewrite Ht. reflexivity.
Qed.

End TopLevel.

(* ------------------------------------------------------------------ *)
(** ** A run of siblings replaced *)

Lemma fragSize_elements_pos l : elements l -> l <> [] -> 0 < fragSize l.
Proof.
  intros H Hne. destruct l as [|c l]; [congruence|].
  inversion H as [|? ? Hc _]; subst. apply element_size in Hc.
  rewrite fragSize_cons. lia.
Qed.

Lemma cutWith_mid pre mid post p :
  elements pre -> elements mid -> 0 < fragSize mid ->
  cutWith cutNode (p + fragSize pre) (p + fragSize pre + fragSize mid) (pre ++ mid ++ post) p
  = mid.
Proof.
  intros H Hmid Hpos. revert p. induction H as [|c pre Hc Hpre IH]; intros p.
  - unfold fragSize at 1 2. simpl list_sum. rewrite !Nat.add_0_r. cbn [app].
    apply cutWith_keep; [assumption|lia].
  - pose proof (element_size c Hc) as Hs.
    simpl app. simpl cutWith. rewrite fragSize_cons.
    destruct (Nat.leb_spec (p + (nodeSize c + fragSize pre) + fragSize mid) p); [lia|].
    destruct (Nat.ltb_spec (p + (nodeSize c + fragSize pre)) (p + nodeSize c)); [lia|].
    simpl app.
    replace (p + (nodeSize c + fragSize pre)) with (p + nodeSize c + fragSize pre) by lia.
    apply IH.
Qed.

Lemma cut_mid pre mid post :
  elements pre -> elements mid ->
  cut (fragSize pre) (fragSize pre + fragSize mid) (pre ++ mid ++ post) = mid.
Proof.
  intros Hpre Hmid. unfold cut.
  destruct (Nat.ltb_spec (fragSize pre) (fragSize pre + fragSize mid)) as [H|H].
  - apply (cutWith_mid pre mid post 0); [assumption|assumption|lia].
  - symmetry. apply elements_empty; [assumption|lia].
Qed.

Section SiblingRun.

Variables (outer : list Frame) (pt : NodeType) (pa : Attrs).
Variables (left mid right : list Node).

Hypothesis Hc : openFrames outer.
Hypothesis Hpt : isLeaf pt = false.
Hypothesis Hleft : elements left.
Hypothesis Hmid : elements mid.
Hypothesis Hright : elements right.

Let P := Elem pt pa (left ++ mid ++ right).
Let b := inside outer + fragSize left.

Lemma resolve_before_run :
  exists r, resolve (plug outer P) b = Ok r
            /\ AtBoundary outer P (List.length left) (fragSize left) r.
Proof. apply resolve_boundary; assumption. Qed.

Lemma resolve_after_run :
  exists r, resolve (plug outer P) (b + fragSize mid) = Ok r
            /\ AtBoundary outer P (List.length left + List.length mid)
                          (fragSize left + fragSize mid) r.
Proof.
  unfold P, b. rewrite app_assoc, <- Nat.add_assoc, <- fragSize_app, <- length_app.
  apply resolve_boundary; try assumption. now apply elements_app.
Qed.

(** The run [mid] of children replaced by the elements [content], which
    the parent accepts in its place. *)
Lemma replaceStep_run content :
  elements content -> mid <> [] \/ content <> [] ->
  validContentTypes pt (List.map nodeType (left ++ content ++ right)) = true ->
  replaceStep (plug outer P) b (b + fragSize mid) content
  = Ok (Some (plug outer (Elem pt pa (left ++ content ++ right)),
              {| mstart := b; oldSize := b + fragSize mid - b;
                 newSize := fragSize content |})).
Proof.
  intros Hcontent Hsome Hvalid.
  unfold replaceStep.
  assert (Hgo : (b =? b + fragSize mid) && (fragSize content =? 0) = false).
  { destruct Hsome as [H|H].
    - pose proof (fragSize_elements_pos mid Hmid H).
      destruct (Nat.eqb_spec b (b + fragSize mid)); [lia|reflexivity].
    - pose proof (fragSize_elements_pos content Hcontent H).
      destruct (Nat.eqb_spec (fragSize content) 0); [lia|apply andb_false_r]. }
  rewrite Hgo.
  destruct resolve_before_run as (rf & Hrf & Hf).
  destruct resolve_after_run as (rt & Hrt & Hto).
  rewrite Hrf, Hrt. cbn [bind].
  rewrite (ab_parent _ _ _ _ _ Hf), (ab_start _ _ _ _ _ Hf), (ab_start _ _ _ _ _ Hto).
  rewrite (ab_index _ _ _ _ _ Hf), (ab_index _ _ _ _ _ Hto).
  rewrite Nat.eqb_refl. simpl andb.
  unfold canReplace, P. cbn [nodeType children].
  rewrite firstn_app, Nat.sub_diag, firstn_all. simpl firstn. rewrite app_nil_r.
  replace (skipn (List.length left + List.length mid) (left ++ mid ++ right)) with right.
  2:{ rewrite app_assoc, <- length_app.
      rewrite skipn_app, Nat.sub_diag, skipn_all. reflexivity. }
  rewrite Hvalid, (elements_unmarked content Hcontent), orb_true_r.
  simpl andb. cbv iota.
  rewrite (ab_offset _ _ _ _ _ Hf), (ab_offset _ _ _ _ _ Hto).
  assert (Hcut1 : cut 0 (fragSize left) (left ++ mid ++ right) = left).
  { now apply cut_keep. }
  assert (Hcut2 : cut (fragSize left + fragSize mid) (fragSize (left ++ mid ++ right))
                      (left ++ mid ++ right) = right).
  { rewrite app_assoc, <- fragSize_app.
    apply cut_drop; [|assumption]. now apply elements_app. }
  rewrite Hcut1, Hcut2.
  rewrite (append_elements left content Hcontent).
  rewrite (append_elements (left ++ content) right Hright).
  rewrite <- app_assoc.
  unfold validContent. rewrite Hvalid.
  rewrite (elements_unmarked _ (elements_app _ _ Hleft (elements_app _ _ Hcontent Hright))).
  rewrite orb_true_r. simpl andb. cbv iota.
  rewrite (ab_depth _ _ _ _ _ Hf), (ab_path _ _ _ _ _ Hf).
  rewrite firstn_ctxPath. cbn [copy]. rewrite rebuild_ctxPath.
  reflexivity.
Qed.

End SiblingRun.

Lemma nodeAt_walk (p : nat) c post l cur :
  elements l -> nodeIsText c = false -> p = cur + fragSize l ->
  (fix walk (l : list Node) (cur : nat) {struct l} : option Node :=
     match l with
     | [] => None
     | c :: rest =>
         let e := cur + nodeSize c in
         if p =? cur then Some c
         else if p <? e then
           match c with
           | Text _ _ => Some c
           | Elem _ _ _ => nodeAtIn c (p - cur - 1)
           end
         else walk rest e
     end) (l ++ c :: post) cur = Some c.
Proof.
  intros Hl Hc. revert cur. induction Hl as [|x l Hx Hl IH]; intros cur Hp.
  - cbn [app]. unfold fragSize in Hp. simpl in Hp. rewrite Nat.add_0_r in Hp. subst p.
    now rewrite Nat.eqb_refl.
  - cbn [app]. rewrite fragSize_cons in Hp.
    pose proof (element_size x Hx) as Hs.
    destruct (Nat.eqb_spec p cur) as [E|_].
    + destruct l as [|y l'].
      * exfalso. unfold fragSize in Hp. simpl in Hp. lia.
      * exfalso. lia.
    + cbv zeta. destruct (Nat.ltb_spec p (cur + nodeSize x)) as [E|_]; [lia|].
      apply IH. lia.
Qed.

Lemma nodeAt_boundary outer pt pa pre c post :
  outer = [] -> elements pre -> nodeIsText c = false ->
  nodeAt (plug outer (Elem pt pa (pre ++ c :: post))) (fragSize pre) = Ok (Some c).
Proof.
  intros -> Hpre Hc. unfold nodeAt. cbn [plug].
  destruct (Nat.leb_spec (fragSize pre) (contentSize (Elem pt pa (pre ++ c :: post))))
    as [_|H].
  - f_equal. cbn [nodeAtIn]. now apply nodeAt_walk.
  - unfold contentSize in H. cbn [children] in H. rewrite fragSize_app in H. lia.
Qed.

Lemma forallb_mapped {A B} (p : B -> bool) (f : A -> B) l :
  forallb p (List.map f l) = forallb (fun x => p (f x)) l.
Proof. induction l as [|x l IH]; simpl; [reflexivity|now rewrite IH]. Qed.

Lemma valid_doc l :
  validContentTypes Schema.doc (List.map nodeType l) = true
  <-> l <> [] /\ forallb (fun c => inGroupBlock (nodeType c)) l = true.
Proof.
  cbn [validContentTypes]. unfold oneOrMore.
  destruct l as [|c l]; [split; [discriminate|intros [H _]; congruence]|].
  change (match List.map nodeType (c :: l) with
          | [] => false
          | _ :: _ => forallb inGroupBlock (List.map nodeType (c :: l))
          end) with (forallb inGroupBlock (List.map nodeType (c :: l))).
  rewrite (forallb_mapped inGroupBlock nodeType (c :: l)). split.
  - intros H. split; [discriminate|exact H].
  - intros [_ H]. exact H.
Qed.

Lemma replace_run outer pt pa left mid right content (t : Transaction) :
  openFrames outer -> isLeaf pt = false ->
  elements left -> elements mid -> elements right -> elements content ->
  mid <> [] \/ content <> [] ->
  validContentTypes pt (List.map nodeType (left ++ content ++ right)) = true ->
  tr_doc t = plug outer (Elem pt pa (left ++ mid ++ right)) ->
  State.replace t (inside outer + fragSize left) (inside outer + fragSize left + fragSize mid)
                content
  = Ok {| tr_doc := plug outer (Elem pt pa (left ++ content ++ right));
          maps := maps t ++ [{| mstart := inside outer + fragSize left;
                                oldSize := inside outer + fragSize left + fragSize mid
                                           - (inside outer + fragSize left);
                                newSize := fragSize content |}];
          curSelection := curSelection t; curSelectionFor := curSelectionFor t;
          slashMeta := slashMeta t |}.
Proof.
  intros Hc Hpt Hl Hm Hr Hcontent Hsome Hvalid Hdoc.
  unfold State.replace. rewrite Hdoc, (fromArray_elements content Hcontent).
  now rewrite (replaceStep_run outer pt pa left mid right Hc Hpt Hl Hm Hr content Hcontent
                 Hsome Hvalid).
Qed.

Lemma mapPos_cons m ms h : mapPos (m :: ms) h = mapPos ms (fst (mapStep m false h)).
Proof.
  unfold mapPos. cbn [mapResult].
  destruct (mapStep m false h) as [p1 d1]. cbn [fst].
  now destruct (mapResult ms false p1) as [p2 d2].
Qed.

Lemma mapStep_inside m h :
  mstart m < h -> h < mstart m + oldSize m ->
  fst (mapStep m false h) = mstart m + newSize m.
Proof.
  intros H1 H2. unfold mapStep.
  destruct (Nat.ltb_spec h (mstart m)); [lia|].
  destruct (Nat.leb_spec h (mstart m + oldSize m)); [|lia].
  destruct (Nat.eqb_spec (oldSize m) 0); [lia|].
  destruct (Nat.eqb_spec h (mstart m)); [lia|].
  destruct (Nat.eqb_spec h (mstart m + oldSize m)); [lia|].
  reflexivity.
Qed.

Lemma mapStep_inserted m h :
  oldSize m = 0 -> h = mstart m -> fst (mapStep m false h) = mstart m + newSize m.
Proof.
  intros H1 ->. unfold mapStep. rewrite Nat.ltb_irrefl, H1, Nat.add_0_r, Nat.leb_refl.
  reflexivity.
Qed.

Lemma mapPos_swap b sb sn h :
  b < h -> h < b + sb ->
  mapPos [{| mstart := b; oldSize := b + (sb + sn) - b; newSize := 0 |};
          {| mstart := b; oldSize := b + 0 - b; newSize := sn |};
          {| mstart := b + sn; oldSize := b + sn + 0 - (b + sn); newSize := sb |}] h
  = b + sn + sb.
Proof.
  intros H1 H2.
  rewrite mapPos_cons, mapStep_inside by (cbn [mstart oldSize]; lia).
  cbn [mstart newSize].
  rewrite mapPos_cons, mapStep_inserted by (cbn [mstart oldSize]; lia).
  cbn [mstart newSize].
  rewrite mapPos_cons, mapStep_inserted by (cbn [mstart oldSize]; lia).
  reflexivity.
Qed.

Lemma findSelectionIn_next pt pa pre t1 a1 cs1 post p :
  inlineContent pt = false -> isTextblock t1 = true ->
  findSelectionIn true (Elem pt pa (pre ++ Elem t1 a1 cs1 :: post)) p (List.length pre)
  = Some (TextSelection (p + 1) (p + 1)).
Proof.
  intros Hpt Ht1.
  assert (Hi : inlineContent t1 = true)
    by (unfold isTextblock in Ht1; now apply andb_prop in Ht1 as [_ ?]).
  assert (Hl : isAtom t1 = false) by (destruct t1; try discriminate; reflexivity).
  cbn [findSelectionIn]. rewrite Hpt.
  match goal with
  | |- ?F (pre ++ _) 0 p = _ =>
      assert (H : forall l i, i + List.length l = List.length pre ->
                              F (l ++ Elem t1 a1 cs1 :: post) i p
                              = Some (TextSelection (p + 1) (p + 1)))
  end.
  { induction l as [|x l IH]; intros i Hidx.
    - cbn [app List.length] in *. rewrite Nat.add_0_r in Hidx. subst i.
      rewrite Nat.ltb_irrefl. cbn [nodeType]. rewrite Hl.
      cbn [findSelectionIn]. now rewrite Hi.
    - cbn [app List.length] in *.
      destruct (Nat.ltb_spec i (List.length pre)) as [_|H]; [|lia].
      apply IH. lia. }
  now apply H.
Qed.

(* ------------------------------------------------------------------ *)
(** ** Moving a block of the top level ([moveBlockUp], [moveBlockDown]) *)

Section TopLevelMoves.

Variables (da : Attrs) (left right : list Node).
Variables (t : NodeType) (a : Attrs) (cs : list Node).
Variables (k1 k2 anchor head : nat) (sm : SlashMenuState).

Hypothesis Hleft : elements left.
Hypothesis Hright : elements right.
Hypothesis Ht : isTextblock t = true.
Hypothesis Hcs : inlineKids cs.
Hypothesis Hk1 : k1 <= fragSize cs.
Hypothesis Hk2 : k2 <= fragSize cs.
Hypothesis Hfrom : Nat.min anchor head = fragSize left + 1 + k1.
Hypothesis Hto : Nat.max anchor head = fragSize left + 1 + k2.

Let blk := Elem t a cs.
Let ctx := [around Schema.doc da left right].
Let st := {| doc := Elem Schema.doc da (left ++ blk :: right);
             selection := TextSelection anchor head; slashMenu := sm |}.

Lemma top_ctx_ne : ctx <> [].
Proof. discriminate. Qed.

Lemma top_ctx_open : openFrames ctx.
Proof. repeat constructor. Qed.

Lemma top_holePos : holePos ctx = fragSize left.
Proof. unfold ctx. simpl. lia. Qed.

Lemma top_resolve k :
  k <= fragSize cs ->
  exists r, resolve (doc st) (fragSize left + 1 + k) = Ok r /\ InBlock ctx blk k r.
Proof.
  intros Hk.
  destruct (resolve_inside ctx t a cs k top_ctx_ne top_ctx_open (textblock_open t Ht) Hcs Hk)
    as (r & Hr & Hin).
  exists r. split; [|exact Hin]. rewrite top_holePos in Hr. exact Hr.
Qed.

Lemma top_joinUp : joinUp st = Ok (false, st).
Proof.
  unfold joinUp. change (selection st) with (TextSelection anchor head). cbv iota.
  unfold joinPoint. change (sel_from (TextSelection anchor head)) with (Nat.min anchor head).
  rewrite Hfrom. destruct (top_resolve k1 Hk1) as (r & Hr & Hin).
  rewrite Hr. cbn [bind].
  rewrite (top_depth Schema.doc da left right t a cs k1 r Hin).
  now rewrite (joinPoint_top Schema.doc da left right t a cs k1 r Ht Hcs Hin).
Qed.

Lemma top_joinDown : joinDown st = Ok (false, st).
Proof.
  unfold joinDown. change (selection st) with (TextSelection anchor head). cbv iota.
  unfold joinPointAfter.
  change (sel_to (doc st) (TextSelection anchor head)) with (Nat.max anchor head).
  rewrite Hto. destruct (top_resolve k2 Hk2) as (r & Hr & Hin).
  rewrite Hr. cbn [bind].
  rewrite (top_depth Schema.doc da left right t a cs k2 r Hin).
  now rewrite (joinPointAfter_top Schema.doc da left right t a cs k2 r Ht Hcs Hin).
Qed.

Lemma top_blockRange :
  getBlockRange (doc st) (selection st)
  = Ok (Some {| b_start := fragSize left; b_end := fragSize left + nodeSize blk;
                b_node := blk |}).
Proof.
  pose proof (getBlockRange_inside ctx t a cs k1 anchor head top_ctx_ne top_ctx_open
                (textblock_open t Ht) (textblock_block t Ht) Hcs Hk1) as H.
  rewrite top_holePos in H. now apply H.
Qed.

Lemma moveBlockUp_top :
  left <> [] -> moveBlockUp st = Err RangeError.
Proof.
  intros Hne. unfold moveBlockUp. rewrite top_joinUp. cbn [bind fst].
  rewrite top_blockRange. cbn [bind b_start b_end b_node].
  destruct (resolve_boundary [] Schema.doc da left (blk :: right)) as (rp & Hrp & Hab);
    [constructor|reflexivity|assumption|].
  cbn [plug inside Nat.add] in Hrp. change (doc st) with (Elem Schema.doc da (left ++ blk :: right)).
  rewrite Hrp. cbn [bind].
  rewrite (ab_index _ _ _ _ _ Hab), (ab_depth _ _ _ _ _ Hab).
  destruct left as [|c l]; [congruence|]. reflexivity.
Qed.


Lemma top_after_block :
  exists rp, resolve (doc st) (fragSize left + nodeSize blk) = Ok rp
             /\ AtBoundary [] (doc st) (List.length left + 1) (fragSize left + nodeSize blk) rp.
Proof.
  destruct (resolve_after_block [] Schema.doc da left right blk) as (rp & Hrp & Hab);
    try assumption; try reflexivity; [constructor|].
  exists rp. split; assumption.
Qed.

Lemma moveBlockDown_near_end :
  List.length right <= 1 -> moveBlockDown st = Ok (false, st).
Proof.
  intros Hlen. unfold moveBlockDown. rewrite top_joinDown. cbn [bind fst].
  rewrite top_blockRange. cbn [bind b_start b_end b_node].
  destruct top_after_block as (rp & Hrp & Hab).
  rewrite Hrp. cbn [bind].
  fold (parent rp). rewrite (ab_parent _ _ _ _ _ Hab), (ab_index _ _ _ _ _ Hab).
  unfold childCount. cbn [doc st children]. rewrite length_app. cbn [List.length].
  destruct (Nat.leb_spec (List.length left + S (List.length right) - 1) (List.length left + 1));
    [reflexivity|lia].
Qed.

Lemma moveBlockDown_swaps next r1 rest :
  right = next :: r1 :: rest ->
  active sm = false ->
  validContentTypes Schema.doc (List.map nodeType (left ++ blk :: right)) = true ->
  let doc' := Elem Schema.doc da (left ++ next :: blk :: r1 :: rest) in
  let q := fragSize left + nodeSize next + nodeSize blk in
  exists sel',
    moveBlockDown st = Ok (true, {| doc := doc'; selection := sel'; slashMenu := sm |})
    /\ (forall t1 a1 cs1, r1 = Elem t1 a1 cs1 -> isTextblock t1 = true ->
        sel' = TextSelection (q + 1) (q + 1)).
Proof.
  intros Hright' Hsm Hvalid doc' q.
  assert (Hb : nodeIsText blk = false) by reflexivity.
  assert (Hn : nodeIsText next = false)
    by (rewrite Hright' in Hright; now inversion Hright).
  assert (Hrest : elements (r1 :: rest))
    by (rewrite Hright' in Hright; now inversion Hright).
  pose proof (element_size blk Hb) as Hsb.
  pose proof (element_size next Hn) as Hsn.
  (* the validity of the intermediate documents *)
  apply valid_doc in Hvalid as [_ Hall].
  rewrite Hright' in Hall. rewrite forallb_app in Hall. cbn [forallb] in Hall.
  apply andb_prop in Hall as [Hal Hall]. apply andb_prop in Hall as [Hab Hall].
  apply andb_prop in Hall as [Han Hall]. apply andb_prop in Hall as [Har1 Harest].
  assert (Hv1 : validContentTypes Schema.doc
                  (List.map nodeType (left ++ [] ++ r1 :: rest)) = true).
  { apply valid_doc. split; [now destruct left|].
    rewrite forallb_app. cbn [app forallb]. now rewrite Hal, Har1, Harest. }
  assert (Hv2 : validContentTypes Schema.doc
                  (List.map nodeType (left ++ [next] ++ r1 :: rest)) = true).
  { apply valid_doc. split; [now destruct left|].
    rewrite forallb_app. cbn [app forallb]. now rewrite Hal, Han, Har1, Harest. }
  assert (Hv3 : validContentTypes Schema.doc
                  (List.map nodeType ((left ++ [next]) ++ [blk] ++ r1 :: rest)) = true).
  { apply valid_doc. split; [now destruct left|].
    rewrite !forallb_app. cbn [app forallb]. now rewrite Hal, Han, Hab, Har1, Harest. }
  unfold moveBlockDown. rewrite top_joinDown. cbn [bind fst].
  rewrite top_blockRange. cbn [bind b_start b_end b_node].
  destruct top_after_block as (rp & Hrp & Hab').
  rewrite Hrp. cbn [bind].
  fold (parent rp). rewrite (ab_parent _ _ _ _ _ Hab'), (ab_index _ _ _ _ _ Hab').
  unfold childCount. cbn [doc st children]. rewrite length_app, Hright'. cbn [List.length].
  destruct (Nat.leb_spec (List.length left + S (S (S (List.length rest))) - 1)
              (List.length left + 1)); [lia|].
  (* the next block *)
  assert (HnodeAt : nodeAt (Elem Schema.doc da (left ++ blk :: next :: r1 :: rest))
                           (fragSize left + nodeSize blk) = Ok (Some next)).
  { replace (left ++ blk :: next :: r1 :: rest) with ((left ++ [blk]) ++ next :: r1 :: rest)
      by (now rewrite <- app_assoc).
    replace (fragSize left + nodeSize blk) with (fragSize (left ++ [blk]))
      by (rewrite fragSize_app, fragSize_one; lia).
    apply (nodeAt_boundary [] Schema.doc da); [reflexivity| |assumption].
    apply elements_app; [assumption|]. now repeat constructor. }
  rewrite HnodeAt. cbn [bind].
  (* the three steps *)
  pose proof (replace_run [] Schema.doc da left [blk; next] (r1 :: rest) [] (tr st)) as H1.
  cbn [inside Nat.add] in H1.
  replace (fragSize [blk; next]) with (nodeSize blk + nodeSize next) in H1
    by (unfold fragSize; simpl; lia).
  unfold delete.
  replace (fragSize left + nodeSize blk + nodeSize next)
    with (fragSize left + (nodeSize blk + nodeSize next)) by lia.
  rewrite H1; try assumption; try reflexivity;
    [| constructor | now repeat constructor | constructor | left; discriminate
     | cbn [tr tr_doc st doc app]; now rewrite Hright' ].
  cbn [bind].
  (* the slice that holds the next block *)
  assert (Hslice : sliceContent (Elem Schema.doc da (left ++ blk :: next :: r1 :: rest))
                     (fragSize left + nodeSize blk)
                     (fragSize left + (nodeSize blk + nodeSize next)) = Ok [next]).
  { unfold sliceContent.
    destruct (Nat.eqb_spec (fragSize left + nodeSize blk)
                (fragSize left + (nodeSize blk + nodeSize next))); [lia|].
    cbn [doc st] in Hrp. rewrite Hright' in Hrp.
    rewrite Hrp. cbn [bind].
    destruct (resolve_boundary [] Schema.doc da (left ++ [blk; next]) (r1 :: rest))
      as (rq & Hrq & _); [constructor|reflexivity| |].
    { apply elements_app; [assumption|]. now repeat constructor. }
    rewrite <- app_assoc in Hrq. cbn [app plug inside Nat.add] in Hrq.
    rewrite fragSize_app in Hrq.
    replace (fragSize [blk; next]) with (nodeSize blk + nodeSize next) in Hrq
      by (unfold fragSize; simpl; lia).
    rewrite Hrq. cbn [bind].
    rewrite (ab_depth _ _ _ _ _ Hab'). cbn [List.length sharedDepthFrom start].
    pose proof (ab_entry_last _ _ _ _ _ Hab') as He. cbn [List.length] in He.
    unfold node. rewrite He. cbn [pnode doc st children].
    rewrite !Nat.sub_0_r. rewrite Hright'.
    replace (left ++ blk :: next :: r1 :: rest)
      with ((left ++ [blk]) ++ [next] ++ r1 :: rest) by (now rewrite <- app_assoc).
    replace (fragSize left + nodeSize blk) with (fragSize (left ++ [blk]))
      by (rewrite fragSize_app, fragSize_one; lia).
    replace (fragSize left + (nodeSize blk + nodeSize next))
      with (fragSize (left ++ [blk]) + fragSize [next])
      by (rewrite fragSize_app, !fragSize_one; lia).
    f_equal. apply cut_mid.
    - apply elements_app; [assumption|]. now repeat constructor.
    - now repeat constructor. }
  rewrite Hslice. cbn [bind].
  unfold insert.
  match goal with
  | |- context [State.replace ?t1 (fragSize left) (fragSize left) [next]] =>
      pose proof (replace_run [] Schema.doc da left [] (r1 :: rest) [next] t1) as H2
  end.
  cbn [inside Nat.add tr_doc] in H2.
  replace (fragSize left + fragSize []) with (fragSize left) in H2
    by (unfold fragSize; simpl; lia).
  rewrite H2; try assumption; try reflexivity;
    [| constructor | constructor | now repeat constructor | right; discriminate ].
  cbn [bind maps curSelection curSelectionFor slashMeta tr app].
  rewrite (fragSize_one next).
  match goal with
  | |- context [State.replace ?t2 (fragSize left + nodeSize next)
                              (fragSize left + nodeSize next) [blk]] =>
      pose proof (replace_run [] Schema.doc da (left ++ [next]) [] (r1 :: rest) [blk] t2) as H3
  end.
  cbn [inside Nat.add tr_doc] in H3.
  rewrite fragSize_app, fragSize_one in H3.
  replace (fragSize left + nodeSize next + fragSize []) with (fragSize left + nodeSize next)
    in H3 by (unfold fragSize; simpl; lia).
  rewrite H3; try assumption; try reflexivity;
    [| constructor | apply elements_app; [assumption|now repeat constructor]
     | constructor | now repeat constructor | right; discriminate
     | now rewrite <- app_assoc ].
  cbn [bind maps curSelection curSelectionFor slashMeta app].
  rewrite <- app_assoc. cbn [app plug].
  assert (Hsize : nodeSize blk = 2 + fragSize cs).
  { unfold blk. rewrite nodeSize_Elem, (textblock_open t Ht). reflexivity. }
  assert (Hhead : fragSize left < head /\ head < fragSize left + nodeSize blk) by lia.
  destruct (resolve_boundary [] Schema.doc da (left ++ [next; blk]) (r1 :: rest))
    as (rh & Hrh & Hbh); [constructor|reflexivity| |].
  { apply elements_app; [assumption|]. now repeat constructor. }
  rewrite <- app_assoc in Hrh, Hbh. cbn [app plug inside Nat.add] in Hrh, Hbh.
  rewrite fragSize_app in Hrh, Hbh.
  replace (fragSize [next; blk]) with (nodeSize next + nodeSize blk) in Hrh, Hbh
    by (unfold fragSize; simpl; lia).
  exists (near rh).
  assert (Hmap : mapPos
                   [{| mstart := fragSize left;
                       oldSize := fragSize left + (nodeSize blk + nodeSize next)
                                  - fragSize left;
                       newSize := fragSize [] |};
                    {| mstart := fragSize left; oldSize := fragSize left - fragSize left;
                       newSize := nodeSize next |};
                    {| mstart := fragSize left + nodeSize next;
                       oldSize := fragSize left + nodeSize next
                                  - (fragSize left + nodeSize next);
                       newSize := fragSize [blk] |}] head
                 = fragSize left + (nodeSize next + nodeSize blk)).
  { rewrite mapPos_cons, mapStep_inside by (cbn [mstart oldSize]; lia).
    cbn [mstart newSize]. change (fragSize []) with 0.
    rewrite mapPos_cons, mapStep_inserted by (cbn [mstart oldSize]; lia).
    cbn [mstart newSize].
    rewrite mapPos_cons, mapStep_inserted by (cbn [mstart oldSize]; lia).
    cbn [mstart newSize mapPos mapResult fst]. rewrite fragSize_one. lia. }
  split.
  - unfold SlashCommand.dispatch, applyWith, tr_selection.
    cbn [tr_doc maps curSelection curSelectionFor slashMeta List.length Nat.ltb Nat.leb
         skipn selection st].
    unfold mapSelection. rewrite Hmap, Hrh. cbn [bind].
    rewrite (ab_parent _ _ _ _ _ Hbh). cbn [nodeType inlineContent negb bind].
    unfold SlashCommand.apply. cbn [slashMeta slashMenu st]. rewrite Hsm.
    cbn [andb bind tr_doc]. reflexivity.
  - intros t1 a1 cs1 -> Ht1. unfold near, findFrom.
    rewrite (ab_parent _ _ _ _ _ Hbh). cbn [nodeType inlineContent].
    rewrite (ab_index _ _ _ _ _ Hbh), (ab_pos _ _ _ _ _ Hbh).
    replace (left ++ next :: blk :: Elem t1 a1 cs1 :: rest)
      with ((left ++ [next; blk]) ++ Elem t1 a1 cs1 :: rest) by (now rewrite <- app_assoc).
    rewrite findSelectionIn_next by (reflexivity || assumption).
    unfold q. cbn [inside]. f_equal; lia.
Qed.

End TopLevelMoves.

(** [moveBlockUp] with the selection inside a text block that is a child of
    the document and not its first child: the fallback resolves the start of
    the block, a position of depth 0, and asks for the position before that
    depth, which raises a RangeError. No block is moved. *)
Theorem moveBlockUp_raises_below_first_block :
  forall (da : Attrs) (left right : list Node) (t : NodeType) (a : Attrs) (cs : list Node)
         (k1 k2 anchor head : nat) (sm : SlashMenuState),
    elements left -> elements right -> isTextblock t = true -> inlineKids cs ->
    k1 <= fragSize cs -> k2 <= fragSize cs ->
    Nat.min anchor head = fragSize left + 1 + k1 ->
    Nat.max anchor head = fragSize left + 1 + k2 ->
    left <> [] ->
    moveBlockUp {| doc := Elem Schema.doc da (left ++ Elem t a cs :: right);
                   selection := TextSelection anchor head; slashMenu := sm |}
    = Err RangeError.
Proof.
  intros da left right t a cs k1 k2 anchor head sm Hl Hr Ht Hcs Hk1 Hk2 Hfrom Hto Hne.
  apply moveBlockUp_top with (k1 := k1) (k2 := k2); assumption.
Qed.

(** The cursor in the second of two paragraphs. *)
Lemma moveBlockUp_raises_below_first_block_witness :
  moveBlockUp {| doc := Elem Schema.doc []
                          [Elem paragraph [] [Text (lit "a") []];
                           Elem paragraph [] [Text (lit "b") []]];
                 selection := TextSelection 4 4; slashMenu := closed |}
  = Err RangeError.
Proof.
  apply (moveBlockUp_raises_below_first_block [] [Elem paragraph [] [Text (lit "a") []]] []
           paragraph [] [Text (lit "b") []] 0 0 4 4 closed);
    try reflexivity; try discriminate; try solve [repeat constructor]; simpl; lia.
Defined.

(** [moveBlockDown] with the selection inside a text block that is a child
    of the document and has at most one block after it returns [false] and
    changes nothing: the index test is made at the end of the block, where
    the index is already that of the next block. So the second-to-last block
    is not moved either. *)
Theorem moveBlockDown_refused_near_end :
  forall (da : Attrs) (left right : list Node) (t : NodeType) (a : Attrs) (cs : list Node)
         (k1 k2 anchor head : nat) (sm : SlashMenuState),
    elements left -> elements right -> isTextblock t = true -> inlineKids cs ->
    k1 <= fragSize cs -> k2 <= fragSize cs ->
    Nat.min anchor head = fragSize left + 1 + k1 ->
    Nat.max anchor head = fragSize left + 1 + k2 ->
    List.length right <= 1 ->
    let st := {| doc := Elem Schema.doc da (left ++ Elem t a cs :: right);
                 selection := TextSelection anchor head; slashMenu := sm |} in
    moveBlockDown st = Ok (false, st).
Proof.
  intros da left right t a cs k1 k2 anchor head sm Hl Hr Ht Hcs Hk1 Hk2 Hfrom Hto Hlen.
  apply moveBlockDown_near_end with (k1 := k1) (k2 := k2); assumption.
Qed.

(** The cursor in the first of two paragraphs. *)
Lemma moveBlockDown_refused_near_end_witness :
  let st := {| doc := Elem Schema.doc []
                        [Elem paragraph [] [Text (lit "a") []];
                         Elem paragraph [] [Text (lit "b") []]];
               selection := TextSelection 1 1; slashMenu := closed |} in
  moveBlockDown st = Ok (false, st).
Proof.
  apply (moveBlockDown_refused_near_end [] [] [Elem paragraph [] [Text (lit "b") []]]
           paragraph [] [Text (lit "a") []] 0 0 1 1 closed);
    try reflexivity; try discriminate; try solve [repeat constructor]; simpl; lia.
Defined.

(** [moveBlockDown] with the selection inside a text block that is a child
    of the document and has at least two blocks after it: the block and the
    next one change places, the rest of the document is kept. When the block
    that follows the two is a text block, the selection ends up as a cursor
    at its start, not in the block that was moved. *)
Theorem moveBlockDown_swaps_with_next :
  forall (da : Attrs) (left : list Node) (next r1 : Node) (rest : list Node)
         (t : NodeType) (a : Attrs) (cs : list Node)
         (k1 k2 anchor head : nat) (sm : SlashMenuState),
    elements left -> elements (next :: r1 :: rest) ->
    isTextblock t = true -> inlineKids cs ->
    k1 <= fragSize cs -> k2 <= fragSize cs ->
    Nat.min anchor head = fragSize left + 1 + k1 ->
    Nat.max anchor head = fragSize left + 1 + k2 ->
    active sm = false ->
    validContentTypes Schema.doc
      (List.map nodeType (left ++ Elem t a cs :: next :: r1 :: rest)) = true ->
    let blk := Elem t a cs in
    let q := fragSize left + nodeSize next + nodeSize blk in
    exists sel',
      moveBlockDown {| doc := Elem Schema.doc da (left ++ blk :: next :: r1 :: rest);
                       selection := TextSelection anchor head; slashMenu := sm |}
      = Ok (true, {| doc := Elem Schema.doc da (left ++ next :: blk :: r1 :: rest);
                     selection := sel'; slashMenu := sm |})
      /\ (forall t1 a1 cs1, r1 = Elem t1 a1 cs1 -> isTextblock t1 = true ->
          sel' = TextSelection (q + 1) (q + 1)).
Proof.
  intros da left next r1 rest t a cs k1 k2 anchor head sm Hl Hr Ht Hcs Hk1 Hk2 Hfrom Hto
         Hsm Hvalid blk q.
  apply moveBlockDown_swaps with (k1 := k1) (k2 := k2); try assumption; reflexivity.
Qed.

(** The cursor in the first of three paragraphs. *)
Lemma moveBlockDown_swaps_with_next_witness :
  exists sel',
    moveBlockDown {| doc := Elem Schema.doc []
                              [Elem paragraph [] [Text (lit "a") []];
                               Elem paragraph [] [Text (lit "b") []];
                               Elem paragraph [] [Text (lit "c") []]];
                     selection := TextSelection 1 1; slashMenu := closed |}
    = Ok (true, {| doc := Elem Schema.doc []
                            [Elem paragraph [] [Text (lit "b") []];
                             Elem paragraph [] [Text (lit "a") []];
                             Elem paragraph [] [Text (lit "c") []]];
                   selection := sel'; slashMenu := closed |})
    /\ (forall t1 a1 cs1, Elem paragraph [] [Text (lit "c") []] = Elem t1 a1 cs1 ->
        isTextblock t1 = true -> sel' = TextSelection 7 7).
Proof.
  apply (moveBlockDown_swaps_with_next [] [] (Elem paragraph [] [Text (lit "b") []])
           (Elem paragraph [] [Text (lit "c") []]) []
           paragraph [] [Text (lit "a") []] 0 0 1 1 closed);
    try reflexivity; try discriminate; try solve [repeat constructor]; simpl; lia.
Defined.

(* ------------------------------------------------------------------ *)
(** ** Duplicating a block ([duplicateBlock]) *)

Lemma copy_same n : copy n (children n) = n.
Proof. now destruct n. Qed.

Lemma dispatch_selected st t sel :
  active (slashMenu st) = false -> slashMeta t = None ->
  curSelectionFor t = List.length (maps t) -> curSelection t = sel ->
  SlashCommand.dispatch st t
  = Ok {| doc := tr_doc t; selection := sel; slashMenu := slashMenu st |}.
Proof.
  intros Hsm Hmeta Hfor Hsel.
  unfold SlashCommand.dispatch, applyWith, tr_selection.
  rewrite Hfor, Nat.ltb_irrefl, Hsel. cbn [bind].
  unfold SlashCommand.apply. rewrite Hmeta, Hsm. reflexivity.
Qed.

(** A node put behind the element [B] among its siblings, the cursor set
    into it. *)
Lemma insert_after_and_select outer pt pa left right B t a cs (st : EditorState) :
  openFrames outer -> isLeaf pt = false -> elements left -> elements right ->
  nodeIsText B = false -> isTextblock t = true -> inlineKids cs ->
  active (slashMenu st) = false ->
  doc st = plug outer (Elem pt pa (left ++ B :: right)) ->
  validContentTypes pt (List.map nodeType (left ++ B :: Elem t a cs :: right)) = true ->
  let e := inside outer + fragSize left + nodeSize B in
  (t1 <- insert (tr st) e [Elem t a cs] ;;
   _ <- resolve (tr_doc t1) (e + 1) ;;
   st' <- SlashCommand.dispatch st (setSelection t1 (TextSelection (e + 1) (e + 1))) ;;
   Ok (true, st'))
  = Ok (true, {| doc := plug outer (Elem pt pa (left ++ B :: Elem t a cs :: right));
                 selection := TextSelection (e + 1) (e + 1);
                 slashMenu := slashMenu st |}).
Proof.
  intros Hc Hpt Hl Hr HB Ht Hcs Hsm Hdoc Hvalid e.
  assert (HlB : elements (left ++ [B]))
    by (apply elements_app; [assumption|now repeat constructor]).
  pose proof (replace_run outer pt pa (left ++ [B]) [] right [Elem t a cs] (tr st) Hc Hpt HlB)
    as H.
  rewrite fragSize_app, fragSize_one in H.
  replace (inside outer + (fragSize left + nodeSize B) + fragSize [])
    with (inside outer + (fragSize left + nodeSize B)) in H by (unfold fragSize; simpl; lia).
  unfold insert, e. rewrite <- Nat.add_assoc.
  rewrite H; try assumption;
    [| constructor | now repeat constructor | right; discriminate
     | cbn [app]; now rewrite <- app_assoc
     | cbn [tr tr_doc app]; now rewrite <- app_assoc ].
  cbn [bind tr_doc]. rewrite <- app_assoc. cbn [app].
  set (ctx' := outer ++ [around pt pa (left ++ [B]) right]).
  assert (Hne : ctx' <> []) by (unfold ctx'; now destruct outer).
  assert (Hco : openFrames ctx') by (apply openFrames_snoc; assumption).
  destruct (resolve_inside ctx' t a cs 0 Hne Hco (textblock_open t Ht) Hcs) as (r & Hr' & _);
    [lia|].
  unfold ctx' in Hr'. rewrite plug_snoc, holePos_snoc in Hr'.
  cbn [around fleft fright ftype fattrs plug app] in Hr'.
  rewrite <- app_assoc in Hr'. cbn [app] in Hr'.
  rewrite fragSize_app, fragSize_one in Hr'.
  replace (inside outer + (fragSize left + nodeSize B) + 1 + 0)
    with (inside outer + (fragSize left + nodeSize B) + 1) in Hr' by lia.
  rewrite Hr'. cbn [bind].
  rewrite dispatch_selected with (sel := TextSelection
                                           (inside outer + (fragSize left + nodeSize B) + 1)
                                           (inside outer + (fragSize left + nodeSize B) + 1));
    try reflexivity; try assumption.
Qed.

(** [duplicateBlock] with the selection starting inside a text block whose
    parent accepts a second copy after it: a copy of the block (same type,
    attributes and content) is inserted right after the block, nothing else
    changes, and the selection becomes a cursor at the start of the copy. *)
Theorem duplicateBlock_copies_block :
  forall (outer : list Frame) (pt : NodeType) (pa : Attrs) (left right : list Node)
         (t : NodeType) (a : Attrs) (cs : list Node) (k anchor head : nat)
         (sm : SlashMenuState),
    openFrames outer -> isLeaf pt = false -> elements left -> elements right ->
    isTextblock t = true -> inlineKids cs -> k <= fragSize cs ->
    Nat.min anchor head = inside outer + fragSize left + 1 + k ->
    active sm = false ->
    let blk := Elem t a cs in
    validContentTypes pt (List.map nodeType (left ++ blk :: blk :: right)) = true ->
    let e := inside outer + fragSize left + nodeSize blk in
    duplicateBlock {| doc := plug outer (Elem pt pa (left ++ blk :: right));
                      selection := TextSelection anchor head; slashMenu := sm |}
    = Ok (true, {| doc := plug outer (Elem pt pa (left ++ blk :: blk :: right));
                   selection := TextSelection (e + 1) (e + 1); slashMenu := sm |}).
Proof.
  intros outer pt pa left right t a cs k anchor head sm Hc Hpt Hl Hr Ht Hcs Hk Hsel Hsm
         blk Hvalid e.
  subst blk e.
  set (ctx := outer ++ [around pt pa left right]).
  assert (Hne : ctx <> []) by (unfold ctx; now destruct outer).
  assert (Hco : openFrames ctx) by (apply openFrames_snoc; assumption).
  assert (Hhp : holePos ctx = inside outer + fragSize left)
    by (unfold ctx; now rewrite holePos_snoc).
  assert (Hplug : plug ctx (Elem t a cs)
                  = plug outer (Elem pt pa (left ++ Elem t a cs :: right)))
    by (unfold ctx; now rewrite plug_snoc).
  unfold duplicateBlock. cbn [doc selection]. rewrite <- Hplug.
  rewrite (getBlockRange_inside ctx t a cs k anchor head Hne Hco (textblock_open t Ht)
             (textblock_block t Ht) Hcs Hk) by (rewrite Hhp; exact Hsel).
  cbn [bind b_end b_node]. rewrite copy_same, Hhp, Hplug.
  apply (insert_after_and_select outer pt pa left right (Elem t a cs) t a cs
           {| doc := plug outer (Elem pt pa (left ++ Elem t a cs :: right));
              selection := TextSelection anchor head; slashMenu := sm |});
    try assumption; reflexivity.
Qed.

(** The first of two paragraphs, the cursor after its first character. *)
Lemma duplicateBlock_copies_block_witness :
  duplicateBlock {| doc := Elem Schema.doc []
                             [Elem paragraph [] [Text (lit "ab") []];
                              Elem paragraph [] []];
                    selection := TextSelection 2 2; slashMenu := closed |}
  = Ok (true, {| doc := Elem Schema.doc []
                          [Elem paragraph [] [Text (lit "ab") []];
                           Elem paragraph [] [Text (lit "ab") []];
                           Elem paragraph [] []];
                 selection := TextSelection 5 5; slashMenu := closed |}).
Proof.
  apply (duplicateBlock_copies_block [] Schema.doc [] [] [Elem paragraph [] []]
           paragraph [] [Text (lit "ab") []] 1 2 2 closed);
    try reflexivity; try discriminate; try solve [repeat constructor]; simpl; lia.
Defined.

(* ------------------------------------------------------------------ *)
(** ** Leaving a block ([exitBlock]) *)

Lemma plug_app a b n : plug (a ++ b) n = plug a (plug b n).
Proof. induction a as [|f a IH]; simpl; [reflexivity|]. now rewrite IH. Qed.

Section PathFacts.

Variables (ctx : list Frame) (blk : Node) (k : nat) (r : ResolvedPos).
Hypothesis Hne : ctx <> [].
Hypothesis Hr : InBlock ctx blk k r.

Lemma ib_node d : d <= List.length ctx -> node r d = plug (skipn d ctx) blk.
Proof.
  intros Hd. destruct (Nat.eq_dec d (List.length ctx)) as [->|Hlt].
  - rewrite skipn_all. cbn [plug].
    pose proof (ib_parent ctx blk k r Hr) as H. unfold parent in H.
    now rewrite (ib_depth ctx blk k r Hr) in H.
  - unfold node. rewrite (ib_entry ctx blk k r Hr d) by lia.
    rewrite ctxPath_nth by lia. reflexivity.
Qed.

Lemma ib_poffset d :
  d < List.length ctx -> poffset (entry r d) = holePos (firstn (S d) ctx).
Proof.
  intros Hd. rewrite (ib_entry ctx blk k r Hr d) by lia.
  rewrite ctxPath_nth by lia. reflexivity.
Qed.

Lemma ib_after d :
  1 <= d -> d <= List.length ctx ->
  after r d = Ok (holePos (firstn d ctx) + nodeSize (plug (skipn d ctx) blk)).
Proof.
  intros H1 H2. destruct d as [|d']; [lia|].
  unfold after. rewrite (ib_depth ctx blk k r Hr).
  destruct (Nat.eqb_spec (S d') (List.length ctx + 1)); [lia|].
  rewrite ib_poffset by lia. now rewrite ib_node by lia.
Qed.

Lemma ib_before d :
  1 <= d -> d <= List.length ctx -> before r d = Ok (holePos (firstn d ctx)).
Proof.
  intros H1 H2. destruct d as [|d']; [lia|].
  unfold before. rewrite (ib_depth ctx blk k r Hr).
  destruct (Nat.eqb_spec (S d') (List.length ctx + 1)); [lia|].
  now rewrite ib_poffset by lia.
Qed.

Lemma exitBlockFrom_down st d0 d :
  d0 <= d ->
  (forall j, d0 < j -> j <= d -> exitable (nodeType (node r j)) = false) ->
  exitBlockFrom st r d = exitBlockFrom st r d0.
Proof.
  intros Hle H. induction d as [|d IH]; [now replace d0 with 0 by lia|].
  destruct (Nat.eq_dec d0 (S d)) as [->|Hneq]; [reflexivity|].
  cbn [exitBlockFrom].
  pose proof (H (S d) ltac:(lia) ltac:(lia)) as He. unfold exitable in He. rewrite He.
  apply IH; [lia|]. intros j Hj1 Hj2. apply H; lia.
Qed.

End PathFacts.

Lemma nodeType_plug_cons f fs n : nodeType (plug (f :: fs) n) = ftype f.
Proof. reflexivity. Qed.

(** [exitBlock] with a cursor in a text block that neither is nor lies in a
    callout, code block, block quote, task or toggle list or one of their
    items returns [false] and changes nothing. *)
Theorem exitBlock_without_special_ancestor :
  forall (f0 : Frame) (inner : list Frame) (t : NodeType) (a : Attrs) (cs : list Node)
         (k : nat) (sm : SlashMenuState),
    openFrames (f0 :: inner) -> isTextblock t = true -> inlineKids cs ->
    k <= fragSize cs ->
    Forall (fun ty => exitable ty = false) (List.map ftype inner ++ [t]) ->
    let st := cursorIn (f0 :: inner) (Elem t a cs) k sm in
    exitBlock st = Ok (false, st).
Proof.
  intros f0 inner t a cs k sm Hc Ht Hcs Hk Hall st.
  set (ctx := f0 :: inner).
  assert (Hne : ctx <> []) by discriminate.
  destruct (resolve_inside ctx t a cs k Hne Hc (textblock_open t Ht) Hcs Hk)
    as (r & Hr & Hin).
  unfold exitBlock, st, cursorIn, sel_empty.
  cbn [doc selection sel_from sel_to].
  rewrite Nat.min_id, Nat.max_id, Nat.eqb_refl. cbn [negb].
  fold ctx. rewrite Hr. cbn [bind].
  rewrite (exitBlockFrom_down r _ 0 (depth r)); [reflexivity|lia|].
  intros j Hj1 Hj2. rewrite (ib_depth ctx _ k r Hin) in Hj2.
  rewrite (ib_node ctx _ k r Hin j Hj2).
  rewrite Forall_forall in Hall. apply Hall.
  destruct j as [|j]; [lia|]. unfold ctx in *. cbn [skipn List.length] in *.
  destruct (Nat.eq_dec j (List.length inner)) as [->|Hlt].
  - rewrite skipn_all. cbn [plug nodeType]. apply in_or_app. right. now left.
  - assert (Hj : j < List.length inner) by lia.
    destruct (skipn j inner) as [|f fs] eqn:E.
    + apply (f_equal (@List.length _)) in E. rewrite length_skipn in E. simpl in E. lia.
    + cbn [plug nodeType]. apply in_or_app. left. apply in_map.
      rewrite <- (firstn_skipn j inner), E. apply in_or_app. right. now left.
Qed.

(** A paragraph of the document. *)
Lemma exitBlock_without_special_ancestor_witness :
  let st := cursorIn [around Schema.doc [] [] []] (Elem paragraph [] [Text (lit "ab") []])
              1 closed in
  exitBlock st = Ok (false, st).
Proof.
  apply (exitBlock_without_special_ancestor (around Schema.doc [] [] []) [] paragraph []
           [Text (lit "ab") []] 1 closed);
    try reflexivity; try discriminate; try solve [repeat constructor]; simpl; lia.
Defined.

Lemma skipn_app_cons {A} (l1 : list A) x l2 j :
  skipn (List.length l1 + 1 + j) (l1 ++ x :: l2) = skipn j l2.
Proof.
  rewrite skipn_app.
  rewrite skipn_all2 by lia.
  replace (List.length l1 + 1 + j - List.length l1) with (S j) by lia.
  reflexivity.
Qed.

(** [exitBlock] with a cursor anywhere in a text block whose innermost
    ancestor-or-self of a listed type [E] is a callout, code block, block
    quote, task list or toggle list (not an item): an empty paragraph is
    inserted right after [E], provided the parent of [E] accepts it there,
    and the cursor is put into it. The position of the cursor inside the
    text block plays no part: it need not be at the end. *)
Theorem exitBlock_adds_paragraph :
  forall (outer : list Frame) (pt : NodeType) (pa : Attrs) (left right : list Node)
         (inner : list Frame) (t : NodeType) (a : Attrs) (cs : list Node) (k : nat)
         (sm : SlashMenuState),
    openFrames outer -> isLeaf pt = false -> elements left -> elements right ->
    openFrames inner -> isTextblock t = true -> inlineKids cs -> k <= fragSize cs ->
    active sm = false ->
    let E := plug inner (Elem t a cs) in
    plainExit (nodeType E) = true ->
    Forall (fun ty => exitable ty = false) (belowTypes inner t) ->
    validContentTypes pt (List.map nodeType (left ++ E :: Elem paragraph [] [] :: right))
    = true ->
    let e := inside outer + fragSize left + nodeSize E in
    exitBlock (cursorIn (outer ++ around pt pa left right :: inner) (Elem t a cs) k sm)
    = Ok (true, {| doc := plug outer (Elem pt pa (left ++ E :: Elem paragraph [] [] :: right));
                   selection := TextSelection (e + 1) (e + 1); slashMenu := sm |}).
Proof.
  intros outer pt pa left right inner t a cs k sm Hc Hpt Hl Hr Hci Ht Hcs Hk Hsm E Hplain
         Hbelow Hvalid e.
  set (ctx := outer ++ around pt pa left right :: inner).
  assert (Hne : ctx <> []) by (unfold ctx; now destruct outer).
  assert (Hco : openFrames ctx).
  { apply Forall_app. split; [assumption|]. constructor; assumption. }
  assert (Hlen : List.length ctx = List.length outer + 1 + List.length inner)
    by (unfold ctx; rewrite length_app; simpl; lia).
  destruct (resolve_inside ctx t a cs k Hne Hco (textblock_open t Ht) Hcs Hk)
    as (r & Hres & Hin).
  assert (Hdoc : plug ctx (Elem t a cs) = plug outer (Elem pt pa (left ++ E :: right))).
  { unfold ctx. now rewrite plug_app. }
  assert (HE : node r (List.length outer + 1) = E).
  { rewrite (ib_node ctx _ k r Hin) by lia. unfold ctx.
    pose proof (skipn_app_cons outer (around pt pa left right) inner 0) as Hs.
    rewrite Nat.add_0_r in Hs. now rewrite Hs. }
  unfold exitBlock, cursorIn, sel_empty.
  cbn [doc selection sel_from sel_to].
  rewrite Nat.min_id, Nat.max_id, Nat.eqb_refl. cbn [negb].
  fold ctx. rewrite Hres. cbn [bind].
  rewrite (exitBlockFrom_down r _ (List.length outer + 1) (depth r)).
  2:{ rewrite (ib_depth ctx _ k r Hin). lia. }
  2:{ intros j Hj1 Hj2. rewrite (ib_depth ctx _ k r Hin) in Hj2.
      rewrite (ib_node ctx _ k r Hin j Hj2).
      rewrite Forall_forall in Hbelow. apply Hbelow.
      replace j with (List.length outer + 1 + (j - (List.length outer + 1))) by lia.
      unfold ctx. rewrite skipn_app_cons.
      set (i := j - (List.length outer + 1)).
      assert (Hi1 : 1 <= i) by (unfold i; lia).
      assert (Hi2 : i <= List.length inner) by (unfold i; lia).
      destruct inner as [|f1 fs]; [simpl in Hi2; lia|].
      destruct i as [|i']; [lia|]. cbn [skipn belowTypes List.length] in *.
      destruct (Nat.eq_dec i' (List.length fs)) as [->|Hlt].
      - rewrite skipn_all. cbn [plug nodeType]. apply in_or_app. right. now left.
      - destruct (skipn i' fs) as [|f fs'] eqn:Es.
        + apply (f_equal (@List.length _)) in Es. rewrite length_skipn in Es.
          simpl in Es. lia.
        + cbn [plug nodeType]. apply in_or_app. left. apply in_map.
          rewrite <- (firstn_skipn i' fs), Es. apply in_or_app. right. now left. }
  replace (List.length outer + 1) with (S (List.length outer)) in * by lia.
  cbn [exitBlockFrom]. rewrite HE.
  unfold plainExit in Hplain. apply andb_prop in Hplain as [Hex Hitem].
  unfold exitable in Hex. rewrite Hex.
  apply negb_true_iff in Hitem. rewrite Hitem. cbn [andb].
  rewrite (ib_after ctx _ k r Hin) by lia. cbn [bind].
  change (create paragraph None []) with (Ok (Elem paragraph [] [])). cbn [bind].
  assert (Hpos : holePos (firstn (S (List.length outer)) ctx)
                 + nodeSize (plug (skipn (S (List.length outer)) ctx) (Elem t a cs))
                 = inside outer + fragSize left + nodeSize E).
  { rewrite <- (ib_node ctx _ k r Hin) by lia. rewrite HE. f_equal.
    unfold ctx.
    replace (S (List.length outer)) with (List.length (outer ++ [around pt pa left right]))
      by (rewrite length_app; simpl; lia).
    replace (outer ++ around pt pa left right :: inner)
      with ((outer ++ [around pt pa left right]) ++ inner) by (now rewrite <- app_assoc).
    rewrite firstn_app, Nat.sub_diag, firstn_all. cbn [firstn]. rewrite app_nil_r.
    now rewrite holePos_snoc. }
  rewrite Hpos.
  assert (HEt : nodeIsText E = false).
  { unfold E. destruct inner; reflexivity. }
  apply (insert_after_and_select outer pt pa left right E paragraph [] []
           {| doc := plug ctx (Elem t a cs);
              selection := TextSelection (holePos ctx + 1 + k) (holePos ctx + 1 + k);
              slashMenu := sm |});
    try assumption; try reflexivity.
  constructor.
Qed.

(** The cursor at the start of a paragraph in a callout, the only block of
    the document. *)
Lemma exitBlock_adds_paragraph_witness :
  exitBlock (cursorIn [around Schema.doc [] [] []; around callout [] [] []]
               (Elem paragraph [] [Text (lit "ab") []]) 0 closed)
  = Ok (true, {| doc := Elem Schema.doc []
                          [Elem callout [] [Elem paragraph [] [Text (lit "ab") []]];
                           Elem paragraph [] []];
                 selection := TextSelection 7 7; slashMenu := closed |}).
Proof.
  apply (exitBlock_adds_paragraph [] Schema.doc [] [] [] [around callout [] [] []]
           paragraph [] [Text (lit "ab") []] 0 closed);
    try reflexivity; try discriminate; try solve [repeat constructor]; simpl; lia.
Defined.

Lemma inside_snoc l f : inside (l ++ [f]) = holePos (l ++ [f]) + 1.
Proof. destruct l; simpl; lia. Qed.

(** [exitBlock] with a cursor in the first text block of a task or toggle
    item, when that text block has no text and the item is the only child of
    its list: the whole list is replaced by one empty paragraph, provided the
    parent of the list accepts a paragraph in its place. Blocks that follow
    the text block inside the item ([more]) are removed with the list. *)
Theorem exitBlock_replaces_list_of_one_empty_item :
  forall (outer : list Frame) (pt : NodeType) (pa : Attrs) (left right : list Node)
         (lt : NodeType) (la : Attrs) (it : NodeType) (ia : Attrs) (more : list Node)
         (t : NodeType) (a : Attrs) (cs : list Node) (k : nat) (sm : SlashMenuState),
    openFrames outer -> isLeaf pt = false -> elements left -> elements right ->
    isLeaf lt = false ->
    it = task_item \/ it = toggle_item ->
    isTextblock t = true -> exitable t = false ->
    inlineKids cs -> k <= fragSize cs ->
    fragSize cs = 0 \/ textContent (Elem t a cs) = [] ->
    active sm = false ->
    validContentTypes pt (List.map nodeType (left ++ [Elem paragraph [] []] ++ right))
    = true ->
    let item := Elem it ia (Elem t a cs :: more) in
    let ctx := outer ++ [around pt pa left right; around lt la [] []; around it ia [] more] in
    exists sel',
      exitBlock (cursorIn ctx (Elem t a cs) k sm)
      = Ok (true, {| doc := plug outer (Elem pt pa (left ++ [Elem paragraph [] []] ++ right));
                     selection := sel'; slashMenu := sm |}).
Proof.
  intros outer pt pa left right lt la it ia more t a cs k sm Hc Hpt Hl Hr Hlt Hit Ht Hex
         Hcs Hk Hempty Hsm Hvalid item ctx.
  set (L := Elem lt la [item]).
  assert (Hiti : isLeaf it = false) by (destruct Hit; subst it; reflexivity).
  assert (Hne : ctx <> []) by (unfold ctx; now destruct outer).
  assert (Hco : openFrames ctx).
  { apply Forall_app. split; [assumption|]. repeat constructor; assumption. }
  assert (Hlen : List.length ctx = List.length outer + 3)
    by (unfold ctx; rewrite length_app; simpl; lia).
  destruct (resolve_inside ctx t a cs k Hne Hco (textblock_open t Ht) Hcs Hk)
    as (r & Hres & Hin).
  assert (Hdoc : plug ctx (Elem t a cs) = plug outer (Elem pt pa (left ++ L :: right))).
  { unfold ctx. now rewrite plug_app. }
  assert (Hitem : node r (List.length outer + 2) = item).
  { rewrite (ib_node ctx _ k r Hin) by lia. unfold ctx.
    pose proof (skipn_app_cons outer (around pt pa left right)
                  [around lt la [] []; around it ia [] more] 1) as Hs.
    replace (List.length outer + 2) with (List.length outer + 1 + 1) by lia.
    rewrite Hs. reflexivity. }
  assert (Hlist : node r (List.length outer + 1) = L).
  { rewrite (ib_node ctx _ k r Hin) by lia. unfold ctx.
    pose proof (skipn_app_cons outer (around pt pa left right)
                  [around lt la [] []; around it ia [] more] 0) as Hs.
    rewrite Nat.add_0_r in Hs. rewrite Hs. reflexivity. }
  assert (Hfirst : holePos (firstn (List.length outer + 1) ctx) = inside outer + fragSize left).
  { unfold ctx.
    replace (List.length outer + 1) with (List.length (outer ++ [around pt pa left right]))
      by (rewrite length_app; simpl; lia).
    replace (outer ++ [around pt pa left right; around lt la [] []; around it ia [] more])
      with ((outer ++ [around pt pa left right])
              ++ [around lt la [] []; around it ia [] more])
      by (now rewrite <- app_assoc).
    rewrite firstn_app, Nat.sub_diag, firstn_all. cbn [firstn]. rewrite app_nil_r.
    now rewrite holePos_snoc. }
  assert (Hhp : holePos ctx = inside outer + fragSize left + 2).
  { unfold ctx.
    change [around pt pa left right; around lt la [] []; around it ia [] more]
      with ([around pt pa left right] ++ [around lt la [] []] ++ [around it ia [] more]).
    rewrite !app_assoc, holePos_snoc, inside_snoc, holePos_snoc, inside_snoc, holePos_snoc.
    cbn [fleft around]. unfold fragSize at 2 3. simpl. lia. }
  unfold exitBlock, cursorIn, sel_empty.
  cbn [doc selection sel_from sel_to].
  rewrite Nat.min_id, Nat.max_id, Nat.eqb_refl. cbn [negb].
  rewrite Hres. cbn [bind].
  rewrite (exitBlockFrom_down r _ (List.length outer + 2) (depth r)).
  2:{ rewrite (ib_depth ctx _ k r Hin). lia. }
  2:{ intros j Hj1 Hj2. rewrite (ib_depth ctx _ k r Hin) in Hj2.
      assert (j = List.length ctx) as -> by lia.
      rewrite (ib_node ctx _ k r Hin) by lia. rewrite skipn_all. exact Hex. }
  replace (List.length outer + 2) with (S (List.length outer + 1)) in * by lia.
  cbn [exitBlockFrom]. rewrite Hitem, Hlist. cbn [nodeType item].
  rewrite (ib_parent ctx _ k r Hin).
  assert (Htest : (eqlit (typeName it) "task_item" || eqlit (typeName it) "toggle_item")
                  && ((contentSize (Elem t a cs) =? 0)
                      || match textContent (Elem t a cs) with [] => true | _ :: _ => false end)
                  && (0 <? List.length outer + 1) = true).
  { destruct (Nat.ltb_spec 0 (List.length outer + 1)); [|lia].
    rewrite andb_true_r. apply andb_true_intro. split.
    - destruct Hit; subst it; reflexivity.
    - destruct Hempty as [H0|H0].
      + unfold contentSize. cbn [children]. rewrite H0. reflexivity.
      + rewrite H0. apply orb_true_r. }
  assert (Hexit : existsb (JS.eqb (typeName it)) exitableBlocks = true)
    by (destruct Hit; subst it; reflexivity).
  rewrite Hexit, Htest.
  change (create paragraph None []) with (Ok (Elem paragraph [] [])). cbn [bind].
  unfold L at 1. unfold childCount. cbn [children List.length Nat.eqb].
  rewrite (ib_before ctx _ k r Hin) by lia. cbn [bind].
  rewrite Hfirst.
  assert (Hend : end_ r (List.length outer + 1) + 1 = inside outer + fragSize left + nodeSize L).
  { unfold end_. rewrite Hlist.
    replace (List.length outer + 1) with (S (List.length outer)) by lia.
    unfold start.
    rewrite (ib_poffset ctx _ k r Hin) by lia.
    replace (S (List.length outer)) with (List.length outer + 1) by lia.
    rewrite Hfirst. unfold L at 2. rewrite nodeSize_Elem, Hlt.
    unfold contentSize. cbn [children L]. unfold fragSize. lia. }
  rewrite Hend.
  unfold replaceWith, replace. cbn [tr tr_doc doc fromArray fromArrayFrom].
  rewrite Hdoc.
  rewrite (replaceStep_block outer pt pa left right L Hc Hpt Hl Hr eq_refl
             [Elem paragraph [] []]);
    [| now repeat constructor | assumption ].
  cbn [bind maps curSelection curSelectionFor slashMeta selection app tr].
  destruct (dispatch_block outer pt pa left right L Hc Hpt Hl [Elem paragraph [] []]
              (holePos ctx + 1 + k) sm) as (sel' & Hd);
    [ now repeat constructor | assumption | | | ].
  3:{ exists sel'. cbn [app] in Hd |- *. rewrite Hd. reflexivity. }
  - rewrite Hhp. lia.
  - rewrite Hhp. unfold L, item.
    rewrite (nodeSize_Elem lt), Hlt, fragSize_one, (nodeSize_Elem it), Hiti.
    rewrite fragSize_cons, (nodeSize_Elem t), (textblock_open t Ht). lia.
Qed.

(** The empty item of a task list, the only block of the document. *)
Lemma exitBlock_replaces_list_of_one_empty_item_witness :
  exists sel',
    exitBlock (cursorIn [around Schema.doc [] [] []; around task_list [] [] [];
                         around task_item [(lit "checked", JBool false)] [] []]
                 (Elem paragraph [] []) 0 closed)
    = Ok (true, {| doc := Elem Schema.doc [] [Elem paragraph [] []];
                   selection := sel'; slashMenu := closed |}).
Proof.
  apply (exitBlock_replaces_list_of_one_empty_item [] Schema.doc [] [] [] task_list []
           task_item [(lit "checked", JBool false)] [] paragraph [] [] 0 closed);
    try reflexivity; try discriminate; try solve [repeat constructor];
    try (left; reflexivity); simpl; lia.
Defined.

(* ------------------------------------------------------------------ *)
(** ** The helpers of [editor-utils.ts] *)

Lemma currentBlock_found r d :
  currentBlockFrom r d
  = option_map f_node (findParentNodeFrom (fun n => isBlock (nodeType n)) r d).
Proof.
  induction d as [|d IH]; [reflexivity|].
  cbn [currentBlockFrom findParentNodeFrom].
  destruct (isBlock (nodeType (node r (S d)))); [reflexivity|exact IH].
Qed.

(** [getCurrentBlock] returns the node of the range that [getBlockRange]
    reports for the same selection, and nothing when that reports no range;
    the two fail together. *)
Theorem getCurrentBlock_is_node_of_getBlockRange :
  forall (d : Node) (s : Selection),
    getCurrentBlock d s
    = match getBlockRange d s with
      | Ok br => Ok (option_map b_node br)
      | Err e => Err e
      end.
Proof.
  intros d s. unfold getCurrentBlock, getBlockRange, findParentNode.
  destruct (resolve d (sel_from s)) as [r|e]; [|reflexivity].
  cbn [bind]. rewrite currentBlock_found.
  destruct (findParentNodeFrom _ r (depth r)); reflexivity.
Qed.

(** With a cursor at offset [k] of a text block, [isAtBlockStart] says
    whether [k] is 0 and [isAtBlockEnd] whether [k] is the size of the
    content of the block. *)
Theorem block_start_and_end_tests :
  forall (ctx : list Frame) (t : NodeType) (a : Attrs) (cs : list Node) (k : nat),
    ctx <> [] -> openFrames ctx -> isTextblock t = true -> inlineKids cs ->
    k <= fragSize cs ->
    let d := plug ctx (Elem t a cs) in
    let s := TextSelection (holePos ctx + 1 + k) (holePos ctx + 1 + k) in
    isAtBlockStart d s = Ok (k =? 0)
    /\ isAtBlockEnd d s = Ok (k =? fragSize cs).
Proof.
  intros ctx t a cs k Hne Hc Ht Hcs Hk d s.
  destruct (resolve_inside ctx t a cs k Hne Hc (textblock_open t Ht) Hcs Hk)
    as (r & Hr & Hin).
  unfold isAtBlockStart, isAtBlockEnd, sel_empty, s.
  cbn [sel_from sel_to]. rewrite Nat.min_id, Nat.max_id, Nat.eqb_refl. cbn [negb].
  fold d. unfold d. rewrite Hr. cbn [bind].
  rewrite (ib_offset _ _ _ _ Hin), (ib_parent ctx _ k r Hin).
  unfold contentSize. cbn [children]. split; reflexivity.
Qed.

(** The paragraph that reads ab: the cursor at its start, then at its end. *)
Lemma block_start_and_end_tests_witness :
  let d := Elem Schema.doc [] [Elem paragraph [] [Text (lit "ab") []]] in
  (isAtBlockStart d (TextSelection 1 1) = Ok true
   /\ isAtBlockEnd d (TextSelection 1 1) = Ok false)
  /\ (isAtBlockStart d (TextSelection 3 3) = Ok false
      /\ isAtBlockEnd d (TextSelection 3 3) = Ok true).
Proof.
  split.
  - apply (block_start_and_end_tests [around Schema.doc [] [] []] paragraph []
             [Text (lit "ab") []] 0);
      try reflexivity; try discriminate; try solve [repeat constructor]; simpl; lia.
  - apply (block_start_and_end_tests [around Schema.doc [] [] []] paragraph []
             [Text (lit "ab") []] 2);
      try reflexivity; try discriminate; try solve [repeat constructor]; simpl; lia.
Defined.

Lemma found_among r pred d :
  match findParentNodeFrom pred r d with Some _ => true | None => false end
  = existsb (fun j => pred (node r j)) (seq 1 d).
Proof.
  induction d as [|d IH]; [reflexivity|].
  rewrite seq_S, existsb_app. cbn [findParentNodeFrom existsb Nat.add].
  destruct (pred (node r (S d))).
  - now rewrite orb_true_r.
  - rewrite IH. now rewrite !orb_false_r.
Qed.

Lemma types_below (blk : Node) (inner : list Frame) :
  List.map (fun j => nodeType (plug (skipn j inner) blk)) (seq 0 (S (List.length inner)))
  = List.map ftype inner ++ [nodeType blk].
Proof.
  induction inner as [|f inner IH]; [reflexivity|].
  cbn [List.length]. rewrite <- cons_seq. cbn [List.map skipn plug nodeType app].
  f_equal. rewrite <- seq_shift, map_map. cbn [skipn]. exact IH.
Qed.

Lemma existsb_mapped {A B} (p : B -> bool) (f : A -> B) l :
  existsb p (List.map f l) = existsb (fun x => p (f x)) l.
Proof. induction l as [|x l IH]; simpl; [reflexivity|]. now rewrite IH. Qed.

Lemma existsb_same {A} (f g : A -> bool) l :
  (forall x, In x l -> f x = g x) -> existsb f l = existsb g l.
Proof.
  induction l as [|x l IH]; intros H; simpl; [reflexivity|].
  rewrite (H x) by now left. rewrite IH; [reflexivity|].
  intros y Hy. apply H. now right.
Qed.

(** [isInsideNodeType] with a cursor in a text block: whether the name is
    that of the block or of one of its ancestors below the root.  The root
    of the document is not looked at. *)
Theorem isInsideNodeType_ancestors :
  forall (f0 : Frame) (inner : list Frame) (t : NodeType) (a : Attrs) (cs : list Node)
         (k : nat) (name : jsstring),
    openFrames (f0 :: inner) -> isTextblock t = true -> inlineKids cs ->
    k <= fragSize cs ->
    let ctx := f0 :: inner in
    isInsideNodeType name (plug ctx (Elem t a cs))
      (TextSelection (holePos ctx + 1 + k) (holePos ctx + 1 + k))
    = Ok (existsb (fun ty => JS.eqb (typeName ty) name) (List.map ftype inner ++ [t])).
Proof.
  intros f0 inner t a cs k name Hc Ht Hcs Hk ctx.
  assert (Hne : ctx <> []) by discriminate.
  destruct (resolve_inside ctx t a cs k Hne Hc (textblock_open t Ht) Hcs Hk)
    as (r & Hr & Hin).
  unfold isInsideNodeType, findParentNodeOfType, findParentNode.
  cbn [sel_from]. rewrite Nat.min_id, Hr. cbn [bind]. f_equal.
  rewrite found_among, (ib_depth ctx _ k r Hin).
  change [t] with [nodeType (Elem t a cs)].
  rewrite <- (types_below (Elem t a cs) inner), existsb_mapped.
  unfold ctx. cbn [List.length]. rewrite <- seq_shift, existsb_mapped.
  apply existsb_same. intros j Hj. apply in_seq in Hj.
  rewrite (ib_node ctx _ k r Hin (S j)) by (unfold ctx; simpl; lia).
  reflexivity.
Qed.

(** A paragraph in a callout: inside a callout, not inside a block quote,
    and not inside the node named doc. *)
Lemma isInsideNodeType_ancestors_witness :
  let d := Elem Schema.doc [] [Elem callout [] [Elem paragraph [] [Text (lit "ab") []]]] in
  isInsideNodeType (lit "callout") d (TextSelection 3 3) = Ok true
  /\ isInsideNodeType (lit "blockquote") d (TextSelection 3 3) = Ok false
  /\ isInsideNodeType (lit "doc") d (TextSelection 3 3) = Ok false.
Proof.
  split; [|split].
  - apply (isInsideNodeType_ancestors (around Schema.doc [] [] []) [around callout [] [] []]
             paragraph [] [Text (lit "ab") []] 1 (lit "callout"));
      try reflexivity; try discriminate; try solve [repeat constructor]; simpl; lia.
  - apply (isInsideNodeType_ancestors (around Schema.doc [] [] []) [around callout [] [] []]
             paragraph [] [Text (lit "ab") []] 1 (lit "blockquote"));
      try reflexivity; try discriminate; try solve [repeat constructor]; simpl; lia.
  - apply (isInsideNodeType_ancestors (around Schema.doc [] [] []) [around callout [] [] []]
             paragraph [] [Text (lit "ab") []] 1 (lit "doc"));
      try reflexivity; try discriminate; try solve [repeat constructor]; simpl; lia.
Defined.

(* ------------------------------------------------------------------ *)
(** ** Modifying a suggestion ([handleModify]) *)

(** [handleModify] deletes from the start position of the inserted text to
    the end of the document content less one.  In a document whose last
    child is the text block that holds the start position, the block is cut
    at the start position: the suggestion goes, and so does whatever
    followed it in the block.  The start position is kept, the counter of
    inserted characters is reset and the toolbar is hidden; the cursor is
    where it was, or at the start position when it was behind it. *)
Theorem modify_deletes_to_end_of_document :
  forall (da : Attrs) (left : list Node) (t : NodeType) (a : Attrs) (cs : list Node)
         (k k' : nat) (sm : SlashMenuState) (e : Editor.Editor),
    isTextblock t = true -> kidsOf t cs ->
    k < fragSize cs -> k' <= fragSize cs -> active sm = false ->
    let ctx := [around Schema.doc da left []] in
    view e = cursorIn ctx (Elem t a cs) k' sm ->
    aiTextStartPos e = Some (holePos ctx + 1 + k) ->
    let q := holePos ctx + 1 + Nat.min k' k in
    handleModify e
    = Ok {| view := {| doc := plug ctx (Elem t a (cut 0 k cs));
                       selection := TextSelection q q; slashMenu := sm |};
            lastInsertedLength := 0; aiTextStartPos := Some (holePos ctx + 1 + k);
            fullAiText := fullAiText e; parsedJson := parsedJson e;
            isReplacingSelection := isReplacingSelection e;
            originalText := originalText e; selectionRange := selectionRange e;
            showToolbar := false |}.
Proof.
  intros da left t a cs k k' sm e Ht Hkids Hk Hk' Hsm ctx Hview Hstart q.
  assert (Hne : ctx <> []) by discriminate.
  assert (Hc : openFrames ctx) by (repeat constructor).
  pose proof (kidsOf_inline t cs Hkids) as Hcs.
  assert (Hend : contentSize (doc (view e)) - 1 = holePos ctx + 1 + fragSize cs).
  { rewrite Hview. unfold cursorIn, ctx. cbn [doc plug around ftype fattrs fleft fright holePos].
    unfold contentSize. cbn [children]. rewrite fragSize_app, fragSize_one.
    rewrite nodeSize_Elem, (textblock_open t Ht). unfold fragSize. lia. }
  unfold handleModify. rewrite Hstart, Hend.
  unfold delete, State.replace. change (fromArray []) with (@nil Node).
  rewrite Hview. change (tr_doc (tr (cursorIn ctx (Elem t a cs) k' sm)))
    with (plug ctx (Elem t a cs)).
  rewrite (replaceStep_inside ctx t a cs k (fragSize cs) []); try assumption;
    [| constructor | lia | lia
     | destruct (Nat.eqb_spec k (fragSize cs)); [lia|reflexivity] ].
  rewrite spliced_tail.
  cbn [bind maps tr app curSelection curSelectionFor slashMeta].
  unfold cursorIn. cbn [selection].
  rewrite (dispatch_tail_deleted ctx t a cs k k' sm Hne Hc Ht Hcs Hk Hk' Hsm).
  cbn [bind]. reflexivity.
Qed.

(** The paragraph ["aXYb"] with a suggestion ["XY"] that starts at
    position 2, the cursor behind the suggestion: the ["b"] goes too. *)
Lemma modify_deletes_to_end_of_document_witness :
  handleModify
    {| view := {| doc := Elem Schema.doc []
                           [Elem paragraph []
                              [Text (lit "a") []; Text (lit "XY") [emMark];
                               Text (lit "b") []]];
                  selection := TextSelection 4 4; slashMenu := closed |};
       lastInsertedLength := 2; aiTextStartPos := Some 2; fullAiText := lit "XY";
       parsedJson := None; isReplacingSelection := false; originalText := [];
       selectionRange := None; showToolbar := true |}
  = Ok {| view := {| doc := Elem Schema.doc [] [Elem paragraph [] [Text (lit "a") []]];
                     selection := TextSelection 2 2; slashMenu := closed |};
          lastInsertedLength := 0; aiTextStartPos := Some 2; fullAiText := lit "XY";
          parsedJson := None; isReplacingSelection := false; originalText := [];
          selectionRange := None; showToolbar := false |}.
Proof.
  apply (modify_deletes_to_end_of_document [] [] paragraph []
           [Text (lit "a") []; Text (lit "XY") [emMark]; Text (lit "b") []] 1 3 closed);
    try reflexivity; try discriminate; try solve [repeat constructor]; simpl; lia.
Defined.

(* ------------------------------------------------------------------ *)
(** ** An action on the selected text, then a reject *)

Lemma textBetweenNode_plain leafText t a s i j :
  textBetweenNode leafText i j (Elem t a (plain s)) = slice2 i j s.
Proof.
  cbn [textBetweenNode].
  destruct s as [|c s].
  - simpl. unfold slice2. now rewrite skipn_nil, firstn_nil.
  - unfold plain. cbn [textBetweenWith nodeSize].
    destruct (Nat.leb_spec j 0) as [H0|H0].
    + now rewrite plain_slice2_nil by lia.
    + rewrite Nat.add_0_l, app_nil_r.
      destruct (Nat.ltb_spec i (List.length (c :: s))) as [Hi|Hi].
      * now rewrite Nat.max_0_r, !Nat.sub_0_r.
      * unfold slice2. rewrite skipn_all2 by assumption. now rewrite firstn_nil.
Qed.

Lemma textBetweenWith_skip inner leafText from to l rest pos :
  pos + fragSize l <= from -> from < to ->
  textBetweenWith inner leafText from to (l ++ rest) pos
  = textBetweenWith inner leafText from to rest (pos + fragSize l).
Proof.
  revert pos. induction l as [|c l IH]; intros pos Hfrom Hto.
  - cbn [app]. f_equal. unfold fragSize. simpl. lia.
  - rewrite fragSize_cons in Hfrom. cbn [app textBetweenWith].
    destruct (Nat.leb_spec to pos); [lia|].
    destruct (Nat.ltb_spec from (pos + nodeSize c)); [lia|].
    cbn [app]. rewrite IH by lia. f_equal. rewrite fragSize_cons. lia.
Qed.

(** The text between two offsets of a plain text block, the last child of
    the document. *)
Lemma textBetween_last_plain da left t a s i j leafText :
  isLeaf t = false -> i < j -> j <= List.length s ->
  textBetween (Elem Schema.doc da (left ++ [Elem t a (plain s)]))
              (fragSize left + 1 + i) (fragSize left + 1 + j) leafText
  = slice2 i j s.
Proof.
  intros Ht Hij Hj. unfold textBetween. cbn [textBetweenNode].
  rewrite textBetweenWith_skip by lia.
  cbn [textBetweenWith Nat.add].
  destruct (Nat.leb_spec (fragSize left + 1 + j) (fragSize left)); [lia|].
  rewrite nodeSize_Elem, Ht, fragSize_plain.
  destruct (Nat.ltb_spec (fragSize left + 1 + i) (fragSize left + (2 + List.length s))); [|lia].
  rewrite app_nil_r.
  fold (fragSize (plain s)). rewrite fragSize_plain.
  replace (fragSize left + 1 + i - (fragSize left + 1)) with i by lia.
  replace (Nat.min (List.length s) (fragSize left + 1 + j - (fragSize left + 1))) with j by lia.
  apply textBetweenNode_plain.
Qed.

(** A cursor mapped through the steps of a transaction to an offset of the
    text block. *)
Lemma dispatch_cursor_mapped ctx t a cs' d0 m ms p k' sm :
  ctx <> [] -> openFrames ctx -> isTextblock t = true -> inlineKids cs' ->
  k' <= fragSize cs' -> active sm = false ->
  mapPos (m :: ms) p = holePos ctx + 1 + k' ->
  SlashCommand.dispatch
    {| doc := d0; selection := TextSelection p p; slashMenu := sm |}
    {| tr_doc := plug ctx (Elem t a cs'); maps := m :: ms;
       curSelection := TextSelection p p; curSelectionFor := 0; slashMeta := None |}
  = Ok (cursorIn ctx (Elem t a cs') k' sm).
Proof.
  intros Hne Hc Ht Hcs Hk Hsm Hmap.
  unfold SlashCommand.dispatch, applyWith, tr_selection.
  cbn [tr_doc maps curSelection curSelectionFor slashMeta List.length Nat.ltb Nat.leb skipn].
  unfold mapSelection. rewrite Hmap.
  destruct (resolve_inside ctx t a cs' k' Hne Hc (textblock_open t Ht) Hcs Hk)
    as (rh & Hrh & Hh).
  rewrite Hrh. cbn [bind].
  rewrite (ib_parent ctx _ _ rh Hh). cbn [nodeType].
  rewrite (textblock_inline t Ht). cbn [negb].
  rewrite (ib_pos _ _ _ _ Hh). cbn [bind].
  unfold SlashCommand.apply. cbn [slashMeta slashMenu].
  rewrite Hsm. cbn [andb bind]. reflexivity.
Qed.

Lemma slice2_middle (u w v : jsstring) :
  slice2 (List.length u) (List.length u + List.length w) (u ++ w ++ v) = w.
Proof.
  unfold slice2. rewrite skipn_app, skipn_all, Nat.sub_diag. cbn [skipn app].
  replace (List.length u + List.length w - List.length u) with (List.length w) by lia.
  rewrite firstn_app, firstn_all, Nat.sub_diag. cbn [firstn]. apply app_nil_r.
Qed.

Lemma firstn_prefix (u x : jsstring) : firstn (List.length u) (u ++ x) = u.
Proof. rewrite firstn_app, firstn_all, Nat.sub_diag. cbn [firstn]. apply app_nil_r. Qed.

Lemma skipn_two (u w v : jsstring) :
  skipn (List.length u + List.length w) (u ++ w ++ v) = v.
Proof.
  rewrite skipn_app, skipn_all2 by lia.
  replace (List.length u + List.length w - List.length u) with (List.length w) by lia.
  rewrite skipn_app, skipn_all, Nat.sub_diag. reflexivity.
Qed.

Lemma spliced_plain_nil s k1 k2 :
  k1 <= List.length s ->
  spliced (plain s) k1 k2 [] = plain (firstn k1 s ++ skipn k2 s).
Proof. intros H. exact (spliced_plain s k1 k2 [] H). Qed.

(** An AI action on a selection of more than three characters inside a
    plain text block that is the last child of the document deletes the
    selected text, puts the cursor in its place and records that position
    as the start position.  A reject right after it, nothing having been
    streamed, puts the selected text back at the start position, but
    deletes everything from there to the end of the block first: the text
    [v] that followed the selection is lost, and the cursor ends behind the
    text put back.  The block reads as before exactly when nothing followed
    the selection. *)
Theorem selection_action_then_reject :
  forall (da : Attrs) (left : list Node) (t : NodeType) (a : Attrs) (u w v : jsstring)
         (anchor head : nat) (sm : SlashMenuState) (e : Editor.Editor),
    isTextblock t = true -> 3 < List.length w -> active sm = false ->
    let ctx := [around Schema.doc da left []] in
    let from := holePos ctx + 1 + List.length u in
    let to := from + List.length w in
    view e = {| doc := plug ctx (Elem t a (plain (u ++ w ++ v)));
                selection := TextSelection anchor head; slashMenu := sm |} ->
    Nat.min anchor head = from -> Nat.max anchor head = to ->
    exists e1,
      handleSelectionAiAction e = Ok (Some e1)
      /\ view e1 = cursorIn ctx (Elem t a (plain (u ++ v))) (List.length u) sm
      /\ aiTextStartPos e1 = Some from
      /\ handleReject e1
         = Ok {| view := cursorIn ctx (Elem t a (plain (u ++ w)))
                           (List.length u + List.length w) sm;
                 lastInsertedLength := 0; aiTextStartPos := None; fullAiText := [];
                 parsedJson := parsedJson e; isReplacingSelection := false;
                 originalText := []; selectionRange := None; showToolbar := false |}.
Proof.
  intros da left t a u w v anchor head sm e Ht Hw Hsm.
  destruct w as [|c0 w0]; [simpl in Hw; lia|]. set (w := c0 :: w0) in *.
  intros ctx from to Hview Hmin Hmax.
  assert (Hne : ctx <> []) by discriminate.
  assert (Hc : openFrames ctx) by (repeat constructor).
  assert (Hhp : holePos ctx = fragSize left) by (unfold ctx; simpl; lia).
  assert (Hsel : selectedText (view e) = w).
  { unfold selectedText, sel_empty. rewrite Hview. cbn [doc selection sel_from sel_to].
    rewrite Hmin, Hmax.
    destruct (Nat.eqb_spec from to) as [E|_]; [unfold to in E; lia|]. cbn [negb andb].
    destruct (Nat.ltb_spec 3 (to - from)) as [_|E]; [|unfold to in E; lia].
    unfold to, from. rewrite Hhp. unfold ctx. cbn [plug around ftype fattrs fleft fright].
    etransitivity; [|apply (slice2_middle u w v)].
    etransitivity;
      [|apply (textBetween_last_plain da left t a (u ++ w ++ v) (List.length u)
                 (List.length u + List.length w) [] (textblock_open t Ht));
        rewrite ?length_app; lia].
    f_equal; lia. }
  unfold handleSelectionAiAction. rewrite Hsel.
  cbv delta [w]. cbv iota. fold w.
  rewrite Hview. cbn [doc selection sel_from sel_to]. rewrite Hmin, Hmax.
  unfold delete, State.replace. change (fromArray []) with (@nil Node).
  cbn [tr tr_doc doc].
  assert (Hrs : replaceStep (plug ctx (Elem t a (plain (u ++ w ++ v)))) from to []
                = Ok (Some (plug ctx (Elem t a (plain (u ++ v))),
                            {| mstart := from; oldSize := to - from; newSize := 0 |}))).
  { pose proof (replaceStep_inside ctx t a (plain (u ++ w ++ v)) (List.length u)
                  (List.length u + List.length w) [] Hne Hc Ht
                  (plain_kidsOf t _) (Forall_nil _)) as H.
    rewrite (spliced_plain_nil (u ++ w ++ v)) in H by (rewrite !length_app; lia).
    rewrite firstn_prefix, skipn_two in H.
    replace (holePos ctx + 1 + (List.length u + List.length w)) with to in H
      by (unfold to, from; lia).
    fold from in H. apply H.
    - rewrite fragSize_plain, !length_app; lia.
    - rewrite fragSize_plain, !length_app; lia.
    - destruct (Nat.eqb_spec (List.length u) (List.length u + List.length w));
        [unfold w in *; cbn [List.length] in *; lia|reflexivity]. }
  rewrite Hrs. cbn [app bind].
  cbn [maps curSelection curSelectionFor slashMeta selection tr_doc].
  destruct (resolve_inside ctx t a (plain (u ++ v)) (List.length u) Hne Hc
              (textblock_open t Ht) (kidsOf_inline t _ (plain_kidsOf t (u ++ v))))
    as (r1 & Hr1 & _); [rewrite fragSize_plain, length_app; lia|].
  fold from in Hr1. rewrite Hr1. cbn [bind].
  rewrite dispatch_selected with (sel := TextSelection from from);
    [| assumption | reflexivity | reflexivity | reflexivity].
  cbn [bind tr_doc setSelection slashMenu].
  eexists. split; [reflexivity|]. cbn [view aiTextStartPos].
  split; [reflexivity|]. split; [reflexivity|].
  clear Hrs.
  unfold handleReject.
  cbn [aiTextStartPos view isReplacingSelection originalText doc andb parsedJson].
  assert (Hend : contentSize (plug ctx (Elem t a (plain (u ++ v)))) - 1
                 = from + List.length v).
  { unfold ctx. cbn [plug around ftype fattrs fleft fright]. unfold contentSize.
    cbn [children]. rewrite fragSize_app, fragSize_one, nodeSize_Elem, (textblock_open t Ht).
    rewrite fragSize_plain, length_app. unfold from. rewrite Hhp. lia. }
  rewrite Hend.
  assert (Hins : forall (tx : Transaction),
             tr_doc tx = plug ctx (Elem t a (plain u)) ->
             insert tx from [Text w []]
             = Ok {| tr_doc := plug ctx (Elem t a (plain (u ++ w)));
                     maps := maps tx ++ [{| mstart := from; oldSize := 0;
                                            newSize := List.length w |}];
                     curSelection := curSelection tx;
                     curSelectionFor := curSelectionFor tx;
                     slashMeta := slashMeta tx |}).
  { intros tx Htx. unfold insert, State.replace. rewrite Htx.
    change (fromArray [Text w []]) with (plain w).
    pose proof (replaceStep_inside ctx t a (plain u) (List.length u) (List.length u)
                  (plain w) Hne Hc Ht (plain_kidsOf t _) (plain_kidsOf t _)) as H.
    rewrite spliced_plain in H by lia.
    rewrite firstn_all, skipn_all, app_nil_r, fragSize_plain in H.
    fold from in H. rewrite Nat.sub_diag in H.
    rewrite H; [cbn [bind]; rewrite fragSize_plain; reflexivity | lia | lia |].
    rewrite Nat.eqb_refl. cbn [andb].
    destruct (Nat.eqb_spec (fragSize (plain w)) 0) as [E|_]; [|reflexivity].
    rewrite fragSize_plain in E. lia. }
  change (match w with [] => false | _ :: _ => true end) with true. cbv iota.
  change (schemaText w []) with (Ok (Text w [])). cbn [bind].
  assert (Hcsw : inlineKids (plain (u ++ w)))
    by (apply (kidsOf_inline t), plain_kidsOf).
  assert (Hkw : List.length u + List.length w <= fragSize (plain (u ++ w)))
    by (rewrite fragSize_plain, length_app; lia).
  destruct v as [|c1 v1].
  - (* nothing follows the selection: the deletion is empty *)
    rewrite app_nil_r in *. cbn [List.length]. rewrite Nat.add_0_r.
    unfold delete, State.replace at 1.
    change (fromArray []) with (@nil Node). unfold replaceStep at 1.
    rewrite Nat.eqb_refl. change (fragSize [] =? 0) with true. cbn [andb bind].
    rewrite Hins by reflexivity. cbn [bind tr maps app curSelection curSelectionFor slashMeta].
    rewrite (dispatch_cursor_mapped ctx t a (plain (u ++ w)) _ _ [] from
               (List.length u + List.length w) sm Hne Hc Ht Hcsw Hkw Hsm).
    + reflexivity.
    + unfold mapPos, mapResult, mapStep. cbn [mstart oldSize newSize].
      rewrite Nat.ltb_irrefl, Nat.add_0_r, Nat.leb_refl. cbn [Nat.eqb fst].
      unfold from. lia.
  - (* what follows is deleted first *)
    set (v := c1 :: v1) in *.
    assert (Hdel : delete (tr {| doc := plug ctx (Elem t a (plain (u ++ v)));
                                 selection := TextSelection from from; slashMenu := sm |})
                          from (from + List.length v)
                   = Ok {| tr_doc := plug ctx (Elem t a (plain u));
                           maps := [{| mstart := from; oldSize := List.length v;
                                       newSize := 0 |}];
                           curSelection := TextSelection from from;
                           curSelectionFor := 0; slashMeta := None |}).
    { unfold delete, State.replace. change (fromArray []) with (@nil Node).
      cbn [tr tr_doc doc maps curSelection curSelectionFor slashMeta selection].
      pose proof (replaceStep_inside ctx t a (plain (u ++ v)) (List.length u)
                    (List.length u + List.length v) [] Hne Hc Ht
                    (plain_kidsOf t _) (Forall_nil _)) as H.
      rewrite (spliced_plain_nil (u ++ v)) in H by (rewrite length_app; lia).
      rewrite firstn_prefix in H.
      rewrite skipn_all2 in H by (rewrite length_app; lia).
      rewrite app_nil_r, fragSize_plain, length_app in H.
      replace (holePos ctx + 1 + (List.length u + List.length v))
        with (from + List.length v) in H by (unfold from; lia).
      fold from in H.
      replace (from + List.length v - from) with (List.length v) in H by lia.
      rewrite H; [reflexivity | lia | lia |].
      destruct (Nat.eqb_spec (List.length u) (List.length u + List.length v)) as [E|_];
        [unfold v in E; cbn [List.length] in E; lia | reflexivity]. }
    rewrite Hdel. cbn [bind].
    rewrite Hins by reflexivity. cbn [bind tr maps app curSelection curSelectionFor slashMeta].
    rewrite (dispatch_cursor_mapped ctx t a (plain (u ++ w)) _ _ _ from
               (List.length u + List.length w) sm Hne Hc Ht Hcsw Hkw Hsm).
    + reflexivity.
    + unfold mapPos, mapResult, mapStep. cbn [mstart oldSize newSize].
      rewrite Nat.ltb_irrefl.
      destruct (Nat.leb_spec from (from + List.length v)); [|lia].
      destruct (Nat.eqb_spec (List.length v) 0) as [E|_];
        [unfold v in E; cbn [List.length] in E; lia|].
      rewrite Nat.eqb_refl, Nat.add_0_r, Nat.ltb_irrefl, Nat.leb_refl.
      cbn [Nat.eqb fst]. unfold from. lia.
Qed.

(** The paragraph ["abcdefg"] with ["bcdef"] selected: the ["g"] is lost. *)
Lemma selection_action_then_reject_witness :
  let st := {| doc := Elem Schema.doc [] [Elem paragraph [] [Text (lit "abcdefg") []]];
               selection := TextSelection 2 7; slashMenu := closed |} in
  exists e1,
    handleSelectionAiAction (mount st) = Ok (Some e1)
    /\ view e1 = {| doc := Elem Schema.doc [] [Elem paragraph [] [Text (lit "ag") []]];
                    selection := TextSelection 2 2; slashMenu := closed |}
    /\ aiTextStartPos e1 = Some 2
    /\ handleReject e1
       = Ok {| view := {| doc := Elem Schema.doc []
                                   [Elem paragraph [] [Text (lit "abcdef") []]];
                          selection := TextSelection 7 7; slashMenu := closed |};
               lastInsertedLength := 0; aiTextStartPos := None; fullAiText := [];
               parsedJson := None; isReplacingSelection := false;
               originalText := []; selectionRange := None; showToolbar := false |}.
Proof.
  apply (selection_action_then_reject [] [] paragraph [] (lit "a") (lit "bcdef") (lit "g")
           2 7 closed
           (mount {| doc := Elem Schema.doc [] [Elem paragraph [] [Text (lit "abcdefg") []]];
                     selection := TextSelection 2 7; slashMenu := closed |}));
    try reflexivity; simpl; lia.
Defined.

(* ------------------------------------------------------------------ *)
(** ** The framed payload in the streamed text *)

Lemma marker_listed s : forall i j,
  startsWith MARK (skipn j s) = true -> In (i + j) (markersFrom i s).
Proof.
  induction s as [|c s IH]; intros i j H.
  - rewrite skipn_nil in H. discriminate.
  - destruct j as [|j].
    + cbn [skipn] in H. cbn [markersFrom]. rewrite H. left. lia.
    + cbn [skipn] in H. cbn [markersFrom]. apply in_or_app. right.
      replace (i + S j) with (S i + j) by lia. now apply IH.
Qed.

Lemma unlisted s l j :
  markers s = l -> ~ In j l -> startsWith MARK (skipn j s) = false.
Proof.
  intros <- Hn. destruct (startsWith MARK (skipn j s)) eqn:E; [|reflexivity].
  exfalso. apply Hn. exact (marker_listed s 0 j E).
Qed.

Lemma closing_step lazy least k found c x :
  k < least \/ startsWith MARK (c :: x) = false ->
  closing lazy least k found (c :: x)
  = if lineTerminator c then found else closing lazy least (S k) found x.
Proof.
  intros H. cbn [closing].
  assert (E : (least <=? k) && startsWith MARK (c :: x) = false).
  { destruct H as [H|H].
    - destruct (Nat.leb_spec least k); [lia|reflexivity].
    - rewrite H. apply andb_false_r. }
  rewrite E. reflexivity.
Qed.

Lemma closing_nil lazy least k found : closing lazy least k found [] = found.
Proof. cbn [closing]. change (startsWith MARK []) with false. now rewrite andb_false_r. Qed.

(** No marker ahead: the scan gives what it had. *)
Lemma closing_none lazy least found x : forall k,
  (forall j, startsWith MARK (skipn j x) = false) ->
  closing lazy least k found x = found.
Proof.
  induction x as [|c x IH]; intros k H; [apply closing_nil|].
  rewrite closing_step by (right; exact (H 0)).
  destruct (lineTerminator c); [reflexivity|].
  apply IH. intros j. exact (H (S j)).
Qed.

(** A line terminator before any marker: the scan gives what it had. *)
Lemma closing_to_break lazy least found g y : forall k,
  (forall j, j < List.length g -> k + j < least \/ startsWith MARK (skipn j (g ++ y)) = false) ->
  oneLine g = false ->
  closing lazy least k found (g ++ y) = found.
Proof.
  induction g as [|c g IH]; intros k H Hb; [discriminate|].
  cbn [app]. rewrite closing_step.
  2:{ destruct (H 0) as [H0|H0]; [simpl; lia|left; lia|right; exact H0]. }
  destruct (lineTerminator c) eqn:E; [reflexivity|].
  apply IH.
  - intros j Hj. destruct (H (S j)) as [H0|H0]; [simpl; lia|left; lia|right; exact H0].
  - unfold oneLine in Hb |- *. cbn [forallb] in Hb. rewrite E in Hb. exact Hb.
Qed.

(** A run without line terminators and without a marker is passed. *)
Lemma closing_prefix lazy least found g y : forall k,
  (forall j, j < List.length g -> k + j < least \/ startsWith MARK (skipn j (g ++ y)) = false) ->
  oneLine g = true ->
  closing lazy least k found (g ++ y) = closing lazy least (k + List.length g) found y.
Proof.
  induction g as [|c g IH]; intros k H Hb.
  - cbn [app List.length]. now rewrite Nat.add_0_r.
  - cbn [app]. rewrite closing_step.
    2:{ destruct (H 0) as [H0|H0]; [simpl; lia|left; lia|right; exact H0]. }
    unfold oneLine in Hb. cbn [forallb] in Hb. apply andb_prop in Hb as [Hc Hg].
    apply negb_true_iff in Hc. rewrite Hc.
    rewrite IH; [cbn [List.length]; f_equal; lia| |exact Hg].
    intros j Hj. destruct (H (S j)) as [H0|H0]; [simpl; lia|left; lia|right; exact H0].
Qed.

(** At a marker with no marker behind it. *)
Lemma closing_at_marker lazy least found post k :
  least <= k ->
  (forall j, 0 < j -> startsWith MARK (skipn j (MARK ++ post)) = false) ->
  closing lazy least k found (MARK ++ post) = Some k.
Proof.
  intros Hk H.
  assert (Hm : startsWith MARK (MARK ++ post) = true) by reflexivity.
  destruct lazy.
  - change (MARK ++ post) with (60%N :: skipn 1 MARK ++ post).
    cbn [closing]. change (60%N :: skipn 1 MARK ++ post) with (MARK ++ post).
    rewrite Hm. destruct (Nat.leb_spec least k); [reflexivity|lia].
  - change (MARK ++ post) with (60%N :: skipn 1 MARK ++ post).
    cbn [closing]. change (60%N :: skipn 1 MARK ++ post) with (MARK ++ post).
    rewrite Hm. destruct (Nat.leb_spec least k); [|lia]. cbn [andb].
    change (lineTerminator 60%N) with false. cbv iota.
    apply closing_none. intros j. exact (H (S j) (Nat.lt_0_succ j)).
Qed.

(** No marker before the end of [pre]: the search goes on behind it. *)
Lemma markerFrom_skip lazy least pre y : forall i,
  (forall j, j < List.length pre -> startsWith MARK (skipn j (pre ++ y)) = false) ->
  markerFrom lazy least i (pre ++ y) = markerFrom lazy least (i + List.length pre) y.
Proof.
  induction pre as [|c pre IH]; intros i H.
  - cbn [app List.length]. now rewrite Nat.add_0_r.
  - cbn [app markerFrom].
    assert (H0 : startsWith MARK (c :: pre ++ y) = false) by (apply (H 0); simpl; lia).
    rewrite H0.
    rewrite IH; [cbn [List.length]; f_equal; lia|].
    intros j Hj. exact (H (S j) ltac:(simpl; lia)).
Qed.

(** No marker of [s] is followed by a closing one: no match. *)
Lemma markerFrom_none lazy least s : forall i,
  (forall p, startsWith MARK (skipn p s) = true ->
             closing lazy least 0 None (skipn (p + List.length MARK) s) = None) ->
  markerFrom lazy least i s = None.
Proof.
  induction s as [|c s IH]; intros i H.
  - reflexivity.
  - cbn [markerFrom].
    destruct (startsWith MARK (c :: s)) eqn:E.
    + pose proof (H 0 E) as H0. cbn [Nat.add] in H0. rewrite H0.
      apply IH. intros p Hp. exact (H (S p) Hp).
    + apply IH. intros p Hp. exact (H (S p) Hp).
Qed.

Lemma skipn_plus {A} (l : list A) i j : skipn (i + j) l = skipn j (skipn i l).
Proof. now rewrite skipn_skipn, Nat.add_comm. Qed.

Section Framed.

Variables (pre g post : jsstring).

Let M := List.length MARK.
Let s := pre ++ MARK ++ g ++ MARK ++ post.
Let p1 := List.length pre.
Let p2 := List.length pre + M + List.length g.

Hypothesis Hmarks : markers s = [p1; p2].

Lemma framed_only j : j <> p1 -> j <> p2 -> startsWith MARK (skipn j s) = false.
Proof.
  intros H1 H2. apply (unlisted s _ j Hmarks).
  intros [E|[E|[]]]; congruence.
Qed.

Lemma framed_after_first j : skipn (p1 + M + j) s = skipn j (g ++ MARK ++ post).
Proof.
  unfold s, p1, M. rewrite <- Nat.add_assoc, skipn_plus, skipn_app, skipn_all, Nat.sub_diag.
  cbn [skipn app]. rewrite skipn_plus, skipn_app, skipn_all, Nat.sub_diag. reflexivity.
Qed.

Lemma framed_after_second j : skipn (p2 + j) s = skipn j (MARK ++ post).
Proof.
  unfold p2. fold p1. rewrite <- Nat.add_assoc, framed_after_first.
  rewrite skipn_plus, skipn_app, skipn_all, Nat.sub_diag. reflexivity.
Qed.

(** Behind the second marker there is none. *)
Lemma framed_tail j : 0 < j -> startsWith MARK (skipn j (MARK ++ post)) = false.
Proof.
  intros Hj. rewrite <- framed_after_second. apply framed_only; unfold p2, p1 in *; lia.
Qed.

Lemma framed_inner j :
  j < List.length g -> startsWith MARK (skipn j (g ++ MARK ++ post)) = false.
Proof.
  intros Hj. rewrite <- framed_after_first.
  apply framed_only; unfold p2, p1, M in *; simpl; lia.
Qed.

Lemma framed_pre j :
  j < List.length pre -> startsWith MARK (skipn j (pre ++ MARK ++ g ++ MARK ++ post)) = false.
Proof.
  intros Hj. apply framed_only; unfold p2, p1 in *; lia.
Qed.

(** The scan that starts behind the second marker finds nothing. *)
Lemma framed_second_open lazy least :
  closing lazy least 0 None (skipn (p2 + M) s) = None.
Proof.
  apply closing_none. intros j.
  rewrite framed_after_second, <- skipn_plus. apply framed_tail. unfold M. simpl. lia.
Qed.

Lemma framed_found lazy least :
  oneLine g = true -> least <= List.length g ->
  markerFrom lazy least 0 s = Some (p1, List.length g).
Proof.
  intros Hg Hleast. unfold s.
  rewrite (markerFrom_skip lazy least pre _ 0 framed_pre). cbn [Nat.add]. fold p1.
  change (MARK ++ g ++ MARK ++ post) with (60%N :: skipn 1 MARK ++ g ++ MARK ++ post).
  cbn [markerFrom].
  change (60%N :: skipn 1 MARK ++ g ++ MARK ++ post) with (MARK ++ g ++ MARK ++ post).
  change (startsWith MARK (MARK ++ g ++ MARK ++ post)) with true. cbv iota.
  rewrite skipn_app, skipn_all, Nat.sub_diag. cbn [skipn app].
  rewrite closing_prefix; [| intros j Hj; right; now apply framed_inner | exact Hg].
  cbn [Nat.add].
  rewrite closing_at_marker; [reflexivity | exact Hleast | exact framed_tail].
Qed.

Lemma framed_not_found lazy least :
  closing lazy least 0 None (g ++ MARK ++ post) = None ->
  markerFrom lazy least 0 s = None.
Proof.
  intros Hfirst. apply markerFrom_none. intros p Hp.
  destruct (Nat.eq_dec p p1) as [->|H1].
  - fold M. replace (p1 + M) with (p1 + M + 0) by lia.
    rewrite framed_after_first. exact Hfirst.
  - destruct (Nat.eq_dec p p2) as [->|H2].
    + apply framed_second_open.
    + rewrite framed_only in Hp by assumption. discriminate.
Qed.

End Framed.

(** A text that holds the marker twice and nowhere else, with no line
    terminator between the two: the payload between the markers is what
    [jsonMatch] gives, unless it is empty, which is no match; the text shown
    is the text without the markers and what they frame. *)
Theorem framed_payload_on_one_line :
  forall (pre g post : jsstring),
    let s := pre ++ MARK ++ g ++ MARK ++ post in
    markers s = [List.length pre; List.length pre + List.length MARK + List.length g] ->
    oneLine g = true ->
    jsonMatch s = match g with [] => None | _ => Some g end
    /\ stripMarker s = pre ++ post
    /\ displayText s = trim (pre ++ post).
Proof.
  intros pre g post s Hmarks Hg.
  assert (Hstrip : stripMarker s = pre ++ post).
  { unfold stripMarker, s.
    rewrite (framed_found pre g post Hmarks false 0 Hg (Nat.le_0_l _)).
    rewrite firstn_app, firstn_all, Nat.sub_diag. cbn [firstn]. rewrite app_nil_r.
    f_equal.
    replace (List.length pre + 2 * List.length MARK + List.length g)
      with (List.length pre + (List.length MARK + (List.length g + List.length MARK)))
      by lia.
    rewrite skipn_plus, skipn_app, skipn_all, Nat.sub_diag. cbn [skipn app].
    rewrite skipn_plus, skipn_app, skipn_all, Nat.sub_diag. cbn [skipn app].
    rewrite skipn_plus, skipn_app, skipn_all, Nat.sub_diag. cbn [skipn app].
    rewrite skipn_app, skipn_all, Nat.sub_diag. reflexivity. }
  split; [|split; [exact Hstrip|unfold displayText; now rewrite Hstrip]].
  unfold jsonMatch. destruct g as [|c g'].
  - unfold s. rewrite (framed_not_found pre [] post Hmarks true 1); [reflexivity|].
    cbn [app]. change MARK with (60%N :: skipn 1 MARK) at 1. cbn [app].
    rewrite closing_step by (left; lia).
    change (lineTerminator 60%N) with false. cbv iota.
    apply closing_none. intros j.
    exact (framed_tail pre [] post Hmarks (S j) (Nat.lt_0_succ j)).
  - unfold s.
    rewrite (framed_found pre (c :: g') post Hmarks true 1 Hg) by (simpl; lia).
    f_equal. unfold slice2.
    rewrite skipn_plus, skipn_app, skipn_all, Nat.sub_diag. cbn [skipn app].
    rewrite skipn_app, skipn_all, Nat.sub_diag. cbn [skipn app].
    replace (List.length pre + List.length MARK + List.length (c :: g')
             - (List.length pre + List.length MARK))
      with (List.length (c :: g')) by lia.
    change (c :: g' ++ MARK ++ post) with ((c :: g') ++ MARK ++ post).
    rewrite firstn_app, firstn_all, Nat.sub_diag. cbn [firstn]. apply app_nil_r.
Qed.

(** The text ["Hi "], the framed payload ["{}"] and [" there"]. *)
Lemma framed_payload_on_one_line_witness :
  let s := lit "Hi <<<PMJSON>>>{}<<<PMJSON>>> there" in
  jsonMatch s = Some (lit "{}")
  /\ stripMarker s = lit "Hi  there"
  /\ displayText s = lit "Hi  there".
Proof.
  apply (framed_payload_on_one_line (lit "Hi ") (lit "{}") (lit " there")); reflexivity.
Defined.

(** A text that holds the marker twice and nowhere else, with a line
    terminator between the two: [jsonMatch] finds no payload, and nothing
    is taken out of the text shown, the markers and what they frame stay in
    it. *)
Theorem framed_payload_with_line_break :
  forall (pre g post : jsstring),
    let s := pre ++ MARK ++ g ++ MARK ++ post in
    markers s = [List.length pre; List.length pre + List.length MARK + List.length g] ->
    oneLine g = false ->
    jsonMatch s = None /\ stripMarker s = s /\ displayText s = trim s.
Proof.
  intros pre g post s Hmarks Hg.
  assert (Hnone : forall lazy least, markerFrom lazy least 0 s = None).
  { intros lazy least. apply (framed_not_found pre g post Hmarks).
    apply closing_to_break; [|exact Hg].
    intros j Hj. right. now apply (framed_inner pre g post Hmarks). }
  unfold displayText, jsonMatch, stripMarker. rewrite !Hnone. repeat split.
Qed.

(** The payload broken after its first character. *)
Lemma framed_payload_with_line_break_witness :
  let s := lit "Hi <<<PMJSON>>>{" ++ [10%N] ++ lit "}<<<PMJSON>>>" in
  jsonMatch s = None /\ stripMarker s = s /\ displayText s = trim s.
Proof.
  apply (framed_payload_with_line_break (lit "Hi ") (lit "{" ++ [10%N] ++ lit "}") []);
    reflexivity.
Defined.

(* ------------------------------------------------------------------ *)
(** ** The positions of the blocks ([getAllBlockPositions]) *)

Lemma Node_nested_ind (P : Node -> Prop) :
  (forall s m, P (Text s m)) ->
  (forall t a cs, Forall P cs -> P (Elem t a cs)) ->
  forall n, P n.
Proof.
  intros HT HE. fix IH 1. intros [s m|t a cs]; [apply HT|apply HE].
  induction cs as [|c cs IHcs]; constructor; [apply IH|exact IHcs].
Qed.

Lemma wellSized_pos n : wellSized n = true -> 0 < nodeSize n.
Proof.
  destruct n as [s m|t a cs]; cbn [wellSized nodeSize]; intros H.
  - destruct (Nat.eqb_spec (List.length s) 0); [discriminate|lia].
  - destruct (isLeaf t); lia.
Qed.

Lemma wellSized_leaf t a cs :
  wellSized (Elem t a cs) = true -> isLeaf t = true -> cs = [].
Proof.
  cbn [wellSized]. intros H Hl. rewrite Hl in H.
  destruct cs; [reflexivity|discriminate].
Qed.

Lemma wellSized_kids t a cs :
  wellSized (Elem t a cs) = true -> forallb wellSized cs = true.
Proof.
  cbn [wellSized]. destruct (isLeaf t); intros H; [|exact H].
  destruct cs; [reflexivity|discriminate].
Qed.

(** The size of the content and the size of the node. *)
Lemma wellSized_size n :
  wellSized n = true -> nodeIsText n = false ->
  nodeSize n = if contentSize n =? 0 then nodeSize n else 2 + contentSize n.
Proof.
  destruct n as [s m|t a cs]; [discriminate|]. intros H _.
  unfold contentSize. cbn [children].
  destruct (Nat.eqb_spec (fragSize cs) 0) as [E|E]; [reflexivity|].
  rewrite nodeSize_Elem. destruct (isLeaf t) eqn:Hl; [|reflexivity].
  rewrite (wellSized_leaf t a cs H Hl) in E. now cbn in E.
Qed.

Lemma nodeAtIn_empty t a cs p :
  wellSized (Elem t a cs) = true -> fragSize cs = 0 -> nodeAtIn (Elem t a cs) p = None.
Proof.
  intros H E. apply wellSized_kids in H.
  destruct cs as [|c cs]; [reflexivity|].
  cbn [forallb] in H. apply andb_prop in H as [Hc _].
  apply wellSized_pos in Hc. rewrite fragSize_cons in E. lia.
Qed.

Lemma sized_kids_pos cs :
  forallb wellSized cs = true -> Forall (fun x => 0 < nodeSize x) cs.
Proof.
  intros H. apply Forall_forall. intros x Hx.
  apply wellSized_pos. rewrite forallb_forall in H. now apply H.
Qed.

(** The loop of [nodeAt] passes the children that end at or before the
    position. *)
Lemma nodeAt_walk_skip (p : nat) pre l : forall cur,
  Forall (fun x => 0 < nodeSize x) pre -> cur + fragSize pre <= p ->
  (fix walk (l : list Node) (cur : nat) {struct l} : option Node :=
     match l with
     | [] => None
     | c :: rest =>
         let e := cur + nodeSize c in
         if p =? cur then Some c
         else if p <? e then
           match c with
           | Text _ _ => Some c
           | Elem _ _ _ => nodeAtIn c (p - cur - 1)
           end
         else walk rest e
     end) (pre ++ l) cur
  = (fix walk (l : list Node) (cur : nat) {struct l} : option Node :=
       match l with
       | [] => None
       | c :: rest =>
           let e := cur + nodeSize c in
           if p =? cur then Some c
           else if p <? e then
             match c with
             | Text _ _ => Some c
             | Elem _ _ _ => nodeAtIn c (p - cur - 1)
             end
           else walk rest e
       end) l (cur + fragSize pre).
Proof.
  induction pre as [|x pre IH]; intros cur Hpos Hp.
  - cbn [app]. change (fragSize []) with 0. now rewrite Nat.add_0_r.
  - inversion Hpos as [|? ? Hx Hpre]; subst. cbv beta in Hx. rewrite fragSize_cons in Hp.
    cbn [app]. cbv zeta.
    destruct (Nat.eqb_spec p cur) as [E|_]; [exfalso; lia|].
    destruct (Nat.ltb_spec p (cur + nodeSize x)) as [E|_]; [exfalso; lia|].
    rewrite IH by (try assumption; lia).
    now rewrite fragSize_cons, Nat.add_assoc.
Qed.

Lemma nodeAtIn_at t a pre c rest :
  Forall (fun x => 0 < nodeSize x) pre ->
  nodeAtIn (Elem t a (pre ++ c :: rest)) (fragSize pre) = Some c.
Proof.
  intros Hpre. cbn [nodeAtIn]. rewrite nodeAt_walk_skip by (try assumption; lia).
  cbn [Nat.add]. now rewrite Nat.eqb_refl.
Qed.

Lemma nodeAtIn_within t a pre c rest q :
  Forall (fun x => 0 < nodeSize x) pre ->
  fragSize pre < q -> q < fragSize pre + nodeSize c ->
  nodeAtIn (Elem t a (pre ++ c :: rest)) q
  = match c with
    | Text _ _ => Some c
    | Elem _ _ _ => nodeAtIn c (q - fragSize pre - 1)
    end.
Proof.
  intros Hpre H1 H2. cbn [nodeAtIn]. rewrite nodeAt_walk_skip by (try assumption; lia).
  cbn [Nat.add]. cbv zeta.
  destruct (Nat.eqb_spec q (fragSize pre)) as [E|_]; [exfalso; lia|].
  destruct (Nat.ltb_spec q (fragSize pre + nodeSize c)) as [_|E]; [reflexivity|exfalso; lia].
Qed.

Lemma nodeAtIn_past t a cs q :
  Forall (fun x => 0 < nodeSize x) cs -> fragSize cs <= q ->
  nodeAtIn (Elem t a cs) q = None.
Proof.
  intros Hcs Hq. cbn [nodeAtIn]. rewrite <- (app_nil_r cs).
  rewrite nodeAt_walk_skip by (try assumption; lia). reflexivity.
Qed.

Lemma nodeAtIn_bound n q m :
  wellSized n = true -> nodeAtIn n q = Some m -> q < contentSize n.
Proof.
  intros Hws H. destruct n as [s mk|t a cs]; [discriminate|].
  unfold contentSize. cbn [children].
  destruct (Nat.lt_ge_cases q (fragSize cs)) as [Hlt|Hge]; [exact Hlt|].
  rewrite nodeAtIn_past in H; [discriminate| |exact Hge].
  apply sized_kids_pos. exact (wellSized_kids t a cs Hws).
Qed.

Lemma blockPositionsIn_spec n :
  wellSized n = true ->
  forall ns p,
    In p (blockPositionsIn n 0 (contentSize n) ns)
    <-> exists q m, p = ns + q /\ nodeAtIn n q = Some m /\ listedBlock m = true.
Proof.
  induction n as [s mk|t a cs IH] using Node_nested_ind; intros Hws ns p.
  - split; [intros []|intros (q & m & _ & H & _); discriminate].
  - pose proof (wellSized_kids t a cs Hws) as Hkids.
    pose proof (sized_kids_pos cs Hkids) as Hpos.
    unfold contentSize. cbn [children blockPositionsIn].
    assert (Hwalk : forall l pre, cs = pre ++ l -> forall p,
               In p (blockPositionsWith blockPositionsIn 0 (fragSize cs) ns l (fragSize pre))
               <-> exists q m, fragSize pre <= q /\ p = ns + q
                               /\ nodeAtIn (Elem t a cs) q = Some m
                               /\ listedBlock m = true).
    { clear p. induction l as [|c rest IHl]; intros pre Hcs p.
      - split; [intros []|]. intros (q & m & Hq & _ & H & _).
        rewrite app_nil_r in Hcs. subst pre.
        rewrite nodeAtIn_past in H by assumption. discriminate.
      - assert (Hin : In c cs) by (rewrite Hcs; apply in_or_app; right; now left).
        assert (Hc : wellSized c = true) by (rewrite forallb_forall in Hkids; now apply Hkids).
        pose proof (wellSized_pos c Hc) as Hcpos.
        assert (IHc := proj1 (Forall_forall _ cs) IH c Hin Hc).
        assert (Hpre : Forall (fun x => 0 < nodeSize x) pre).
        { rewrite Hcs in Hpos. now apply Forall_app in Hpos. }
        assert (Hsize : fragSize cs = fragSize pre + nodeSize c + fragSize rest)
          by (rewrite Hcs, fragSize_app, fragSize_cons; lia).
        specialize (IHl (pre ++ [c])).
        rewrite fragSize_app, fragSize_one in IHl.
        rewrite <- app_assoc in IHl. specialize (IHl Hcs p).
        cbn [blockPositionsWith]. cbv zeta.
        destruct (Nat.ltb_spec (fragSize pre) (fragSize cs)) as [_|E]; [|exfalso; lia].
        destruct (Nat.ltb_spec 0 (fragSize pre + nodeSize c)) as [_|E]; [|exfalso; lia].
        cbn [Nat.sub]. fold (listedBlock c).
        rewrite !in_app_iff, IHl. clear IHl.
        split.
        + intros [[HA|HB]|HC].
          * destruct (listedBlock c) eqn:El; [|destruct HA].
            destruct HA as [<-|[]]. exists (fragSize pre), c.
            rewrite Hcs. rewrite nodeAtIn_at by assumption. repeat split; [lia|exact El].
          * destruct (Nat.eqb_spec (contentSize c) 0) as [E0|E0]; [destruct HB|].
            assert (Hmin : Nat.min (contentSize c) (fragSize cs - (fragSize pre + 1))
                           = contentSize c).
            { destruct c as [sc mc|tc ac csc]; [now cbn in E0|].
              pose proof (wellSized_size _ Hc eq_refl) as Hs.
              destruct (Nat.eqb_spec (contentSize (Elem tc ac csc)) 0); [contradiction|].
              lia. }
            rewrite Hmin in HB. apply IHc in HB as (q' & m & -> & Hm & Hl).
            pose proof (nodeAtIn_bound c q' m Hc Hm) as Hb.
            exists (fragSize pre + 1 + q'), m.
            split; [lia|]. split; [lia|]. split; [|exact Hl].
            destruct c as [sc mc|tc ac csc]; [discriminate|].
            pose proof (wellSized_size _ Hc eq_refl) as Hs.
            destruct (Nat.eqb_spec (contentSize (Elem tc ac csc)) 0); [contradiction|].
            rewrite Hcs, nodeAtIn_within by (try assumption; lia).
            replace (fragSize pre + 1 + q' - fragSize pre - 1) with q' by lia.
            exact Hm.
          * destruct HC as (q & m & Hq & -> & Hm & Hl).
            exists q, m. repeat split; try assumption. lia.
        + intros (q & m & Hq & -> & Hm & Hl).
          destruct (Nat.eq_dec q (fragSize pre)) as [->|Hne].
          * left. left. rewrite Hcs, nodeAtIn_at in Hm by assumption.
            injection Hm as <-. rewrite Hl. now left.
          * destruct (Nat.lt_ge_cases q (fragSize pre + nodeSize c)) as [Hlt|Hge].
            -- left. right.
               rewrite Hcs, nodeAtIn_within in Hm by (try assumption; lia).
               destruct c as [sc mc|tc ac csc].
               ++ injection Hm as <-. discriminate.
               ++ destruct (Nat.eqb_spec (contentSize (Elem tc ac csc)) 0) as [E0|E0].
                  ** rewrite nodeAtIn_empty in Hm by assumption. discriminate.
                  ** pose proof (wellSized_size _ Hc eq_refl) as Hs.
                     destruct (Nat.eqb_spec (contentSize (Elem tc ac csc)) 0);
                       [contradiction|].
                     replace (Nat.min (contentSize (Elem tc ac csc))
                                      (fragSize cs - (fragSize pre + 1)))
                       with (contentSize (Elem tc ac csc)) by lia.
                     apply IHc. exists (q - fragSize pre - 1), m.
                     repeat split; [lia|exact Hm|exact Hl].
            -- right. exists q, m. repeat split; try assumption.
    }
    rewrite (Hwalk cs [] eq_refl p).
    split.
    + intros (q & m & _ & H). exists q, m. exact H.
    + intros (q & m & H). exists q, m. split; [apply Nat.le_0_l|exact H].
Qed.

(** In a document without empty text nodes and without content in leaves,
    [getAllBlockPositions] lists exactly the positions at which [nodeAt]
    gives a block that is not of the type named doc. *)
Theorem block_positions_are_the_blocks :
  forall (d : Node) (p : nat),
    wellSized d = true ->
    (In p (getAllBlockPositions d)
     <-> exists n, nodeAt d p = Ok (Some n) /\ listedBlock n = true).
Proof.
  intros d p Hws. unfold getAllBlockPositions.
  rewrite (blockPositionsIn_spec d Hws 0 p). unfold nodeAt.
  split.
  - intros (q & m & -> & Hm & Hl). exists m. cbn [Nat.add].
    pose proof (nodeAtIn_bound d q m Hws Hm) as Hb.
    destruct (Nat.leb_spec q (contentSize d)); [|lia].
    split; [now rewrite Hm|exact Hl].
  - intros (m & Hm & Hl). exists p, m.
    destruct (p <=? contentSize d); [|discriminate].
    injection Hm as Hm. repeat split; assumption.
Qed.

(** A paragraph and a callout with a paragraph: the blocks are at 0, 4 and
    5; at 1 there is text. *)
Lemma block_positions_are_the_blocks_witness :
  let d := Elem Schema.doc []
             [Elem paragraph [] [Text (lit "ab") []];
              Elem callout [] [Elem paragraph [] []]] in
  (In 5 (getAllBlockPositions d)
   <-> exists n, nodeAt d 5 = Ok (Some n) /\ listedBlock n = true)
  /\ (In 1 (getAllBlockPositions d)
      <-> exists n, nodeAt d 1 = Ok (Some n) /\ listedBlock n = true).
Proof.
  split; apply block_positions_are_the_blocks; reflexivity.
Defined.
